(** * ext_args: a shallow embedding of the single-file command line parser

    The development follows [ext_args.h].  The schema compiler
    ([EXT_ARGS_NextTok] ... [EXT_ARGS_Synopsis]) and the matcher
    ([ext_args]) are transcribed function by function.

    Conventions of the embedding.
    - A [char *] that points into a NUL-terminated text is the suffix of
      that text which starts at the pointer; [*p] is the head of the suffix
      and NUL when the suffix is empty.
    - A growable array ([EXT_ARGS_DYN_ARY_FIELDS]) is the list of its first
      [Count] elements; [EXT_ARGS_DYN_ARY_SAVE] appends at the end.
    - [longjmp] is an ordinary error result ([Longjmp]).  [malloc], [realloc]
      and [calloc] are taken to succeed, so [EXT_ARGS_ERR_MEM] is declared
      but never raised.
    - The caller's variables live in a store indexed by addresses; the
      [va_list] is a list of pointers (NULL or an address). *)

From Stdlib Require Import String Ascii List Arith Bool Lia.
Import ListNotations.
Local Open Scope string_scope.
Local Open Scope list_scope.

(** ** Outcomes of code that may [longjmp] *)

Inductive TokType : Type :=
| EXT_ARGS_TOK_EOI
| EXT_ARGS_TOK_LBRAK
| EXT_ARGS_TOK_RBRAK
| EXT_ARGS_TOK_PIPE
| EXT_ARGS_TOK_EQL
| EXT_ARGS_TOK_NAME
| EXT_ARGS_TOK_FLOAT_ARG
| EXT_ARGS_TOK_DOTS.

Definition TokType_eqb (a b : TokType) : bool :=
  match a, b with
  | EXT_ARGS_TOK_EOI, EXT_ARGS_TOK_EOI
  | EXT_ARGS_TOK_LBRAK, EXT_ARGS_TOK_LBRAK
  | EXT_ARGS_TOK_RBRAK, EXT_ARGS_TOK_RBRAK
  | EXT_ARGS_TOK_PIPE, EXT_ARGS_TOK_PIPE
  | EXT_ARGS_TOK_EQL, EXT_ARGS_TOK_EQL
  | EXT_ARGS_TOK_NAME, EXT_ARGS_TOK_NAME
  | EXT_ARGS_TOK_FLOAT_ARG, EXT_ARGS_TOK_FLOAT_ARG
  | EXT_ARGS_TOK_DOTS, EXT_ARGS_TOK_DOTS => true
  | _, _ => false
  end.

(** The value handed to [longjmp], together with the parser fields the
    handler in [ext_args] reads ([errStart], [expTokType], [unexpTokType]). *)
Inductive jmp : Type :=
| EXT_ARGS_ERR_LEX (errStart : string)
| EXT_ARGS_ERR_PARSE (expTokType unexpTokType : TokType) (errStart : string)
| EXT_ARGS_ERR_MEM.

(** [OutOfFuel] belongs to the embedding only: the two [while] loops of the
    schema parser are bounded by the length of the text that is left, and
    [EXT_ARGS_Synopsis_total] shows the bound is never reached. *)
Inductive outcome (A : Type) : Type :=
| Ret (a : A)
| Longjmp (j : jmp)
| OutOfFuel.

Arguments Ret {A} a.
Arguments Longjmp {A} j.
Arguments OutOfFuel {A}.

Definition bind {A B : Type} (m : outcome A) (k : A -> outcome B) : outcome B :=
  match m with
  | Ret a => k a
  | Longjmp j => Longjmp j
  | OutOfFuel => OutOfFuel
  end.

Notation "x <- m ;; k" := (bind m (fun x => k))
  (at level 61, m at next level, right associativity).
Notation "' p <- m ;; k" := (bind m (fun x => let 'p := x in k))
  (at level 61, p pattern, m at next level, right associativity).

(** ** Data model *)

(** A pointer supplied by the caller: NULL or the address of a variable. *)
Definition addr : Type := nat.
Definition ptr : Type := option addr.

(** A [char *] value that the matcher hands out: NULL, the address of the
    static [ext_args_no_value], or a pointer into one of the [argv] texts
    (given by the text that starts there). *)
Inductive cstr : Type :=
| NULL
| ext_args_no_value
| Str (s : string).

(** The text stored at [ext_args_no_value]. *)
Definition ext_args_no_value_text : string := "(NO VALUE)".

Record EXT_ARGS_PosArg : Type := mkPosArg {
  pa_isOptional : bool;
  pa_str : string;
  pa_len : nat;
  pa_varPtr : ptr
}.

Record EXT_ARGS_FloatArg : Type := mkFloatArg {
  fa_str : string;
  fa_len : nat;
  fa_groupIdx : nat
}.

(** [ary] is NULL ([None]) or the array's first [aryCount] elements. *)
Record EXT_ARGS_FloatArgsGroup : Type := mkGroup {
  isOptional : bool;
  hasAssign : bool;
  isAssignOptional : bool;
  isRepeating : bool;
  aliasCount : nat;
  varPtr : ptr;
  isUsed : bool;
  ary : option (list cstr)
}.

Record EXT_ARGS_Tok : Type := mkTok {
  tok_type : TokType;
  tok_str : string;
  tok_len : nat
}.

Inductive ArgKind : Type :=
| EXT_ARGS_ARG_POS
| EXT_ARGS_ARG_GROUP.

Record EXT_ARGS_SequenceElement : Type := mkSeq {
  sq_type : ArgKind;
  sq_idx : nat
}.

Record EXT_ARGS_Parser : Type := mkParser {
  str : string;
  parsingStates_isOptional : bool;
  lastMatchTok : EXT_ARGS_Tok;
  posArgs : list EXT_ARGS_PosArg;
  groups : list EXT_ARGS_FloatArgsGroup;
  floats : list EXT_ARGS_FloatArg;
  sequence : list EXT_ARGS_SequenceElement;
  varPosArgsEnabled : bool;
  varPosrArgsVarPtr : ptr
}.

(** [EXT_ARGS_Parser prs = {.str = fmt}]: every other field is zero. *)
Definition Parser_init (fmt : string) : EXT_ARGS_Parser :=
  mkParser fmt false (mkTok EXT_ARGS_TOK_EOI EmptyString 0) [] [] [] [] false None.

Definition set_str (prs : EXT_ARGS_Parser) (s : string) : EXT_ARGS_Parser :=
  mkParser s (parsingStates_isOptional prs) (lastMatchTok prs) (posArgs prs)
    (groups prs) (floats prs) (sequence prs) (varPosArgsEnabled prs)
    (varPosrArgsVarPtr prs).

Definition set_isOptional (prs : EXT_ARGS_Parser) (b : bool) : EXT_ARGS_Parser :=
  mkParser (str prs) b (lastMatchTok prs) (posArgs prs)
    (groups prs) (floats prs) (sequence prs) (varPosArgsEnabled prs)
    (varPosrArgsVarPtr prs).

Definition set_lastMatchTok (prs : EXT_ARGS_Parser) (t : EXT_ARGS_Tok)
  : EXT_ARGS_Parser :=
  mkParser (str prs) (parsingStates_isOptional prs) t (posArgs prs)
    (groups prs) (floats prs) (sequence prs) (varPosArgsEnabled prs)
    (varPosrArgsVarPtr prs).

Definition set_posArgs (prs : EXT_ARGS_Parser) (l : list EXT_ARGS_PosArg)
  : EXT_ARGS_Parser :=
  mkParser (str prs) (parsingStates_isOptional prs) (lastMatchTok prs) l
    (groups prs) (floats prs) (sequence prs) (varPosArgsEnabled prs)
    (varPosrArgsVarPtr prs).

Definition set_groups (prs : EXT_ARGS_Parser) (l : list EXT_ARGS_FloatArgsGroup)
  : EXT_ARGS_Parser :=
  mkParser (str prs) (parsingStates_isOptional prs) (lastMatchTok prs)
    (posArgs prs) l (floats prs) (sequence prs) (varPosArgsEnabled prs)
    (varPosrArgsVarPtr prs).

Definition set_floats (prs : EXT_ARGS_Parser) (l : list EXT_ARGS_FloatArg)
  : EXT_ARGS_Parser :=
  mkParser (str prs) (parsingStates_isOptional prs) (lastMatchTok prs)
    (posArgs prs) (groups prs) l (sequence prs) (varPosArgsEnabled prs)
    (varPosrArgsVarPtr prs).

Definition set_sequence (prs : EXT_ARGS_Parser)
  (l : list EXT_ARGS_SequenceElement) : EXT_ARGS_Parser :=
  mkParser (str prs) (parsingStates_isOptional prs) (lastMatchTok prs)
    (posArgs prs) (groups prs) (floats prs) l (varPosArgsEnabled prs)
    (varPosrArgsVarPtr prs).

Definition set_varPosArgsEnabled (prs : EXT_ARGS_Parser) (b : bool)
  : EXT_ARGS_Parser :=
  mkParser (str prs) (parsingStates_isOptional prs) (lastMatchTok prs)
    (posArgs prs) (groups prs) (floats prs) (sequence prs) b
    (varPosrArgsVarPtr prs).

Definition set_varPosrArgsVarPtr (prs : EXT_ARGS_Parser) (p : ptr)
  : EXT_ARGS_Parser :=
  mkParser (str prs) (parsingStates_isOptional prs) (lastMatchTok prs)
    (posArgs prs) (groups prs) (floats prs) (sequence prs)
    (varPosArgsEnabled prs) p.

(** Replace the element at index [i]; the list is unchanged when [i] is out
    of range (the code only indexes inside the arrays, see
    [Synopsis_groupIdx_in_range]). *)
Fixpoint list_update {A : Type} (i : nat) (f : A -> A) (l : list A) : list A :=
  match l, i with
  | [], _ => []
  | x :: l', 0 => f x :: l'
  | x :: l', S i' => x :: list_update i' f l'
  end.

(** ** Schema tokenizer *)

Definition EXT_ARGS_CurrentPos (prs : EXT_ARGS_Parser) : string := str prs.

Definition EXT_ARGS_Rollback (prs : EXT_ARGS_Parser) (s : string)
  : EXT_ARGS_Parser := set_str prs s.

(** [abs(str - prs->str)] for two pointers into the same text. *)
Definition EXT_ARGS_Distance (prs : EXT_ARGS_Parser) (s : string) : nat :=
  (String.length s - String.length (str prs))
  + (String.length (str prs) - String.length s).

Definition EXT_ARGS_TokTypeToName (type : TokType) : string :=
  match type with
  | EXT_ARGS_TOK_EOI => "EOI"
  | EXT_ARGS_TOK_LBRAK => "LBRAK"
  | EXT_ARGS_TOK_RBRAK => "RBRAK"
  | EXT_ARGS_TOK_PIPE => "PIPE"
  | EXT_ARGS_TOK_EQL => "EQL"
  | EXT_ARGS_TOK_NAME => "NAME"
  | EXT_ARGS_TOK_FLOAT_ARG => "FLOAT_ARG"
  | EXT_ARGS_TOK_DOTS => "DOTS"
  end.

(** [EXT_ARGS_Char] is only called with a character other than NUL, so at
    the end of the text it fails. *)
Definition EXT_ARGS_Char (c : ascii) (prs : EXT_ARGS_Parser)
  : bool * EXT_ARGS_Parser :=
  match str prs with
  | String c' rest =>
      if Ascii.eqb c' c then (true, set_str prs rest) else (false, prs)
  | EmptyString => (false, prs)
  end.

Definition is_letter (c : ascii) : bool :=
  (Ascii.leb "a" c && Ascii.leb c "z") || (Ascii.leb "A" c && Ascii.leb c "Z").

Definition is_name_char (c : ascii) : bool :=
  is_letter c
  || (Ascii.leb "0" c && Ascii.leb c "9")
  || (Ascii.eqb c "_" || Ascii.eqb c "-").

(** The [while] loop of [EXT_ARGS_Name]: [last] is [*(c - 1)]. *)
Fixpoint name_scan (last : ascii) (s : string) : ascii * string :=
  match s with
  | String c s' => if is_name_char c then name_scan c s' else (last, s)
  | EmptyString => (last, s)
  end.

Definition EXT_ARGS_Name (prs : EXT_ARGS_Parser) : bool * EXT_ARGS_Parser :=
  match str prs with
  | String c0 rest =>
      if negb (is_letter c0) then (false, prs)
      else
        let '(last, c) := name_scan c0 rest in
        if Ascii.eqb last "-" then (false, prs)
        else (true, EXT_ARGS_Rollback prs c)
  | EmptyString => (false, prs)
  end.

(** [while(EXT_ARGS_Char(c, prs));] *)
Fixpoint skip_char (c : ascii) (s : string) : string :=
  match s with
  | String c' s' => if Ascii.eqb c' c then skip_char c s' else s
  | EmptyString => s
  end.

Definition EXT_ARGS_ArgFloat (prs : EXT_ARGS_Parser) : bool * EXT_ARGS_Parser :=
  let bk := EXT_ARGS_CurrentPos prs in
  let prs := set_str prs (skip_char "-" (str prs)) in
  let d := EXT_ARGS_Distance prs bk in
  if Nat.ltb d 1 then (false, EXT_ARGS_Rollback prs bk)
  else
    let '(b, prs) := EXT_ARGS_Name prs in
    if negb b then (false, EXT_ARGS_Rollback prs bk)
    else (true, prs).

Definition EXT_ARGS_Dots (prs : EXT_ARGS_Parser) : bool * EXT_ARGS_Parser :=
  let bk := EXT_ARGS_CurrentPos prs in
  let prs := set_str prs (skip_char "." (str prs)) in
  if negb (Nat.eqb (EXT_ARGS_Distance prs bk) 3) then (false, EXT_ARGS_Rollback prs bk)
  else (true, prs).

Definition is_space (c : ascii) : bool :=
  Ascii.eqb c " " || Ascii.eqb c "010" || Ascii.eqb c "009" || Ascii.eqb c "013".

Fixpoint skip_spaces (s : string) : string :=
  match s with
  | String c s' => if is_space c then skip_spaces s' else s
  | EmptyString => s
  end.

Definition EXT_ARGS_SkipSpaces (prs : EXT_ARGS_Parser)
  : bool * EXT_ARGS_Parser :=
  let bk := EXT_ARGS_CurrentPos prs in
  let prs := set_str prs (skip_spaces (str prs)) in
  if Nat.eqb (EXT_ARGS_Distance prs bk) 0 then (false, prs) else (true, prs).

Definition is_nul (s : string) : bool :=
  match s with
  | EmptyString => true
  | String _ _ => false
  end.

(** The outer [while] of [EXT_ARGS_NextTok] runs at most twice:
    [EXT_ARGS_SkipSpaces] consumes every leading blank, so after a
    [continue] the text is either finished or starts with a non-blank. *)
Definition EXT_ARGS_NextTok (prs : EXT_ARGS_Parser)
  : outcome (EXT_ARGS_Tok * EXT_ARGS_Parser) :=
  let prs := snd (EXT_ARGS_SkipSpaces prs) in
  if is_nul (str prs) then Ret (mkTok EXT_ARGS_TOK_EOI EmptyString 0, prs)
  else
    let bk := EXT_ARGS_CurrentPos prs in
    let tok ty p := Ret (mkTok ty bk (EXT_ARGS_Distance p bk), p) in
    let '(b, p) := EXT_ARGS_Char "[" prs in
    if b then tok EXT_ARGS_TOK_LBRAK p else
    let '(b, p) := EXT_ARGS_Char "]" prs in
    if b then tok EXT_ARGS_TOK_RBRAK p else
    let '(b, p) := EXT_ARGS_Char "|" prs in
    if b then tok EXT_ARGS_TOK_PIPE p else
    let '(b, p) := EXT_ARGS_Char "=" prs in
    if b then tok EXT_ARGS_TOK_EQL p else
    let '(b, p) := EXT_ARGS_Name prs in
    if b then tok EXT_ARGS_TOK_NAME p else
    let '(b, p) := EXT_ARGS_ArgFloat prs in
    if b then tok EXT_ARGS_TOK_FLOAT_ARG p else
    let '(b, p) := EXT_ARGS_Dots prs in
    if b then tok EXT_ARGS_TOK_DOTS p else
    Longjmp (EXT_ARGS_ERR_LEX bk).

(** ** Schema parser

    synopsis: decl+ DOTS? EOI;
    decl: arg | LBR arg RBR;
    arg: NAME | FLOAT_ARG (PIPE FLOAT_ARG)* (assignval DOTS? | LBR assignval RBR)?;
    assignval: EQL NAME *)

Definition EXT_ARGS_Match (tokType : TokType) (prs : EXT_ARGS_Parser)
  (isMandatory : bool) : outcome (bool * EXT_ARGS_Parser) :=
  let bk := EXT_ARGS_CurrentPos prs in
  '(t, prs) <- EXT_ARGS_NextTok prs ;;
  if TokType_eqb (tok_type t) tokType then Ret (true, set_lastMatchTok prs t)
  else if isMandatory then
    Longjmp (EXT_ARGS_ERR_PARSE tokType (tok_type t) bk)
  else Ret (false, EXT_ARGS_Rollback prs bk).

Definition EXT_ARGS_AssignVal (prs : EXT_ARGS_Parser) (isMandatory : bool)
  : outcome (bool * EXT_ARGS_Parser) :=
  let bk := EXT_ARGS_CurrentPos prs in
  '(b, prs) <- EXT_ARGS_Match EXT_ARGS_TOK_EQL prs isMandatory ;;
  if negb b then Ret (false, prs) else
  '(b, prs) <- EXT_ARGS_Match EXT_ARGS_TOK_NAME prs isMandatory ;;
  if negb b then Ret (false, EXT_ARGS_Rollback prs bk) else
  Ret (true, prs).

Definition EXT_ARGS_SavePosArg (prs : EXT_ARGS_Parser) : EXT_ARGS_Parser :=
  let prs :=
    set_sequence prs
      (sequence prs ++ [mkSeq EXT_ARGS_ARG_POS (List.length (posArgs prs))]) in
  set_posArgs prs
    (posArgs prs ++
     [mkPosArg (parsingStates_isOptional prs) (tok_str (lastMatchTok prs))
        (tok_len (lastMatchTok prs)) None]).

Definition EXT_ARGS_SaveFloatArg (prs : EXT_ARGS_Parser) (groupIdx : nat)
  : nat * EXT_ARGS_Parser :=
  let bkIdx := List.length (floats prs) in
  (bkIdx,
   set_floats prs
     (floats prs ++
      [mkFloatArg (tok_str (lastMatchTok prs)) (tok_len (lastMatchTok prs))
         groupIdx])).

Definition EXT_ARGS_SaveGroup (prs : EXT_ARGS_Parser)
  (hasAssign isRepeating : bool) (aliasCount : nat) : EXT_ARGS_Parser :=
  let prs :=
    set_sequence prs
      (sequence prs ++ [mkSeq EXT_ARGS_ARG_GROUP (List.length (groups prs))]) in
  set_groups prs
    (groups prs ++
     [mkGroup (parsingStates_isOptional prs) hasAssign false isRepeating
        aliasCount None false None]).

(** The alias loop [while(EXT_ARGS_Match(EXT_ARGS_TOK_PIPE, prs, false))] of
    [EXT_ARGS_Arg].  [None] is the [return false] inside the loop, taken
    after the rollback to [bk] and the reset of [floatsCount] to [floatBk];
    [Some n] is the normal exit with [aliasCount = n]. *)
Fixpoint EXT_ARGS_Arg_aliases (fuel : nat) (isMandatory : bool)
  (groupIdx : nat) (bk : string) (floatBk : nat) (aliasCount : nat)
  (prs : EXT_ARGS_Parser) : outcome (option nat * EXT_ARGS_Parser) :=
  match fuel with
  | 0 => OutOfFuel
  | S fuel' =>
      '(b, prs) <- EXT_ARGS_Match EXT_ARGS_TOK_PIPE prs false ;;
      if negb b then Ret (Some aliasCount, prs) else
      '(b, prs) <- EXT_ARGS_Match EXT_ARGS_TOK_FLOAT_ARG prs isMandatory ;;
      if negb b then
        let prs := EXT_ARGS_Rollback prs bk in
        Ret (None, set_floats prs (firstn floatBk (floats prs)))
      else
        let '(_, prs) := EXT_ARGS_SaveFloatArg prs groupIdx in
        EXT_ARGS_Arg_aliases fuel' isMandatory groupIdx bk floatBk
          (S aliasCount) prs
  end.

Definition set_assign_optional (g : EXT_ARGS_FloatArgsGroup)
  : EXT_ARGS_FloatArgsGroup :=
  mkGroup (isOptional g) true true (isRepeating g) (aliasCount g) (varPtr g)
    (isUsed g) (ary g).

Definition EXT_ARGS_Arg (prs : EXT_ARGS_Parser) (isMandatory : bool)
  : outcome (bool * EXT_ARGS_Parser) :=
  '(b, prs) <- EXT_ARGS_Match EXT_ARGS_TOK_NAME prs false ;;
  if b then Ret (true, EXT_ARGS_SavePosArg prs) else
  '(b, prs) <- EXT_ARGS_Match EXT_ARGS_TOK_FLOAT_ARG prs isMandatory ;;
  if negb b then Ret (false, prs) else
  let groupIdx := List.length (groups prs) in
  let '(floatBk, prs) := EXT_ARGS_SaveFloatArg prs groupIdx in
  let bk := EXT_ARGS_CurrentPos prs in
  '(r, prs) <- EXT_ARGS_Arg_aliases (S (String.length (str prs))) isMandatory
                 groupIdx bk floatBk 1 prs ;;
  match r with
  | None => Ret (false, prs)
  | Some aliasCount =>
      '(b, prs) <- EXT_ARGS_AssignVal prs false ;;
      if b then
        '(isRepeating, prs) <- EXT_ARGS_Match EXT_ARGS_TOK_DOTS prs false ;;
        Ret (true, EXT_ARGS_SaveGroup prs true isRepeating aliasCount)
      else
        let prs := EXT_ARGS_SaveGroup prs false false aliasCount in
        let bk := EXT_ARGS_CurrentPos prs in
        '(b, prs) <- EXT_ARGS_Match EXT_ARGS_TOK_LBRAK prs false ;;
        if negb b then Ret (true, EXT_ARGS_Rollback prs bk) else
        '(b, prs) <- EXT_ARGS_AssignVal prs false ;;
        if negb b then Ret (true, EXT_ARGS_Rollback prs bk) else
        '(b, prs) <- EXT_ARGS_Match EXT_ARGS_TOK_RBRAK prs false ;;
        if negb b then Ret (true, EXT_ARGS_Rollback prs bk) else
        Ret (true,
             set_groups prs
               (list_update groupIdx set_assign_optional (groups prs)))
  end.

Definition EXT_ARGS_Decl (prs : EXT_ARGS_Parser) (isMandatory : bool)
  : outcome (bool * EXT_ARGS_Parser) :=
  let prs := set_isOptional prs false in
  '(b, prs) <- EXT_ARGS_Arg prs false ;;
  if b then Ret (true, prs) else
  let bk := EXT_ARGS_CurrentPos prs in
  '(b, prs) <- EXT_ARGS_Match EXT_ARGS_TOK_LBRAK prs isMandatory ;;
  if negb b then Ret (false, prs) else
  let prs := set_isOptional prs true in
  '(b, prs) <- EXT_ARGS_Arg prs isMandatory ;;
  if negb b then Ret (false, EXT_ARGS_Rollback prs bk) else
  '(b, prs) <- EXT_ARGS_Match EXT_ARGS_TOK_RBRAK prs isMandatory ;;
  if negb b then Ret (false, EXT_ARGS_Rollback prs bk) else
  Ret (true, prs).

(** [while(EXT_ARGS_Decl(prs, false));] *)
Fixpoint EXT_ARGS_Synopsis_decls (fuel : nat) (prs : EXT_ARGS_Parser)
  : outcome EXT_ARGS_Parser :=
  match fuel with
  | 0 => OutOfFuel
  | S fuel' =>
      '(b, prs) <- EXT_ARGS_Decl prs false ;;
      if b then EXT_ARGS_Synopsis_decls fuel' prs else Ret prs
  end.

Definition EXT_ARGS_Synopsis (prs : EXT_ARGS_Parser) : outcome EXT_ARGS_Parser :=
  prs <- EXT_ARGS_Synopsis_decls (S (String.length (str prs))) prs ;;
  '(b, prs) <- EXT_ARGS_Match EXT_ARGS_TOK_DOTS prs false ;;
  let prs := if b then set_varPosArgsEnabled prs true else prs in
  '(_, prs) <- EXT_ARGS_Match EXT_ARGS_TOK_EOI prs true ;;
  Ret prs.

(** ** User input (prefix "U") *)

Inductive UTokType : Type :=
| EXT_ARGS_UTOK_FLOAT
| EXT_ARGS_UTOK_EQL
| EXT_ARGS_UTOK_VAL
| EXT_ARGS_UTOK_EOI.

(** A token built without [.str] has a NULL [str]; it is given the empty
    text here and is never printed. *)
Record EXT_ARGS_UTok : Type := mkUTok {
  u_type : UTokType;
  u_str : string;
  u_len : nat
}.

Record EXT_ARGS_UFloatArg : Type := mkUFloatArg {
  uf_str : string;
  uf_len : nat;
  uf_assignVal : cstr
}.

(** The three arrays of [EXT_ARGS_Inp] ([tokens], [floats], [posArgs]) are
    passed from stage to stage as three lists. *)

(** The return value of [ext_args] together with what it leaves in [*oerr]. *)
Inductive result : Type :=
| EXT_ARGS_NO_ERR
| EXT_ARGS_NO_MEM_ERR
| EXT_ARGS_SCHEMA_ERR (oerr : string)
| EXT_ARGS_INPUT_ERR (oerr : string).

(** A stage of [ext_args] either goes on ([Ok]) or sets [res] and [*oerr]
    and jumps to [done] ([Done]). *)
Inductive checked (A : Type) : Type :=
| Ok (a : A)
| Done (res : result).

Arguments Ok {A} a.
Arguments Done {A} res.

(** The character [34], which delimits the quoted parts of the messages. *)
Definition dquote : string := String (ascii_of_nat 34) EmptyString.

Definition quoted (s : string) : string := dquote ++ s ++ dquote.

(** [printf]'s [%.*s] with the arguments [len, s]. *)
Definition prec (len : nat) (s : string) : string := substring 0 len s.

(** *** Lexing of one [argv] element *)

(** [(EXT_ARGS_UTok){.type = EXT_ARGS_UTOK_EOI}] *)
Definition utok_eoi : EXT_ARGS_UTok := mkUTok EXT_ARGS_UTOK_EOI EmptyString 0.

Inductive lex_status : Type :=
| LexContinue
| LexBreak
| LexDone (res : result).

(** The pointer [str - 1] when [str] was reached by reading the character [c]. *)
Definition back1 (c : ascii) (s : string) : string := String c s.

Definition lex_arg (bk : string) (tokens : list EXT_ARGS_UTok)
  : list EXT_ARGS_UTok * lex_status :=
  let ipr := Parser_init bk in
  let '(b, ipr) := EXT_ARGS_ArgFloat ipr in
  if b then
    let tokens :=
      tokens ++ [mkUTok EXT_ARGS_UTOK_FLOAT bk (EXT_ARGS_Distance ipr bk)] in
    let '(b, ipr) := EXT_ARGS_Char "=" ipr in
    if b then
      let s := EXT_ARGS_CurrentPos ipr in
      let tokens := tokens ++ [mkUTok EXT_ARGS_UTOK_EQL (back1 "=" s) 0] in
      let tokens :=
        if negb (is_nul s) then tokens ++ [mkUTok EXT_ARGS_UTOK_VAL s 0]
        else tokens in
      (tokens, LexContinue)
    else
      let s := EXT_ARGS_CurrentPos ipr in
      if negb (is_nul s) then
        (tokens,
         LexDone (EXT_ARGS_INPUT_ERR ("Ambiguous argument " ++ quoted bk)))
      else (tokens, LexContinue)
  else
    let '(b, ipr) := EXT_ARGS_Char "=" ipr in
    if b then
      let s := EXT_ARGS_CurrentPos ipr in
      let tokens := tokens ++ [mkUTok EXT_ARGS_UTOK_EQL (back1 "=" s) 0] in
      let tokens :=
        if negb (is_nul s) then tokens ++ [mkUTok EXT_ARGS_UTOK_VAL s 0]
        else tokens in
      (tokens, LexContinue)
    else
      let '(b1, ipr) := EXT_ARGS_Char "-" ipr in
      let '(b2, ipr) := if b1 then EXT_ARGS_Char "-" ipr else (false, ipr) in
      if b1 && b2 then
        (tokens ++ [utok_eoi], LexBreak)
      else (tokens ++ [mkUTok EXT_ARGS_UTOK_VAL bk 0], LexContinue).

(** [for(int i = 1; i < argc; i++)] over the elements [argv[1..argc-1]]. *)
Fixpoint lex_args (args : list string) (tokens : list EXT_ARGS_UTok)
  : checked (list EXT_ARGS_UTok) :=
  match args with
  | [] => Ok tokens
  | bk :: args' =>
      match lex_arg bk tokens with
      | (tokens, LexContinue) => lex_args args' tokens
      | (tokens, LexBreak) => Ok tokens
      | (_, LexDone res) => Done res
      end
  end.

Definition is_UTOK_EOI (t : UTokType) : bool :=
  match t with
  | EXT_ARGS_UTOK_EOI => true
  | _ => false
  end.

(** [if(inp->tokensCount == 0 || inp->tokens[inp->tokensCount - 1].type !=
    EXT_ARGS_UTOK_EOI)], which appends the end-of-input token. *)
Definition append_eoi (tokens : list EXT_ARGS_UTok) : list EXT_ARGS_UTok :=
  match rev tokens with
  | t :: _ => if is_UTOK_EOI (u_type t) then tokens else tokens ++ [utok_eoi]
  | [] => tokens ++ [utok_eoi]
  end.

(** The whole lexing stage. *)
Definition lex_input (argv : list string) : checked (list EXT_ARGS_UTok) :=
  match lex_args (tl argv) [] with
  | Done res => Done res
  | Ok tokens => Ok (append_eoi tokens)
  end.

(** *** Parsing of the token array

    [toks] is the part of [inp->tokens] from index [i] on.  The array ends
    with an end-of-input token ([lex_input_ends_with_EOI]), so the code never
    reads past it; the empty list is given the behaviour of that token.  The
    loop is left only at an end-of-input token, so the test that follows it
    in the source never fires. *)
Fixpoint parse_input (toks : list EXT_ARGS_UTok)
  (floats : list EXT_ARGS_UFloatArg) (posArgs : list string)
  : checked (list EXT_ARGS_UFloatArg * list string) :=
  match toks with
  | [] => Ok (floats, posArgs)
  | t :: toks1 =>
      match u_type t with
      | EXT_ARGS_UTOK_EOI => Ok (floats, posArgs)
      | EXT_ARGS_UTOK_FLOAT =>
          let arg v := mkUFloatArg (u_str t) (u_len t) v in
          match toks1 with
          | [] => Ok (floats ++ [arg NULL], posArgs)
          | e :: toks2 =>
              match u_type e with
              | EXT_ARGS_UTOK_EQL =>
                  match toks2 with
                  | [] =>
                      Done (EXT_ARGS_INPUT_ERR
                              ("A value expected " ++ quoted (u_str t)))
                  | v :: toks3 =>
                      match u_type v with
                      | EXT_ARGS_UTOK_VAL =>
                          parse_input toks3
                            (floats ++ [arg (Str (u_str v))]) posArgs
                      | _ =>
                          Done (EXT_ARGS_INPUT_ERR
                                  ("A value expected " ++ quoted (u_str t)))
                      end
                  end
              | _ => parse_input toks1 (floats ++ [arg NULL]) posArgs
              end
          end
      | EXT_ARGS_UTOK_VAL => parse_input toks1 floats (posArgs ++ [u_str t])
      | EXT_ARGS_UTOK_EQL =>
          Done (EXT_ARGS_INPUT_ERR ("Unexpected input " ++ quoted (u_str t)))
      end
  end.

(** ** Validation of the parsed input against the schema *)

Definition is_NULL (p : cstr) : bool :=
  match p with
  | NULL => true
  | _ => false
  end.

(** [uf.len == f.len && strncmp(uf.str, f.str, f.len) == 0] *)
Definition float_matches (uf : EXT_ARGS_UFloatArg) (f : EXT_ARGS_FloatArg)
  : bool :=
  Nat.eqb (uf_len uf) (fa_len f)
  && String.eqb (substring 0 (fa_len f) (uf_str uf))
                (substring 0 (fa_len f) (fa_str f)).

(** A group whose bytes are all zero, for [prs.groups[i]] outside the array. *)
Definition group_zero : EXT_ARGS_FloatArgsGroup :=
  mkGroup false false false false 0 None false None.

Definition group_at (prs : EXT_ARGS_Parser) (i : nat) : EXT_ARGS_FloatArgsGroup :=
  nth i (groups prs) group_zero.

Definition set_isUsed (g : EXT_ARGS_FloatArgsGroup) : EXT_ARGS_FloatArgsGroup :=
  mkGroup (isOptional g) (hasAssign g) (isAssignOptional g) (isRepeating g)
    (aliasCount g) (varPtr g) true (ary g).

Definition set_varPtr (p : ptr) (g : EXT_ARGS_FloatArgsGroup)
  : EXT_ARGS_FloatArgsGroup :=
  mkGroup (isOptional g) (hasAssign g) (isAssignOptional g) (isRepeating g)
    (aliasCount g) p (isUsed g) (ary g).

Definition set_ary (a : option (list cstr)) (g : EXT_ARGS_FloatArgsGroup)
  : EXT_ARGS_FloatArgsGroup :=
  mkGroup (isOptional g) (hasAssign g) (isAssignOptional g) (isRepeating g)
    (aliasCount g) (varPtr g) (isUsed g) a.

Definition set_pa_varPtr (p : ptr) (a : EXT_ARGS_PosArg) : EXT_ARGS_PosArg :=
  mkPosArg (pa_isOptional a) (pa_str a) (pa_len a) p.

(** One round of the first validation loop: the flag [uf] of the input. *)
Definition validate_float (uf : EXT_ARGS_UFloatArg) (prs : EXT_ARGS_Parser)
  : checked EXT_ARGS_Parser :=
  match find (float_matches uf) (floats prs) with
  | None =>
      Done (EXT_ARGS_INPUT_ERR
              ("Ambiguous argument " ++ quoted (prec (uf_len uf) (uf_str uf))
               ++ " provided"))
  | Some f =>
      let gr := group_at prs (fa_groupIdx f) in
      let used :=
        Ok (set_groups prs (list_update (fa_groupIdx f) set_isUsed (groups prs)))
      in
      if isUsed gr && negb (isRepeating gr) then
        Done (EXT_ARGS_INPUT_ERR
                ("Same arguments provided multiple times: "
                 ++ prec (uf_len uf) (uf_str uf)))
      else if hasAssign gr then
        if is_NULL (uf_assignVal uf) && negb (isAssignOptional gr) then
          Done (EXT_ARGS_INPUT_ERR
                  (quoted (prec (uf_len uf) (uf_str uf))
                   ++ " argument requires a value"))
        else used
      else
        if negb (is_NULL (uf_assignVal uf)) then
          Done (EXT_ARGS_INPUT_ERR
                  (quoted (prec (uf_len uf) (uf_str uf))
                   ++ " argument does not require a value"))
        else used
  end.

Fixpoint validate_floats (ufs : list EXT_ARGS_UFloatArg) (prs : EXT_ARGS_Parser)
  : checked EXT_ARGS_Parser :=
  match ufs with
  | [] => Ok prs
  | uf :: ufs' =>
      match validate_float uf prs with
      | Done res => Done res
      | Ok prs => validate_floats ufs' prs
      end
  end.

(** "Checking floats that specified but not provided": [grs] is the part of
    [prs.groups] from index [i] on. *)
Fixpoint check_provided (i : nat) (grs : list EXT_ARGS_FloatArgsGroup)
  (fls : list EXT_ARGS_FloatArg) : checked unit :=
  match grs with
  | [] => Ok tt
  | gr :: grs' =>
      if negb (isUsed gr) && negb (isOptional gr) then
        match find (fun fa => Nat.eqb (fa_groupIdx fa) i) fls with
        | Some fa =>
            let s := if Nat.ltb 1 (aliasCount gr) then "(or alias) " else EmptyString in
            Done (EXT_ARGS_INPUT_ERR
                    (quoted (prec (fa_len fa) (fa_str fa)) ++ " argument " ++ s
                     ++ "required but not provided"))
        | None => check_provided (S i) grs' fls
        end
      else check_provided (S i) grs' fls
  end.

Definition manposArgsCount (l : list EXT_ARGS_PosArg) : nat :=
  List.length (filter (fun a => negb (pa_isOptional a)) l).

Definition check_posArgs (prs : EXT_ARGS_Parser) (posArgsCount : nat)
  : checked unit :=
  if Nat.ltb posArgsCount (manposArgsCount (posArgs prs)) then
    Done (EXT_ARGS_INPUT_ERR "Not enough positional arguments provided")
  else if negb (varPosArgsEnabled prs)
          && Nat.ltb (List.length (posArgs prs)) posArgsCount then
    Done (EXT_ARGS_INPUT_ERR "Too many positional arguments provided")
  else Ok tt.

(** The "additional schema validation": some [posArgs[i]] is optional while
    [posArgs[i + 1]] is not. *)
Fixpoint optional_then_mandatory (l : list EXT_ARGS_PosArg) : bool :=
  match l with
  | a :: l' =>
      match l' with
      | b :: _ =>
          (pa_isOptional a && negb (pa_isOptional b))
          || optional_then_mandatory l'
      | [] => false
      end
  | [] => false
  end.

(** ** Binding *)

(** What a variable of the caller holds after [ext_args] wrote to it: a
    [bool], a [char *], or a [char **] to a fresh array, given by the cells
    of that array that the code has written (the last one is NULL). *)
Inductive value : Type :=
| VBool (b : bool)
| VStr (p : cstr)
| VAry (cells : list cstr).

Definition store : Type := addr -> value.

(** [if(p) { *p = v; }] *)
Definition write_if (p : ptr) (v : value) (m : store) : store :=
  match p with
  | None => m
  | Some a => fun x => if Nat.eqb x a then v else m x
  end.

(** "Get pointers to user passed vars".  [None]: [va_arg] is called although
    the caller passed no further argument, which C leaves undefined. *)
Fixpoint get_var_ptrs (sq : list EXT_ARGS_SequenceElement) (ap : list ptr)
  (prs : EXT_ARGS_Parser) : option (list ptr * EXT_ARGS_Parser) :=
  match sq with
  | [] => Some (ap, prs)
  | e :: sq' =>
      match ap with
      | [] => None
      | p :: ap' =>
          get_var_ptrs sq' ap'
            (match sq_type e with
             | EXT_ARGS_ARG_POS =>
                 set_posArgs prs
                   (list_update (sq_idx e) (set_pa_varPtr p) (posArgs prs))
             | EXT_ARGS_ARG_GROUP =>
                 set_groups prs
                   (list_update (sq_idx e) (set_varPtr p) (groups prs))
             end)
      end
  end.

Definition get_varPos_ptr (ap : list ptr) (prs : EXT_ARGS_Parser)
  : option EXT_ARGS_Parser :=
  if varPosArgsEnabled prs then
    match ap with
    | [] => None
    | p :: _ => Some (set_varPosrArgsVarPtr prs p)
    end
  else Some prs.

(** [EXT_ARGS_DYN_ARY_SAVE] on a [char *] array that may still be NULL. *)
Definition ary_save (a : option (list cstr)) (v : cstr) : list cstr :=
  match a with
  | None => [v]
  | Some l => l ++ [v]
  end.

(** One round of "Vars filling, assings". *)
Definition fill_float (uf : EXT_ARGS_UFloatArg)
  (st : EXT_ARGS_Parser * store) : EXT_ARGS_Parser * store :=
  let '(prs, m) := st in
  match find (float_matches uf) (floats prs) with
  | None => (prs, m)
  | Some f =>
      let gr := group_at prs (fa_groupIdx f) in
      if isRepeating gr then
        let a := ary_save (ary gr) (uf_assignVal uf) in
        (set_groups prs
           (list_update (fa_groupIdx f) (set_ary (Some a)) (groups prs)),
         write_if (varPtr gr) (VAry (a ++ [NULL])) m)
      else if hasAssign gr then
        if negb (is_NULL (uf_assignVal uf)) then
          (prs, write_if (varPtr gr) (VStr (uf_assignVal uf)) m)
        else (prs, write_if (varPtr gr) (VStr ext_args_no_value) m)
      else (prs, write_if (varPtr gr) (VBool true) m)
  end.

Definition fill_floats (ufs : list EXT_ARGS_UFloatArg)
  (st : EXT_ARGS_Parser * store) : EXT_ARGS_Parser * store :=
  fold_left (fun st uf => fill_float uf st) ufs st.

(** "filling floats that specified but not provided": returns the groups as
    the loop leaves them. *)
Fixpoint fill_missing (grs : list EXT_ARGS_FloatArgsGroup) (m : store)
  : list EXT_ARGS_FloatArgsGroup * store :=
  match grs with
  | [] => ([], m)
  | gr :: grs' =>
      let '(gr, m) :=
        if negb (isUsed gr) && isOptional gr then
          if isRepeating gr then
            let a := ary_save (ary gr) NULL in
            (set_ary (Some a) gr, write_if (varPtr gr) (VAry a) m)
          else if hasAssign gr then (gr, write_if (varPtr gr) (VStr NULL) m)
          else (gr, write_if (varPtr gr) (VBool false) m)
        else (gr, m) in
      let '(grs', m) := fill_missing grs' m in
      (gr :: grs', m)
  end.

(** "NULLing optionals not provided by user":
    [for(int i = inp->posArgsCount; i < prs.posArgsCount; i++)]. *)
Definition null_missing (prs : EXT_ARGS_Parser) (posArgsCount : nat) (m : store)
  : store :=
  fold_left (fun m a => write_if (pa_varPtr a) (VStr NULL) m)
    (skipn posArgsCount (posArgs prs)) m.

(** "filling posArgs vars": [vals] is [inp->posArgs] from index [i] on and
    [opts] is [optsVarAry->ary]. *)
Fixpoint fill_posArgs (prs : EXT_ARGS_Parser) (i : nat) (vals : list string)
  (opts : option (list cstr)) (m : store) : option (list cstr) * store :=
  match vals with
  | [] => (opts, m)
  | v :: vals' =>
      if Nat.ltb i (List.length (posArgs prs)) then
        let p := pa_varPtr (nth i (posArgs prs) (mkPosArg false EmptyString 0 None)) in
        fill_posArgs prs (S i) vals' opts (write_if p (VStr (Str v)) m)
      else
        match varPosrArgsVarPtr prs with
        | None => (opts, m)
        | Some _ =>
            let a := ary_save opts (Str v) in
            fill_posArgs prs (S i) vals' (Some a)
              (write_if (varPosrArgsVarPtr prs) (VAry (a ++ [NULL])) m)
        end
  end.

(** "No external pos args provided, let's return an empty array". *)
Definition fill_empty_varPos (prs : EXT_ARGS_Parser) (opts : option (list cstr))
  (m : store) : store :=
  match opts with
  | None =>
      if varPosArgsEnabled prs then
        write_if (varPosrArgsVarPtr prs) (VAry [NULL]) m
      else m
  | Some _ => m
  end.

(** Everything from "Vars filling" to the label [done]. *)
Definition bind_vars (prs : EXT_ARGS_Parser) (ufs : list EXT_ARGS_UFloatArg)
  (vals : list string) (m : store) : store :=
  let '(prs, m) := fill_floats ufs (prs, m) in
  let '(grs, m) := fill_missing (groups prs) m in
  let prs := set_groups prs grs in
  let m := null_missing prs (List.length vals) m in
  let '(opts, m) := fill_posArgs prs 0 vals None m in
  let m := null_missing prs (List.length vals) m in
  fill_empty_varPos prs opts m.

(** ** The entry point *)

Definition schema_error (j : jmp) : result :=
  match j with
  | EXT_ARGS_ERR_LEX errStart =>
      EXT_ARGS_SCHEMA_ERR
        ("Schema lexing error, starting from " ++ quoted errStart)
  | EXT_ARGS_ERR_PARSE expTokType unexpTokType errStart =>
      EXT_ARGS_SCHEMA_ERR
        ("Schema parsing error. Expected " ++ EXT_ARGS_TokTypeToName expTokType
         ++ " but received " ++ EXT_ARGS_TokTypeToName unexpTokType
         ++ ", starting from " ++ quoted errStart)
  | EXT_ARGS_ERR_MEM => EXT_ARGS_NO_MEM_ERR
  end.

Definition right_side_msg : string :=
  "All optional non-flag arguments must be chained on the schema's right side".

(** The schema stage: [EXT_ARGS_Synopsis] under [setjmp], then the
    additional validation.  [None] only if the loop bound of the embedding
    ran out, which does not happen ([compile_schema_total]). *)
Definition compile_schema (fmt : string) : option (checked EXT_ARGS_Parser) :=
  match EXT_ARGS_Synopsis (Parser_init fmt) with
  | OutOfFuel => None
  | Longjmp j => Some (Done (schema_error j))
  | Ret prs =>
      if Nat.ltb 1 (List.length (posArgs prs))
         && optional_then_mandatory (posArgs prs)
      then Some (Done (EXT_ARGS_SCHEMA_ERR right_side_msg))
      else Some (Ok prs)
  end.

(** The input stages up to and including the three validations. *)
Definition check_input (argv : list string) (prs : EXT_ARGS_Parser)
  : checked (EXT_ARGS_Parser * list EXT_ARGS_UFloatArg * list string) :=
  match lex_input argv with
  | Done res => Done res
  | Ok tokens =>
      match parse_input tokens [] [] with
      | Done res => Done res
      | Ok (ufs, vals) =>
          match validate_floats ufs prs with
          | Done res => Done res
          | Ok prs =>
              match check_provided 0 (groups prs) (floats prs) with
              | Done res => Done res
              | Ok _ =>
                  match check_posArgs prs (List.length vals) with
                  | Done res => Done res
                  | Ok _ => Ok (prs, ufs, vals)
                  end
              end
          end
      end
  end.

(** [ext_args(argc, argv, fmt, ap, oerr)] with [argc = length argv], run on
    the caller's variables [m].  The answer is [None] where C gives the call
    no meaning (the [va_list] is shorter than the schema asks for). *)
Definition ext_args (argv : list string) (fmt : string) (ap : list ptr)
  (m : store) : option (result * store) :=
  match compile_schema fmt with
  | None => None
  | Some (Done res) => Some (res, m)
  | Some (Ok prs) =>
      match check_input argv prs with
      | Done res => Some (res, m)
      | Ok (prs, ufs, vals) =>
          match get_var_ptrs (sequence prs) ap prs with
          | None => None
          | Some (ap, prs) =>
              match get_varPos_ptr ap prs with
              | None => None
              | Some prs => Some (EXT_ARGS_NO_ERR, bind_vars prs ufs vals m)
              end
          end
      end
  end.

(** ** Notions used by the statements *)

(** [prs'] has the schema model of [prs]: the two differ at most in the
    cursor and in [lastMatchTok]. *)
Definition same_model (prs prs' : EXT_ARGS_Parser) : Prop :=
  posArgs prs' = posArgs prs
  /\ groups prs' = groups prs
  /\ floats prs' = floats prs
  /\ sequence prs' = sequence prs
  /\ varPosArgsEnabled prs' = varPosArgsEnabled prs
  /\ varPosrArgsVarPtr prs' = varPosrArgsVarPtr prs
  /\ parsingStates_isOptional prs' = parsingStates_isOptional prs.

(** The cursor of [prs'] is not before the cursor of [prs], and is strictly
    after it when [b] holds. *)
Definition advances (b : bool) (prs prs' : EXT_ARGS_Parser) : Prop :=
  String.length (str prs') <= String.length (str prs)
  /\ (b = true -> String.length (str prs') < String.length (str prs)).

(** A repeatable group takes a value, and the value is not optional. *)
Definition group_ok (g : EXT_ARGS_FloatArgsGroup) : Prop :=
  isRepeating g = true -> hasAssign g = true /\ isAssignOptional g = false.

(** A group as the schema parser leaves it: no pointer, not used, no array. *)
Definition group_fresh (g : EXT_ARGS_FloatArgsGroup) : Prop :=
  varPtr g = None /\ isUsed g = false /\ ary g = None.

(** Well-formedness of the schema model. *)
Definition model_ok (prs : EXT_ARGS_Parser) : Prop :=
  Forall group_ok (groups prs)
  /\ Forall group_fresh (groups prs)
  /\ Forall (fun f => fa_groupIdx f < List.length (groups prs)) (floats prs).

(** [B] writes to the store without reading it: started in two stores, it
    leaves every address either with one and the same value or untouched. *)
Definition write_only (B : store -> store) : Prop :=
  forall (m1 m2 : store) (a : addr),
    B m1 a = B m2 a \/ (B m1 a = m1 a /\ B m2 a = m2 a).

(** The tokens that one raw argument contributes. *)
Definition tokens_of (bk : string) : list EXT_ARGS_UTok := fst (lex_arg bk []).

(** The raw argument is neither rejected by the tokenizer nor taken as the
    terminator. *)
Definition lex_continues (bk : string) : Prop :=
  snd (lex_arg bk []) = LexContinue.

Definition is_UTOK_FLOAT (t : EXT_ARGS_UTok) : bool :=
  match u_type t with
  | EXT_ARGS_UTOK_FLOAT => true
  | _ => false
  end.

(** The last token of [toks] is a flag token. *)
Fixpoint ends_with_flag (toks : list EXT_ARGS_UTok) : bool :=
  match toks with
  | [] => false
  | t :: toks' =>
      match toks' with
      | [] => is_UTOK_FLOAT t
      | _ :: _ => ends_with_flag toks'
      end
  end.

(** The first token of [toks] is an equals token. *)
Definition starts_with_eql (toks : list EXT_ARGS_UTok) : bool :=
  match toks with
  | t :: _ =>
      match u_type t with
      | EXT_ARGS_UTOK_EQL => true
      | _ => false
      end
  | [] => false
  end.

Definition not_UTOK_EOI (t : EXT_ARGS_UTok) : Prop :=
  u_type t <> EXT_ARGS_UTOK_EOI.

(** Each scanner moves the cursor forward on success and leaves the parser
    as it was on failure. *)
Definition scanner_ok (f : EXT_ARGS_Parser -> bool * EXT_ARGS_Parser) : Prop :=
  forall prs,
    (fst (f prs) = false /\ snd (f prs) = prs)
    \/ (fst (f prs) = true
        /\ exists s, snd (f prs) = set_str prs s
                     /\ String.length s < String.length (str prs)).

(** [F] computes its first result without the store and writes to the store
    without reading it. *)
Definition writes {A : Type} (F : store -> A * store) : Prop :=
  exists (a : A) (B : store -> store),
    write_only B /\ forall m, F m = (a, B m).

(** The code that a call returns and its message, for a call that passes a
    single NULL pointer as [test.c] does where it expects an error. *)
Definition ext_args_result (m : store) (argv : list string) (fmt : string)
  : option result :=
  option_map fst (ext_args argv fmt [None] m).

(** Variables of a caller that hold no result yet, for the examples. *)
Definition store_init : store := fun _ => VStr (Str "uninitialised").

(** [t] is the text from some position of [s] to its end. *)
Definition suffix_of (s t : string) : Prop :=
  exists p : string, s = (p ++ t)%string.

(** [j] is a lexing error whose [errStart] lies in the text [s]. *)
Definition lex_error_in (s : string) (j : jmp) : Prop :=
  exists e : string, j = EXT_ARGS_ERR_LEX e /\ suffix_of s e /\ e <> EmptyString.

(** A step that does not insist on its token ends with the cursor in [s], or
    with a lexing error in [s]. *)
Definition step_in_text {A : Type} (s : string) (cursor : A -> string)
  (o : outcome A) : Prop :=
  match o with
  | Ret a => suffix_of s (cursor a)
  | Longjmp j => lex_error_in s j
  | OutOfFuel => True
  end.

(** The outcome of the whole schema parser on the text [fmt]: a model with
    the cursor at the end, a lexing error at a place of [fmt] that is not
    its end, or a parsing error that expected the end of the input and found
    another token at a place of [fmt]. *)
Definition schema_outcome_ok (fmt : string) (o : outcome EXT_ARGS_Parser)
  : Prop :=
  match o with
  | Ret prs => str prs = EmptyString
  | Longjmp (EXT_ARGS_ERR_LEX e) => suffix_of fmt e /\ e <> EmptyString
  | Longjmp (EXT_ARGS_ERR_PARSE expTokType unexpTokType e) =>
      expTokType = EXT_ARGS_TOK_EOI
      /\ unexpTokType <> EXT_ARGS_TOK_EOI
      /\ suffix_of fmt e /\ e <> EmptyString
  | Longjmp EXT_ARGS_ERR_MEM => False
  | OutOfFuel => False
  end.

(** The number of pointers that [ext_args] reads from the [va_list]: one for
    each declaration, and one more when trailing arguments are enabled. *)
Definition slot_count (prs : EXT_ARGS_Parser) : nat :=
  List.length (sequence prs) + (if varPosArgsEnabled prs then 1 else 0).

(** Every character of [s] satisfies [P]. *)
Fixpoint all_chars (P : ascii -> bool) (s : string) : bool :=
  match s with
  | EmptyString => true
  | String c s' => P c && all_chars P s'
  end.

(** The first character of [s] satisfies [P]; false at the end of the text. *)
Definition starts_with (P : ascii -> bool) (s : string) : bool :=
  match s with
  | EmptyString => false
  | String c _ => P c
  end.

(** The last character of the text [String c s]. *)
Fixpoint last_char (c : ascii) (s : string) : ascii :=
  match s with
  | EmptyString => c
  | String c' s' => last_char c' s'
  end.

(** A name of the schema language: a letter, then letters, digits,
    underscores and dashes, the last of which is not a dash. *)
Definition valid_name (n : string) : bool :=
  match n with
  | EmptyString => false
  | String c0 rest =>
      is_letter c0 && all_chars is_name_char rest
      && negb (Ascii.eqb (last_char c0 rest) "-")
  end.

Definition is_dash (c : ascii) : bool := Ascii.eqb c "-".

Definition is_dot (c : ascii) : bool := Ascii.eqb c ".".

Definition ArgKind_eqb (a b : ArgKind) : bool :=
  match a, b with
  | EXT_ARGS_ARG_POS, EXT_ARGS_ARG_POS
  | EXT_ARGS_ARG_GROUP, EXT_ARGS_ARG_GROUP => true
  | _, _ => false
  end.

(** The indices that the declarations of kind [k] carry, in the order of
    the declarations. *)
Definition seq_idx_of (k : ArgKind) (sq : list EXT_ARGS_SequenceElement)
  : list nat :=
  map sq_idx (filter (fun e => ArgKind_eqb (sq_type e) k) sq).

(** The number of aliases filed under the group with index [i]. *)
Definition alias_count_at (fls : list EXT_ARGS_FloatArg) (i : nat) : nat :=
  List.length (filter (fun f => Nat.eqb (fa_groupIdx f) i) fls).

(** The four arrays of the schema model are the same in [prs] and [prs']. *)
Definition keeps_model (prs prs' : EXT_ARGS_Parser) : Prop :=
  posArgs prs' = posArgs prs
  /\ groups prs' = groups prs
  /\ floats prs' = floats prs
  /\ sequence prs' = sequence prs.

(** [prs'] is [prs] with one more positional argument declared. *)
Definition adds_pos (prs prs' : EXT_ARGS_Parser) : Prop :=
  exists pa,
    posArgs prs' = posArgs prs ++ [pa]
    /\ pa_isOptional pa = parsingStates_isOptional prs
    /\ sequence prs'
       = sequence prs ++ [mkSeq EXT_ARGS_ARG_POS (List.length (posArgs prs))]
    /\ groups prs' = groups prs
    /\ floats prs' = floats prs.

(** [prs'] is [prs] with one more group declared, with its aliases. *)
Definition adds_group (prs prs' : EXT_ARGS_Parser) : Prop :=
  exists g fs,
    groups prs' = groups prs ++ [g]
    /\ floats prs' = floats prs ++ fs
    /\ Forall (fun f => fa_groupIdx f = List.length (groups prs)) fs
    /\ aliasCount g = List.length fs
    /\ 1 <= List.length fs
    /\ isOptional g = parsingStates_isOptional prs
    /\ sequence prs'
       = sequence prs ++ [mkSeq EXT_ARGS_ARG_GROUP (List.length (groups prs))]
    /\ posArgs prs' = posArgs prs.

(** The shape of a schema model: the declarations list the positional
    arguments and the groups in the order of their arrays, each once; the
    aliases point at groups that exist; a group counts its aliases and has at
    least one. *)
Definition schema_wf (prs : EXT_ARGS_Parser) : Prop :=
  seq_idx_of EXT_ARGS_ARG_POS (sequence prs)
  = seq 0 (List.length (posArgs prs))
  /\ seq_idx_of EXT_ARGS_ARG_GROUP (sequence prs)
     = seq 0 (List.length (groups prs))
  /\ Forall (fun f => fa_groupIdx f < List.length (groups prs)) (floats prs)
  /\ forall i g,
       nth_error (groups prs) i = Some g ->
       aliasCount g = alias_count_at (floats prs) i /\ 1 <= aliasCount g.

(** The pointer [p] is the address [a]. *)
Definition points_to (a : addr) (p : ptr) : bool :=
  match p with
  | Some b => Nat.eqb a b
  | None => false
  end.

(** The cells of a dynamic array that may still be NULL. *)
Definition cells_of (a : option (list cstr)) : list cstr :=
  match a with
  | None => []
  | Some l => l
  end.

(** The pointer that the model holds for the declaration of kind [k] with
    index [j], if there is such a declaration. *)
Definition var_ptr_of (prs : EXT_ARGS_Parser) (k : ArgKind) (j : nat)
  : option ptr :=
  match k with
  | EXT_ARGS_ARG_POS => option_map pa_varPtr (nth_error (posArgs prs) j)
  | EXT_ARGS_ARG_GROUP => option_map varPtr (nth_error (groups prs) j)
  end.

(** The pointer that the loop over the declarations [sq] reads last from
    [ap] for the declaration of kind [k] with index [j]. *)
Fixpoint assigned (sq : list EXT_ARGS_SequenceElement) (ap : list ptr)
  (k : ArgKind) (j : nat) {struct sq} : option ptr :=
  match sq, ap with
  | e :: sq', p :: ap' =>
      match assigned sq' ap' k j with
      | Some q => Some q
      | None =>
          if ArgKind_eqb (sq_type e) k && Nat.eqb (sq_idx e) j then Some p
          else None
      end
  | _, _ => None
  end.

(** The number of declarations of kind [k] that the model holds. *)
Definition kind_count (prs : EXT_ARGS_Parser) (k : ArgKind) : nat :=
  match k with
  | EXT_ARGS_ARG_POS => List.length (posArgs prs)
  | EXT_ARGS_ARG_GROUP => List.length (groups prs)
  end.

(** The flag occurrence [uf] of the input matches an alias of the group with
    index [gi]: the search of the binding loop stops at an alias of it. *)
Definition occurrence_of (fls : list EXT_ARGS_FloatArg) (gi : nat)
  (uf : EXT_ARGS_UFloatArg) : bool :=
  match find (float_matches uf) fls with
  | Some f => Nat.eqb (fa_groupIdx f) gi
  | None => false
  end.

(** The occurrences of the group [gi] among the flags of the input, in the
    order of the input. *)
Definition occurrences (fls : list EXT_ARGS_FloatArg) (gi : nat)
  (ufs : list EXT_ARGS_UFloatArg) : list EXT_ARGS_UFloatArg :=
  filter (occurrence_of fls gi) ufs.

(** What the binding loop writes for an occurrence of a group that is not
    repeatable: the value, the sentinel when the flag came without one, or
    [true] for a flag that takes no value. *)
Definition occurrence_value (g : EXT_ARGS_FloatArgsGroup)
  (uf : EXT_ARGS_UFloatArg) : value :=
  if hasAssign g then
    VStr (if is_NULL (uf_assignVal uf) then ext_args_no_value
          else uf_assignVal uf)
  else VBool true.

(** What a call leaves in the variable of the group [g], whose occurrences
    in the input are [occs]. *)
Definition flag_value (g : EXT_ARGS_FloatArgsGroup)
  (occs : list EXT_ARGS_UFloatArg) : value :=
  if isRepeating g then VAry (map uf_assignVal occs ++ [NULL])
  else
    match occs with
    | [] => if hasAssign g then VStr NULL else VBool false
    | uf :: rest => occurrence_value g (last rest uf)
    end.

(** No other group of the model holds the address [a] than the one with
    index [gi]. *)
Definition only_group (prs : EXT_ARGS_Parser) (gi : nat) (a : addr) : Prop :=
  forall j g',
    nth_error (groups prs) j = Some g' -> varPtr g' = Some a -> j = gi.

(** The value of the occurrence [uf] is what the group [g] allows: none for
    a flag that takes no value, one for a flag whose value is not
    optional. *)
Definition value_allowed (g : EXT_ARGS_FloatArgsGroup)
  (uf : EXT_ARGS_UFloatArg) : Prop :=
  if hasAssign g then
    isAssignOptional g = false -> uf_assignVal uf <> NULL
  else uf_assignVal uf = NULL.

(** The parsed input [ufs], [vals] is one that the schema model [prs]
    admits.  It has a value for every mandatory positional argument, and no
    more values than positional arguments unless trailing arguments are
    enabled.  Every flag of the input is an alias of the schema.  For every
    group: a mandatory group has an occurrence, a group that is not
    repeatable has at most one, and every occurrence has a value that the
    group allows. *)
Definition respects_schema (prs : EXT_ARGS_Parser)
  (ufs : list EXT_ARGS_UFloatArg) (vals : list string) : Prop :=
  (forall i pa, nth_error (posArgs prs) i = Some pa ->
                pa_isOptional pa = false -> i < List.length vals)
  /\ (varPosArgsEnabled prs = false ->
      List.length vals <= List.length (posArgs prs))
  /\ (forall uf, In uf ufs ->
                 exists f, find (float_matches uf) (floats prs) = Some f)
  /\ (forall gi g,
        nth_error (groups prs) gi = Some g ->
        (isOptional g = false -> occurrences (floats prs) gi ufs <> [])
        /\ (isRepeating g = false ->
            List.length (occurrences (floats prs) gi ufs) <= 1)
        /\ Forall (value_allowed g) (occurrences (floats prs) gi ufs)).

(** The command line [args] (the raw arguments after the program name),
    read one argument at a time into the flags [ufs] and the values [vals]:
    a flag alone, a flag joined to a non-empty value by the equals sign, a
    plain value, or the terminator that ends the reading.  A plain value is
    a raw argument that is not flag-shaped and starts with neither the
    equals sign nor two dashes; the terminator is one that is not
    flag-shaped and starts with two dashes.  Raw arguments that start with
    the equals sign, or that end with it right after a flag, combine with
    their neighbours and are not covered here. *)
Inductive reads_as
  : list string -> list EXT_ARGS_UFloatArg -> list string -> Prop :=
| reads_end : reads_as [] [] []
| reads_flag (d n : string) (args : list string)
    (ufs : list EXT_ARGS_UFloatArg) (vals : list string) :
    d <> EmptyString ->
    all_chars is_dash d = true ->
    valid_name n = true ->
    reads_as args ufs vals ->
    reads_as ((d ++ n)%string :: args)
      (mkUFloatArg (d ++ n) (String.length (d ++ n)) NULL :: ufs) vals
| reads_flag_value (d n v : string) (args : list string)
    (ufs : list EXT_ARGS_UFloatArg) (vals : list string) :
    d <> EmptyString ->
    all_chars is_dash d = true ->
    valid_name n = true ->
    v <> EmptyString ->
    reads_as args ufs vals ->
    reads_as ((d ++ n ++ String "=" v)%string :: args)
      (mkUFloatArg (d ++ n ++ String "=" v) (String.length (d ++ n)) (Str v)
       :: ufs) vals
| reads_value (bk : string) (args : list string)
    (ufs : list EXT_ARGS_UFloatArg) (vals : list string) :
    fst (EXT_ARGS_ArgFloat (Parser_init bk)) = false ->
    (forall s, bk <> String "=" s) ->
    (forall s, bk <> String "-" (String "-" s)) ->
    reads_as args ufs vals ->
    reads_as (bk :: args) ufs (bk :: vals)
| reads_terminator (s : string) (post : list string) :
    fst (EXT_ARGS_ArgFloat (Parser_init (String "-" (String "-" s)))) = false ->
    reads_as (String "-" (String "-" s) :: post) [] [].

(** *** The schema language

    A schema described after the grammar of the source, its rendering as a
    schema text, and the model that the parser is to build for it. *)

(** The next token of the text [s] has the type [ty] and the characters
    [x], after which the text goes on with [rest]. *)
Definition tok_at (s : string) (ty : TokType) (x rest : string) : Prop :=
  forall prs,
    str prs = s ->
    EXT_ARGS_NextTok prs
    = Ret (mkTok ty (x ++ rest) (String.length x), set_str prs rest).

(** The next token of [s] has the type [ty] and is followed by [rest]. *)
Definition type_at (s : string) (ty : TokType) (rest : string) : Prop :=
  exists x, tok_at s ty x rest.

(** The text [K] can follow a flag: its next token is neither a pipe nor
    an equals sign, and when it is an opening bracket the token after it is
    no equals sign either. *)
Definition after_flag (K : string) : Prop :=
  exists ty rest,
    type_at K ty rest
    /\ ty <> EXT_ARGS_TOK_PIPE
    /\ ty <> EXT_ARGS_TOK_EQL
    /\ (ty = EXT_ARGS_TOK_LBRAK ->
        exists ty2 rest2, type_at rest ty2 rest2 /\ ty2 <> EXT_ARGS_TOK_EQL).

(** The next token of [K] is not the ellipsis. *)
Definition no_dots (K : string) : Prop :=
  exists ty rest, type_at K ty rest /\ ty <> EXT_ARGS_TOK_DOTS.

(** The names and the optional marks of the positional arguments. *)
Definition pos_view (prs : EXT_ARGS_Parser) : list (bool * string) :=
  map (fun a => (pa_isOptional a, prec (pa_len a) (pa_str a))) (posArgs prs).

(** The aliases with the index of their group. *)
Definition float_view (prs : EXT_ARGS_Parser) : list (string * nat) :=
  map (fun f => (prec (fa_len f) (fa_str f), fa_groupIdx f)) (floats prs).

(** A flag alias, given by its dashes and its name. *)
Definition alias_text (a : string * string) : string :=
  (fst a ++ snd a)%string.

Definition valid_alias (a : string * string) : bool :=
  negb (is_nul (fst a)) && all_chars is_dash (fst a) && valid_name (snd a).

Fixpoint render_aliases (als : list (string * string)) : string :=
  match als with
  | [] => EmptyString
  | a :: als' => ("|" ++ alias_text a ++ render_aliases als')%string
  end.

(** What may follow the aliases of a flag in the schema, after the grammar
    of the source: nothing, [=name], [=name...] or [[=name]]. *)
Inductive FlagValue : Type :=
| NoValue
| Value (name : string) (repeating : bool)
| OptionalValue (name : string).

(** [arg: NAME | FLOAT_ARG (PIPE FLOAT_ARG)* (...)?] *)
Inductive ArgDesc : Type :=
| Positional (name : string)
| Flag (alias : string * string) (more : list (string * string))
    (v : FlagValue).

Definition render_value (v : FlagValue) : string :=
  match v with
  | NoValue => EmptyString
  | Value n rep => ("=" ++ n ++ (if rep then "..." else EmptyString))%string
  | OptionalValue n => ("[=" ++ n ++ "]")%string
  end.

Definition render_arg (a : ArgDesc) : string :=
  match a with
  | Positional n => n
  | Flag a als v => (alias_text a ++ render_aliases als ++ render_value v)%string
  end.

Definition valid_value (v : FlagValue) : bool :=
  match v with
  | NoValue => true
  | Value n _ => valid_name n
  | OptionalValue n => valid_name n
  end.

Definition valid_arg (a : ArgDesc) : bool :=
  match a with
  | Positional n => valid_name n
  | Flag a als v => valid_alias a && forallb valid_alias als && valid_value v
  end.

(** The group that the parser files for a flag with [n] aliases. *)
Definition value_group (opt : bool) (n : nat) (v : FlagValue)
  : EXT_ARGS_FloatArgsGroup :=
  match v with
  | NoValue => mkGroup opt false false false n None false None
  | Value _ rep => mkGroup opt true false rep n None false None
  | OptionalValue _ => mkGroup opt true true false n None false None
  end.

(** A flag whose value is not optional and not repeated takes a following
    ellipsis for its own. *)
Definition wants_dots (a : ArgDesc) : bool :=
  match a with
  | Flag _ _ (Value _ false) => true
  | _ => false
  end.

(** What [EXT_ARGS_Arg] adds to the model for the argument [a]. *)
Definition arg_added (prs prs' : EXT_ARGS_Parser) (a : ArgDesc) : Prop :=
  varPosArgsEnabled prs' = varPosArgsEnabled prs
  /\ match a with
     | Positional n =>
         pos_view prs'
         = pos_view prs ++ [(parsingStates_isOptional prs, n)]
         /\ groups prs' = groups prs
         /\ float_view prs' = float_view prs
         /\ sequence prs'
            = sequence prs
              ++ [mkSeq EXT_ARGS_ARG_POS (List.length (posArgs prs))]
     | Flag al als v =>
         pos_view prs' = pos_view prs
         /\ groups prs'
            = groups prs
              ++ [value_group (parsingStates_isOptional prs)
                    (S (List.length als)) v]
         /\ float_view prs'
            = float_view prs
              ++ map (fun x => (alias_text x, List.length (groups prs)))
                   (al :: als)
         /\ sequence prs'
            = sequence prs
              ++ [mkSeq EXT_ARGS_ARG_GROUP (List.length (groups prs))]
     end.

(** [decl: arg | LBR arg RBR] *)
Record DeclDesc : Type := mkDecl {
  dd_optional : bool;
  dd_arg : ArgDesc
}.

Definition render_decl (d : DeclDesc) : string :=
  if dd_optional d then ("[" ++ render_arg (dd_arg d) ++ "]")%string
  else render_arg (dd_arg d).

(** The declarations, each followed by one blank. *)
Fixpoint render_decls (ds : list DeclDesc) : string :=
  match ds with
  | [] => EmptyString
  | d :: ds' => (render_decl d ++ " " ++ render_decls ds')%string
  end.

Definition render_trail (trail : bool) : string :=
  if trail then "..." else EmptyString.

(** [synopsis: decl+ DOTS? EOI] *)
Definition render_schema (ds : list DeclDesc) (trail : bool) : string :=
  (render_decls ds ++ render_trail trail)%string.

(** The last declaration does not take the ellipsis of the trailing
    arguments for its own. *)
Fixpoint dots_safe (ds : list DeclDesc) (trail : bool) : bool :=
  match ds with
  | [] => true
  | d :: ds' =>
      match ds' with
      | [] => negb (trail && negb (dd_optional d) && wants_dots (dd_arg d))
      | _ :: _ => dots_safe ds' trail
      end
  end.

Definition valid_schema (ds : list DeclDesc) (trail : bool) : bool :=
  forallb (fun d => valid_arg (dd_arg d)) ds && dots_safe ds trail.

Fixpoint desc_pos (ds : list DeclDesc) : list (bool * string) :=
  match ds with
  | [] => []
  | d :: ds' =>
      match dd_arg d with
      | Positional n => (dd_optional d, n) :: desc_pos ds'
      | Flag _ _ _ => desc_pos ds'
      end
  end.

Fixpoint desc_groups (ds : list DeclDesc) : list EXT_ARGS_FloatArgsGroup :=
  match ds with
  | [] => []
  | d :: ds' =>
      match dd_arg d with
      | Positional _ => desc_groups ds'
      | Flag _ als v =>
          value_group (dd_optional d) (S (List.length als)) v
          :: desc_groups ds'
      end
  end.

Fixpoint desc_floats (gi : nat) (ds : list DeclDesc) : list (string * nat) :=
  match ds with
  | [] => []
  | d :: ds' =>
      match dd_arg d with
      | Positional _ => desc_floats gi ds'
      | Flag al als _ =>
          map (fun x => (alias_text x, gi)) (al :: als)
          ++ desc_floats (S gi) ds'
      end
  end.

Fixpoint desc_seq (pi gi : nat) (ds : list DeclDesc)
  : list EXT_ARGS_SequenceElement :=
  match ds with
  | [] => []
  | d :: ds' =>
      match dd_arg d with
      | Positional _ => mkSeq EXT_ARGS_ARG_POS pi :: desc_seq (S pi) gi ds'
      | Flag _ _ _ => mkSeq EXT_ARGS_ARG_GROUP gi :: desc_seq pi (S gi) ds'
      end
  end.

(** ** Proof steps

    [scan_with L] decides the next scanner of [EXT_ARGS_NextTok] with its
    lemma [L]; [fuel_bind tac] shows that the first step of a sequence does
    not exhaust the loop bound and goes on with its result. *)

Ltac scan_with L :=
  let F := fresh "F" in
  let S := fresh "S" in
  let s := fresh "s" in
  let Ls := fresh "Ls" in
  let b' := fresh "b" in
  let p' := fresh "p" in
  match goal with
  | |- context [let '(_, _) := ?f ?p in _] =>
      destruct (L p) as [[F S]|[F (s & S & Ls)]];
      destruct (f p) as [b' p']; cbn [fst snd] in F, S; subst b' p'
  end.

(** Reduce the test that was just decided, without unfolding the loops. *)
Ltac step_in H := cbn [negb] in H; cbv beta iota zeta in H.

Ltac fuel_bind tac :=
  match goal with
  | |- bind ?m _ <> OutOfFuel =>
      let N := fresh "N" in
      let b := fresh "b" in
      let p := fresh "p" in
      assert (N : m <> OutOfFuel) by tac;
      destruct m as [[b p]| |];
      [cbn [bind]; cbv beta iota; destruct b; cbn [negb]; cbv beta iota
      | discriminate | congruence]
  end.

(** ** Basic facts *)

Lemma bind_Ret {A B : Type} (m : outcome A) (k : A -> outcome B) (b : B) :
  bind m k = Ret b -> exists a, m = Ret a /\ k a = Ret b.
Proof.
  destruct m as [a| |]; simpl; intros H; try discriminate.
  exists a. split; [reflexivity | exact H].
Qed.

Lemma set_str_same (prs : EXT_ARGS_Parser) : set_str prs (str prs) = prs.
Proof. destruct prs; reflexivity. Qed.

Lemma set_str_twice (prs : EXT_ARGS_Parser) (s t : string) :
  set_str (set_str prs s) t = set_str prs t.
Proof. reflexivity. Qed.

Lemma same_model_refl (prs : EXT_ARGS_Parser) : same_model prs prs.
Proof. repeat split. Qed.

Lemma same_model_trans (p1 p2 p3 : EXT_ARGS_Parser) :
  same_model p1 p2 -> same_model p2 p3 -> same_model p1 p3.
Proof.
  unfold same_model. intros (a1 & a2 & a3 & a4 & a5 & a6 & a7)
    (b1 & b2 & b3 & b4 & b5 & b6 & b7).
  repeat split; congruence.
Qed.

Lemma same_model_set_str (prs : EXT_ARGS_Parser) (s : string) :
  same_model prs (set_str prs s).
Proof. repeat split. Qed.

Lemma skip_char_length (c : ascii) (s : string) :
  String.length (skip_char c s) <= String.length s.
Proof.
  induction s as [|c' s IH]; simpl; [lia|].
  destruct (Ascii.eqb c' c); simpl; lia.
Qed.

Lemma skip_spaces_length (s : string) :
  String.length (skip_spaces s) <= String.length s.
Proof.
  induction s as [|c' s IH]; simpl; [lia|].
  destruct (is_space c'); simpl; lia.
Qed.

Lemma name_scan_length (c : ascii) (s : string) :
  String.length (snd (name_scan c s)) <= String.length s.
Proof.
  revert c. induction s as [|c' s IH]; intros c; simpl; [lia|].
  destruct (is_name_char c'); simpl; [specialize (IH c'); lia | lia].
Qed.

Lemma EXT_ARGS_Char_ok (c : ascii) : scanner_ok (EXT_ARGS_Char c).
Proof.
  intros prs. unfold EXT_ARGS_Char.
  destruct (str prs) as [|c' rest] eqn:E; [left; split; reflexivity|].
  destruct (Ascii.eqb c' c); [right | left; split; reflexivity].
  split; [reflexivity|]. exists rest. simpl. split; [reflexivity | lia].
Qed.

Lemma EXT_ARGS_Name_ok : scanner_ok EXT_ARGS_Name.
Proof.
  intros prs. unfold EXT_ARGS_Name.
  destruct (str prs) as [|c0 rest] eqn:E; [left; split; reflexivity|].
  destruct (is_letter c0); simpl; [|left; split; reflexivity].
  pose proof (name_scan_length c0 rest) as L.
  destruct (name_scan c0 rest) as [last c]. simpl in L.
  destruct (Ascii.eqb last "-"); [left; split; reflexivity|].
  right. split; [reflexivity|]. exists c. split; [reflexivity|]. simpl. lia.
Qed.

Lemma EXT_ARGS_ArgFloat_ok : scanner_ok EXT_ARGS_ArgFloat.
Proof.
  intros prs. unfold EXT_ARGS_ArgFloat, EXT_ARGS_CurrentPos, EXT_ARGS_Rollback.
  pose proof (skip_char_length "-" (str prs)) as L.
  destruct (Nat.ltb _ 1) eqn:D.
  - left. cbn [fst snd]. rewrite set_str_twice, set_str_same.
    split; reflexivity.
  - destruct (EXT_ARGS_Name_ok (set_str prs (skip_char "-" (str prs))))
      as [[F S]|[T (s & S & Ls)]];
      destruct (EXT_ARGS_Name _) as [b p]; simpl in *; subst.
    + left. cbn [fst snd]. rewrite set_str_twice, set_str_same.
      split; reflexivity.
    + right. split; [reflexivity|]. exists s. split; [reflexivity | lia].
Qed.

Lemma EXT_ARGS_Dots_ok : scanner_ok EXT_ARGS_Dots.
Proof.
  intros prs. unfold EXT_ARGS_Dots, EXT_ARGS_CurrentPos, EXT_ARGS_Rollback,
    EXT_ARGS_Distance.
  pose proof (skip_char_length "." (str prs)) as L. simpl str.
  destruct (Nat.eqb _ 3) eqn:D; simpl.
  - right. split; [reflexivity|]. eexists. split; [reflexivity|].
    apply Nat.eqb_eq in D. lia.
  - left. rewrite set_str_twice, set_str_same. split; reflexivity.
Qed.

(** [EXT_ARGS_NextTok] either raises a lexing error or returns a token and
    moves the cursor forward, strictly so unless the token is end-of-input. *)
Lemma EXT_ARGS_NextTok_spec (prs : EXT_ARGS_Parser) :
  (exists e, EXT_ARGS_NextTok prs = Longjmp (EXT_ARGS_ERR_LEX e))
  \/ (exists t s,
        EXT_ARGS_NextTok prs = Ret (t, set_str prs s)
        /\ String.length s <= String.length (str prs)
        /\ (tok_type t <> EXT_ARGS_TOK_EOI
            -> String.length s < String.length (str prs))).
Proof.
  unfold EXT_ARGS_NextTok.
  assert (Sk : snd (EXT_ARGS_SkipSpaces prs)
               = set_str prs (skip_spaces (str prs))).
  { unfold EXT_ARGS_SkipSpaces. destruct (Nat.eqb _ 0); reflexivity. }
  rewrite Sk. clear Sk.
  pose proof (skip_spaces_length (str prs)) as L0.
  set (p0 := set_str prs (skip_spaces (str prs))).
  assert (E0 : str p0 = skip_spaces (str prs)) by reflexivity.
  assert (P0 : forall s, set_str p0 s = set_str prs s) by reflexivity.
  destruct (is_nul (str p0)) eqn:N.
  { right. exists (mkTok EXT_ARGS_TOK_EOI EmptyString 0), (skip_spaces (str prs)).
    split; [reflexivity|]. split; [lia|]. intros H. elim H. reflexivity. }
  cbv zeta.
  scan_with (EXT_ARGS_Char_ok "[").
  2:{ right. do 2 eexists. rewrite P0. split; [reflexivity|].
      rewrite E0 in Ls. split; [lia | intros _; lia]. }
  scan_with (EXT_ARGS_Char_ok "]").
  2:{ right. do 2 eexists. rewrite P0. split; [reflexivity|].
      rewrite E0 in Ls. split; [lia | intros _; lia]. }
  scan_with (EXT_ARGS_Char_ok "|").
  2:{ right. do 2 eexists. rewrite P0. split; [reflexivity|].
      rewrite E0 in Ls. split; [lia | intros _; lia]. }
  scan_with (EXT_ARGS_Char_ok "=").
  2:{ right. do 2 eexists. rewrite P0. split; [reflexivity|].
      rewrite E0 in Ls. split; [lia | intros _; lia]. }
  scan_with EXT_ARGS_Name_ok.
  2:{ right. do 2 eexists. rewrite P0. split; [reflexivity|].
      rewrite E0 in Ls. split; [lia | intros _; lia]. }
  scan_with EXT_ARGS_ArgFloat_ok.
  2:{ right. do 2 eexists. rewrite P0. split; [reflexivity|].
      rewrite E0 in Ls. split; [lia | intros _; lia]. }
  scan_with EXT_ARGS_Dots_ok.
  2:{ right. do 2 eexists. rewrite P0. split; [reflexivity|].
      rewrite E0 in Ls. split; [lia | intros _; lia]. }
  left. eexists. reflexivity.
Qed.

(** What [EXT_ARGS_Match] can do: raise an error, fail with the parser
    unchanged (when the token is not mandatory), or succeed with the cursor
    moved and [lastMatchTok] set. *)
Lemma EXT_ARGS_Match_spec (ty : TokType) (prs : EXT_ARGS_Parser) (man : bool) :
  (exists j, EXT_ARGS_Match ty prs man = Longjmp j)
  \/ (man = false /\ EXT_ARGS_Match ty prs man = Ret (false, prs))
  \/ (exists t s,
        EXT_ARGS_Match ty prs man = Ret (true, set_lastMatchTok (set_str prs s) t)
        /\ tok_type t = ty
        /\ String.length s <= String.length (str prs)
        /\ (ty <> EXT_ARGS_TOK_EOI -> String.length s < String.length (str prs))).
Proof.
  unfold EXT_ARGS_Match, EXT_ARGS_CurrentPos, EXT_ARGS_Rollback.
  destruct (EXT_ARGS_NextTok_spec prs) as [(e & E)|(t & s & E & L1 & L2)];
    rewrite E; simpl.
  - left. eexists. reflexivity.
  - destruct (TokType_eqb (tok_type t) ty) eqn:Q.
    + right. right. exists t, s. split; [reflexivity|].
      assert (tok_type t = ty) by (destruct (tok_type t), ty; simpl in Q; congruence).
      subst ty. repeat split; auto.
    + destruct man.
      * left. eexists. reflexivity.
      * right. left. split; [reflexivity|].
        rewrite set_str_twice, set_str_same. reflexivity.
Qed.

Lemma same_model_matched (prs : EXT_ARGS_Parser) (s : string) (t : EXT_ARGS_Tok) :
  same_model prs (set_lastMatchTok (set_str prs s) t).
Proof. repeat split. Qed.

(** The same in the form used below: a normal return keeps the model and
    moves the cursor as [advances] says. *)
Lemma EXT_ARGS_Match_Ret (ty : TokType) (prs prs' : EXT_ARGS_Parser)
  (man b : bool) :
  EXT_ARGS_Match ty prs man = Ret (b, prs') ->
  same_model prs prs'
  /\ String.length (str prs') <= String.length (str prs)
  /\ (b = true -> ty <> EXT_ARGS_TOK_EOI
      -> String.length (str prs') < String.length (str prs))
  /\ (b = false -> prs' = prs)
  /\ (b = true -> tok_type (lastMatchTok prs') = ty).
Proof.
  intros H.
  destruct (EXT_ARGS_Match_spec ty prs man)
    as [(j & E)|[(M & E)|(t & s & E & T & L1 & L2)]];
    rewrite E in H; try discriminate; inversion H; subst; clear H.
  - split; [apply same_model_refl|]. repeat split; auto; discriminate.
  - split; [apply same_model_matched|]. simpl.
    repeat split; auto; discriminate.
Qed.

Lemma EXT_ARGS_Match_fuel (ty : TokType) (prs : EXT_ARGS_Parser) (man : bool) :
  EXT_ARGS_Match ty prs man <> OutOfFuel.
Proof.
  destruct (EXT_ARGS_Match_spec ty prs man)
    as [(j & E)|[(M & E)|(t & s & E & _)]]; rewrite E; discriminate.
Qed.

Lemma EXT_ARGS_AssignVal_Ret (prs prs' : EXT_ARGS_Parser) (b : bool) :
  EXT_ARGS_AssignVal prs false = Ret (b, prs') ->
  same_model prs prs' /\ advances b prs prs'
  /\ (b = false -> str prs' = str prs).
Proof.
  unfold EXT_ARGS_AssignVal, EXT_ARGS_CurrentPos, EXT_ARGS_Rollback, advances.
  intros H.
  apply bind_Ret in H. destruct H as ([b1 p1] & M1 & H).
  apply EXT_ARGS_Match_Ret in M1. destruct M1 as (S1 & L1 & T1 & F1 & _).
  destruct b1; simpl in H.
  - apply bind_Ret in H. destruct H as ([b2 p2] & M2 & H).
    apply EXT_ARGS_Match_Ret in M2. destruct M2 as (S2 & L2 & T2 & F2 & _).
    destruct b2; simpl in H; inversion H; subst; clear H.
    + split; [eapply same_model_trans; eassumption|].
      split; [split|discriminate].
      * lia.
      * intros _. specialize (T1 eq_refl). specialize (T2 eq_refl).
        assert (EXT_ARGS_TOK_EQL <> EXT_ARGS_TOK_EOI) by discriminate.
        assert (EXT_ARGS_TOK_NAME <> EXT_ARGS_TOK_EOI) by discriminate.
        intuition lia.
    + rewrite (F2 eq_refl).
      split; [eapply same_model_trans; [eassumption | apply same_model_set_str]|].
      simpl. split; [split; [lia | discriminate] | reflexivity].
  - inversion H; subst; clear H. rewrite (F1 eq_refl).
    split; [apply same_model_refl|]. split; [split; [lia|discriminate]|auto].
Qed.

Lemma EXT_ARGS_AssignVal_fuel (prs : EXT_ARGS_Parser) :
  EXT_ARGS_AssignVal prs false <> OutOfFuel.
Proof.
  unfold EXT_ARGS_AssignVal.
  pose proof (EXT_ARGS_Match_fuel EXT_ARGS_TOK_EQL prs false) as N1.
  destruct (EXT_ARGS_Match EXT_ARGS_TOK_EQL prs false) as [[b1 p1]| |];
    simpl; try congruence.
  destruct b1; simpl; [|discriminate].
  pose proof (EXT_ARGS_Match_fuel EXT_ARGS_TOK_NAME p1 false) as N2.
  destruct (EXT_ARGS_Match EXT_ARGS_TOK_NAME p1 false) as [[b2 p2]| |];
    simpl; try congruence.
  destruct b2; discriminate.
Qed.

(** ** The schema parser keeps the model well-formed and terminates *)

Lemma list_update_length {A : Type} (i : nat) (f : A -> A) (l : list A) :
  List.length (list_update i f l) = List.length l.
Proof.
  revert i. induction l as [|x l IH]; intros [|i]; simpl; auto.
Qed.

Lemma list_update_app_last {A : Type} (f : A -> A) (l : list A) (x : A) :
  list_update (List.length l) f (l ++ [x]) = l ++ [f x].
Proof.
  induction l as [|y l IH]; simpl; [reflexivity|]. rewrite IH. reflexivity.
Qed.

Lemma list_update_Forall {A : Type} (P : A -> Prop) (i : nat) (f : A -> A)
  (l : list A) :
  (forall x, P x -> P (f x)) -> Forall P l -> Forall P (list_update i f l).
Proof.
  intros Hf. revert i.
  induction l as [|x l IH]; intros i H; [destruct i; constructor|].
  inversion H; subst. destruct i; simpl; constructor; auto.
Qed.

Lemma nth_list_update {A : Type} (i j : nat) (f : A -> A) (l : list A) (d : A) :
  i < List.length l ->
  nth j (list_update i f l) d = if Nat.eqb j i then f (nth j l d) else nth j l d.
Proof.
  revert i j. induction l as [|x l IH]; intros i j H; simpl in H; [lia|].
  destruct i, j; simpl; try reflexivity.
  apply IH. lia.
Qed.

(** The alias loop: it touches only the cursor, [lastMatchTok] and the
    aliases, all of which it files under [groupIdx]. *)
Lemma EXT_ARGS_Arg_aliases_Ret (fuel : nat) (man : bool) (gi : nat)
  (bk : string) (fbk n : nat) :
  forall (prs prs' : EXT_ARGS_Parser) (r : option nat),
    EXT_ARGS_Arg_aliases fuel man gi bk fbk n prs = Ret (r, prs') ->
    posArgs prs' = posArgs prs
    /\ groups prs' = groups prs
    /\ sequence prs' = sequence prs
    /\ varPosArgsEnabled prs' = varPosArgsEnabled prs
    /\ parsingStates_isOptional prs' = parsingStates_isOptional prs
    /\ exists extra,
         Forall (fun f => fa_groupIdx f = gi) extra
         /\ match r with
            | None =>
                str prs' = bk
                /\ floats prs' = firstn fbk (floats prs ++ extra)
            | Some _ =>
                String.length (str prs') <= String.length (str prs)
                /\ floats prs' = floats prs ++ extra
            end.
Proof.
  revert n. induction fuel as [|fuel IH]; intros n prs prs' r H; simpl in H;
    [discriminate|].
  apply bind_Ret in H. destruct H as ([b1 p1] & M1 & H).
  apply EXT_ARGS_Match_Ret in M1.
  destruct M1 as ((a1 & a2 & a3 & a4 & a5 & a6 & a7) & L1 & _ & F1 & _).
  destruct b1; simpl in H.
  - apply bind_Ret in H. destruct H as ([b2 p2] & M2 & H).
    apply EXT_ARGS_Match_Ret in M2.
    destruct M2 as ((c1 & c2 & c3 & c4 & c5 & c6 & c7) & L2 & _ & F2 & _).
    destruct b2; simpl in H.
    + apply IH in H. simpl in H.
      destruct H as (d1 & d2 & d3 & d4 & d5 & extra & E1 & E2).
      repeat split; try congruence.
      exists (mkFloatArg (tok_str (lastMatchTok p2)) (tok_len (lastMatchTok p2))
                gi :: extra).
      split; [constructor; [reflexivity | exact E1]|].
      destruct r.
      * destruct E2 as [E2 E3]. split; [lia|].
        rewrite E3, c3, a3, <- app_assoc. reflexivity.
      * destruct E2 as [E2 E3]. split; [exact E2|].
        rewrite E3, c3, a3, <- app_assoc. reflexivity.
    + inversion H; subst; clear H. simpl.
      repeat split; try congruence.
      exists []. split; [constructor|]. split; [reflexivity|].
      rewrite app_nil_r, c3, a3. reflexivity.
  - inversion H; subst; clear H.
    repeat split; try congruence.
    exists []. split; [constructor|]. split; [lia|].
    rewrite app_nil_r. congruence.
Qed.

Lemma EXT_ARGS_Arg_aliases_fuel (fuel : nat) (man : bool) (gi : nat)
  (bk : string) (fbk : nat) :
  forall (n : nat) (prs : EXT_ARGS_Parser),
    String.length (str prs) < fuel ->
    EXT_ARGS_Arg_aliases fuel man gi bk fbk n prs <> OutOfFuel.
Proof.
  induction fuel as [|fuel IH]; intros n prs L; [lia|]. simpl.
  pose proof (EXT_ARGS_Match_fuel EXT_ARGS_TOK_PIPE prs false) as N1.
  destruct (EXT_ARGS_Match EXT_ARGS_TOK_PIPE prs false) as [[b1 p1]| |] eqn:M1;
    simpl; try congruence.
  apply EXT_ARGS_Match_Ret in M1. destruct M1 as (_ & L1 & T1 & _).
  destruct b1; simpl; [|discriminate].
  pose proof (EXT_ARGS_Match_fuel EXT_ARGS_TOK_FLOAT_ARG p1 man) as N2.
  destruct (EXT_ARGS_Match EXT_ARGS_TOK_FLOAT_ARG p1 man) as [[b2 p2]| |] eqn:M2;
    simpl; try congruence.
  apply EXT_ARGS_Match_Ret in M2. destruct M2 as (_ & L2 & _).
  destruct b2; simpl; [|discriminate].
  apply IH. simpl.
  assert (EXT_ARGS_TOK_PIPE <> EXT_ARGS_TOK_EOI) by discriminate.
  specialize (T1 eq_refl). intuition lia.
Qed.

Lemma group_ok_new (o a r : bool) (n : nat) :
  (r = true -> a = true) -> group_ok (mkGroup o a false r n None false None).
Proof. intros H R. simpl in *. auto. Qed.

Lemma group_fresh_new (o a q r : bool) (n : nat) :
  group_fresh (mkGroup o a q r n None false None).
Proof. repeat split. Qed.

Lemma model_ok_same (prs prs' : EXT_ARGS_Parser) :
  same_model prs prs' -> model_ok prs -> model_ok prs'.
Proof.
  intros (a1 & a2 & a3 & a4 & a5 & a6 & a7) (H1 & H2 & H3).
  unfold model_ok. rewrite a2, a3. auto.
Qed.

(** The model after a group was saved for the aliases collected so far. *)
Lemma model_ok_SaveGroup (prs p : EXT_ARGS_Parser) (extra : list EXT_ARGS_FloatArg)
  (a r : bool) (n : nat) :
  model_ok prs ->
  groups p = groups prs ->
  floats p = floats prs ++ extra ->
  Forall (fun f => fa_groupIdx f = List.length (groups prs)) extra ->
  (r = true -> a = true) ->
  model_ok (EXT_ARGS_SaveGroup p a r n).
Proof.
  intros (H1 & H2 & H3) G F E R. unfold model_ok, EXT_ARGS_SaveGroup. simpl.
  rewrite G, F. split; [|split].
  - apply Forall_app. split; [exact H1|].
    constructor; [apply group_ok_new; exact R | constructor].
  - apply Forall_app. split; [exact H2|].
    constructor; [apply group_fresh_new | constructor].
  - rewrite length_app. simpl. apply Forall_app. split.
    + eapply Forall_impl; [|exact H3]. simpl. intros; lia.
    + eapply Forall_impl; [|exact E]. simpl. intros; lia.
Qed.

Lemma EXT_ARGS_Arg_Ret (prs prs' : EXT_ARGS_Parser) (man b : bool) :
  model_ok prs ->
  EXT_ARGS_Arg prs man = Ret (b, prs') ->
  model_ok prs' /\ advances b prs prs'
  /\ varPosArgsEnabled prs' = varPosArgsEnabled prs.
Proof.
  intros OK H. unfold EXT_ARGS_Arg in H.
  assert (NE1 : EXT_ARGS_TOK_NAME <> EXT_ARGS_TOK_EOI) by discriminate.
  assert (NE2 : EXT_ARGS_TOK_FLOAT_ARG <> EXT_ARGS_TOK_EOI) by discriminate.
  assert (NE3 : EXT_ARGS_TOK_LBRAK <> EXT_ARGS_TOK_EOI) by discriminate.
  apply bind_Ret in H. destruct H as ([b1 p1] & M1 & H).
  apply EXT_ARGS_Match_Ret in M1. destruct M1 as (S1 & L1 & T1 & F1 & _).
  destruct b1; step_in H.
  { (* a positional argument *)
    inversion H; subst; clear H.
    destruct S1 as (a1 & a2 & a3 & a4 & a5 & a6 & a7).
    split; [|split].
    - destruct OK as (H1 & H2 & H3). unfold model_ok, EXT_ARGS_SavePosArg.
      simpl. rewrite a2, a3. auto.
    - unfold advances, EXT_ARGS_SavePosArg. simpl.
      specialize (T1 eq_refl NE1). split; [lia | intros _; lia].
    - simpl. exact a5. }
  rewrite (F1 eq_refl) in H. clear F1 L1 T1 S1 p1.
  apply bind_Ret in H. destruct H as ([b2 p2] & M2 & H).
  apply EXT_ARGS_Match_Ret in M2. destruct M2 as (S2 & L2 & T2 & F2 & _).
  destruct b2; step_in H.
  2:{ inversion H; subst; clear H. rewrite (F2 eq_refl).
      split; [exact OK|]. split; [split; [lia | discriminate] | reflexivity]. }
  specialize (T2 eq_refl NE2).
  destruct S2 as (a1 & a2 & a3 & a4 & a5 & a6 & a7).
  unfold EXT_ARGS_CurrentPos, EXT_ARGS_SaveFloatArg in H. step_in H.
  apply bind_Ret in H. destruct H as ([r p4] & A & H).
  apply EXT_ARGS_Arg_aliases_Ret in A. simpl in A.
  destruct A as (c1 & c2 & c3 & c4 & c5 & extra & E1 & E2).
  rewrite a2 in E1, E2, c2. rewrite a3 in E2. rewrite a5 in c4.
  set (f0 := mkFloatArg (tok_str (lastMatchTok p2)) (tok_len (lastMatchTok p2))
               (List.length (groups prs))) in *.
  destruct r as [n|].
  2:{ (* an alias is missing after a pipe *)
      inversion H; subst; clear H. destruct E2 as [E2 E3].
      split; [|split; [split; [rewrite E2; lia | discriminate] | exact c4]].
      destruct OK as (H1 & H2 & H3). unfold model_ok. rewrite c2, E3.
      rewrite <- app_assoc, firstn_app, Nat.sub_diag, firstn_all.
      simpl. rewrite app_nil_r. auto. }
  destruct E2 as [E2 E3].
  assert (EX : Forall (fun f => fa_groupIdx f = List.length (groups prs))
                 (f0 :: extra)) by (constructor; [reflexivity | exact E1]).
  rewrite <- app_assoc in E3. simpl in E3.
  apply bind_Ret in H. destruct H as ([b5 p5] & V & H).
  apply EXT_ARGS_AssignVal_Ret in V. destruct V as (S5 & [L5 T5] & F5).
  destruct S5 as (d1 & d2 & d3 & d4 & d5 & d6 & d7).
  destruct b5; step_in H.
  { (* a mandatory value, possibly repeated *)
    apply bind_Ret in H. destruct H as ([rep p6] & M6 & H).
    apply EXT_ARGS_Match_Ret in M6. destruct M6 as (S6 & L6 & _).
    destruct S6 as (e1 & e2 & e3 & e4 & e5 & e6 & e7).
    inversion H; subst; clear H.
    split; [|split].
    - eapply model_ok_SaveGroup with (extra := f0 :: extra); eauto; congruence.
    - unfold advances, EXT_ARGS_SaveGroup. simpl. split; [lia | intros _; lia].
    - simpl. congruence. }
  set (p7 := EXT_ARGS_SaveGroup p5 false false n) in *.
  assert (OK7 : model_ok p7).
  { eapply model_ok_SaveGroup with (extra := f0 :: extra); eauto; congruence. }
  assert (G7 : groups p7
               = groups prs ++ [mkGroup (parsingStates_isOptional p5) false false
                                   false n None false None]).
  { unfold p7, EXT_ARGS_SaveGroup. simpl. congruence. }
  assert (L7 : String.length (str p7) < String.length (str prs)).
  { unfold p7, EXT_ARGS_SaveGroup. simpl. lia. }
  assert (V7 : varPosArgsEnabled p7 = varPosArgsEnabled prs).
  { unfold p7, EXT_ARGS_SaveGroup. simpl. congruence. }
  assert (RB : forall q, same_model p7 q ->
                 model_ok (EXT_ARGS_Rollback q (str p7))
                 /\ advances true prs (EXT_ARGS_Rollback q (str p7))
                 /\ varPosArgsEnabled (EXT_ARGS_Rollback q (str p7))
                    = varPosArgsEnabled prs).
  { intros q Sq. split; [|split].
    - eapply model_ok_same; [|exact OK7].
      eapply same_model_trans; [exact Sq | apply same_model_set_str].
    - unfold advances. simpl. split; [lia | intros _; lia].
    - simpl. destruct Sq as (q1 & q2 & q3 & q4 & q5 & q6 & q7). congruence. }
  clearbody p7.
  apply bind_Ret in H. destruct H as ([b8 p8] & M8 & H).
  apply EXT_ARGS_Match_Ret in M8. destruct M8 as (S8 & L8 & _).
  destruct b8; step_in H.
  2:{ inversion H; subst; clear H. apply RB. exact S8. }
  apply bind_Ret in H. destruct H as ([b9 p9] & V9 & H).
  apply EXT_ARGS_AssignVal_Ret in V9. destruct V9 as (S9 & [L9 _] & _).
  assert (S79 : same_model p7 p9) by (eapply same_model_trans; eassumption).
  destruct b9; step_in H.
  2:{ inversion H; subst; clear H. apply RB. exact S79. }
  apply bind_Ret in H. destruct H as ([b10 p10] & M10 & H).
  apply EXT_ARGS_Match_Ret in M10. destruct M10 as (S10 & L10 & _).
  assert (S710 : same_model p7 p10) by (eapply same_model_trans; eassumption).
  destruct b10; step_in H.
  2:{ inversion H; subst; clear H. apply RB. exact S710. }
  (* the value is optional *)
  inversion H; subst; clear H.
  destruct S710 as (q1 & q2 & q3 & q4 & q5 & q6 & q7).
  destruct OK7 as (H1 & H2 & H3).
  split; [|split].
  - unfold model_ok. simpl. rewrite list_update_length, q2, q3.
    split; [|split; [|exact H3]].
    + rewrite a2, G7, list_update_app_last.
      rewrite G7 in H1. apply Forall_app in H1. destruct H1 as [H1 _].
      apply Forall_app. split; [exact H1|].
      constructor; [|constructor]. intros R. discriminate R.
    + apply list_update_Forall; [|exact H2].
      intros g (g1 & g2 & g3). repeat split; assumption.
  - unfold advances. simpl. split; [lia | intros _; lia].
  - simpl. congruence.
Qed.

Lemma EXT_ARGS_Arg_fuel (prs : EXT_ARGS_Parser) (man : bool) :
  EXT_ARGS_Arg prs man <> OutOfFuel.
Proof.
  unfold EXT_ARGS_Arg, EXT_ARGS_SaveFloatArg. cbv beta iota zeta.
  fuel_bind ltac:(apply EXT_ARGS_Match_fuel); try discriminate.
  fuel_bind ltac:(apply EXT_ARGS_Match_fuel); try discriminate.
  match goal with
  | |- bind ?m _ <> OutOfFuel =>
      assert (NA : m <> OutOfFuel)
        by (apply EXT_ARGS_Arg_aliases_fuel; apply Nat.lt_succ_diag_r);
      destruct m as [[[n|] q]| |]; [| discriminate | discriminate | congruence]
  end.
  cbn [bind]. cbv beta iota.
  fuel_bind ltac:(apply EXT_ARGS_AssignVal_fuel).
  - fuel_bind ltac:(apply EXT_ARGS_Match_fuel); discriminate.
  - fuel_bind ltac:(apply EXT_ARGS_Match_fuel); try discriminate.
    fuel_bind ltac:(apply EXT_ARGS_AssignVal_fuel); try discriminate.
    fuel_bind ltac:(apply EXT_ARGS_Match_fuel); discriminate.
Qed.

Lemma model_ok_set_isOptional (prs : EXT_ARGS_Parser) (b : bool) :
  model_ok prs -> model_ok (set_isOptional prs b).
Proof. intros H. exact H. Qed.

Lemma EXT_ARGS_Decl_Ret (prs prs' : EXT_ARGS_Parser) (man b : bool) :
  model_ok prs ->
  EXT_ARGS_Decl prs man = Ret (b, prs') ->
  model_ok prs' /\ advances b prs prs'
  /\ varPosArgsEnabled prs' = varPosArgsEnabled prs.
Proof.
  intros OK H. unfold EXT_ARGS_Decl, EXT_ARGS_CurrentPos in H.
  cbv beta iota zeta in H.
  apply bind_Ret in H. destruct H as ([b1 p1] & A1 & H).
  apply EXT_ARGS_Arg_Ret in A1; [|apply model_ok_set_isOptional; exact OK].
  destruct A1 as (OK1 & [L1 T1] & V1). simpl in L1, T1, V1.
  destruct b1; step_in H.
  { inversion H; subst; clear H.
    split; [exact OK1|]. split; [split; assumption | exact V1]. }
  apply bind_Ret in H. destruct H as ([b2 p2] & M2 & H).
  apply EXT_ARGS_Match_Ret in M2. destruct M2 as (S2 & L2 & T2 & F2 & _).
  assert (OK2 : model_ok p2) by (eapply model_ok_same; eassumption).
  assert (V2 : varPosArgsEnabled p2 = varPosArgsEnabled prs).
  { destruct S2 as (a1 & a2 & a3 & a4 & a5 & a6 & a7). congruence. }
  destruct b2; step_in H.
  2:{ inversion H; subst; clear H.
      split; [exact OK2|]. split; [split; [lia | discriminate] | exact V2]. }
  assert (NE : EXT_ARGS_TOK_LBRAK <> EXT_ARGS_TOK_EOI) by discriminate.
  specialize (T2 eq_refl NE).
  apply bind_Ret in H. destruct H as ([b3 p3] & A3 & H).
  apply EXT_ARGS_Arg_Ret in A3; [|apply model_ok_set_isOptional; exact OK2].
  destruct A3 as (OK3 & [L3 T3] & V3). simpl in L3, T3, V3.
  destruct b3; step_in H.
  2:{ inversion H; subst; clear H. unfold EXT_ARGS_Rollback.
      split; [eapply model_ok_same; [apply same_model_set_str | exact OK3]|].
      split; [split; [simpl; lia | discriminate] | simpl; congruence]. }
  apply bind_Ret in H. destruct H as ([b4 p4] & M4 & H).
  apply EXT_ARGS_Match_Ret in M4. destruct M4 as (S4 & L4 & T4 & F4 & _).
  assert (OK4 : model_ok p4) by (eapply model_ok_same; eassumption).
  assert (V4 : varPosArgsEnabled p4 = varPosArgsEnabled prs).
  { destruct S4 as (a1 & a2 & a3 & a4 & a5 & a6 & a7). congruence. }
  destruct b4; step_in H; inversion H; subst; clear H.
  - split; [exact OK4|]. split; [split; [lia | intros _; lia] | exact V4].
  - unfold EXT_ARGS_Rollback.
    split; [eapply model_ok_same; [apply same_model_set_str | exact OK4]|].
    split; [split; [simpl; lia | discriminate] | simpl; congruence].
Qed.

Lemma EXT_ARGS_Decl_fuel (prs : EXT_ARGS_Parser) (man : bool) :
  EXT_ARGS_Decl prs man <> OutOfFuel.
Proof.
  unfold EXT_ARGS_Decl. cbv beta iota zeta.
  fuel_bind ltac:(apply EXT_ARGS_Arg_fuel); try discriminate.
  fuel_bind ltac:(apply EXT_ARGS_Match_fuel); try discriminate.
  fuel_bind ltac:(apply EXT_ARGS_Arg_fuel); try discriminate.
  fuel_bind ltac:(apply EXT_ARGS_Match_fuel); discriminate.
Qed.

Lemma EXT_ARGS_Synopsis_decls_Ret (fuel : nat) :
  forall prs prs' : EXT_ARGS_Parser,
    model_ok prs ->
    EXT_ARGS_Synopsis_decls fuel prs = Ret prs' ->
    model_ok prs' /\ varPosArgsEnabled prs' = varPosArgsEnabled prs.
Proof.
  induction fuel as [|fuel IH]; intros prs prs' OK H; simpl in H;
    [discriminate|].
  apply bind_Ret in H. destruct H as ([b p] & D & H).
  apply EXT_ARGS_Decl_Ret in D; [|exact OK]. destruct D as (OK1 & _ & V1).
  destruct b.
  - apply IH in H; [|exact OK1]. destruct H as [H1 H2].
    split; [exact H1 | congruence].
  - inversion H; subst; clear H. split; assumption.
Qed.

Lemma EXT_ARGS_Synopsis_decls_fuel (fuel : nat) :
  forall prs : EXT_ARGS_Parser,
    model_ok prs ->
    String.length (str prs) < fuel ->
    EXT_ARGS_Synopsis_decls fuel prs <> OutOfFuel.
Proof.
  induction fuel as [|fuel IH]; intros prs OK L; [lia|]. simpl.
  pose proof (EXT_ARGS_Decl_fuel prs false) as N.
  destruct (EXT_ARGS_Decl prs false) as [[b p]| |] eqn:D; simpl;
    try congruence.
  apply EXT_ARGS_Decl_Ret in D; [|exact OK]. destruct D as (OK1 & [L1 T1] & _).
  destruct b; [|discriminate].
  apply IH; [exact OK1|]. specialize (T1 eq_refl). lia.
Qed.

Lemma model_ok_init (fmt : string) : model_ok (Parser_init fmt).
Proof. repeat split; constructor. Qed.

(** The schema parser leaves a well-formed model. *)
Lemma EXT_ARGS_Synopsis_model_ok (fmt : string) (prs : EXT_ARGS_Parser) :
  EXT_ARGS_Synopsis (Parser_init fmt) = Ret prs -> model_ok prs.
Proof.
  unfold EXT_ARGS_Synopsis. intros H.
  apply bind_Ret in H. destruct H as (p1 & D & H).
  apply EXT_ARGS_Synopsis_decls_Ret in D; [|apply model_ok_init].
  destruct D as [OK1 _].
  apply bind_Ret in H. destruct H as ([b2 p2] & M2 & H).
  apply EXT_ARGS_Match_Ret in M2. destruct M2 as (S2 & _).
  cbv beta iota zeta in H.
  apply bind_Ret in H. destruct H as ([b3 p3] & M3 & H).
  apply EXT_ARGS_Match_Ret in M3. destruct M3 as (S3 & _).
  inversion H; subst; clear H.
  eapply model_ok_same; [exact S3|].
  destruct b2; [|eapply model_ok_same; eassumption].
  assert (OK2 : model_ok p2) by (eapply model_ok_same; eassumption).
  exact OK2.
Qed.

(** The bound on the loops of the schema parser is never reached: the
    parser returns a model or raises a schema error. *)
Lemma EXT_ARGS_Synopsis_total (fmt : string) :
  EXT_ARGS_Synopsis (Parser_init fmt) <> OutOfFuel.
Proof.
  unfold EXT_ARGS_Synopsis.
  assert (N : EXT_ARGS_Synopsis_decls
                (S (String.length (str (Parser_init fmt)))) (Parser_init fmt)
              <> OutOfFuel).
  { apply EXT_ARGS_Synopsis_decls_fuel;
      [apply model_ok_init | apply Nat.lt_succ_diag_r]. }
  destruct (EXT_ARGS_Synopsis_decls _ _) as [p| |]; [|discriminate|congruence].
  cbn [bind].
  fuel_bind ltac:(apply EXT_ARGS_Match_fuel);
    fuel_bind ltac:(apply EXT_ARGS_Match_fuel); discriminate.
Qed.

Lemma compile_schema_total (fmt : string) : compile_schema fmt <> None.
Proof.
  unfold compile_schema. pose proof (EXT_ARGS_Synopsis_total fmt) as N.
  destruct (EXT_ARGS_Synopsis (Parser_init fmt)); try congruence.
  destruct (_ && _); discriminate.
Qed.

Lemma compile_schema_Ok (fmt : string) (prs : EXT_ARGS_Parser) :
  compile_schema fmt = Some (Ok prs) ->
  EXT_ARGS_Synopsis (Parser_init fmt) = Ret prs
  /\ (Nat.ltb 1 (List.length (posArgs prs))
      && optional_then_mandatory (posArgs prs)) = false.
Proof.
  unfold compile_schema.
  destruct (EXT_ARGS_Synopsis (Parser_init fmt)) as [p| |]; try discriminate.
  destruct (_ && _) eqn:E; intros H; inversion H; subst. auto.
Qed.

(** Every alias of the compiled schema is filed under a group that exists. *)
Lemma Synopsis_groupIdx_in_range (fmt : string) (prs : EXT_ARGS_Parser) :
  EXT_ARGS_Synopsis (Parser_init fmt) = Ret prs ->
  Forall (fun f => fa_groupIdx f < List.length (groups prs)) (floats prs).
Proof.
  intros H. apply EXT_ARGS_Synopsis_model_ok in H. apply H.
Qed.

(** ** Schema validation *)

(** An optional positional argument somewhere before a mandatory one means
    that two neighbours are in that order, which is what the loop tests. *)
Lemma optional_then_mandatory_found (l : list EXT_ARGS_PosArg) :
  forall (i j : nat) (a b : EXT_ARGS_PosArg),
    i < j ->
    nth_error l i = Some a -> nth_error l j = Some b ->
    pa_isOptional a = true -> pa_isOptional b = false ->
    optional_then_mandatory l = true /\ 1 < List.length l.
Proof.
  induction l as [|x l IH]; intros i j a b Lt Ha Hb Oa Ob.
  - destruct i; discriminate.
  - destruct j as [|j]; [lia|]. simpl in Hb.
    destruct l as [|y l']; [destruct j; discriminate|].
    split; [|simpl; lia].
    change (optional_then_mandatory (x :: y :: l'))
      with ((pa_isOptional x && negb (pa_isOptional y))
            || optional_then_mandatory (y :: l')).
    destruct i as [|i].
    + simpl in Ha. inversion Ha; subst x. rewrite Oa.
      destruct (pa_isOptional y) eqn:Oy; [|reflexivity].
      cbn [negb andb orb].
      destruct j as [|j]; [simpl in Hb; congruence|].
      apply (proj1 (IH 0 (S j) y b ltac:(lia) eq_refl Hb Oy Ob)).
    + simpl in Ha. apply orb_true_iff. right.
      apply (proj1 (IH i j a b ltac:(lia) Ha Hb Oa Ob)).
Qed.

(** C6: a schema that the parser accepts and in which an optional positional
    argument comes before a mandatory one is rejected with the fixed message
    of the additional schema validation, whatever argument vector, pointers
    and variables the call is given. *)
Theorem optional_before_mandatory_rejected
  (fmt : string) (prs : EXT_ARGS_Parser) (i j : nat) (a b : EXT_ARGS_PosArg) :
  EXT_ARGS_Synopsis (Parser_init fmt) = Ret prs ->
  i < j ->
  nth_error (posArgs prs) i = Some a ->
  nth_error (posArgs prs) j = Some b ->
  pa_isOptional a = true ->
  pa_isOptional b = false ->
  forall (argv : list string) (ap : list ptr) (m : store),
    ext_args argv fmt ap m
    = Some (EXT_ARGS_SCHEMA_ERR
              "All optional non-flag arguments must be chained on the schema's right side",
            m).
Proof.
  intros S Lt Ha Hb Oa Ob argv ap m.
  destruct (optional_then_mandatory_found _ i j a b Lt Ha Hb Oa Ob) as [F L].
  unfold ext_args, compile_schema. rewrite S, F.
  apply Nat.ltb_lt in L. rewrite L. reflexivity.
Qed.

Lemma optional_before_mandatory_rejected_witness :
  0 < 1
  /\ ext_args ["prog"; "x"] "[a] b" [Some 0; Some 1] store_init
     = Some (EXT_ARGS_SCHEMA_ERR
               "All optional non-flag arguments must be chained on the schema's right side",
             store_init).
Proof.
  split; [lia|].
  eapply (optional_before_mandatory_rejected "[a] b" _ 0 1).
  - vm_compute. reflexivity.
  - lia.
  - reflexivity.
  - reflexivity.
  - reflexivity.
  - reflexivity.
Defined.

(** C8: in the model of every schema that the parser accepts, a repeatable
    group takes a value, and its value is not of the bracket-optional kind. *)
Theorem repeatable_group_takes_value (fmt : string) (prs : EXT_ARGS_Parser) :
  EXT_ARGS_Synopsis (Parser_init fmt) = Ret prs ->
  forall g : EXT_ARGS_FloatArgsGroup,
    In g (groups prs) ->
    isRepeating g = true ->
    hasAssign g = true /\ isAssignOptional g = false.
Proof.
  intros S g I R.
  apply EXT_ARGS_Synopsis_model_ok in S. destruct S as (H & _ & _).
  rewrite Forall_forall in H. exact (H g I R).
Qed.

Lemma repeatable_group_takes_value_witness :
  hasAssign (mkGroup false true false true 1 None false None) = true
  /\ isAssignOptional (mkGroup false true false true 1 None false None) = false.
Proof.
  eapply (repeatable_group_takes_value "-D=val...").
  - vm_compute. reflexivity.
  - left. reflexivity.
  - reflexivity.
Defined.

(** ** Binding on concrete schemas *)

(** C1: with the schema "a [b] ...", the arguments "1" "2" "3" bind the
    first variable to "1", the second to "2" and the trailing one to the
    array "3", NULL; the single argument "1" binds the first variable to
    "1", the second to NULL and the trailing one to an array that holds
    only the terminating NULL (an empty sequence, not a NULL pointer). *)
Theorem positional_and_trailing_binding (m : store) :
  (exists m',
     ext_args ["prog"; "1"; "2"; "3"] "a [b] ..." [Some 0; Some 1; Some 2] m
     = Some (EXT_ARGS_NO_ERR, m')
     /\ m' 0 = VStr (Str "1")
     /\ m' 1 = VStr (Str "2")
     /\ m' 2 = VAry [Str "3"; NULL])
  /\ (exists m',
        ext_args ["prog"; "1"] "a [b] ..." [Some 0; Some 1; Some 2] m
        = Some (EXT_ARGS_NO_ERR, m')
        /\ m' 0 = VStr (Str "1")
        /\ m' 1 = VStr NULL
        /\ m' 2 = VAry [NULL]
        /\ m' 2 <> VStr NULL).
Proof.
  split; eexists; (split; [vm_compute; reflexivity|]); cbv;
    repeat split; discriminate.
Qed.

(** C2: with the schema "-D=val...", the arguments "-D=1" "-D=2" bind the
    variable to the array "1", "2", NULL, in the order of the input; with
    "[-D=val...]" and no occurrence of the flag the variable is bound to an
    array that holds only the terminating NULL. *)
Theorem repeating_group_binding (m : store) :
  (exists m',
     ext_args ["prog"; "-D=1"; "-D=2"] "-D=val..." [Some 0] m
     = Some (EXT_ARGS_NO_ERR, m')
     /\ m' 0 = VAry [Str "1"; Str "2"; NULL])
  /\ (exists m',
        ext_args ["prog"] "[-D=val...]" [Some 0] m
        = Some (EXT_ARGS_NO_ERR, m')
        /\ m' 0 = VAry [NULL]
        /\ m' 0 <> VStr NULL).
Proof.
  split; eexists; (split; [vm_compute; reflexivity|]); cbv;
    repeat split; discriminate.
Qed.

(** C3: with "-a[=val]" the bare flag "-a" binds the variable to
    [ext_args_no_value], which is neither NULL nor a pointer into the
    arguments (not even when the user writes the sentinel's own text), and
    "-a=x" binds it to "x"; with "[-a[=val]]" and no flag the variable
    is bound to NULL. *)
Theorem optional_value_binding (m : store) :
  (exists m',
     ext_args ["prog"; "-a"] "-a[=val]" [Some 0] m = Some (EXT_ARGS_NO_ERR, m')
     /\ m' 0 = VStr ext_args_no_value)
  /\ ext_args_no_value <> NULL
  /\ (forall s : string, ext_args_no_value <> Str s)
  /\ (exists m',
        ext_args ["prog"; "-a=(NO VALUE)"] "-a[=val]" [Some 0] m
        = Some (EXT_ARGS_NO_ERR, m')
        /\ m' 0 = VStr (Str ext_args_no_value_text)
        /\ m' 0 <> VStr ext_args_no_value)
  /\ (exists m',
        ext_args ["prog"; "-a=x"] "-a[=val]" [Some 0] m
        = Some (EXT_ARGS_NO_ERR, m')
        /\ m' 0 = VStr (Str "x"))
  /\ (exists m',
        ext_args ["prog"] "[-a[=val]]" [Some 0] m = Some (EXT_ARGS_NO_ERR, m')
        /\ m' 0 = VStr NULL).
Proof.
  split; [eexists; split; [vm_compute; reflexivity | reflexivity]|].
  split; [discriminate|].
  split; [discriminate|].
  split; [eexists; split; [vm_compute; reflexivity|];
          cbv; split; [reflexivity | discriminate]|].
  split; eexists; (split; [vm_compute; reflexivity | reflexivity]).
Qed.

(** ** Errors leave the caller's variables alone *)

(** C9: when [ext_args] returns a schema error or an input error, the
    variables of the caller are as they were before the call; a variable
    changes only in a call whose schema compiled and whose input passed
    lexing, parsing and the three validations. *)
Theorem errors_write_nothing (argv : list string) (fmt : string)
  (ap : list ptr) (m m' : store) (res : result) :
  ext_args argv fmt ap m = Some (res, m') ->
  ((exists msg, res = EXT_ARGS_SCHEMA_ERR msg \/ res = EXT_ARGS_INPUT_ERR msg)
   -> m' = m)
  /\ ((exists a, m' a <> m a)
      -> res = EXT_ARGS_NO_ERR
         /\ exists prs st,
              compile_schema fmt = Some (Ok prs) /\ check_input argv prs = Ok st).
Proof.
  unfold ext_args. intros H.
  destruct (compile_schema fmt) as [[prs|r]|]; try discriminate.
  2:{ inversion H; subst. split; [reflexivity|].
      intros (a & Ha). elim Ha. reflexivity. }
  destruct (check_input argv prs) as [[[prs1 ufs] vals]|r] eqn:C.
  2:{ inversion H; subst. split; [reflexivity|].
      intros (a & Ha). elim Ha. reflexivity. }
  destruct (get_var_ptrs (sequence prs1) ap prs1) as [[ap' prs2]|];
    try discriminate.
  destruct (get_varPos_ptr ap' prs2) as [prs3|]; try discriminate.
  inversion H; subst. split.
  - intros (msg & [E|E]); discriminate E.
  - intros _. split; [reflexivity|]. do 2 eexists.
    split; [reflexivity | exact C].
Qed.

Lemma errors_write_nothing_witness :
  ext_args ["prog"; "-a"; "-a"] "[-a]" [Some 0] store_init
  = Some (EXT_ARGS_INPUT_ERR "Same arguments provided multiple times: -a",
          store_init)
  /\ ((exists msg,
         EXT_ARGS_INPUT_ERR "Same arguments provided multiple times: -a"
         = EXT_ARGS_SCHEMA_ERR msg
         \/ EXT_ARGS_INPUT_ERR "Same arguments provided multiple times: -a"
            = EXT_ARGS_INPUT_ERR msg)
      -> store_init = store_init).
Proof.
  assert (E : ext_args ["prog"; "-a"; "-a"] "[-a]" [Some 0] store_init
              = Some (EXT_ARGS_INPUT_ERR
                        "Same arguments provided multiple times: -a",
                      store_init))
    by (vm_compute; reflexivity).
  split; [exact E|].
  exact (proj1 (errors_write_nothing _ _ _ _ _ _ E)).
Defined.

(** ** The binding stage writes without reading *)

Lemma write_only_id : write_only (fun m => m).
Proof. intros m1 m2 a. right. split; reflexivity. Qed.

Lemma write_only_write_if (p : ptr) (v : value) : write_only (write_if p v).
Proof.
  intros m1 m2 a. destruct p as [x|]; simpl.
  - destruct (Nat.eqb a x); [left; reflexivity | right; split; reflexivity].
  - right. split; reflexivity.
Qed.

Lemma write_only_comp (B1 B2 : store -> store) :
  write_only B1 -> write_only B2 -> write_only (fun m => B2 (B1 m)).
Proof.
  intros H1 H2 m1 m2 a.
  destruct (H2 (B1 m1) (B1 m2) a) as [E|[E1 E2]]; [left; exact E|].
  rewrite E1, E2. apply H1.
Qed.

Lemma write_only_ext (B B' : store -> store) :
  (forall m, B m = B' m) -> write_only B -> write_only B'.
Proof. intros E H m1 m2 a. rewrite <- !E. apply H. Qed.

Lemma writes_ret {A : Type} (a : A) (B : store -> store) :
  write_only B -> writes (fun m => (a, B m)).
Proof. intros H. exists a, B. split; [exact H | reflexivity]. Qed.

Lemma fill_float_writes (uf : EXT_ARGS_UFloatArg) (prs : EXT_ARGS_Parser) :
  writes (fun m => fill_float uf (prs, m)).
Proof.
  unfold fill_float.
  destruct (find (float_matches uf) (floats prs)) as [f|];
    [|apply writes_ret, write_only_id].
  cbv zeta.
  destruct (isRepeating _); [apply writes_ret, write_only_write_if|].
  destruct (hasAssign _); [|apply writes_ret, write_only_write_if].
  destruct (negb _); apply writes_ret, write_only_write_if.
Qed.

Lemma fill_floats_writes (ufs : list EXT_ARGS_UFloatArg) :
  forall prs : EXT_ARGS_Parser, writes (fun m => fill_floats ufs (prs, m)).
Proof.
  unfold fill_floats.
  induction ufs as [|uf ufs IH]; intros prs; cbn [fold_left].
  - apply writes_ret, write_only_id.
  - destruct (fill_float_writes uf prs) as (p1 & B1 & W1 & E1).
    destruct (IH p1) as (p2 & B2 & W2 & E2).
    exists p2, (fun m => B2 (B1 m)).
    split; [apply write_only_comp; assumption|].
    intros m. rewrite E1. apply E2.
Qed.

Lemma fill_missing_writes (grs : list EXT_ARGS_FloatArgsGroup) :
  writes (fill_missing grs).
Proof.
  induction grs as [|gr grs IH]; simpl.
  - apply writes_ret, write_only_id.
  - destruct IH as (g2 & B2 & W2 & E2).
    assert (W1 : writes (fun m =>
               if negb (isUsed gr) && isOptional gr
               then
                 if isRepeating gr
                 then (set_ary (Some (ary_save (ary gr) NULL)) gr,
                       write_if (varPtr gr) (VAry (ary_save (ary gr) NULL)) m)
                 else if hasAssign gr
                      then (gr, write_if (varPtr gr) (VStr NULL) m)
                      else (gr, write_if (varPtr gr) (VBool false) m)
               else (gr, m))).
    { destruct (negb (isUsed gr) && isOptional gr);
        [|apply writes_ret, write_only_id].
      destruct (isRepeating gr); [apply writes_ret, write_only_write_if|].
      destruct (hasAssign gr); apply writes_ret, write_only_write_if. }
    destruct W1 as (g1 & B1 & W1 & E1).
    exists (g1 :: g2), (fun m => B2 (B1 m)).
    split; [apply write_only_comp; assumption|].
    intros m. rewrite E1, E2. reflexivity.
Qed.

Lemma null_missing_write_only (prs : EXT_ARGS_Parser) (n : nat) :
  write_only (null_missing prs n).
Proof.
  unfold null_missing. generalize (skipn n (posArgs prs)) as l.
  intros l.
  assert (G : forall B, write_only B ->
                write_only (fun m =>
                  fold_left (fun m a => write_if (pa_varPtr a) (VStr NULL) m)
                    l (B m))).
  { induction l as [|a l IH]; intros B WB; simpl; [exact WB|].
    apply (IH (fun m => write_if (pa_varPtr a) (VStr NULL) (B m))).
    apply write_only_comp; [exact WB | apply write_only_write_if]. }
  apply (G (fun m => m)), write_only_id.
Qed.

Lemma fill_posArgs_writes (prs : EXT_ARGS_Parser) (vals : list string) :
  forall (i : nat) (opts : option (list cstr)),
    writes (fill_posArgs prs i vals opts).
Proof.
  induction vals as [|v vals IH]; intros i opts; simpl.
  - apply writes_ret, write_only_id.
  - destruct (Nat.ltb i (List.length (posArgs prs))).
    + destruct (IH (S i) opts) as (o & B & W & E).
      exists o.
      exists (fun m =>
                B (write_if
                     (pa_varPtr (nth i (posArgs prs) (mkPosArg false EmptyString 0 None)))
                     (VStr (Str v)) m)).
      split; [|intros m; apply E].
      apply (write_only_comp (write_if _ _) B);
        [apply write_only_write_if | exact W].
    + destruct (varPosrArgsVarPtr prs) as [x|];
        [|apply writes_ret, write_only_id].
      destruct (IH (S i) (Some (ary_save opts (Str v)))) as (o & B & W & E).
      exists o.
      exists (fun m =>
                B (write_if (Some x) (VAry (ary_save opts (Str v) ++ [NULL])) m)).
      split; [|intros m; apply E].
      apply (write_only_comp (write_if _ _) B);
        [apply write_only_write_if | exact W].
Qed.

Lemma fill_empty_varPos_write_only (prs : EXT_ARGS_Parser)
  (opts : option (list cstr)) : write_only (fill_empty_varPos prs opts).
Proof.
  unfold fill_empty_varPos. destruct opts; [apply write_only_id|].
  destruct (varPosArgsEnabled prs);
    [apply write_only_write_if | apply write_only_id].
Qed.

Lemma bind_vars_write_only (prs : EXT_ARGS_Parser)
  (ufs : list EXT_ARGS_UFloatArg) (vals : list string) :
  write_only (bind_vars prs ufs vals).
Proof.
  unfold bind_vars.
  destruct (fill_floats_writes ufs prs) as (p1 & B1 & W1 & E1).
  destruct (fill_missing_writes (groups p1)) as (g2 & B2 & W2 & E2).
  set (p2 := set_groups p1 g2).
  destruct (fill_posArgs_writes p2 vals 0 None) as (o & B3 & W3 & E3).
  pose proof (null_missing_write_only p2 (List.length vals)) as WN.
  pose proof (fill_empty_varPos_write_only p2 o) as WE.
  apply (write_only_ext
           (fun m => fill_empty_varPos p2 o
                       (null_missing p2 (List.length vals)
                          (B3 (null_missing p2 (List.length vals)
                                 (B2 (B1 m))))))).
  - intros m. rewrite E1, E2. fold p2. rewrite E3. reflexivity.
  - repeat (apply write_only_comp; try assumption).
Qed.

(** ** Determinism *)

(** The result and the values written do not depend on what the variables
    of the caller held. *)
Lemma ext_args_store_independent (argv : list string) (fmt : string)
  (ap : list ptr) (m1 m2 : store) :
  match ext_args argv fmt ap m1, ext_args argv fmt ap m2 with
  | Some (r1, m1'), Some (r2, m2') =>
      r1 = r2
      /\ forall a, m1' a = m2' a \/ (m1' a = m1 a /\ m2' a = m2 a)
  | None, None => True
  | _, _ => False
  end.
Proof.
  unfold ext_args.
  destruct (compile_schema fmt) as [[prs|r]|]; [| |exact I].
  2:{ split; [reflexivity|]. intros a. right. split; reflexivity. }
  destruct (check_input argv prs) as [[[prs1 ufs] vals]|r].
  2:{ split; [reflexivity|]. intros a. right. split; reflexivity. }
  destruct (get_var_ptrs (sequence prs1) ap prs1) as [[ap' prs2]|]; [|exact I].
  destruct (get_varPos_ptr ap' prs2) as [prs3|]; [|exact I].
  split; [reflexivity|]. intros a. apply bind_vars_write_only.
Qed.

(** C7: calling [ext_args] again with the same argument vector, schema and
    pointers gives the same answer.  Whatever the variables of the caller
    hold before the other call ([m2]), it returns the same code and the same
    message, and every variable is either written with the same value by
    both calls or written by neither.  In particular a second call made
    after the first one, on the variables as the first call left them,
    leaves every variable as it is.  The argument vector and the schema are
    values that no step of [ext_args] changes. *)
Theorem ext_args_deterministic (argv : list string) (fmt : string)
  (ap : list ptr) (m m' : store) (res : result) :
  ext_args argv fmt ap m = Some (res, m') ->
  (forall m2 : store,
     exists m2' : store,
       ext_args argv fmt ap m2 = Some (res, m2')
       /\ forall a : addr,
            m2' a = m' a \/ (m2' a = m2 a /\ m' a = m a))
  /\ exists m'' : store,
       ext_args argv fmt ap m' = Some (res, m'')
       /\ forall a : addr, m'' a = m' a.
Proof.
  intros H.
  assert (G : forall m2 : store,
            exists m2' : store,
              ext_args argv fmt ap m2 = Some (res, m2')
              /\ forall a : addr,
                   m2' a = m' a \/ (m2' a = m2 a /\ m' a = m a)).
  { intros m2.
    pose proof (ext_args_store_independent argv fmt ap m2 m) as I.
    rewrite H in I.
    destruct (ext_args argv fmt ap m2) as [[r2 m2']|]; [|contradiction].
    destruct I as [R W]. subst r2. exists m2'. split; [reflexivity | exact W]. }
  split; [exact G|].
  destruct (G m') as (m'' & E & W). exists m''. split; [exact E|].
  intros a. destruct (W a) as [Q|[Q _]]; exact Q.
Qed.

(** A first call that binds a repeated flag, an absent optional flag and
    two positional arguments. *)
Lemma ext_args_first_call :
  exists m' : store,
    ext_args ["prog"; "-D=1"; "x"; "-D=2"] "-D=val... [-v] a [b]"
      [Some 0; Some 1; Some 2; Some 3] store_init
    = Some (EXT_ARGS_NO_ERR, m')
    /\ m' 0 = VAry [Str "1"; Str "2"; NULL]
    /\ m' 1 = VBool false
    /\ m' 2 = VStr (Str "x")
    /\ m' 3 = VStr NULL.
Proof.
  eexists. split; [vm_compute; reflexivity|]. cbv. repeat split.
Defined.

Lemma ext_args_deterministic_witness :
  exists m' m'' : store,
    ext_args ["prog"; "-D=1"; "x"; "-D=2"] "-D=val... [-v] a [b]"
      [Some 0; Some 1; Some 2; Some 3] store_init
    = Some (EXT_ARGS_NO_ERR, m')
    /\ ext_args ["prog"; "-D=1"; "x"; "-D=2"] "-D=val... [-v] a [b]"
         [Some 0; Some 1; Some 2; Some 3] m'
       = Some (EXT_ARGS_NO_ERR, m'')
    /\ m'' 0 = VAry [Str "1"; Str "2"; NULL].
Proof.
  destruct ext_args_first_call as (m' & E1 & V0 & _).
  destruct (ext_args_deterministic _ _ _ _ _ _ E1) as (_ & m'' & E2 & Same).
  exists m', m''. split; [exact E1|]. split; [exact E2|].
  rewrite Same. exact V0.
Defined.

(** ** Per-occurrence validation *)

(** A validated occurrence changes nothing in the model except that it
    marks its group as used. *)
Lemma validate_float_Ok (uf : EXT_ARGS_UFloatArg) (prs prs' : EXT_ARGS_Parser) :
  validate_float uf prs = Ok prs' ->
  exists f,
    find (float_matches uf) (floats prs) = Some f
    /\ prs' = set_groups prs (list_update (fa_groupIdx f) set_isUsed (groups prs)).
Proof.
  unfold validate_float.
  destruct (find (float_matches uf) (floats prs)) as [f|]; [|discriminate].
  cbv zeta. intros H. exists f. split; [reflexivity|].
  destruct (isUsed _ && negb _); [discriminate|].
  destruct (hasAssign _).
  - destruct (is_NULL _ && negb _); [discriminate|]. inversion H. reflexivity.
  - destruct (negb (is_NULL _)); [discriminate|]. inversion H. reflexivity.
Qed.

Lemma group_at_set_isUsed (prs : EXT_ARGS_Parser) (i j : nat) :
  floats (set_groups prs (list_update i set_isUsed (groups prs))) = floats prs
  /\ List.length (groups (set_groups prs (list_update i set_isUsed (groups prs))))
     = List.length (groups prs)
  /\ isRepeating (group_at (set_groups prs (list_update i set_isUsed (groups prs))) j)
     = isRepeating (group_at prs j)
  /\ (isUsed (group_at prs j) = true ->
      isUsed (group_at (set_groups prs (list_update i set_isUsed (groups prs))) j)
      = true)
  /\ (i < List.length (groups prs) ->
      isUsed (group_at (set_groups prs (list_update i set_isUsed (groups prs))) i)
      = true).
Proof.
  split; [reflexivity|]. split; [apply list_update_length|].
  unfold group_at. simpl.
  destruct (Nat.lt_ge_cases i (List.length (groups prs))) as [L|G].
  - rewrite !nth_list_update by exact L. rewrite Nat.eqb_refl.
    destruct (Nat.eqb j i); repeat split; auto.
  - assert (E : list_update i set_isUsed (groups prs) = groups prs).
    { clear -G. revert i G.
      induction (groups prs) as [|x l IH]; intros i G; destruct i; simpl in *;
        try reflexivity; try lia.
      rewrite IH by lia. reflexivity. }
    rewrite E. repeat split; auto. lia.
Qed.

(** Validated occurrences leave the aliases and the repeatable marks as they
    were, keep used groups used, and mark the group of each of them. *)
Lemma validate_floats_Ok (ufs : list EXT_ARGS_UFloatArg) :
  forall prs prs' : EXT_ARGS_Parser,
    validate_floats ufs prs = Ok prs' ->
    floats prs' = floats prs
    /\ List.length (groups prs') = List.length (groups prs)
    /\ (forall j, isRepeating (group_at prs' j) = isRepeating (group_at prs j))
    /\ (forall j, isUsed (group_at prs j) = true ->
                  isUsed (group_at prs' j) = true)
    /\ (forall uf f,
          In uf ufs ->
          find (float_matches uf) (floats prs) = Some f ->
          fa_groupIdx f < List.length (groups prs) ->
          isUsed (group_at prs' (fa_groupIdx f)) = true).
Proof.
  induction ufs as [|uf0 ufs IH]; intros prs prs' H; simpl in H.
  - inversion H; subst. repeat split; auto; intros uf f I; destruct I.
  - destruct (validate_float uf0 prs) as [p1|] eqn:V; [|discriminate].
    apply validate_float_Ok in V. destruct V as (f0 & F0 & P1).
    apply IH in H. destruct H as (h1 & h2 & h3 & h4 & h5).
    subst p1.
    pose proof (group_at_set_isUsed prs (fa_groupIdx f0)) as G.
    split; [rewrite h1; apply (G 0)|].
    split; [rewrite h2; apply (G 0)|].
    split; [intros j; rewrite h3; apply (G j)|].
    split; [intros j U; apply h4; apply (G j); exact U|].
    intros uf f [E|I] Ff Lf.
    + subst uf0. rewrite Ff in F0. inversion F0; subst f0.
      apply h4. apply (G 0). exact Lf.
    + apply (h5 uf f I); [exact Ff|]. rewrite (proj1 (proj2 (G 0))). exact Lf.
Qed.

Lemma validate_floats_app (ufs1 ufs2 : list EXT_ARGS_UFloatArg) :
  forall prs prs1 : EXT_ARGS_Parser,
    validate_floats ufs1 prs = Ok prs1 ->
    validate_floats (ufs1 ++ ufs2) prs = validate_floats ufs2 prs1.
Proof.
  induction ufs1 as [|uf ufs1 IH]; intros prs prs1 H; simpl in *.
  - inversion H. reflexivity.
  - destruct (validate_float uf prs) as [p|]; [|discriminate].
    apply IH. exact H.
Qed.

(** C4, as the code has it: the schema compiles, the argument vector is
    tokenized and parsed without error into flag occurrences, and every
    occurrence before [uf] passes the per-occurrence validation.  If [uf]
    matches an alias of a non-repeatable group that an earlier occurrence
    [uf0] matched too, [ext_args] returns the input error "Same arguments
    provided multiple times: " followed by the flag as [uf] spells it. *)
Theorem repeated_flag_rejected
  (fmt : string) (argv : list string) (prs prs1 : EXT_ARGS_Parser)
  (toks : list EXT_ARGS_UTok)
  (ufs1 ufs2 : list EXT_ARGS_UFloatArg) (uf0 uf : EXT_ARGS_UFloatArg)
  (vals : list string) (f0 f : EXT_ARGS_FloatArg) :
  compile_schema fmt = Some (Ok prs) ->
  lex_input argv = Ok toks ->
  parse_input toks [] [] = Ok (ufs1 ++ uf :: ufs2, vals) ->
  validate_floats ufs1 prs = Ok prs1 ->
  In uf0 ufs1 ->
  find (float_matches uf0) (floats prs) = Some f0 ->
  find (float_matches uf) (floats prs) = Some f ->
  fa_groupIdx f0 = fa_groupIdx f ->
  isRepeating (group_at prs (fa_groupIdx f)) = false ->
  forall (ap : list ptr) (m : store),
    ext_args argv fmt ap m
    = Some (EXT_ARGS_INPUT_ERR
              ("Same arguments provided multiple times: "
               ++ prec (uf_len uf) (uf_str uf)),
            m).
Proof.
  intros C L P V I F0 F G R ap m.
  unfold ext_args, check_input. rewrite C, L, P.
  rewrite (validate_floats_app _ _ _ _ V). simpl.
  apply compile_schema_Ok in C. destruct C as [S _].
  apply Synopsis_groupIdx_in_range in S.
  apply validate_floats_Ok in V. destruct V as (h1 & h2 & h3 & h4 & h5).
  assert (U : isUsed (group_at prs1 (fa_groupIdx f)) = true).
  { rewrite <- G. apply (h5 uf0 f0 I F0).
    rewrite Forall_forall in S. apply S.
    apply find_some in F0. apply F0. }
  unfold validate_float. rewrite h1, F. cbv zeta.
  rewrite U, h3, R. reflexivity.
Qed.

Lemma repeated_flag_rejected_witness :
  ext_args ["prog"; "-a"; "--all"] "[-a|--all]" [Some 0] store_init
  = Some (EXT_ARGS_INPUT_ERR "Same arguments provided multiple times: --all",
          store_init).
Proof.
  eapply (repeated_flag_rejected "[-a|--all]" ["prog"; "-a"; "--all"] _ _ _
            [mkUFloatArg "-a" 2 NULL] [] (mkUFloatArg "-a" 2 NULL)
            (mkUFloatArg "--all" 5 NULL) []).
  - vm_compute. reflexivity.
  - vm_compute. reflexivity.
  - vm_compute. reflexivity.
  - vm_compute. reflexivity.
  - left. reflexivity.
  - vm_compute. reflexivity.
  - vm_compute. reflexivity.
  - reflexivity.
  - reflexivity.
Defined.

(** C4 as the specification states it fails: the flag of the non-repeatable
    group of "-a=val" occurs twice, and the answer is not the error about
    repeated arguments but the one of the first occurrence, which lacks its
    value. *)
Lemma repeated_flag_counterexample :
  (exists prs,
     compile_schema "-a=val" = Some (Ok prs)
     /\ map isRepeating (groups prs) = [false])
  /\ ext_args ["prog"; "-a"; "-a"] "-a=val" [Some 0] store_init
     = Some (EXT_ARGS_INPUT_ERR (quoted "-a" ++ " argument requires a value"),
             store_init)
  /\ ~ (exists m' : store,
          ext_args ["prog"; "-a"; "-a"] "-a=val" [Some 0] store_init
          = Some (EXT_ARGS_INPUT_ERR
                    "Same arguments provided multiple times: -a", m')).
Proof.
  split; [eexists; split; [vm_compute; reflexivity | reflexivity]|].
  split; [vm_compute; reflexivity|].
  intros (m' & E). vm_compute in E. discriminate E.
Qed.

(** ** The input tokenizer and parser *)

(** The tokens of a raw argument are appended to those already there. *)
Lemma lex_arg_app (bk : string) (tokens : list EXT_ARGS_UTok) :
  lex_arg bk tokens = (tokens ++ tokens_of bk, snd (lex_arg bk [])).
Proof.
  unfold tokens_of, lex_arg.
  destruct (EXT_ARGS_ArgFloat (Parser_init bk)) as [b ipr].
  destruct (EXT_ARGS_Char "=" ipr) as [b1 ipr1].
  destruct (EXT_ARGS_Char "-" ipr1) as [b2 ipr2].
  destruct (EXT_ARGS_Char "-" ipr2) as [b3 ipr3].
  destruct b, b1, b2, b3;
    repeat match goal with
           | |- context [if ?c then _ else _] => destruct c
           end;
    simpl; rewrite <- ?app_assoc; reflexivity.
Qed.

Lemma lex_args_app (args : list string) :
  forall tokens : list EXT_ARGS_UTok,
    lex_args args tokens
    = match lex_args args [] with
      | Ok ts => Ok (tokens ++ ts)
      | Done res => Done res
      end.
Proof.
  induction args as [|bk args IH]; intros tokens; simpl.
  - rewrite app_nil_r. reflexivity.
  - rewrite (lex_arg_app bk tokens), (lex_arg_app bk []). simpl.
    destruct (snd (lex_arg bk [])).
    + rewrite (IH (tokens ++ tokens_of bk)), (IH (tokens_of bk)).
      destruct (lex_args args []); [rewrite app_assoc|]; reflexivity.
    + reflexivity.
    + reflexivity.
Qed.

(** Raw arguments that the tokenizer passes over contribute their tokens in
    order, and the loop goes on with what follows them. *)
Lemma lex_args_continues (pre rest : list string) :
  Forall lex_continues pre ->
  forall tokens : list EXT_ARGS_UTok,
    lex_args (pre ++ rest) tokens
    = lex_args rest (tokens ++ flat_map tokens_of pre).
Proof.
  induction 1 as [|bk pre C _ IH]; intros tokens; simpl.
  - rewrite app_nil_r. reflexivity.
  - rewrite (lex_arg_app bk tokens). unfold lex_continues in C. rewrite C.
    rewrite IH, <- app_assoc. reflexivity.
Qed.

Lemma append_eoi_app (A B : list EXT_ARGS_UTok) (x : EXT_ARGS_UTok) :
  not_UTOK_EOI x ->
  append_eoi ((A ++ [x]) ++ B) = (A ++ [x]) ++ append_eoi B.
Proof.
  intros N. destruct B as [|b B].
  - rewrite app_nil_r. unfold append_eoi. rewrite rev_app_distr. simpl.
    unfold not_UTOK_EOI in N.
    destruct (u_type x); try reflexivity. elim N. reflexivity.
  - unfold append_eoi. rewrite rev_app_distr.
    destruct (rev (b :: B)) as [|y l] eqn:E.
    + apply (f_equal (@List.length _)) in E. rewrite length_rev in E.
      discriminate E.
    + simpl. destruct (is_UTOK_EOI (u_type y)); [reflexivity|].
      rewrite <- !app_assoc. reflexivity.
Qed.

(** A text that does not start with a dash is not a flag. *)
Lemma EXT_ARGS_ArgFloat_no_dash (prs : EXT_ARGS_Parser) (c : ascii) (s : string) :
  str prs = String c s -> Ascii.eqb c "-" = false ->
  EXT_ARGS_ArgFloat prs = (false, prs).
Proof.
  intros E N. unfold EXT_ARGS_ArgFloat, EXT_ARGS_CurrentPos, EXT_ARGS_Distance,
    EXT_ARGS_Rollback.
  rewrite E. cbn [skip_char]. rewrite N. cbn [str set_str].
  rewrite Nat.sub_diag. cbn [Nat.add Nat.ltb Nat.leb].
  rewrite set_str_twice, <- E, set_str_same. reflexivity.
Qed.

(** The tokens of a raw argument that starts with the equals sign. *)
Lemma lex_arg_equals (text : string) (tokens : list EXT_ARGS_UTok) :
  text <> EmptyString ->
  lex_arg (String "=" text) tokens
  = (tokens ++ [mkUTok EXT_ARGS_UTOK_EQL (String "=" text) 0;
                mkUTok EXT_ARGS_UTOK_VAL text 0],
     LexContinue).
Proof.
  intros N. unfold lex_arg.
  rewrite (EXT_ARGS_ArgFloat_no_dash (Parser_init (String "=" text)) "=" text)
    by reflexivity.
  cbn. destruct text as [|c text]; [elim N; reflexivity|].
  cbn. rewrite <- app_assoc. reflexivity.
Qed.

Lemma ends_with_flag_cons (t : EXT_ARGS_UTok) (l : list EXT_ARGS_UTok) :
  ends_with_flag (t :: l) = false -> is_UTOK_FLOAT t = false ->
  ends_with_flag l = false.
Proof. destruct l; simpl; auto. Qed.

Lemma ends_with_flag_cons3 (t e v : EXT_ARGS_UTok) (l : list EXT_ARGS_UTok) :
  ends_with_flag (t :: e :: v :: l) = false -> is_UTOK_FLOAT v = false ->
  ends_with_flag l = false.
Proof. destruct l; simpl; auto. Qed.

(** The rounds of the parsing loop, one equation for each. *)
Lemma parse_input_flag (t e : EXT_ARGS_UTok) (rest : list EXT_ARGS_UTok)
  (fl : list EXT_ARGS_UFloatArg) (ps : list string) :
  u_type t = EXT_ARGS_UTOK_FLOAT -> u_type e <> EXT_ARGS_UTOK_EQL ->
  parse_input (t :: e :: rest) fl ps
  = parse_input (e :: rest) (fl ++ [mkUFloatArg (u_str t) (u_len t) NULL]) ps.
Proof.
  intros Tt Te. cbn [parse_input]. rewrite Tt.
  destruct (u_type e); try reflexivity. elim Te. reflexivity.
Qed.

Lemma parse_input_flag_value (t e v : EXT_ARGS_UTok) (rest : list EXT_ARGS_UTok)
  (fl : list EXT_ARGS_UFloatArg) (ps : list string) :
  u_type t = EXT_ARGS_UTOK_FLOAT -> u_type e = EXT_ARGS_UTOK_EQL ->
  u_type v = EXT_ARGS_UTOK_VAL ->
  parse_input (t :: e :: v :: rest) fl ps
  = parse_input rest
      (fl ++ [mkUFloatArg (u_str t) (u_len t) (Str (u_str v))]) ps.
Proof. intros Tt Te Tv. cbn [parse_input]. rewrite Tt, Te, Tv. reflexivity. Qed.

Lemma parse_input_flag_no_value (t e v : EXT_ARGS_UTok)
  (rest : list EXT_ARGS_UTok) (fl : list EXT_ARGS_UFloatArg) (ps : list string) :
  u_type t = EXT_ARGS_UTOK_FLOAT -> u_type e = EXT_ARGS_UTOK_EQL ->
  u_type v <> EXT_ARGS_UTOK_VAL ->
  parse_input (t :: e :: v :: rest) fl ps
  = Done (EXT_ARGS_INPUT_ERR ("A value expected " ++ quoted (u_str t))).
Proof.
  intros Tt Te Tv. cbn [parse_input]. rewrite Tt, Te.
  destruct (u_type v); try reflexivity. elim Tv. reflexivity.
Qed.

Lemma parse_input_value (t : EXT_ARGS_UTok) (rest : list EXT_ARGS_UTok)
  (fl : list EXT_ARGS_UFloatArg) (ps : list string) :
  u_type t = EXT_ARGS_UTOK_VAL ->
  parse_input (t :: rest) fl ps = parse_input rest fl (ps ++ [u_str t]).
Proof. intros Tt. cbn [parse_input]. rewrite Tt. reflexivity. Qed.

Lemma parse_input_equals (t : EXT_ARGS_UTok) (rest : list EXT_ARGS_UTok)
  (fl : list EXT_ARGS_UFloatArg) (ps : list string) :
  u_type t = EXT_ARGS_UTOK_EQL ->
  parse_input (t :: rest) fl ps
  = Done (EXT_ARGS_INPUT_ERR ("Unexpected input " ++ quoted (u_str t))).
Proof. intros Tt. cbn [parse_input]. rewrite Tt. reflexivity. Qed.

Lemma parse_input_eoi (t : EXT_ARGS_UTok) (rest : list EXT_ARGS_UTok)
  (fl : list EXT_ARGS_UFloatArg) (ps : list string) :
  u_type t = EXT_ARGS_UTOK_EOI ->
  parse_input (t :: rest) fl ps = Ok (fl, ps).
Proof. intros Tt. cbn [parse_input]. rewrite Tt. reflexivity. Qed.

(** Tokens [pre] that parse on their own are consumed in the same way when
    more tokens follow, unless [pre] ends with a flag that the next token
    would give a value to. *)
Lemma parse_input_prefix (n : nat) :
  forall (pre rest : list EXT_ARGS_UTok)
         (fl ufs : list EXT_ARGS_UFloatArg) (ps vals : list string),
    List.length pre <= n ->
    Forall not_UTOK_EOI pre ->
    parse_input (pre ++ [utok_eoi]) fl ps = Ok (ufs, vals) ->
    ends_with_flag pre = false \/ starts_with_eql rest = false ->
    parse_input (pre ++ rest) fl ps = parse_input rest ufs vals.
Proof.
  induction n as [|n IH]; intros pre rest fl ufs ps vals Ln NE P C.
  { destruct pre; [|simpl in Ln; lia]. simpl in *. inversion P. reflexivity. }
  destruct pre as [|t pre1].
  { simpl in *. inversion P. reflexivity. }
  inversion NE as [|? ? Nt NE1]; subst.
  simpl in Ln. cbn [app] in P |- *.
  unfold not_UTOK_EOI in Nt.
  destruct (u_type t) eqn:Tt; try (elim Nt; reflexivity).
  - (* a flag *)
    destruct pre1 as [|e pre2].
    + cbn [app] in P |- *.
      rewrite parse_input_flag in P by (auto; discriminate).
      rewrite parse_input_eoi in P by reflexivity.
      inversion P; subst; clear P.
      destruct C as [C|C]; [cbn in C; unfold is_UTOK_FLOAT in C;
                            rewrite Tt in C; discriminate|].
      destruct rest as [|r rest']; [cbn; rewrite Tt; reflexivity|].
      rewrite parse_input_flag; [reflexivity | exact Tt|].
      cbn in C. intros Tr. rewrite Tr in C. discriminate.
    + inversion NE1 as [|? ? Ne NE2]; subst. unfold not_UTOK_EOI in Ne.
      cbn [app] in P |- *.
      destruct (u_type e) eqn:Te; try (elim Ne; reflexivity).
      * rewrite parse_input_flag in P |- * by (auto; congruence).
        apply (IH (e :: pre2)); auto; simpl in *; lia.
      * destruct pre2 as [|v pre3].
        { cbn [app] in P.
          rewrite parse_input_flag_no_value in P by (auto; discriminate).
          discriminate P. }
        inversion NE2 as [|? ? Nv NE3]; subst.
        cbn [app] in P |- *.
        destruct (u_type v) eqn:Tv;
          try (rewrite parse_input_flag_no_value in P by (auto; congruence);
               discriminate P).
        rewrite parse_input_flag_value in P |- * by assumption.
        apply (IH pre3); auto; [simpl in *; lia|].
        destruct C as [C|C]; [left|right; exact C].
        apply (ends_with_flag_cons3 t e v); [exact C|].
        unfold is_UTOK_FLOAT. rewrite Tv. reflexivity.
      * rewrite parse_input_flag in P |- * by (auto; congruence).
        apply (IH (e :: pre2)); auto; simpl in *; lia.
  - (* an equals token where an occurrence starts *)
    rewrite parse_input_equals in P by exact Tt. discriminate P.
  - (* a positional value *)
    rewrite parse_input_value in P |- * by exact Tt.
    apply (IH pre1); auto; [lia|].
    destruct C as [C|C]; [left|right; exact C].
    apply (ends_with_flag_cons t); [exact C|].
    unfold is_UTOK_FLOAT. rewrite Tt. reflexivity.
Qed.

Lemma lex_continues_no_eoi (bk : string) :
  lex_continues bk -> Forall not_UTOK_EOI (tokens_of bk).
Proof.
  unfold lex_continues, tokens_of, lex_arg.
  destruct (EXT_ARGS_ArgFloat (Parser_init bk)) as [b ipr].
  destruct (EXT_ARGS_Char "=" ipr) as [b1 ipr1].
  destruct (EXT_ARGS_Char "-" ipr1) as [b2 ipr2].
  destruct (EXT_ARGS_Char "-" ipr2) as [b3 ipr3].
  destruct b, b1, b2, b3;
    repeat match goal with
           | |- context [if ?c then _ else _] => destruct c
           end;
    simpl; intros H; try discriminate H;
    repeat constructor; discriminate.
Qed.

Lemma flat_map_no_eoi (pre : list string) :
  Forall lex_continues pre -> Forall not_UTOK_EOI (flat_map tokens_of pre).
Proof.
  induction 1 as [|bk pre C _ IH]; simpl; [constructor|].
  apply Forall_app. split; [apply lex_continues_no_eoi; exact C | exact IH].
Qed.

(** The token array of an argument vector in which the raw arguments [pre]
    are followed by one that contributes the tokens [mid], the last of which
    is [x]. *)
Lemma lex_input_split (prog bk : string) (pre post : list string)
  (mid toks_post : list EXT_ARGS_UTok) (x : EXT_ARGS_UTok) :
  Forall lex_continues pre ->
  lex_arg bk [] = (mid ++ [x], LexContinue) ->
  not_UTOK_EOI x ->
  lex_input (prog :: post) = Ok toks_post ->
  lex_input (prog :: pre ++ bk :: post)
  = Ok (flat_map tokens_of pre ++ (mid ++ [x]) ++ toks_post).
Proof.
  intros Cpre Ebk Nx Epost. unfold lex_input in *. cbn [tl] in *.
  rewrite (lex_args_continues pre (bk :: post) Cpre []). cbn [app lex_args].
  rewrite lex_arg_app. unfold tokens_of. rewrite Ebk. cbn [fst snd].
  rewrite lex_args_app.
  destruct (lex_args post []) as [ts|r]; [|discriminate].
  inversion Epost; subst toks_post.
  rewrite app_assoc, append_eoi_app by exact Nx.
  rewrite <- !app_assoc. reflexivity.
Qed.

(** C10, as the code has it.  A raw argument "=text" with a text that is
    not empty yields an equals token and a value token.  Let it come after
    raw arguments [pre] that are tokenized without error or terminator and
    parse on their own, and before raw arguments [post] that are tokenized
    without error.  Directly after a further raw argument that is a bare
    flag, the text becomes the assigned value of that occurrence.  Without
    such a flag, and when [pre] does not end in a bare flag either,
    [ext_args] on a schema that compiles returns the input error "Unexpected
    input" with the raw argument in quotes. *)
Theorem equals_argument (text : string) :
  text <> EmptyString ->
  (forall tokens : list EXT_ARGS_UTok,
     lex_arg (String "=" text) tokens
     = (tokens ++ [mkUTok EXT_ARGS_UTOK_EQL (String "=" text) 0;
                   mkUTok EXT_ARGS_UTOK_VAL text 0],
        LexContinue))
  /\ forall (prog : string) (pre post : list string)
            (toks_post : list EXT_ARGS_UTok)
            (ufs : list EXT_ARGS_UFloatArg) (vals : list string),
       Forall lex_continues pre ->
       parse_input (flat_map tokens_of pre ++ [utok_eoi]) [] [] = Ok (ufs, vals) ->
       lex_input (prog :: post) = Ok toks_post ->
       (forall (flag : string) (n : nat),
          lex_arg flag [] = ([mkUTok EXT_ARGS_UTOK_FLOAT flag n], LexContinue) ->
          exists toks : list EXT_ARGS_UTok,
            lex_input (prog :: pre ++ flag :: String "=" text :: post) = Ok toks
            /\ parse_input toks [] []
               = parse_input toks_post
                   (ufs ++ [mkUFloatArg flag n (Str text)]) vals)
       /\ (ends_with_flag (flat_map tokens_of pre) = false ->
           forall (fmt : string) (prs : EXT_ARGS_Parser) (ap : list ptr)
                  (m : store),
             compile_schema fmt = Some (Ok prs) ->
             ext_args (prog :: pre ++ String "=" text :: post) fmt ap m
             = Some (EXT_ARGS_INPUT_ERR
                       ("Unexpected input " ++ quoted (String "=" text)),
                     m)).
Proof.
  intros N. split; [intros tokens; apply lex_arg_equals; exact N|].
  intros prog pre post toks_post ufs vals Cpre Ppre Epost.
  pose proof (flat_map_no_eoi pre Cpre) as NE.
  pose proof (lex_arg_equals text [] N) as Eq. cbn [app] in Eq.
  split.
  - intros flag n Ef.
    assert (Cpre' : Forall lex_continues (pre ++ [flag])).
    { apply Forall_app. split; [exact Cpre|]. constructor; [|constructor].
      unfold lex_continues. rewrite Ef. reflexivity. }
    pose proof (lex_input_split prog (String "=" text) (pre ++ [flag]) post
                  [mkUTok EXT_ARGS_UTOK_EQL (String "=" text) 0] toks_post
                  (mkUTok EXT_ARGS_UTOK_VAL text 0) Cpre' Eq
                  ltac:(discriminate) Epost) as L.
    rewrite <- app_assoc in L. cbn [app] in L.
    eexists. split; [exact L|].
    rewrite flat_map_app. cbn [flat_map]. unfold tokens_of at 2.
    rewrite Ef. cbn [fst app]. rewrite <- app_assoc. cbn [app].
    rewrite (parse_input_prefix _ _ _ _ _ _ _ (Nat.le_refl _) NE Ppre)
      by (right; reflexivity).
    apply parse_input_flag_value; reflexivity.
  - intros Ew fmt prs ap m C.
    pose proof (lex_input_split prog (String "=" text) pre post
                  [mkUTok EXT_ARGS_UTOK_EQL (String "=" text) 0] toks_post
                  (mkUTok EXT_ARGS_UTOK_VAL text 0) Cpre Eq
                  ltac:(discriminate) Epost) as L.
    cbn [app] in L.
    unfold ext_args, check_input. rewrite C, L.
    rewrite (parse_input_prefix _ _ _ _ _ _ _ (Nat.le_refl _) NE Ppre)
      by (left; exact Ew).
    rewrite parse_input_equals by reflexivity. reflexivity.
Qed.

Lemma equals_argument_witness :
  ext_args ["prog"; "-a=1"; "=b"] "-a=val" [Some 0] store_init
  = Some (EXT_ARGS_INPUT_ERR ("Unexpected input " ++ quoted "=b"), store_init).
Proof.
  destruct (equals_argument "b" ltac:(discriminate)) as [_ H].
  destruct (H "prog" ["-a=1"] [] [utok_eoi]
              [mkUFloatArg "-a=1" 2 (Str "1")] []) as [_ H2].
  - repeat constructor.
  - vm_compute. reflexivity.
  - vm_compute. reflexivity.
  - eapply (H2 eq_refl "-a=val"). vm_compute. reflexivity.
Defined.

(** C10 as the specification states it fails.  After "-a=", which is not a
    bare flag, the argument "=x" does not lead to "Unexpected input": the
    answer is the error of the flag that lacks its value.  After the
    terminator the argument is not read at all, and the call succeeds. *)
Lemma equals_argument_counterexample :
  ext_args ["prog"; "-a="; "=x"] "[-a=val]" [Some 0] store_init
  = Some (EXT_ARGS_INPUT_ERR ("A value expected " ++ quoted "-a="), store_init)
  /\ ~ (exists m' : store,
          ext_args ["prog"; "-a="; "=x"] "[-a=val]" [Some 0] store_init
          = Some (EXT_ARGS_INPUT_ERR ("Unexpected input " ++ quoted "=x"), m'))
  /\ (exists m' : store,
        ext_args ["prog"; "--"; "=x"] "[-a=val]" [Some 0] store_init
        = Some (EXT_ARGS_NO_ERR, m')
        /\ m' 0 = VStr NULL).
Proof.
  split; [vm_compute; reflexivity|].
  split; [intros (m' & E); vm_compute in E; discriminate E|].
  eexists. split; [vm_compute; reflexivity | reflexivity].
Qed.

(** ** The terminator *)

(** The raw argument "--" ends the tokenizing: what follows is not read. *)
Lemma lex_args_terminator (rest : list string) (tokens : list EXT_ARGS_UTok) :
  lex_args ("--" :: rest) tokens = Ok (tokens ++ [utok_eoi]).
Proof. reflexivity. Qed.

Lemma EXT_ARGS_Char_init (c c' : ascii) (s : string) :
  EXT_ARGS_Char c (Parser_init (String c' s))
  = if Ascii.eqb c' c then (true, Parser_init s)
    else (false, Parser_init (String c' s)).
Proof. unfold EXT_ARGS_Char. simpl. destruct (Ascii.eqb c' c); reflexivity. Qed.

Lemma EXT_ARGS_Char_init_nul (c : ascii) :
  EXT_ARGS_Char c (Parser_init EmptyString) = (false, Parser_init EmptyString).
Proof. reflexivity. Qed.

(** What the tokenizer takes as the terminator: any raw argument that is not
    a flag and begins with two dashes, whatever comes after them. *)
Lemma lex_arg_break_iff (bk : string) :
  snd (lex_arg bk []) = LexBreak
  <-> fst (EXT_ARGS_ArgFloat (Parser_init bk)) = false
      /\ exists s, bk = String "-" (String "-" s).
Proof.
  unfold lex_arg.
  destruct (EXT_ARGS_ArgFloat_ok (Parser_init bk)) as [[F S]|[F _]];
    destruct (EXT_ARGS_ArgFloat (Parser_init bk)) as [b ipr];
    cbn [fst snd] in *; subst.
  - destruct bk as [|c0 s0].
    { rewrite !EXT_ARGS_Char_init_nul. cbn.
      split; [discriminate | intros (_ & s & E); discriminate E]. }
    rewrite !EXT_ARGS_Char_init.
    destruct (Ascii.eqb_spec c0 "=") as [E0|N0].
    { split; [destruct (negb _); discriminate
             | intros (_ & s & E); subst c0; discriminate E]. }
    rewrite EXT_ARGS_Char_init.
    destruct (Ascii.eqb_spec c0 "-") as [E1|N1].
    2:{ split; [discriminate|]. intros (_ & s & E). inversion E. congruence. }
    subst c0. destruct s0 as [|c1 s1].
    { rewrite EXT_ARGS_Char_init_nul. cbn.
      split; [discriminate | intros (_ & s & E); discriminate E]. }
    rewrite EXT_ARGS_Char_init.
    destruct (Ascii.eqb_spec c1 "-") as [E2|N2]; cbn [andb snd].
    + subst c1. split; [intros _; split; [reflexivity | eexists; reflexivity]
                       | reflexivity].
    + split; [discriminate|]. intros (_ & s & E). inversion E. congruence.
  - split; [|intros (D & _); discriminate D].
    destruct (EXT_ARGS_Char "=" ipr) as [b1 ipr1].
    destruct b1; [destruct (negb _); discriminate|].
    destruct (negb _); discriminate.
Qed.

(** A raw argument that is not a flag and begins neither with the equals
    sign nor with two dashes becomes a value token. *)
Lemma lex_arg_plain_value (bk : string) (tokens : list EXT_ARGS_UTok) :
  fst (EXT_ARGS_ArgFloat (Parser_init bk)) = false ->
  (forall s, bk <> String "=" s) ->
  (forall s, bk <> String "-" (String "-" s)) ->
  lex_arg bk tokens = (tokens ++ [mkUTok EXT_ARGS_UTOK_VAL bk 0], LexContinue).
Proof.
  intros F NE ND. unfold lex_arg.
  destruct (EXT_ARGS_ArgFloat_ok (Parser_init bk)) as [[_ S]|[T _]];
    [|congruence].
  destruct (EXT_ARGS_ArgFloat (Parser_init bk)) as [b ipr].
  cbn [fst snd] in F, S. subst.
  destruct bk as [|c0 s0]; [reflexivity|].
  rewrite !EXT_ARGS_Char_init.
  destruct (Ascii.eqb_spec c0 "=") as [E0|N0]; [elim (NE s0); congruence|].
  rewrite EXT_ARGS_Char_init.
  destruct (Ascii.eqb_spec c0 "-") as [E1|N1]; [|reflexivity].
  subst c0. destruct s0 as [|c1 s1]; [reflexivity|].
  rewrite EXT_ARGS_Char_init.
  destruct (Ascii.eqb_spec c1 "-") as [E2|N2]; [|reflexivity].
  elim (ND s1). congruence.
Qed.

(** C5, where the code departs from it: the raw argument "--1" is not the
    two-dash terminator, yet the tokenizer takes it as the terminator (it
    only looks at the first two characters), so that "--1" and "x" are
    both dropped and the trailing capture is empty. *)
Theorem terminator_is_a_prefix_test :
  lex_arg "--1" [] = ([utok_eoi], LexBreak)
  /\ lex_input ["prog"; "--1"; "x"] = Ok [utok_eoi]
  /\ exists m' : store,
       ext_args ["prog"; "--1"; "x"] "..." [Some 0] store_init
       = Some (EXT_ARGS_NO_ERR, m')
       /\ m' 0 = VAry [NULL].
Proof.
  split; [reflexivity|]. split; [reflexivity|].
  eexists. split; [vm_compute; reflexivity | reflexivity].
Qed.

(** The token array always ends with the end-of-input token. *)
Lemma lex_input_ends_with_EOI (argv : list string) (toks : list EXT_ARGS_UTok) :
  lex_input argv = Ok toks ->
  exists l t, toks = l ++ [t] /\ u_type t = EXT_ARGS_UTOK_EOI.
Proof.
  unfold lex_input, append_eoi.
  destruct (lex_args (tl argv) []) as [ts|]; [|discriminate].
  destruct (rev ts) as [|t l] eqn:E.
  - intros H. inversion H. exists ts, utok_eoi. split; reflexivity.
  - destruct (is_UTOK_EOI (u_type t)) eqn:T; intros H; inversion H; subst.
    + exists (rev l), t. split.
      * rewrite <- (rev_involutive toks), E. reflexivity.
      * destruct (u_type t); try discriminate T. reflexivity.
    + exists ts, utok_eoi. split; reflexivity.
Qed.

(** ** The assertions of [test.c], replayed on the embedding *)

Section Tests.

Variable m : store.

Example test_schema_lexing_dots :
  ext_args_result m [EmptyString] "a .."
  = Some (EXT_ARGS_SCHEMA_ERR
            ("Schema lexing error, starting from " ++ quoted "..")).
Proof. reflexivity. Qed.

Example test_schema_lexing_digit :
  ext_args_result m [EmptyString] "-a=1"
  = Some (EXT_ARGS_SCHEMA_ERR
            ("Schema lexing error, starting from " ++ quoted "1")).
Proof. reflexivity. Qed.

Example test_schema_parsing_open :
  ext_args_result m [EmptyString] "[a"
  = Some (EXT_ARGS_SCHEMA_ERR
            ("Schema parsing error. Expected EOI but received LBRAK, starting from "
             ++ quoted "[a")).
Proof. reflexivity. Qed.

Example test_schema_parsing_after_dots :
  ext_args_result m [EmptyString] "... a"
  = Some (EXT_ARGS_SCHEMA_ERR
            ("Schema parsing error. Expected EOI but received NAME, starting from "
             ++ quoted " a")).
Proof. reflexivity. Qed.

Example test_schema_parsing_optional_repeat :
  ext_args_result m [EmptyString] "-a[=val...]"
  = Some (EXT_ARGS_SCHEMA_ERR
            ("Schema parsing error. Expected EOI but received LBRAK, starting from "
             ++ quoted "[=val...]")).
Proof. reflexivity. Qed.

Example test_schema_parsing_nested :
  ext_args_result m [EmptyString] "[[-a]]"
  = Some (EXT_ARGS_SCHEMA_ERR
            ("Schema parsing error. Expected EOI but received LBRAK, starting from "
             ++ quoted "[[-a]]")).
Proof. reflexivity. Qed.

Example test_input_lexing :
  ext_args_result m [EmptyString; "-a.one"] "-a=val"
  = Some (EXT_ARGS_INPUT_ERR ("Ambiguous argument " ++ quoted "-a.one")).
Proof. reflexivity. Qed.

Example test_input_parsing_value_expected :
  ext_args_result m [EmptyString; "-a="] "-a=val"
  = Some (EXT_ARGS_INPUT_ERR ("A value expected " ++ quoted "-a=")).
Proof. reflexivity. Qed.

Example test_requires_value :
  ext_args_result m [EmptyString; "-D=1"; "-D"] "-D=val..."
  = Some (EXT_ARGS_INPUT_ERR (quoted "-D" ++ " argument requires a value")).
Proof. reflexivity. Qed.

Example test_no_value :
  ext_args_result m [EmptyString; "-a=1"] "[-a]"
  = Some (EXT_ARGS_INPUT_ERR
            (quoted "-a" ++ " argument does not require a value")).
Proof. reflexivity. Qed.

Example test_unknown_flag :
  ext_args_result m [EmptyString; "-b"] "[-a]"
  = Some (EXT_ARGS_INPUT_ERR
            ("Ambiguous argument " ++ quoted "-b" ++ " provided")).
Proof. reflexivity. Qed.

Example test_missing_flag :
  ext_args_result m [EmptyString] "-a|-b=val"
  = Some (EXT_ARGS_INPUT_ERR
            (quoted "-a" ++ " argument (or alias) required but not provided")).
Proof. reflexivity. Qed.

Example test_not_enough :
  ext_args_result m [EmptyString; "1"] "a b [c]"
  = Some (EXT_ARGS_INPUT_ERR "Not enough positional arguments provided").
Proof. reflexivity. Qed.

Example test_too_many :
  ext_args_result m [EmptyString; "1"; "2"] "a"
  = Some (EXT_ARGS_INPUT_ERR "Too many positional arguments provided").
Proof. reflexivity. Qed.

Example test_null_pointer :
  ext_args_result m [EmptyString; "-a"] "-a" = Some EXT_ARGS_NO_ERR.
Proof. reflexivity. Qed.

Example test_booleans :
  exists m',
    ext_args [EmptyString; "-b"] "[-a] [-b]" [Some 0; Some 1] m
    = Some (EXT_ARGS_NO_ERR, m')
    /\ m' 0 = VBool false /\ m' 1 = VBool true.
Proof. eexists. split; [vm_compute; reflexivity|]. split; reflexivity. Qed.

Example test_aliases :
  exists m',
    ext_args [EmptyString; "---c"] "-a|--b|---c" [Some 0] m
    = Some (EXT_ARGS_NO_ERR, m')
    /\ m' 0 = VBool true.
Proof. eexists. split; [vm_compute; reflexivity | reflexivity]. Qed.

Example test_values :
  exists m',
    ext_args [EmptyString; "-a=one"; "-b=two"] "-a=val -b=val"
      [Some 0; Some 1] m
    = Some (EXT_ARGS_NO_ERR, m')
    /\ m' 0 = VStr (Str "one") /\ m' 1 = VStr (Str "two").
Proof. eexists. split; [vm_compute; reflexivity|]. split; reflexivity. Qed.

Example test_variadic_only :
  exists m',
    ext_args [EmptyString; "1"; "2"] "..." [Some 0] m
    = Some (EXT_ARGS_NO_ERR, m')
    /\ m' 0 = VAry [Str "1"; Str "2"; NULL].
Proof. eexists. split; [vm_compute; reflexivity | reflexivity]. Qed.

End Tests.

(** ** Outcomes of the schema parser *)

Lemma suffix_of_refl (s : string) : suffix_of s s.
Proof. exists EmptyString. reflexivity. Qed.

Lemma string_app_assoc (a b c : string) : ((a ++ b) ++ c = a ++ (b ++ c))%string.
Proof. induction a as [|x a IH]; simpl; [reflexivity | rewrite IH; reflexivity]. Qed.

Lemma suffix_of_trans (s t u : string) :
  suffix_of s t -> suffix_of t u -> suffix_of s u.
Proof.
  intros [p Hp] [q Hq]. exists (p ++ q)%string. subst.
  symmetry. apply string_app_assoc.
Qed.

Lemma suffix_of_tail (c : ascii) (s : string) : suffix_of (String c s) s.
Proof. exists (String c EmptyString). reflexivity. Qed.

Lemma skip_char_suffix (c : ascii) (s : string) : suffix_of s (skip_char c s).
Proof.
  induction s as [|c' s IH]; simpl; [apply suffix_of_refl|].
  destruct (Ascii.eqb c' c); [|apply suffix_of_refl].
  eapply suffix_of_trans; [apply suffix_of_tail | exact IH].
Qed.

Lemma skip_spaces_suffix (s : string) : suffix_of s (skip_spaces s).
Proof.
  induction s as [|c' s IH]; simpl; [apply suffix_of_refl|].
  destruct (is_space c'); [|apply suffix_of_refl].
  eapply suffix_of_trans; [apply suffix_of_tail | exact IH].
Qed.

Lemma name_scan_suffix (c : ascii) (s : string) :
  suffix_of s (snd (name_scan c s)).
Proof.
  revert c. induction s as [|c' s IH]; intros c; simpl; [apply suffix_of_refl|].
  destruct (is_name_char c'); [|apply suffix_of_refl].
  eapply suffix_of_trans; [apply suffix_of_tail | apply IH].
Qed.

(** No scanner moves the cursor out of the text that is left. *)
Lemma EXT_ARGS_Char_suffix (c : ascii) (prs : EXT_ARGS_Parser) :
  suffix_of (str prs) (str (snd (EXT_ARGS_Char c prs))).
Proof.
  unfold EXT_ARGS_Char. destruct (str prs) as [|c' rest] eqn:E; simpl.
  - rewrite E. apply suffix_of_refl.
  - destruct (Ascii.eqb c' c); simpl;
      [apply suffix_of_tail | rewrite E; apply suffix_of_refl].
Qed.

Lemma EXT_ARGS_Name_suffix (prs : EXT_ARGS_Parser) :
  suffix_of (str prs) (str (snd (EXT_ARGS_Name prs))).
Proof.
  unfold EXT_ARGS_Name. destruct (str prs) as [|c0 rest] eqn:E; simpl.
  - rewrite E. apply suffix_of_refl.
  - destruct (is_letter c0); simpl; [|rewrite E; apply suffix_of_refl].
    pose proof (name_scan_suffix c0 rest) as S.
    destruct (name_scan c0 rest) as [last c]. simpl in S.
    destruct (Ascii.eqb last "-"); simpl; [rewrite E; apply suffix_of_refl|].
    eapply suffix_of_trans; [apply suffix_of_tail | exact S].
Qed.

Lemma EXT_ARGS_ArgFloat_suffix (prs : EXT_ARGS_Parser) :
  suffix_of (str prs) (str (snd (EXT_ARGS_ArgFloat prs))).
Proof.
  unfold EXT_ARGS_ArgFloat, EXT_ARGS_CurrentPos, EXT_ARGS_Rollback.
  destruct (Nat.ltb _ 1); [apply suffix_of_refl|].
  pose proof (EXT_ARGS_Name_suffix (set_str prs (skip_char "-" (str prs)))) as S.
  destruct (EXT_ARGS_Name _) as [b p]. simpl in S.
  destruct b; simpl; [|apply suffix_of_refl].
  eapply suffix_of_trans; [apply skip_char_suffix | exact S].
Qed.

Lemma EXT_ARGS_Dots_suffix (prs : EXT_ARGS_Parser) :
  suffix_of (str prs) (str (snd (EXT_ARGS_Dots prs))).
Proof.
  unfold EXT_ARGS_Dots, EXT_ARGS_CurrentPos, EXT_ARGS_Rollback.
  destruct (negb _); simpl; [apply suffix_of_refl | apply skip_char_suffix].
Qed.

Lemma is_nul_false (s : string) : is_nul s = false -> s <> EmptyString.
Proof. destruct s; [discriminate | discriminate]. Qed.

Lemma EXT_ARGS_NextTok_in_text (prs : EXT_ARGS_Parser) :
  step_in_text (str prs) (fun r => str (snd r)) (EXT_ARGS_NextTok prs).
Proof.
  unfold EXT_ARGS_NextTok.
  assert (Sk : snd (EXT_ARGS_SkipSpaces prs)
               = set_str prs (skip_spaces (str prs))).
  { unfold EXT_ARGS_SkipSpaces. destruct (Nat.eqb _ 0); reflexivity. }
  rewrite Sk. clear Sk.
  pose proof (skip_spaces_suffix (str prs)) as S0.
  set (p0 := set_str prs (skip_spaces (str prs))).
  change (skip_spaces (str prs)) with (str p0) in S0.
  destruct (is_nul (str p0)) eqn:N; [exact S0|].
  apply is_nul_false in N.
  cbv zeta. unfold EXT_ARGS_CurrentPos.
  pose proof (EXT_ARGS_Char_suffix "[" p0) as H1.
  destruct (EXT_ARGS_Char "[" p0) as [b1 q1]. simpl in H1.
  destruct b1; [simpl; eapply suffix_of_trans; eassumption|].
  pose proof (EXT_ARGS_Char_suffix "]" p0) as H2.
  destruct (EXT_ARGS_Char "]" p0) as [b2 q2]. simpl in H2.
  destruct b2; [simpl; eapply suffix_of_trans; eassumption|].
  pose proof (EXT_ARGS_Char_suffix "|" p0) as H3.
  destruct (EXT_ARGS_Char "|" p0) as [b3 q3]. simpl in H3.
  destruct b3; [simpl; eapply suffix_of_trans; eassumption|].
  pose proof (EXT_ARGS_Char_suffix "=" p0) as H4.
  destruct (EXT_ARGS_Char "=" p0) as [b4 q4]. simpl in H4.
  destruct b4; [simpl; eapply suffix_of_trans; eassumption|].
  pose proof (EXT_ARGS_Name_suffix p0) as H5.
  destruct (EXT_ARGS_Name p0) as [b5 q5]. simpl in H5.
  destruct b5; [simpl; eapply suffix_of_trans; eassumption|].
  pose proof (EXT_ARGS_ArgFloat_suffix p0) as H6.
  destruct (EXT_ARGS_ArgFloat p0) as [b6 q6]. simpl in H6.
  destruct b6; [simpl; eapply suffix_of_trans; eassumption|].
  pose proof (EXT_ARGS_Dots_suffix p0) as H7.
  destruct (EXT_ARGS_Dots p0) as [b7 q7]. simpl in H7.
  destruct b7; [simpl; eapply suffix_of_trans; eassumption|].
  simpl. exists (str p0). split; [reflexivity|]. split; assumption.
Qed.

Lemma step_weaken {A : Type} (s t : string) (c : A -> string) (o : outcome A) :
  step_in_text t c o -> suffix_of s t -> step_in_text s c o.
Proof.
  destruct o as [a|j|]; simpl; intros H S; [| |exact I].
  - eapply suffix_of_trans; eassumption.
  - destruct H as (e & E & Se & Ne). exists e. split; [exact E|].
    split; [eapply suffix_of_trans; eassumption | exact Ne].
Qed.

Lemma step_bind {A B : Type} (s : string) (ca : A -> string)
  (cb : B -> string) (m : outcome A) (k : A -> outcome B) :
  step_in_text s ca m ->
  (forall a, suffix_of s (ca a) -> step_in_text s cb (k a)) ->
  step_in_text s cb (bind m k).
Proof.
  destruct m as [a|j|]; simpl; intros H K; [apply K; exact H | exact H | exact I].
Qed.

Lemma EXT_ARGS_Match_in_text (ty : TokType) (prs : EXT_ARGS_Parser) :
  step_in_text (str prs) (fun r => str (snd r)) (EXT_ARGS_Match ty prs false).
Proof.
  unfold EXT_ARGS_Match, EXT_ARGS_CurrentPos, EXT_ARGS_Rollback.
  eapply step_bind; [apply EXT_ARGS_NextTok_in_text|].
  intros [t p] S. cbn [fst snd] in S |- *.
  destruct (TokType_eqb (tok_type t) ty); simpl; [exact S | apply suffix_of_refl].
Qed.

Lemma EXT_ARGS_AssignVal_in_text (prs : EXT_ARGS_Parser) :
  step_in_text (str prs) (fun r => str (snd r)) (EXT_ARGS_AssignVal prs false).
Proof.
  unfold EXT_ARGS_AssignVal, EXT_ARGS_CurrentPos, EXT_ARGS_Rollback.
  eapply step_bind; [apply EXT_ARGS_Match_in_text|].
  intros [b p] S. cbn [fst snd] in S |- *.
  destruct b; cbn [negb]; [|exact S].
  eapply step_bind;
    [eapply step_weaken; [apply EXT_ARGS_Match_in_text | exact S]|].
  intros [b2 p2] S2. cbn [fst snd] in S2 |- *.
  destruct b2; simpl; [exact S2 | apply suffix_of_refl].
Qed.

Lemma EXT_ARGS_Arg_aliases_in_text (s : string) (fuel gi : nat) (bk : string)
  (fbk : nat) :
  suffix_of s bk ->
  forall (n : nat) (prs : EXT_ARGS_Parser),
    suffix_of s (str prs) ->
    step_in_text s (fun r => str (snd r))
      (EXT_ARGS_Arg_aliases fuel false gi bk fbk n prs).
Proof.
  intros Sb. induction fuel as [|fuel IH]; intros n prs S; [exact I|].
  cbn [EXT_ARGS_Arg_aliases].
  eapply step_bind;
    [eapply step_weaken; [apply EXT_ARGS_Match_in_text | exact S]|].
  intros [b p] S1. cbn [fst snd] in S1 |- *.
  destruct b; cbn [negb]; [|exact S1].
  eapply step_bind;
    [eapply step_weaken; [apply EXT_ARGS_Match_in_text | exact S1]|].
  intros [b2 p2] S2. cbn [fst snd] in S2 |- *.
  destruct b2; cbn [negb].
  - unfold EXT_ARGS_SaveFloatArg. apply IH. exact S2.
  - simpl. exact Sb.
Qed.

Lemma EXT_ARGS_Arg_in_text (prs : EXT_ARGS_Parser) :
  step_in_text (str prs) (fun r => str (snd r)) (EXT_ARGS_Arg prs false).
Proof.
  unfold EXT_ARGS_Arg, EXT_ARGS_CurrentPos, EXT_ARGS_Rollback,
    EXT_ARGS_SaveFloatArg.
  eapply step_bind; [apply EXT_ARGS_Match_in_text|].
  intros [b p] S. cbn [fst snd] in S |- *.
  destruct b; [exact S|].
  eapply step_bind;
    [eapply step_weaken; [apply EXT_ARGS_Match_in_text | exact S]|].
  intros [b2 p2] S2. cbn [fst snd] in S2 |- *.
  destruct b2; cbn [negb]; [|exact S2].
  cbv zeta.
  eapply step_bind; [apply EXT_ARGS_Arg_aliases_in_text; exact S2|].
  intros [r p4] S4. cbn [fst snd] in S4 |- *.
  destruct r as [n|]; [|exact S4].
  eapply step_bind;
    [eapply step_weaken; [apply EXT_ARGS_AssignVal_in_text | exact S4]|].
  intros [b5 p5] S5. cbn [fst snd] in S5 |- *.
  destruct b5.
  - eapply step_bind;
      [eapply step_weaken; [apply EXT_ARGS_Match_in_text | exact S5]|].
    intros [b6 p6] S6. cbn [fst snd] in S6 |- *. exact S6.
  - eapply step_bind;
      [eapply step_weaken;
         [apply (EXT_ARGS_Match_in_text EXT_ARGS_TOK_LBRAK
                   (EXT_ARGS_SaveGroup p5 false false n)) | exact S5]|].
    intros [b7 p7] S7. cbn [fst snd] in S7 |- *.
    destruct b7; cbn [negb]; [|exact S5].
    eapply step_bind;
      [eapply step_weaken; [apply EXT_ARGS_AssignVal_in_text | exact S7]|].
    intros [b8 p8] S8. cbn [fst snd] in S8 |- *.
    destruct b8; cbn [negb]; [|exact S5].
    eapply step_bind;
      [eapply step_weaken; [apply EXT_ARGS_Match_in_text | exact S8]|].
    intros [b9 p9] S9. cbn [fst snd] in S9 |- *.
    destruct b9; cbn [negb]; [exact S9 | exact S5].
Qed.

Lemma EXT_ARGS_Decl_in_text (prs : EXT_ARGS_Parser) :
  step_in_text (str prs) (fun r => str (snd r)) (EXT_ARGS_Decl prs false).
Proof.
  unfold EXT_ARGS_Decl, EXT_ARGS_CurrentPos, EXT_ARGS_Rollback.
  eapply step_bind; [apply (EXT_ARGS_Arg_in_text (set_isOptional prs false))|].
  intros [b p] S. cbn [fst snd] in S |- *.
  destruct b; [exact S|].
  eapply step_bind;
    [eapply step_weaken; [apply EXT_ARGS_Match_in_text | exact S]|].
  intros [b2 p2] S2. cbn [fst snd] in S2 |- *.
  destruct b2; cbn [negb]; [|exact S2].
  eapply step_bind;
    [eapply step_weaken;
       [apply (EXT_ARGS_Arg_in_text (set_isOptional p2 true)) | exact S2]|].
  intros [b3 p3] S3. cbn [fst snd] in S3 |- *.
  destruct b3; cbn [negb]; [|exact S].
  eapply step_bind;
    [eapply step_weaken; [apply EXT_ARGS_Match_in_text | exact S3]|].
  intros [b4 p4] S4. cbn [fst snd] in S4 |- *.
  destruct b4; cbn [negb]; [exact S4 | exact S].
Qed.

Lemma EXT_ARGS_Synopsis_decls_in_text (s : string) (fuel : nat) :
  forall prs : EXT_ARGS_Parser,
    suffix_of s (str prs) ->
    step_in_text s str (EXT_ARGS_Synopsis_decls fuel prs).
Proof.
  induction fuel as [|fuel IH]; intros prs S; [exact I|].
  cbn [EXT_ARGS_Synopsis_decls].
  eapply step_bind;
    [eapply step_weaken; [apply EXT_ARGS_Decl_in_text | exact S]|].
  intros [b p] S1. cbn [fst snd] in S1 |- *.
  destruct b; [apply IH; exact S1 | exact S1].
Qed.

(** The last step of the schema parser, which insists on the end of the
    input. *)
Lemma EXT_ARGS_Match_EOI (prs : EXT_ARGS_Parser) :
  schema_outcome_ok (str prs)
    ('(_, p) <- EXT_ARGS_Match EXT_ARGS_TOK_EOI prs true ;; Ret p).
Proof.
  unfold EXT_ARGS_Match, EXT_ARGS_NextTok, EXT_ARGS_CurrentPos.
  assert (Sk : snd (EXT_ARGS_SkipSpaces prs)
               = set_str prs (skip_spaces (str prs))).
  { unfold EXT_ARGS_SkipSpaces. destruct (Nat.eqb _ 0); reflexivity. }
  rewrite Sk. clear Sk.
  pose proof (skip_spaces_suffix (str prs)) as S0.
  set (p0 := set_str prs (skip_spaces (str prs))).
  change (skip_spaces (str prs)) with (str p0) in S0.
  destruct (is_nul (str p0)) eqn:N.
  { assert (E : str p0 = EmptyString)
      by (destruct (str p0); [reflexivity | discriminate N]).
    simpl. exact E. }
  apply is_nul_false in N.
  assert (Ne : str prs <> EmptyString).
  { intros E. destruct S0 as [q Hq]. rewrite E in Hq.
    destruct q; [exact (N (eq_sym Hq)) | discriminate Hq]. }
  cbv zeta.
  repeat match goal with
         | |- context [let '(_, _) := ?f ?x in _] => destruct (f x) as [[|] ?]
         end;
    simpl; repeat split; try discriminate;
    try apply suffix_of_refl; try assumption.
Qed.

Lemma schema_outcome_weaken (s t : string) (o : outcome EXT_ARGS_Parser) :
  schema_outcome_ok t o -> suffix_of s t -> schema_outcome_ok s o.
Proof.
  destruct o as [p|[e|x u e|]|]; simpl; auto.
  - intros [H N] S. split; [eapply suffix_of_trans; eassumption | exact N].
  - intros (H1 & H2 & H3 & H4) S.
    repeat split; auto. eapply suffix_of_trans; eassumption.
Qed.

Lemma lex_error_outcome (s : string) (j : jmp) :
  lex_error_in s j -> schema_outcome_ok s (Longjmp j).
Proof. intros (e & E & S & N). subst j. simpl. split; assumption. Qed.

(** The schema parser ends on every schema text.  It returns a model after
    reading the whole text, or raises a lexing error, or raises the one
    parsing error it has: the end of the input was expected and another
    token was found.  The text quoted by an error is a part of the schema
    text that reaches to its end and is not empty. *)
Theorem schema_parser_outcome (fmt : string) :
  schema_outcome_ok fmt (EXT_ARGS_Synopsis (Parser_init fmt)).
Proof.
  unfold EXT_ARGS_Synopsis.
  pose proof (EXT_ARGS_Synopsis_decls_fuel
                (S (String.length (str (Parser_init fmt)))) (Parser_init fmt)
                (model_ok_init fmt) (Nat.lt_succ_diag_r _)) as NF.
  pose proof (EXT_ARGS_Synopsis_decls_in_text fmt
                (S (String.length (str (Parser_init fmt)))) (Parser_init fmt)
                (suffix_of_refl fmt)) as T.
  destruct (EXT_ARGS_Synopsis_decls _ _) as [p1|j|];
    [|apply lex_error_outcome; exact T|congruence].
  simpl in T. cbn [bind].
  pose proof (EXT_ARGS_Match_in_text EXT_ARGS_TOK_DOTS p1) as T2.
  pose proof (EXT_ARGS_Match_fuel EXT_ARGS_TOK_DOTS p1 false) as NF2.
  destruct (EXT_ARGS_Match EXT_ARGS_TOK_DOTS p1 false) as [[b p2]|j|];
    [|apply lex_error_outcome; eapply (step_weaken fmt _ str (Longjmp j));
      [exact T2 | exact T]|congruence].
  simpl in T2. cbn [bind]. cbv beta iota.
  assert (S2 : suffix_of fmt (str p2)) by (eapply suffix_of_trans; eassumption).
  destruct b.
  - apply (schema_outcome_weaken fmt (str (set_varPosArgsEnabled p2 true)));
      [apply EXT_ARGS_Match_EOI | exact S2].
  - apply (schema_outcome_weaken fmt (str p2));
      [apply EXT_ARGS_Match_EOI | exact S2].
Qed.

(** ** Kinds of results *)

Lemma lex_arg_Done (bk : string) (tokens : list EXT_ARGS_UTok) (res : result) :
  snd (lex_arg bk tokens) = LexDone res ->
  res = EXT_ARGS_INPUT_ERR ("Ambiguous argument " ++ quoted bk).
Proof.
  unfold lex_arg.
  destruct (EXT_ARGS_ArgFloat (Parser_init bk)) as [b ipr].
  destruct (EXT_ARGS_Char "=" ipr) as [b1 ipr1].
  destruct (EXT_ARGS_Char "-" ipr1) as [b2 ipr2].
  destruct (EXT_ARGS_Char "-" ipr2) as [b3 ipr3].
  destruct b, b1, b2, b3;
    repeat match goal with
           | |- context [if ?c then _ else _] => destruct c
           end;
    simpl; intros H; try discriminate H; inversion H; reflexivity.
Qed.

Lemma lex_args_Done (args : list string) :
  forall (tokens : list EXT_ARGS_UTok) (res : result),
    lex_args args tokens = Done res ->
    exists bk, In bk args
               /\ res = EXT_ARGS_INPUT_ERR ("Ambiguous argument " ++ quoted bk).
Proof.
  induction args as [|bk args IH]; intros tokens res H; simpl in H;
    [discriminate|].
  destruct (lex_arg bk tokens) as [toks st] eqn:E.
  destruct st as [| |r].
  - apply IH in H. destruct H as (b & I & R). exists b. split; [right|]; auto.
  - discriminate.
  - inversion H; subst. exists bk. split; [left; reflexivity|].
    apply (lex_arg_Done bk tokens). rewrite E. reflexivity.
Qed.

Lemma parse_input_Done (toks : list EXT_ARGS_UTok) :
  forall (fl : list EXT_ARGS_UFloatArg) (ps : list string) (res : result),
    parse_input toks fl ps = Done res -> exists msg, res = EXT_ARGS_INPUT_ERR msg.
Proof.
  assert (G : forall n toks, List.length toks <= n ->
            forall fl ps res, parse_input toks fl ps = Done res ->
                              exists msg, res = EXT_ARGS_INPUT_ERR msg).
  { induction n as [|n IH]; intros l Ln fl ps res H.
    - destruct l; [discriminate H | simpl in Ln; lia].
    - destruct l as [|t l1]; [discriminate H|]. simpl in Ln.
      destruct (u_type t) eqn:Tt.
      + destruct l1 as [|e l2]; [cbn in H; rewrite Tt in H; discriminate H|].
        destruct (u_type e) eqn:Te.
        * rewrite parse_input_flag in H by (auto; congruence).
          apply IH in H; [exact H | simpl in *; lia].
        * destruct l2 as [|v l3].
          { cbn in H. rewrite Tt, Te in H. inversion H. eexists. reflexivity. }
          destruct (u_type v) eqn:Tv;
            try (rewrite parse_input_flag_no_value in H by (auto; congruence);
                 inversion H; eexists; reflexivity).
          rewrite parse_input_flag_value in H by assumption.
          apply IH in H; [exact H | simpl in *; lia].
        * rewrite parse_input_flag in H by (auto; congruence).
          apply IH in H; [exact H | simpl in *; lia].
        * rewrite parse_input_flag in H by (auto; congruence).
          apply IH in H; [exact H | simpl in *; lia].
      + rewrite parse_input_equals in H by exact Tt.
        inversion H. eexists. reflexivity.
      + rewrite parse_input_value in H by exact Tt.
        apply IH in H; [exact H | lia].
      + rewrite parse_input_eoi in H by exact Tt. discriminate H. }
  intros fl ps res H. eapply G; [apply Nat.le_refl | exact H].
Qed.

Lemma validate_floats_Done (ufs : list EXT_ARGS_UFloatArg) :
  forall (prs : EXT_ARGS_Parser) (res : result),
    validate_floats ufs prs = Done res -> exists msg, res = EXT_ARGS_INPUT_ERR msg.
Proof.
  induction ufs as [|uf ufs IH]; intros prs res H; simpl in H; [discriminate|].
  destruct (validate_float uf prs) as [p|r] eqn:V; [eapply IH; exact H|].
  inversion H; subst. unfold validate_float in V.
  destruct (find _ _); [|inversion V; eexists; reflexivity].
  cbv zeta in V.
  repeat match type of V with
         | (if ?c then _ else _) = _ => destruct c
         end;
    try discriminate V; inversion V; eexists; reflexivity.
Qed.

Lemma check_provided_Done (grs : list EXT_ARGS_FloatArgsGroup)
  (fls : list EXT_ARGS_FloatArg) :
  forall (i : nat) (res : result),
    check_provided i grs fls = Done res -> exists msg, res = EXT_ARGS_INPUT_ERR msg.
Proof.
  induction grs as [|gr grs IH]; intros i res H; simpl in H; [discriminate|].
  destruct (negb (isUsed gr) && negb (isOptional gr)); [|eapply IH; exact H].
  destruct (find _ fls); [inversion H; eexists; reflexivity | eapply IH; exact H].
Qed.

(** Whatever stops the input stages is an input error. *)
Lemma check_input_Done (argv : list string) (prs : EXT_ARGS_Parser)
  (res : result) :
  check_input argv prs = Done res -> exists msg, res = EXT_ARGS_INPUT_ERR msg.
Proof.
  unfold check_input, lex_input.
  destruct (lex_args (tl argv) []) as [toks|r] eqn:L.
  2:{ intros H. inversion H; subst.
      apply lex_args_Done in L. destruct L as (bk & _ & R).
      eexists. exact R. }
  destruct (parse_input (append_eoi toks) [] []) as [[ufs vals]|r] eqn:P.
  2:{ intros H. inversion H; subst. eapply parse_input_Done. exact P. }
  destruct (validate_floats ufs prs) as [p|r] eqn:V.
  2:{ intros H. inversion H; subst. eapply validate_floats_Done. exact V. }
  destruct (check_provided 0 (groups p) (floats p)) as [u|r] eqn:C.
  2:{ intros H. inversion H; subst. eapply check_provided_Done. exact C. }
  unfold check_posArgs.
  destruct (Nat.ltb _ _); [intros H; inversion H; eexists; reflexivity|].
  destruct (_ && _); intros H; inversion H. eexists. reflexivity.
Qed.

(** What stops the schema stage is a schema error with one of three
    messages. *)
Lemma compile_schema_Done (fmt : string) (res : result) :
  compile_schema fmt = Some (Done res) ->
  res = EXT_ARGS_SCHEMA_ERR right_side_msg
  \/ (exists e,
        suffix_of fmt e /\ e <> EmptyString
        /\ res = EXT_ARGS_SCHEMA_ERR
                   ("Schema lexing error, starting from " ++ quoted e))
  \/ (exists u e,
        suffix_of fmt e /\ e <> EmptyString /\ u <> EXT_ARGS_TOK_EOI
        /\ res = EXT_ARGS_SCHEMA_ERR
                   ("Schema parsing error. Expected EOI but received "
                    ++ EXT_ARGS_TokTypeToName u ++ ", starting from "
                    ++ quoted e)).
Proof.
  unfold compile_schema. pose proof (schema_parser_outcome fmt) as O.
  destruct (EXT_ARGS_Synopsis (Parser_init fmt)) as [prs|j|]; [| |discriminate].
  - destruct (_ && _); intros H; inversion H. left. reflexivity.
  - intros H. inversion H; subst. simpl in O.
    destruct j as [e|x u e|]; [| |contradiction].
    + destruct O as [S N]. right. left. exists e. repeat split; auto.
    + destruct O as (X & U & S & N). subst x. right. right. exists u, e.
      repeat split; auto.
Qed.

(** The schema errors of [ext_args] carry one of three messages: the fixed
    message about optional positional arguments, the lexing message with a
    non-empty tail of the schema, or the parsing message, which always
    expects the end of the input and names another token. *)
Theorem schema_error_messages (argv : list string) (fmt : string)
  (ap : list ptr) (m m' : store) (msg : string) :
  ext_args argv fmt ap m = Some (EXT_ARGS_SCHEMA_ERR msg, m') ->
  msg = "All optional non-flag arguments must be chained on the schema's right side"
  \/ (exists e,
        suffix_of fmt e /\ e <> EmptyString
        /\ msg = ("Schema lexing error, starting from " ++ quoted e)%string)
  \/ (exists u e,
        suffix_of fmt e /\ e <> EmptyString /\ u <> EXT_ARGS_TOK_EOI
        /\ msg = ("Schema parsing error. Expected EOI but received "
                  ++ EXT_ARGS_TokTypeToName u ++ ", starting from "
                  ++ quoted e)%string).
Proof.
  unfold ext_args. intros H.
  destruct (compile_schema fmt) as [[prs|r]|] eqn:C; [| |discriminate].
  - destruct (check_input argv prs) as [[[p ufs] vals]|r] eqn:I.
    + destruct (get_var_ptrs _ _ _) as [[ap' p2]|]; [|discriminate].
      destruct (get_varPos_ptr _ _); discriminate.
    + apply check_input_Done in I. destruct I as (x & X). subst r.
      discriminate.
  - inversion H; subst. apply compile_schema_Done in C.
    destruct C as [C|[(e & S & N & C)|(u & e & S & N & U & C)]].
    + inversion C. left. reflexivity.
    + inversion C. right. left. exists e. auto.
    + inversion C. right. right. exists u, e. auto.
Qed.

Lemma schema_error_messages_witness :
  exists u e,
    suffix_of "a]" e /\ e <> EmptyString /\ u <> EXT_ARGS_TOK_EOI
    /\ ("Schema parsing error. Expected EOI but received RBRAK, starting from "
        ++ quoted "]")%string
       = ("Schema parsing error. Expected EOI but received "
          ++ EXT_ARGS_TokTypeToName u ++ ", starting from " ++ quoted e)%string.
Proof.
  destruct (schema_error_messages ["prog"] "a]" [None] store_init store_init
              ("Schema parsing error. Expected EOI but received RBRAK, starting from "
               ++ quoted "]") ltac:(vm_compute; reflexivity))
    as [H|[(e & _ & _ & H)|H]].
  - vm_compute in H. discriminate H.
  - vm_compute in H. discriminate H.
  - exact H.
Defined.

(** A schema error is a matter of the schema alone: the same error is
    returned for every argument vector, pointer list and store. *)
Theorem schema_error_for_every_input (argv : list string) (fmt : string)
  (ap : list ptr) (m m' : store) (msg : string) :
  ext_args argv fmt ap m = Some (EXT_ARGS_SCHEMA_ERR msg, m') ->
  forall (argv2 : list string) (ap2 : list ptr) (m2 : store),
    ext_args argv2 fmt ap2 m2 = Some (EXT_ARGS_SCHEMA_ERR msg, m2).
Proof.
  unfold ext_args. intros H argv2 ap2 m2.
  destruct (compile_schema fmt) as [[prs|r]|] eqn:C; [| |discriminate].
  - destruct (check_input argv prs) as [[[p ufs] vals]|r] eqn:I.
    + destruct (get_var_ptrs _ _ _) as [[ap' p2]|]; [|discriminate].
      destruct (get_varPos_ptr _ _); discriminate.
    + apply check_input_Done in I. destruct I as (x & X). subst r.
      discriminate.
  - inversion H; subst. reflexivity.
Qed.

Lemma schema_error_for_every_input_witness :
  ext_args ["prog"; "-x"; "y"] "1a" [Some 3] store_init
  = Some (EXT_ARGS_SCHEMA_ERR
            ("Schema lexing error, starting from " ++ quoted "1a"),
          store_init).
Proof.
  apply (schema_error_for_every_input ["prog"] "1a" [None] store_init store_init).
  vm_compute. reflexivity.
Defined.

(** An error is returned before any pointer of the caller is read: the call
    gives the same error with any other pointer list, also an empty one, and
    with any other contents of the variables. *)
Theorem errors_ignore_pointers (argv : list string) (fmt : string)
  (ap : list ptr) (m m' : store) (res : result) :
  ext_args argv fmt ap m = Some (res, m') ->
  res <> EXT_ARGS_NO_ERR ->
  forall (ap2 : list ptr) (m2 : store),
    ext_args argv fmt ap2 m2 = Some (res, m2).
Proof.
  unfold ext_args. intros H N ap2 m2.
  destruct (compile_schema fmt) as [[prs|r]|]; [| |discriminate].
  - destruct (check_input argv prs) as [[[p ufs] vals]|r].
    + destruct (get_var_ptrs _ _ _) as [[ap' p2]|]; [|discriminate].
      destruct (get_varPos_ptr _ _); [|discriminate].
      inversion H; subst. elim N. reflexivity.
    + inversion H; subst. reflexivity.
  - inversion H; subst. reflexivity.
Qed.

Lemma errors_ignore_pointers_witness :
  ext_args ["prog"; "1"] "a b [c]" [] store_init
  = Some (EXT_ARGS_INPUT_ERR "Not enough positional arguments provided",
          store_init).
Proof.
  apply (errors_ignore_pointers ["prog"; "1"] "a b [c]"
           [Some 0; Some 1; Some 2] store_init store_init).
  - vm_compute. reflexivity.
  - discriminate.
Defined.

(** ** Reading the pointers *)

Lemma validate_floats_frame (ufs : list EXT_ARGS_UFloatArg) :
  forall prs prs' : EXT_ARGS_Parser,
    validate_floats ufs prs = Ok prs' ->
    posArgs prs' = posArgs prs
    /\ sequence prs' = sequence prs
    /\ varPosArgsEnabled prs' = varPosArgsEnabled prs
    /\ varPosrArgsVarPtr prs' = varPosrArgsVarPtr prs.
Proof.
  induction ufs as [|uf ufs IH]; intros prs prs' H; simpl in H.
  - inversion H. auto.
  - destruct (validate_float uf prs) as [p|] eqn:V; [|discriminate].
    apply validate_float_Ok in V. destruct V as (f & _ & P). subst p.
    apply IH in H. exact H.
Qed.

Lemma check_input_Ok (argv : list string) (prs prs1 : EXT_ARGS_Parser)
  (ufs : list EXT_ARGS_UFloatArg) (vals : list string) :
  check_input argv prs = Ok (prs1, ufs, vals) ->
  exists toks,
    lex_input argv = Ok toks
    /\ parse_input toks [] [] = Ok (ufs, vals)
    /\ validate_floats ufs prs = Ok prs1
    /\ check_provided 0 (groups prs1) (floats prs1) = Ok tt
    /\ check_posArgs prs1 (List.length vals) = Ok tt.
Proof.
  unfold check_input.
  destruct (lex_input argv) as [toks|] eqn:L; [|discriminate].
  destruct (parse_input toks [] []) as [[u v]|] eqn:P; [|discriminate].
  destruct (validate_floats u prs) as [p|] eqn:V; [|discriminate].
  destruct (check_provided 0 (groups p) (floats p)) as [[]|] eqn:C;
    [|discriminate].
  destruct (check_posArgs p (List.length v)) as [[]|] eqn:K; [|discriminate].
  intros H. inversion H; subst. exists toks. repeat split; auto.
Qed.

(** The loop over the declarations reads one pointer for each of them and
    leaves everything but the stored pointers as it was. *)
Lemma get_var_ptrs_spec (sq : list EXT_ARGS_SequenceElement) :
  forall (ap : list ptr) (prs : EXT_ARGS_Parser),
    match get_var_ptrs sq ap prs with
    | None => List.length ap < List.length sq
    | Some (ap', prs') =>
        List.length sq <= List.length ap
        /\ ap' = skipn (List.length sq) ap
        /\ floats prs' = floats prs
        /\ sequence prs' = sequence prs
        /\ varPosArgsEnabled prs' = varPosArgsEnabled prs
        /\ varPosrArgsVarPtr prs' = varPosrArgsVarPtr prs
    end.
Proof.
  induction sq as [|e sq IH]; intros ap prs; simpl.
  - repeat split; auto. lia.
  - destruct ap as [|p ap]; [simpl; lia|].
    match goal with
    | |- context [get_var_ptrs sq ap ?q] => specialize (IH ap q)
    end.
    destruct (get_var_ptrs sq ap _) as [[ap' prs']|]; [|simpl; lia].
    destruct IH as (L & A & F & S & V & W). simpl.
    split; [lia|]. split; [exact A|].
    destruct (sq_type e); simpl in *; auto.
Qed.

(** [ext_args] has a result except where it would read a pointer that the
    caller did not pass: the schema compiled, the input passed every check,
    and the pointer list is shorter than the number of declarations (plus
    one for the trailing arguments). *)
Theorem ext_args_undefined_iff (argv : list string) (fmt : string)
  (ap : list ptr) (m : store) :
  ext_args argv fmt ap m = None
  <-> exists prs st,
        compile_schema fmt = Some (Ok prs)
        /\ check_input argv prs = Ok st
        /\ List.length ap < slot_count prs.
Proof.
  unfold ext_args, slot_count.
  pose proof (compile_schema_total fmt) as T.
  destruct (compile_schema fmt) as [[prs|r]|]; [| |congruence].
  2:{ split; [discriminate|]. intros (p & st & C & _). discriminate C. }
  destruct (check_input argv prs) as [[[prs1 ufs] vals]|r] eqn:I.
  2:{ split; [discriminate|]. intros (p & st & C & K & _).
      inversion C; subst. congruence. }
  pose proof I as I0.
  apply check_input_Ok in I. destruct I as (toks & _ & _ & V & _).
  apply validate_floats_frame in V. destruct V as (_ & Sq & Vp & _).
  pose proof (get_var_ptrs_spec (sequence prs1) ap prs1) as G.
  destruct (get_var_ptrs (sequence prs1) ap prs1) as [[ap' prs2]|].
  - destruct G as (L & A & _ & _ & V2 & _).
    unfold get_varPos_ptr. rewrite V2, Vp.
    assert (La : List.length ap' = List.length ap - List.length (sequence prs))
      by (rewrite A, length_skipn, Sq; reflexivity).
    rewrite Sq in L.
    destruct (varPosArgsEnabled prs) eqn:VE.
    + destruct ap' as [|p ap''].
      * split; [intros _|reflexivity].
        exists prs. eexists. split; [reflexivity|]. split; [exact I0|].
        rewrite VE. simpl in La. lia.
      * split; [discriminate|]. intros (p0 & st & C & _ & K).
        inversion C; subst p0. rewrite VE in K. simpl in La. lia.
    + split; [discriminate|]. intros (p0 & st & C & _ & K).
      inversion C; subst p0. rewrite VE in K. lia.
  - split; [intros _|reflexivity].
    exists prs. eexists. split; [reflexivity|]. split; [exact I0|].
    rewrite <- Sq. lia.
Qed.

(** ** What follows the terminator *)

Lemma append_eoi_no_eoi (toks : list EXT_ARGS_UTok) :
  Forall not_UTOK_EOI toks -> append_eoi toks = toks ++ [utok_eoi].
Proof.
  intros F. unfold append_eoi. destruct (rev toks) as [|t l] eqn:E;
    [reflexivity|].
  assert (I : In t toks) by (apply in_rev; rewrite E; left; reflexivity).
  rewrite Forall_forall in F. specialize (F t I). unfold not_UTOK_EOI in F.
  destruct (u_type t); try reflexivity. elim F. reflexivity.
Qed.

Lemma append_eoi_ends (toks : list EXT_ARGS_UTok) :
  append_eoi (toks ++ [utok_eoi]) = toks ++ [utok_eoi].
Proof. unfold append_eoi. rewrite rev_app_distr. reflexivity. Qed.

Lemma lex_input_terminator (prog : string) (pre post : list string) :
  lex_input (prog :: pre ++ "--" :: post) = lex_input (prog :: pre).
Proof.
  unfold lex_input. cbn [tl].
  assert (G : forall toks, Forall not_UTOK_EOI toks ->
            match lex_args (pre ++ "--" :: post) toks with
            | Ok ts => Ok (append_eoi ts)
            | Done res => Done res
            end
            = match lex_args pre toks with
              | Ok ts => Ok (append_eoi ts)
              | Done res => Done res
              end).
  { induction pre as [|bk pre IH]; intros toks F.
    - cbn [app]. rewrite lex_args_terminator. cbn [lex_args].
      rewrite append_eoi_ends, append_eoi_no_eoi by exact F. reflexivity.
    - cbn [app lex_args]. rewrite (lex_arg_app bk toks).
      destruct (snd (lex_arg bk [])) eqn:St; [|reflexivity|reflexivity].
      apply IH. apply Forall_app. split; [exact F|].
      apply lex_continues_no_eoi. exact St. }
  apply G. constructor.
Qed.

(** The raw argument "--" and everything after it are as good as absent:
    the call answers as it does on the arguments before the terminator. *)
Theorem terminator_truncates (prog : string) (pre post : list string)
  (fmt : string) (ap : list ptr) (m : store) :
  ext_args (prog :: pre ++ "--" :: post) fmt ap m
  = ext_args (prog :: pre) fmt ap m.
Proof.
  unfold ext_args, check_input. rewrite lex_input_terminator. reflexivity.
Qed.

(** ** The lexical rules of the schema *)

Lemma string_length_app (a b : string) :
  String.length (a ++ b) = String.length a + String.length b.
Proof. induction a as [|c a IH]; simpl; [reflexivity | rewrite IH; reflexivity]. Qed.

Lemma string_app_inv_head (a b c : string) :
  (a ++ b = a ++ c)%string -> b = c.
Proof.
  induction a as [|x a IH]; simpl; intros H; [exact H|].
  inversion H. auto.
Qed.

(** The loop of [EXT_ARGS_Name] stops after the longest run of name
    characters. *)
Lemma name_scan_run (mid rest : string) :
  forall last : ascii,
    all_chars is_name_char mid = true ->
    starts_with is_name_char rest = false ->
    name_scan last (mid ++ rest) = (last_char last mid, rest).
Proof.
  induction mid as [|c mid IH]; intros last A S; cbn [append last_char].
  - destruct rest as [|c r]; [reflexivity|].
    cbn [starts_with] in S. cbn [name_scan]. rewrite S. reflexivity.
  - cbn [all_chars] in A. apply andb_true_iff in A. destruct A as [A1 A2].
    cbn [name_scan]. rewrite A1. apply IH; assumption.
Qed.

Lemma name_scan_split (s : string) :
  forall last : ascii,
    exists mid,
      s = (mid ++ snd (name_scan last s))%string
      /\ all_chars is_name_char mid = true
      /\ starts_with is_name_char (snd (name_scan last s)) = false
      /\ fst (name_scan last s) = last_char last mid.
Proof.
  induction s as [|c s IH]; intros last; cbn [name_scan].
  - exists EmptyString. repeat split.
  - destruct (is_name_char c) eqn:N.
    + destruct (IH c) as (mid & E & A & S & L).
      exists (String c mid). cbn [all_chars append last_char].
      rewrite N, <- E. repeat split; auto.
    + exists EmptyString. cbn [snd fst starts_with append all_chars last_char].
      rewrite N. repeat split.
Qed.

Lemma EXT_ARGS_Name_accepted (prs : EXT_ARGS_Parser) (rest : string) :
  EXT_ARGS_Name prs = (true, set_str prs rest) ->
  exists n,
    str prs = (n ++ rest)%string
    /\ valid_name n = true
    /\ starts_with is_name_char rest = false.
Proof.
  unfold EXT_ARGS_Name, EXT_ARGS_Rollback.
  destruct (str prs) as [|c0 s0] eqn:E; [discriminate|].
  destruct (is_letter c0) eqn:L0; [|discriminate]. cbn [negb].
  destruct (name_scan_split s0 c0) as (mid & Es & A & S & La).
  destruct (name_scan c0 s0) as [last c]. cbn [fst snd] in *.
  destruct (Ascii.eqb last "-") eqn:D; [discriminate|].
  intros H. inversion H as [R].
  subst c. exists (String c0 mid). cbn [append valid_name].
  rewrite <- Es, L0, A, <- La, D. repeat split; auto.
Qed.

Lemma EXT_ARGS_Name_accepts (prs : EXT_ARGS_Parser) (n rest : string) :
  str prs = (n ++ rest)%string ->
  valid_name n = true ->
  starts_with is_name_char rest = false ->
  EXT_ARGS_Name prs = (true, set_str prs rest).
Proof.
  unfold EXT_ARGS_Name, EXT_ARGS_Rollback. intros E V S.
  destruct n as [|c0 mid]; [discriminate|]. simpl in E, V.
  apply andb_true_iff in V. destruct V as [V D].
  apply andb_true_iff in V. destruct V as [L0 A].
  rewrite E, L0. cbn [negb].
  rewrite (name_scan_run mid rest c0 A S).
  apply negb_true_iff in D. rewrite D. reflexivity.
Qed.

(** [EXT_ARGS_Name] takes the longest run of name characters at the cursor,
    provided it is a valid name; a run that starts with something else than
    a letter or ends with a dash is no name at all (no shorter name is
    tried). *)
Theorem EXT_ARGS_Name_spec (prs : EXT_ARGS_Parser) (rest : string) :
  EXT_ARGS_Name prs = (true, set_str prs rest)
  <-> exists n,
        str prs = (n ++ rest)%string
        /\ valid_name n = true
        /\ starts_with is_name_char rest = false.
Proof.
  split; [apply EXT_ARGS_Name_accepted|].
  intros (n & E & V & S). exact (EXT_ARGS_Name_accepts prs n rest E V S).
Qed.

Lemma skip_char_run (c : ascii) (d rest : string) :
  all_chars (fun x => Ascii.eqb x c) d = true ->
  starts_with (fun x => Ascii.eqb x c) rest = false ->
  skip_char c (d ++ rest) = rest.
Proof.
  induction d as [|x d IH]; intros A S; cbn [append].
  - destruct rest as [|y r]; [reflexivity|].
    cbn [starts_with] in S. cbn [skip_char]. rewrite S. reflexivity.
  - cbn [all_chars] in A. apply andb_true_iff in A. destruct A as [A1 A2].
    cbn [skip_char]. rewrite A1. apply IH; assumption.
Qed.

Lemma skip_char_split (c : ascii) (s : string) :
  exists d,
    s = (d ++ skip_char c s)%string
    /\ all_chars (fun x => Ascii.eqb x c) d = true
    /\ starts_with (fun x => Ascii.eqb x c) (skip_char c s) = false.
Proof.
  induction s as [|x s IH]; cbn [skip_char].
  - exists EmptyString. repeat split.
  - destruct (Ascii.eqb x c) eqn:N.
    + destruct IH as (d & E & A & S). exists (String x d).
      cbn [all_chars append]. rewrite N, <- E. repeat split; auto.
    + exists EmptyString. cbn [starts_with append all_chars].
      rewrite N. repeat split.
Qed.

Lemma distance_app (prs : EXT_ARGS_Parser) (d rest : string) :
  EXT_ARGS_Distance (set_str prs rest) (d ++ rest) = String.length d.
Proof.
  unfold EXT_ARGS_Distance. simpl. rewrite string_length_app. lia.
Qed.

Lemma EXT_ARGS_Dots_accepts (prs : EXT_ARGS_Parser) (rest : string) :
  str prs = ("..." ++ rest)%string ->
  starts_with is_dot rest = false ->
  EXT_ARGS_Dots prs = (true, set_str prs rest).
Proof.
  unfold EXT_ARGS_Dots, EXT_ARGS_CurrentPos, EXT_ARGS_Rollback.
  intros E S. rewrite E.
  rewrite (skip_char_run "." "..." rest eq_refl S).
  change (String "." (String "." (String "." rest)))
    with ("..." ++ rest)%string.
  rewrite distance_app. reflexivity.
Qed.

(** The ellipsis is a run of exactly three dots: two dots, or four and more,
    are not accepted. *)
Theorem EXT_ARGS_Dots_spec (prs : EXT_ARGS_Parser) (rest : string) :
  EXT_ARGS_Dots prs = (true, set_str prs rest)
  <-> str prs = ("..." ++ rest)%string /\ starts_with is_dot rest = false.
Proof.
  unfold EXT_ARGS_Dots, EXT_ARGS_CurrentPos, EXT_ARGS_Rollback. split.
  - destruct (skip_char_split "." (str prs)) as (d & E & A & S).
    rewrite E at 2. rewrite distance_app.
    destruct (Nat.eqb (String.length d) 3) eqn:L; [|discriminate].
    cbn [negb]. intros H. inversion H as [R].
    split; [|exact S].
    apply Nat.eqb_eq in L.
    destruct d as [|a [|b [|c [|x d]]]]; try discriminate L.
    simpl in A. repeat (apply andb_true_iff in A; destruct A as [?H A]).
    repeat match goal with
           | H : Ascii.eqb _ _ = true |- _ => apply Ascii.eqb_eq in H; subst
           end.
    exact E.
  - intros [E S]. fold (EXT_ARGS_Dots prs).
    exact (EXT_ARGS_Dots_accepts prs rest E S).
Qed.

Lemma EXT_ARGS_ArgFloat_accepted (prs : EXT_ARGS_Parser) (rest : string) :
  EXT_ARGS_ArgFloat prs = (true, set_str prs rest) ->
  exists d n,
    str prs = (d ++ n ++ rest)%string
    /\ d <> EmptyString
    /\ all_chars is_dash d = true
    /\ valid_name n = true
    /\ starts_with is_name_char rest = false.
Proof.
  unfold EXT_ARGS_ArgFloat, EXT_ARGS_CurrentPos, EXT_ARGS_Rollback.
  destruct (skip_char_split "-" (str prs)) as (d & E & A & S).
  rewrite E at 2. rewrite distance_app.
  destruct (Nat.ltb (String.length d) 1) eqn:L; [discriminate|].
  destruct (EXT_ARGS_Name (set_str prs (skip_char "-" (str prs))))
    as [b p] eqn:N.
  destruct b; [|discriminate]. cbn [negb]. intros H. inversion H as [R].
  subst p.
  change (set_str prs rest)
    with (set_str (set_str prs (skip_char "-" (str prs))) rest) in N.
  apply EXT_ARGS_Name_accepted in N. destruct N as (n & En & V & Sn).
  cbn [str set_str] in En.
  exists d, n. rewrite <- En.
  repeat split; auto.
  intros D0. subst d. discriminate L.
Qed.

Lemma EXT_ARGS_ArgFloat_accepts (prs : EXT_ARGS_Parser) (d n rest : string) :
  str prs = (d ++ n ++ rest)%string ->
  d <> EmptyString ->
  all_chars is_dash d = true ->
  valid_name n = true ->
  starts_with is_name_char rest = false ->
  EXT_ARGS_ArgFloat prs = (true, set_str prs rest).
Proof.
  unfold EXT_ARGS_ArgFloat, EXT_ARGS_CurrentPos, EXT_ARGS_Rollback.
  intros E D0 A V S.
  assert (Sd : starts_with (fun x => Ascii.eqb x "-") (n ++ rest) = false).
  { destruct n as [|c0 mid]; [discriminate V|]. simpl in V |- *.
    apply andb_true_iff in V. destruct V as [V _].
    apply andb_true_iff in V. destruct V as [L0 _].
    destruct (Ascii.eqb_spec c0 "-") as [Q|Q]; [subst c0; discriminate L0|].
    reflexivity. }
  rewrite E. rewrite (skip_char_run "-" d (n ++ rest) A Sd), distance_app.
  destruct d as [|x d]; [elim D0; reflexivity|]. cbn [String.length Nat.ltb Nat.leb].
  assert (N : EXT_ARGS_Name (set_str prs (n ++ rest))
              = (true, set_str (set_str prs (n ++ rest)) rest)).
  { apply (EXT_ARGS_Name_accepts _ n rest); auto. }
  rewrite N. reflexivity.
Qed.

(** A flag name is one or more dashes followed at once by a valid name. *)
Theorem EXT_ARGS_ArgFloat_spec (prs : EXT_ARGS_Parser) (rest : string) :
  EXT_ARGS_ArgFloat prs = (true, set_str prs rest)
  <-> exists d n,
        str prs = (d ++ n ++ rest)%string
        /\ d <> EmptyString
        /\ all_chars is_dash d = true
        /\ valid_name n = true
        /\ starts_with is_name_char rest = false.
Proof.
  split; [apply EXT_ARGS_ArgFloat_accepted|].
  intros (d & n & E & D0 & A & V & S).
  exact (EXT_ARGS_ArgFloat_accepts prs d n rest E D0 A V S).
Qed.

(** ** The positional arguments of an accepted schema *)

Lemma manposArgsCount_cons (x : EXT_ARGS_PosArg) (l : list EXT_ARGS_PosArg) :
  manposArgsCount (x :: l)
  = (if pa_isOptional x then 0 else 1) + manposArgsCount l.
Proof. unfold manposArgsCount. simpl. destruct (pa_isOptional x); reflexivity. Qed.

Lemma optional_then_mandatory_tail (x : EXT_ARGS_PosArg)
  (l : list EXT_ARGS_PosArg) :
  optional_then_mandatory (x :: l) = false -> optional_then_mandatory l = false.
Proof.
  destruct l as [|y l]; [reflexivity|].
  change (optional_then_mandatory (x :: y :: l))
    with ((pa_isOptional x && negb (pa_isOptional y))
          || optional_then_mandatory (y :: l)).
  intros H. apply orb_false_iff in H. apply H.
Qed.

Lemma optional_then_all_optional (l : list EXT_ARGS_PosArg) :
  forall x : EXT_ARGS_PosArg,
    optional_then_mandatory (x :: l) = false ->
    pa_isOptional x = true ->
    Forall (fun a => pa_isOptional a = true) l.
Proof.
  induction l as [|y l IH]; intros x H O; [constructor|].
  change (optional_then_mandatory (x :: y :: l))
    with ((pa_isOptional x && negb (pa_isOptional y))
          || optional_then_mandatory (y :: l)) in H.
  apply orb_false_iff in H. destruct H as [H1 H2]. rewrite O in H1.
  simpl in H1. apply negb_false_iff in H1.
  constructor; [exact H1 | apply (IH y); assumption].
Qed.

Lemma manposArgsCount_optional (l : list EXT_ARGS_PosArg) :
  Forall (fun a => pa_isOptional a = true) l -> manposArgsCount l = 0.
Proof.
  induction 1 as [|x l O _ IH]; [reflexivity|].
  rewrite manposArgsCount_cons, O, IH. reflexivity.
Qed.

Lemma mandatory_prefix (l : list EXT_ARGS_PosArg) :
  optional_then_mandatory l = false ->
  forall (i : nat) (a : EXT_ARGS_PosArg),
    nth_error l i = Some a ->
    (pa_isOptional a = false <-> i < manposArgsCount l).
Proof.
  induction l as [|x l IH]; intros H i a N; [destruct i; discriminate|].
  rewrite manposArgsCount_cons.
  destruct (pa_isOptional x) eqn:O.
  - pose proof (optional_then_all_optional l x H O) as F.
    rewrite (manposArgsCount_optional l F). simpl.
    assert (Oa : pa_isOptional a = true).
    { destruct i as [|i]; simpl in N.
      - inversion N; subst. exact O.
      - rewrite Forall_forall in F. apply F. eapply nth_error_In. exact N. }
    rewrite Oa. split; [discriminate | lia].
  - destruct i as [|i]; simpl in N.
    + inversion N; subst. rewrite O. split; [simpl; lia | reflexivity].
    + apply optional_then_mandatory_tail in H.
      rewrite (IH H i a N). simpl. lia.
Qed.

(** In a schema that compiles, the mandatory positional arguments are
    exactly the first [manposArgsCount] ones: no optional positional
    argument is followed by a mandatory one. *)
Theorem mandatory_positionals_first (fmt : string) (prs : EXT_ARGS_Parser)
  (i : nat) (a : EXT_ARGS_PosArg) :
  compile_schema fmt = Some (Ok prs) ->
  nth_error (posArgs prs) i = Some a ->
  (pa_isOptional a = false <-> i < manposArgsCount (posArgs prs)).
Proof.
  intros C N. apply compile_schema_Ok in C. destruct C as [_ C].
  apply mandatory_prefix; [|exact N].
  apply andb_false_iff in C. destruct C as [C|C]; [|exact C].
  apply Nat.ltb_ge in C.
  destruct (posArgs prs) as [|x [|y l]]; try reflexivity.
  simpl in C. lia.
Qed.

Lemma mandatory_positionals_first_witness :
  exists (prs : EXT_ARGS_Parser) (a : EXT_ARGS_PosArg),
    compile_schema "a b [c]" = Some (Ok prs)
    /\ nth_error (posArgs prs) 1 = Some a
    /\ (pa_isOptional a = false <-> 1 < manposArgsCount (posArgs prs)).
Proof.
  do 2 eexists. split; [vm_compute; reflexivity|]. split; [reflexivity|].
  eapply (mandatory_positionals_first "a b [c]").
  - vm_compute. reflexivity.
  - reflexivity.
Defined.

(** ** The shape of the schema model *)

Lemma EXT_ARGS_Arg_aliases_effect (fuel : nat) (man : bool) (gi : nat)
  (bk : string) (fbk : nat) :
  forall (n : nat) (prs prs' : EXT_ARGS_Parser) (r : option nat),
    EXT_ARGS_Arg_aliases fuel man gi bk fbk n prs = Ret (r, prs') ->
    posArgs prs' = posArgs prs
    /\ groups prs' = groups prs
    /\ sequence prs' = sequence prs
    /\ parsingStates_isOptional prs' = parsingStates_isOptional prs
    /\ exists extra,
         Forall (fun f => fa_groupIdx f = gi) extra
         /\ match r with
            | None => floats prs' = firstn fbk (floats prs ++ extra)
            | Some k =>
                floats prs' = floats prs ++ extra
                /\ k = n + List.length extra
            end.
Proof.
  induction fuel as [|fuel IH]; intros n prs prs' r H;
    cbn [EXT_ARGS_Arg_aliases] in H; [discriminate|].
  apply bind_Ret in H. destruct H as ([b1 p1] & M1 & H).
  apply EXT_ARGS_Match_Ret in M1.
  destruct M1 as ((a1 & a2 & a3 & a4 & a5 & a6 & a7) & _).
  destruct b1; step_in H.
  - apply bind_Ret in H. destruct H as ([b2 p2] & M2 & H).
    apply EXT_ARGS_Match_Ret in M2.
    destruct M2 as ((c1 & c2 & c3 & c4 & c5 & c6 & c7) & _).
    destruct b2; step_in H.
    + unfold EXT_ARGS_SaveFloatArg in H. step_in H.
      apply IH in H. simpl in H.
      destruct H as (d1 & d2 & d3 & d4 & extra & E1 & E2).
      repeat split; try congruence.
      exists (mkFloatArg (tok_str (lastMatchTok p2)) (tok_len (lastMatchTok p2))
                gi :: extra).
      split; [constructor; [reflexivity | exact E1]|].
      destruct r.
      * destruct E2 as [E2 E3]. split; [|simpl; lia].
        rewrite E2, c3, a3, <- app_assoc. reflexivity.
      * rewrite E2, c3, a3, <- app_assoc. reflexivity.
    + inversion H; subst; clear H. simpl.
      repeat split; try congruence.
      exists []. split; [constructor|].
      rewrite app_nil_r, c3, a3. reflexivity.
  - inversion H; subst; clear H.
    repeat split; try congruence.
    exists []. split; [constructor|]. split; [|simpl; lia].
    rewrite app_nil_r. congruence.
Qed.

Lemma keeps_model_same (prs prs' : EXT_ARGS_Parser) :
  same_model prs prs' -> keeps_model prs prs'.
Proof. intros (a1 & a2 & a3 & a4 & _). repeat split; assumption. Qed.

(** What one [EXT_ARGS_Arg] does to the model: nothing when it fails, and
    one declaration added when it succeeds. *)
Lemma EXT_ARGS_Arg_effect (prs prs' : EXT_ARGS_Parser) (man b : bool) :
  EXT_ARGS_Arg prs man = Ret (b, prs') ->
  (b = false /\ keeps_model prs prs')
  \/ (b = true /\ (adds_pos prs prs' \/ adds_group prs prs')).
Proof.
  intros H. unfold EXT_ARGS_Arg in H.
  apply bind_Ret in H. destruct H as ([b1 p1] & M1 & H).
  apply EXT_ARGS_Match_Ret in M1. destruct M1 as (S1 & _ & _ & F1 & _).
  destruct b1; step_in H.
  { inversion H; subst; clear H. right. split; [reflexivity|]. left.
    destruct S1 as (a1 & a2 & a3 & a4 & a5 & a6 & a7).
    unfold adds_pos, EXT_ARGS_SavePosArg. simpl.
    exists (mkPosArg (parsingStates_isOptional p1) (tok_str (lastMatchTok p1))
              (tok_len (lastMatchTok p1)) None).
    rewrite a1, a2, a3, a4. simpl. repeat split; try exact a7. }
  rewrite (F1 eq_refl) in H. clear F1 S1 p1.
  apply bind_Ret in H. destruct H as ([b2 p2] & M2 & H).
  apply EXT_ARGS_Match_Ret in M2. destruct M2 as (S2 & _ & _ & F2 & _).
  destruct b2; step_in H.
  2:{ inversion H; subst; clear H. rewrite (F2 eq_refl).
      left. split; [reflexivity | repeat split]. }
  destruct S2 as (a1 & a2 & a3 & a4 & a5 & a6 & a7).
  unfold EXT_ARGS_CurrentPos, EXT_ARGS_SaveFloatArg in H. step_in H.
  apply bind_Ret in H. destruct H as ([r p4] & A & H).
  apply EXT_ARGS_Arg_aliases_effect in A. simpl in A.
  destruct A as (c1 & c2 & c3 & c5 & extra & E1 & E2).
  rewrite a2 in E1, E2, c2. rewrite a3 in E2.
  set (f0 := mkFloatArg (tok_str (lastMatchTok p2)) (tok_len (lastMatchTok p2))
               (List.length (groups prs))) in *.
  destruct r as [n|].
  2:{ inversion H; subst; clear H. left. split; [reflexivity|].
      repeat split; try congruence.
      rewrite E2, <- app_assoc, firstn_app, Nat.sub_diag, firstn_all.
      simpl. apply app_nil_r. }
  destruct E2 as [E2 En]. rewrite <- app_assoc in E2. simpl in E2, En.
  assert (EX : Forall (fun f => fa_groupIdx f = List.length (groups prs))
                 (f0 :: extra)) by (constructor; [reflexivity | exact E1]).
  assert (GR : forall (q : EXT_ARGS_Parser) (a rp : bool),
             same_model (EXT_ARGS_SaveGroup p4 a rp n) q \/
             (exists p5, same_model p4 p5 /\ q = EXT_ARGS_SaveGroup p5 a rp n) ->
             adds_group prs q).
  { intros q a rp Hq.
    assert (Q : exists p5, same_model p4 p5
                  /\ keeps_model (EXT_ARGS_SaveGroup p5 a rp n) q).
    { destruct Hq as [Hq|(p5 & S5 & Hq)].
      - exists p4. split; [apply same_model_refl | apply keeps_model_same, Hq].
      - exists p5. split; [exact S5|]. subst q. repeat split. }
    destruct Q as (p5 & (d1 & d2 & d3 & d4 & d5 & d6 & d7) & (k1 & k2 & k3 & k4)).
    unfold adds_group.
    exists (mkGroup (parsingStates_isOptional p5) a false rp n None false None),
      (f0 :: extra).
    unfold EXT_ARGS_SaveGroup in k1, k2, k3, k4. simpl in k1, k2, k3, k4.
    rewrite k1, k2, k3, k4. simpl.
    repeat split; try congruence; try lia; try exact EX. }
  apply bind_Ret in H. destruct H as ([b5 p5] & V & H).
  apply EXT_ARGS_AssignVal_Ret in V. destruct V as (S5 & _ & _).
  destruct b5; step_in H.
  { apply bind_Ret in H. destruct H as ([rep p6] & M6 & H).
    apply EXT_ARGS_Match_Ret in M6. destruct M6 as (S6 & _).
    inversion H; subst; clear H. right. split; [reflexivity|]. right.
    apply (GR _ true rep). right. exists p6.
    split; [eapply same_model_trans; eassumption | reflexivity]. }
  set (p7 := EXT_ARGS_SaveGroup p5 false false n) in *.
  assert (G7 : adds_group prs p7).
  { apply (GR _ false false). right. exists p5. split; [exact S5 | reflexivity]. }
  assert (RB : forall q, same_model p7 q ->
                 adds_group prs (EXT_ARGS_Rollback q (str p7))).
  { intros q Sq. destruct G7 as (g & fs & g1 & g2 & g3 & g4 & g5 & g6 & g7 & g8).
    destruct Sq as (q1 & q2 & q3 & q4 & _).
    exists g, fs. unfold EXT_ARGS_Rollback. simpl.
    rewrite q1, q2, q3, q4. repeat split; assumption. }
  clearbody p7.
  apply bind_Ret in H. destruct H as ([b8 p8] & M8 & H).
  apply EXT_ARGS_Match_Ret in M8. destruct M8 as (S8 & _).
  destruct b8; step_in H.
  2:{ inversion H; subst; clear H. right. split; [reflexivity|]. right.
      apply RB. exact S8. }
  apply bind_Ret in H. destruct H as ([b9 p9] & V9 & H).
  apply EXT_ARGS_AssignVal_Ret in V9. destruct V9 as (S9 & _ & _).
  assert (S79 : same_model p7 p9) by (eapply same_model_trans; eassumption).
  destruct b9; step_in H.
  2:{ inversion H; subst; clear H. right. split; [reflexivity|]. right.
      apply RB. exact S79. }
  apply bind_Ret in H. destruct H as ([b10 p10] & M10 & H).
  apply EXT_ARGS_Match_Ret in M10. destruct M10 as (S10 & _).
  assert (S710 : same_model p7 p10) by (eapply same_model_trans; eassumption).
  destruct b10; step_in H.
  2:{ inversion H; subst; clear H. right. split; [reflexivity|]. right.
      apply RB. exact S710. }
  inversion H; subst; clear H. right. split; [reflexivity|]. right.
  destruct G7 as (g & fs & g1 & g2 & g3 & g4 & g5 & g6 & g7 & g8).
  destruct S710 as (q1 & q2 & q3 & q4 & _).
  exists (set_assign_optional g), fs. simpl.
  rewrite q1, q2, q3, q4, a2, g1, list_update_app_last.
  repeat split; assumption.
Qed.

Lemma seq_idx_of_app (k : ArgKind) (sq : list EXT_ARGS_SequenceElement)
  (e : EXT_ARGS_SequenceElement) :
  seq_idx_of k (sq ++ [e])
  = seq_idx_of k sq ++ (if ArgKind_eqb (sq_type e) k then [sq_idx e] else []).
Proof.
  unfold seq_idx_of. rewrite filter_app, map_app. simpl.
  destruct (ArgKind_eqb (sq_type e) k); reflexivity.
Qed.

Lemma alias_count_at_app (l1 l2 : list EXT_ARGS_FloatArg) (i : nat) :
  alias_count_at (l1 ++ l2) i = alias_count_at l1 i + alias_count_at l2 i.
Proof. unfold alias_count_at. rewrite filter_app, length_app. reflexivity. Qed.

Lemma alias_count_at_other (l : list EXT_ARGS_FloatArg) (i : nat) :
  Forall (fun f => fa_groupIdx f <> i) l -> alias_count_at l i = 0.
Proof.
  unfold alias_count_at. induction 1 as [|f l N _ IH]; [reflexivity|].
  simpl. apply Nat.eqb_neq in N. rewrite N. exact IH.
Qed.

Lemma alias_count_at_all (l : list EXT_ARGS_FloatArg) (i : nat) :
  Forall (fun f => fa_groupIdx f = i) l -> alias_count_at l i = List.length l.
Proof.
  unfold alias_count_at. induction 1 as [|f l N _ IH]; [reflexivity|].
  simpl. rewrite N, Nat.eqb_refl. simpl. rewrite IH. reflexivity.
Qed.

Lemma schema_wf_keeps (prs prs' : EXT_ARGS_Parser) :
  schema_wf prs -> keeps_model prs prs' -> schema_wf prs'.
Proof.
  intros (w1 & w2 & w3 & w4) (k1 & k2 & k3 & k4). unfold schema_wf.
  rewrite k1, k2, k3, k4. auto.
Qed.

Lemma schema_wf_adds_pos (prs prs' : EXT_ARGS_Parser) :
  schema_wf prs -> adds_pos prs prs' -> schema_wf prs'.
Proof.
  intros (w1 & w2 & w3 & w4) (pa & k1 & _ & k3 & k2 & k4). unfold schema_wf.
  rewrite k1, k2, k3, k4, !seq_idx_of_app, length_app. simpl.
  rewrite Nat.add_1_r, seq_S, w1, w2, app_nil_r. auto.
Qed.

Lemma schema_wf_adds_group (prs prs' : EXT_ARGS_Parser) :
  schema_wf prs -> adds_group prs prs' -> schema_wf prs'.
Proof.
  intros (w1 & w2 & w3 & w4)
    (g & fs & k2 & k3 & F & A & L & _ & k4 & k1). unfold schema_wf.
  rewrite k1, k2, k3, k4, !seq_idx_of_app, length_app. simpl.
  rewrite Nat.add_1_r, seq_S, w1, w2, app_nil_r.
  split; [reflexivity|]. split; [reflexivity|]. split.
  - apply Forall_app. split.
    + eapply Forall_impl; [|exact w3]. simpl. intros; lia.
    + eapply Forall_impl; [|exact F]. simpl. intros; lia.
  - intros i g' N. rewrite alias_count_at_app.
    destruct (Nat.lt_ge_cases i (List.length (groups prs))) as [Lt|Ge].
    + rewrite nth_error_app1 in N by exact Lt.
      destruct (w4 i g' N) as [C1 C2].
      rewrite (alias_count_at_other fs i); [lia|].
      eapply Forall_impl; [|exact F]. simpl. intros; lia.
    + rewrite nth_error_app2 in N by exact Ge.
      destruct (i - List.length (groups prs)) as [|d] eqn:D;
        [|destruct d; discriminate N].
      simpl in N. inversion N; subst g'.
      assert (i = List.length (groups prs)) by lia. subst i.
      rewrite (alias_count_at_other (floats prs));
        [|eapply Forall_impl; [|exact w3]; simpl; intros; lia].
      rewrite (alias_count_at_all fs) by exact F. lia.
Qed.

Lemma schema_wf_Arg (prs prs' : EXT_ARGS_Parser) (man b : bool) :
  schema_wf prs -> EXT_ARGS_Arg prs man = Ret (b, prs') -> schema_wf prs'.
Proof.
  intros W H. apply EXT_ARGS_Arg_effect in H.
  destruct H as [[_ K]|[_ [K|K]]].
  - eapply schema_wf_keeps; eassumption.
  - eapply schema_wf_adds_pos; eassumption.
  - eapply schema_wf_adds_group; eassumption.
Qed.

Lemma schema_wf_same (prs prs' : EXT_ARGS_Parser) :
  schema_wf prs -> same_model prs prs' -> schema_wf prs'.
Proof.
  intros W S. eapply schema_wf_keeps; [exact W | apply keeps_model_same, S].
Qed.

Lemma schema_wf_Decl (prs prs' : EXT_ARGS_Parser) (man b : bool) :
  schema_wf prs -> EXT_ARGS_Decl prs man = Ret (b, prs') -> schema_wf prs'.
Proof.
  intros W H. unfold EXT_ARGS_Decl, EXT_ARGS_CurrentPos, EXT_ARGS_Rollback in H.
  cbv beta iota zeta in H.
  apply bind_Ret in H. destruct H as ([b1 p1] & A1 & H).
  apply schema_wf_Arg in A1; [|exact W].
  destruct b1; step_in H; [inversion H; subst; exact A1|].
  apply bind_Ret in H. destruct H as ([b2 p2] & M2 & H).
  apply EXT_ARGS_Match_Ret in M2. destruct M2 as (S2 & _).
  assert (W2 : schema_wf p2) by exact (schema_wf_same _ _ A1 S2).
  destruct b2; step_in H; [|inversion H; subst; exact W2].
  apply bind_Ret in H. destruct H as ([b3 p3] & A3 & H).
  apply schema_wf_Arg in A3; [|exact W2].
  destruct b3; step_in H; [|inversion H; subst; exact A3].
  apply bind_Ret in H. destruct H as ([b4 p4] & M4 & H).
  apply EXT_ARGS_Match_Ret in M4. destruct M4 as (S4 & _).
  assert (W4 : schema_wf p4) by exact (schema_wf_same _ _ A3 S4).
  destruct b4; step_in H; inversion H; subst; exact W4.
Qed.

Lemma schema_wf_decls (fuel : nat) :
  forall prs prs' : EXT_ARGS_Parser,
    schema_wf prs -> EXT_ARGS_Synopsis_decls fuel prs = Ret prs' ->
    schema_wf prs'.
Proof.
  induction fuel as [|fuel IH]; intros prs prs' W H;
    cbn [EXT_ARGS_Synopsis_decls] in H; [discriminate|].
  apply bind_Ret in H. destruct H as ([b p] & D & H).
  apply schema_wf_Decl in D; [|exact W].
  destruct b; [eapply IH; eassumption | inversion H; subst; exact D].
Qed.

Lemma schema_wf_init (fmt : string) : schema_wf (Parser_init fmt).
Proof.
  repeat split; try constructor.
  - destruct i; discriminate H.
  - destruct i; discriminate H.
Qed.

Lemma EXT_ARGS_Synopsis_wf (fmt : string) (prs : EXT_ARGS_Parser) :
  EXT_ARGS_Synopsis (Parser_init fmt) = Ret prs -> schema_wf prs.
Proof.
  unfold EXT_ARGS_Synopsis. intros H.
  apply bind_Ret in H. destruct H as (p1 & D & H).
  apply schema_wf_decls in D; [|apply schema_wf_init].
  apply bind_Ret in H. destruct H as ([b2 p2] & M2 & H).
  apply EXT_ARGS_Match_Ret in M2. destruct M2 as (S2 & _).
  cbv beta iota zeta in H.
  apply bind_Ret in H. destruct H as ([b3 p3] & M3 & H).
  apply EXT_ARGS_Match_Ret in M3. destruct M3 as (S3 & _).
  inversion H; subst; clear H.
  eapply schema_wf_same; [|exact S3].
  assert (W2 : schema_wf p2) by exact (schema_wf_same _ _ D S2).
  destruct b2; exact W2.
Qed.

Lemma seq_idx_of_length (sq : list EXT_ARGS_SequenceElement) :
  List.length sq
  = List.length (seq_idx_of EXT_ARGS_ARG_POS sq)
    + List.length (seq_idx_of EXT_ARGS_ARG_GROUP sq).
Proof.
  unfold seq_idx_of. rewrite !length_map.
  induction sq as [|e sq IH]; [reflexivity|]. simpl.
  destruct (sq_type e); simpl; lia.
Qed.

(** The model of an accepted schema.  The declarations list the positional
    arguments in the order of their array, each once, and so the groups;
    hence there is one declaration for each of them.  Every alias is filed
    under a group that exists, and the alias count of a group is the number
    of the aliases filed under it, which is at least one. *)
Theorem accepted_schema_shape (fmt : string) (prs : EXT_ARGS_Parser) :
  EXT_ARGS_Synopsis (Parser_init fmt) = Ret prs ->
  seq_idx_of EXT_ARGS_ARG_POS (sequence prs) = seq 0 (List.length (posArgs prs))
  /\ seq_idx_of EXT_ARGS_ARG_GROUP (sequence prs)
     = seq 0 (List.length (groups prs))
  /\ List.length (sequence prs)
     = List.length (posArgs prs) + List.length (groups prs)
  /\ (forall f, In f (floats prs) -> fa_groupIdx f < List.length (groups prs))
  /\ (forall i g,
        nth_error (groups prs) i = Some g ->
        aliasCount g = alias_count_at (floats prs) i /\ 1 <= aliasCount g).
Proof.
  intros H. apply EXT_ARGS_Synopsis_wf in H. destruct H as (w1 & w2 & w3 & w4).
  split; [exact w1|]. split; [exact w2|]. split.
  - rewrite seq_idx_of_length, w1, w2, !length_seq. reflexivity.
  - split; [apply Forall_forall; exact w3 | exact w4].
Qed.

Lemma accepted_schema_shape_witness :
  exists prs : EXT_ARGS_Parser,
    EXT_ARGS_Synopsis (Parser_init "-v|--verbose x [-o=file] [y]") = Ret prs
    /\ seq_idx_of EXT_ARGS_ARG_POS (sequence prs) = [0; 1]
    /\ seq_idx_of EXT_ARGS_ARG_GROUP (sequence prs) = [0; 1]
    /\ List.length (sequence prs) = 4
    /\ map aliasCount (groups prs) = [2; 1].
Proof.
  eexists. split; [vm_compute; reflexivity|].
  destruct (accepted_schema_shape "-v|--verbose x [-o=file] [y]" _
              ltac:(vm_compute; reflexivity)) as (h1 & h2 & h3 & _).
  split; [exact h1|]. split; [exact h2|]. split; [exact h3 | reflexivity].
Defined.

(** ** What the binding stage leaves in a variable *)

Lemma write_if_at (p : ptr) (v : value) (m : store) (a : addr) :
  write_if p v m a = if points_to a p then v else m a.
Proof. destruct p as [x|]; reflexivity. Qed.

Lemma points_to_true (a : addr) (p : ptr) :
  points_to a p = true <-> p = Some a.
Proof.
  destruct p as [x|]; simpl; [|split; discriminate].
  rewrite Nat.eqb_eq. split; [intros E; subst; reflexivity|].
  intros E. inversion E. reflexivity.
Qed.

Lemma points_to_false (a : addr) (p : ptr) :
  points_to a p = false <-> p <> Some a.
Proof.
  rewrite <- points_to_true. destruct (points_to a p).
  - split; [discriminate|]. intros H. elim H. reflexivity.
  - split; [intros _ E; discriminate | reflexivity].
Qed.

Lemma write_if_other (p : ptr) (v : value) (m : store) (a : addr) :
  p <> Some a -> write_if p v m a = m a.
Proof.
  intros N. rewrite write_if_at. apply points_to_false in N. rewrite N.
  reflexivity.
Qed.

Lemma write_if_same (v : value) (m : store) (a : addr) :
  write_if (Some a) v m a = v.
Proof. simpl. rewrite Nat.eqb_refl. reflexivity. Qed.

Lemma ary_save_cells (o : option (list cstr)) (v : cstr) :
  ary_save o v = cells_of o ++ [v].
Proof. destruct o; reflexivity. Qed.

Lemma fill_float_frame (uf : EXT_ARGS_UFloatArg) (prs : EXT_ARGS_Parser)
  (m : store) :
  posArgs (fst (fill_float uf (prs, m))) = posArgs prs
  /\ floats (fst (fill_float uf (prs, m))) = floats prs
  /\ varPosArgsEnabled (fst (fill_float uf (prs, m))) = varPosArgsEnabled prs
  /\ varPosrArgsVarPtr (fst (fill_float uf (prs, m))) = varPosrArgsVarPtr prs.
Proof.
  unfold fill_float.
  destruct (find (float_matches uf) (floats prs)) as [f|]; [|repeat split].
  cbv zeta.
  destruct (isRepeating _); [repeat split|].
  destruct (hasAssign _); [|repeat split].
  destruct (negb _); repeat split.
Qed.

Lemma fill_floats_frame (ufs : list EXT_ARGS_UFloatArg) :
  forall (prs : EXT_ARGS_Parser) (m : store),
    posArgs (fst (fill_floats ufs (prs, m))) = posArgs prs
    /\ floats (fst (fill_floats ufs (prs, m))) = floats prs
    /\ varPosArgsEnabled (fst (fill_floats ufs (prs, m))) = varPosArgsEnabled prs
    /\ varPosrArgsVarPtr (fst (fill_floats ufs (prs, m))) = varPosrArgsVarPtr prs.
Proof.
  unfold fill_floats.
  induction ufs as [|uf ufs IH]; intros prs m; cbn [fold_left];
    [repeat split|].
  pose proof (fill_float_frame uf prs m) as (f1 & f2 & f3 & f4).
  destruct (fill_float uf (prs, m)) as [p1 m1]. cbn [fst] in *.
  destruct (IH p1 m1) as (g1 & g2 & g3 & g4).
  repeat split; congruence.
Qed.

(** The NULLing loop leaves NULL in the variables of the positional
    arguments it runs over and leaves every other address alone. *)
Lemma null_loop_at (l : list EXT_ARGS_PosArg) (a : addr) :
  forall m : store,
    fold_left (fun m x => write_if (pa_varPtr x) (VStr NULL) m) l m a
    = if existsb (fun x => points_to a (pa_varPtr x)) l then VStr NULL
      else m a.
Proof.
  induction l as [|x l IH]; intros m; [reflexivity|].
  cbn [fold_left existsb]. rewrite IH.
  destruct (existsb _ l); [rewrite orb_true_r; reflexivity|].
  rewrite orb_false_r. apply write_if_at.
Qed.

Lemma null_missing_other (prs : EXT_ARGS_Parser) (n : nat) (m : store)
  (a : addr) :
  (forall pb, In pb (posArgs prs) -> pa_varPtr pb <> Some a) ->
  null_missing prs n m a = m a.
Proof.
  intros U. unfold null_missing. rewrite null_loop_at.
  destruct (existsb _ _) eqn:E; [|reflexivity].
  apply existsb_exists in E. destruct E as (x & I & P).
  apply points_to_true in P. elim (U x); [|exact P].
  revert I. clear. revert n. induction (posArgs prs) as [|y l IH]; intros n I.
  - destruct n; destruct I.
  - destruct n; [exact I|]. right. exact (IH n I).
Qed.

Lemma In_skipn_nth {A : Type} (l : list A) :
  forall (n : nat) (x : A),
    In x (skipn n l) <-> exists j, n <= j /\ nth_error l j = Some x.
Proof.
  induction l as [|y l IH]; intros n x.
  - destruct n; simpl; split; try tauto; intros (j & _ & H);
      destruct j; discriminate.
  - destruct n; cbn [skipn].
    + split.
      * intros I. apply In_nth_error in I. destruct I as (j & I).
        exists j. split; [lia | exact I].
      * intros (j & _ & I). eapply nth_error_In. exact I.
    + rewrite IH. split; intros (j & L & I).
      * exists (S j). split; [lia | exact I].
      * destruct j; [lia|]. exists j. split; [lia | exact I].
Qed.

Lemma null_missing_pos (prs : EXT_ARGS_Parser) (n : nat) (m : store)
  (i : nat) (pa : EXT_ARGS_PosArg) (a : addr) :
  nth_error (posArgs prs) i = Some pa ->
  pa_varPtr pa = Some a ->
  (forall j pb, nth_error (posArgs prs) j = Some pb ->
                pa_varPtr pb = Some a -> j = i) ->
  null_missing prs n m a = if Nat.leb n i then VStr NULL else m a.
Proof.
  intros I P U. unfold null_missing. rewrite null_loop_at.
  destruct (existsb _ _) eqn:E.
  - apply existsb_exists in E. destruct E as (x & Ix & Px).
    apply points_to_true in Px. apply In_skipn_nth in Ix.
    destruct Ix as (j & L & Ij). pose proof (U j x Ij Px) as Ej. subst j.
    apply Nat.leb_le in L. rewrite L. reflexivity.
  - destruct (Nat.leb_spec n i) as [L|L]; [|reflexivity].
    assert (X : existsb (fun x => points_to a (pa_varPtr x))
                  (skipn n (posArgs prs)) = true).
    { apply existsb_exists. exists pa. split.
      - apply In_skipn_nth. exists i. split; [exact L | exact I].
      - apply points_to_true. exact P. }
    rewrite X in E. discriminate.
Qed.

(** The loop that fills the positional variables, seen from the variable of
    the positional argument [i]; the trailing pointer is another address, or
    the loop has no value beyond the declared positional arguments. *)
Lemma fill_posArgs_pos (prs : EXT_ARGS_Parser) (i : nat)
  (pa : EXT_ARGS_PosArg) (a : addr) :
  nth_error (posArgs prs) i = Some pa ->
  pa_varPtr pa = Some a ->
  (forall j pb, nth_error (posArgs prs) j = Some pb ->
                pa_varPtr pb = Some a -> j = i) ->
  forall (vals : list string) (i0 : nat) (opts : option (list cstr))
    (m : store),
    i0 + List.length vals <= List.length (posArgs prs)
    \/ varPosrArgsVarPtr prs <> Some a ->
    snd (fill_posArgs prs i0 vals opts m) a
    = match (if Nat.leb i0 i then nth_error vals (i - i0) else None) with
      | Some v => VStr (Str v)
      | None => m a
      end.
Proof.
  intros I P U.
  assert (Li : i < List.length (posArgs prs)).
  { apply nth_error_Some. rewrite I. discriminate. }
  induction vals as [|v vals IH]; intros i0 opts m W.
  - cbn [fill_posArgs snd]. destruct (Nat.leb i0 i); [|reflexivity].
    destruct (i - i0); reflexivity.
  - cbn [fill_posArgs].
    destruct (Nat.ltb_spec i0 (List.length (posArgs prs))) as [L|L].
    + cbv zeta. rewrite IH.
      2:{ destruct W as [W|W]; [left; simpl in W; lia | right; exact W]. }
      set (d := mkPosArg false EmptyString 0 None).
      assert (N0 : nth_error (posArgs prs) i0 = Some (nth i0 (posArgs prs) d)).
      { apply nth_error_nth'. exact L. }
      destruct (Nat.eq_dec i0 i) as [E|E].
      * subst i0. rewrite I in N0. inversion N0 as [N1]. rewrite <- N1.
        rewrite P.
        destruct (Nat.leb_spec (S i) i) as [X|_]; [lia|].
        rewrite write_if_same. rewrite Nat.leb_refl. rewrite Nat.sub_diag.
        reflexivity.
      * assert (Q : pa_varPtr (nth i0 (posArgs prs) d) <> Some a).
        { intros Q. apply E. exact (U _ _ N0 Q). }
        rewrite (write_if_other _ _ _ _ Q).
        destruct (Nat.leb_spec (S i0) i) as [X|X];
          destruct (Nat.leb_spec i0 i) as [Y|Y]; try lia; try reflexivity.
        replace (i - i0) with (S (i - S i0)) by lia. reflexivity.
    + destruct W as [W|W]; [simpl in W; lia|].
      destruct (Nat.leb_spec i0 i) as [Y|_]; [lia|].
      destruct (varPosrArgsVarPtr prs) as [x|] eqn:V; [|reflexivity].
      cbv zeta. rewrite IH by (right; exact W).
      destruct (Nat.leb_spec (S i0) i) as [Y|_]; [lia|].
      apply write_if_other. exact W.
Qed.

(** The same loop seen from the variable of the trailing arguments: the
    values beyond the declared positional arguments are appended to the
    array, which ends with NULL. *)
Lemma fill_posArgs_trailing (prs : EXT_ARGS_Parser) (a : addr) :
  varPosrArgsVarPtr prs = Some a ->
  (forall pb, In pb (posArgs prs) -> pa_varPtr pb <> Some a) ->
  forall (vals : list string) (i0 : nat) (opts : option (list cstr))
    (m : store),
    match skipn (List.length (posArgs prs) - i0) vals with
    | [] =>
        fst (fill_posArgs prs i0 vals opts m) = opts
        /\ snd (fill_posArgs prs i0 vals opts m) a = m a
    | extras =>
        fst (fill_posArgs prs i0 vals opts m)
        = Some (cells_of opts ++ map Str extras)
        /\ snd (fill_posArgs prs i0 vals opts m) a
           = VAry (cells_of opts ++ map Str extras ++ [NULL])
    end.
Proof.
  intros W U.
  induction vals as [|v vals IH]; intros i0 opts m.
  - rewrite skipn_nil. split; reflexivity.
  - cbn [fill_posArgs].
    destruct (Nat.ltb_spec i0 (List.length (posArgs prs))) as [L|L].
    + cbv zeta.
      replace (List.length (posArgs prs) - i0)
        with (S (List.length (posArgs prs) - S i0)) by lia.
      cbn [skipn].
      match goal with
      | |- context [fill_posArgs prs (S i0) vals opts ?m1] =>
          specialize (IH (S i0) opts m1)
      end.
      destruct (skipn _ vals) as [|e es]; [|exact IH].
      destruct IH as (F & S). split; [exact F|]. rewrite S.
      apply write_if_other. apply U. apply nth_In. exact L.
    + replace (List.length (posArgs prs) - i0) with 0 by lia.
      cbn [skipn]. rewrite W. cbv zeta.
      match goal with
      | |- context [fill_posArgs prs (S i0) vals ?o1 ?m1] =>
          specialize (IH (S i0) o1 m1)
      end.
      replace (List.length (posArgs prs) - S i0) with 0 in IH by lia.
      cbn [skipn] in IH. rewrite ary_save_cells in *.
      destruct vals as [|w ws].
      * destruct IH as (F & S). rewrite F, S. rewrite write_if_same.
        cbn [map cells_of]. rewrite <- app_assoc. split; reflexivity.
      * destruct IH as (F & S). rewrite F, S. cbn [cells_of].
        rewrite <- !app_assoc. split; reflexivity.
Qed.

Lemma bind_vars_pos (prs : EXT_ARGS_Parser) (ufs : list EXT_ARGS_UFloatArg)
  (vals : list string) (m : store) (i : nat) (pa : EXT_ARGS_PosArg)
  (a : addr) :
  nth_error (posArgs prs) i = Some pa ->
  pa_varPtr pa = Some a ->
  (forall j pb, nth_error (posArgs prs) j = Some pb ->
                pa_varPtr pb = Some a -> j = i) ->
  (varPosArgsEnabled prs = false
   /\ List.length vals <= List.length (posArgs prs))
  \/ varPosrArgsVarPtr prs <> Some a ->
  bind_vars prs ufs vals m a
  = VStr (match nth_error vals i with Some v => Str v | None => NULL end).
Proof.
  intros I P U W. unfold bind_vars.
  pose proof (fill_floats_frame ufs prs m) as (f1 & _ & f3 & f4).
  destruct (fill_floats ufs (prs, m)) as [p1 m1]. cbn [fst] in f1, f3, f4.
  destruct (fill_missing (groups p1) m1) as [grs m2].
  set (p2 := set_groups p1 grs).
  assert (g1 : posArgs p2 = posArgs prs) by exact f1.
  assert (g3 : varPosArgsEnabled p2 = varPosArgsEnabled prs) by exact f3.
  assert (g4 : varPosrArgsVarPtr p2 = varPosrArgsVarPtr prs) by exact f4.
  clearbody p2. rewrite <- g1 in I, U, W. rewrite <- g3, <- g4 in W.
  set (m3 := null_missing p2 (List.length vals) m2).
  pose proof (fill_posArgs_pos p2 i pa a I P U vals 0 None m3) as FP.
  destruct (fill_posArgs p2 0 vals None m3) as [opts m4]. cbn [snd] in FP.
  assert (E : fill_empty_varPos p2 opts
                (null_missing p2 (List.length vals) m4) a
              = null_missing p2 (List.length vals) m4 a).
  { unfold fill_empty_varPos. destruct opts as [l|]; [reflexivity|].
    destruct (varPosArgsEnabled p2) eqn:V; [|reflexivity].
    apply write_if_other. destruct W as [[W _]|W]; [discriminate | exact W]. }
  rewrite E. rewrite (null_missing_pos p2 _ m4 i pa a I P U).
  destruct (Nat.leb_spec (List.length vals) i) as [L|L].
  - apply nth_error_None in L. rewrite L. reflexivity.
  - rewrite FP.
    2:{ destruct W as [[_ W]|W]; [left; simpl; exact W | right; exact W]. }
    cbn [Nat.leb]. rewrite Nat.sub_0_r.
    destruct (nth_error vals i) eqn:N; [reflexivity|].
    apply nth_error_None in N. lia.
Qed.

Lemma bind_vars_trailing (prs : EXT_ARGS_Parser)
  (ufs : list EXT_ARGS_UFloatArg) (vals : list string) (m : store)
  (a : addr) :
  varPosArgsEnabled prs = true ->
  varPosrArgsVarPtr prs = Some a ->
  (forall pb, In pb (posArgs prs) -> pa_varPtr pb <> Some a) ->
  bind_vars prs ufs vals m a
  = VAry (map Str (skipn (List.length (posArgs prs)) vals) ++ [NULL]).
Proof.
  intros V W U. unfold bind_vars.
  pose proof (fill_floats_frame ufs prs m) as (f1 & _ & f3 & f4).
  destruct (fill_floats ufs (prs, m)) as [p1 m1]. cbn [fst] in f1, f3, f4.
  destruct (fill_missing (groups p1) m1) as [grs m2].
  set (p2 := set_groups p1 grs).
  assert (g1 : posArgs p2 = posArgs prs) by exact f1.
  assert (g3 : varPosArgsEnabled p2 = varPosArgsEnabled prs) by exact f3.
  assert (g4 : varPosrArgsVarPtr p2 = varPosrArgsVarPtr prs) by exact f4.
  clearbody p2. rewrite <- g1 in U |- *. rewrite <- g3 in V. rewrite <- g4 in W.
  set (m3 := null_missing p2 (List.length vals) m2).
  pose proof (fill_posArgs_trailing p2 a W U vals 0 None m3) as FP.
  rewrite Nat.sub_0_r in FP.
  destruct (fill_posArgs p2 0 vals None m3) as [opts m4]. cbn [fst snd] in FP.
  destruct (skipn (List.length (posArgs p2)) vals) as [|e es].
  - destruct FP as [F S]. subst opts. unfold fill_empty_varPos.
    rewrite V, W. apply write_if_same.
  - destruct FP as [F S]. subst opts. unfold fill_empty_varPos.
    rewrite (null_missing_other p2 _ m4 a U). rewrite S. reflexivity.
Qed.

(** ** Which pointer each declaration gets *)

Lemma nth_error_list_update {A : Type} (f : A -> A) (l : list A) :
  forall i j : nat,
    nth_error (list_update i f l) j
    = if Nat.eqb i j then option_map f (nth_error l j) else nth_error l j.
Proof.
  induction l as [|x l IH]; intros i j.
  - destruct i, j; simpl; try reflexivity; destruct (Nat.eqb i j); reflexivity.
  - destruct i, j; simpl; try reflexivity. apply IH.
Qed.

Lemma ArgKind_eqb_eq (a b : ArgKind) : ArgKind_eqb a b = true <-> a = b.
Proof. destruct a, b; simpl; split; intros H; try reflexivity; discriminate. Qed.

Lemma seq_idx_of_cons (k : ArgKind) (e : EXT_ARGS_SequenceElement)
  (sq : list EXT_ARGS_SequenceElement) :
  seq_idx_of k (e :: sq)
  = if ArgKind_eqb (sq_type e) k then sq_idx e :: seq_idx_of k sq
    else seq_idx_of k sq.
Proof.
  unfold seq_idx_of. cbn [filter]. destruct (ArgKind_eqb _ _); reflexivity.
Qed.

Lemma seq_idx_of_In (k : ArgKind) (sq : list EXT_ARGS_SequenceElement)
  (j : nat) :
  In j (seq_idx_of k sq)
  <-> exists n e, nth_error sq n = Some e /\ sq_type e = k /\ sq_idx e = j.
Proof.
  unfold seq_idx_of. rewrite in_map_iff. split.
  - intros (e & E & I). apply filter_In in I. destruct I as [I K].
    apply In_nth_error in I. destruct I as (n & I).
    exists n, e. split; [exact I|]. split; [apply ArgKind_eqb_eq, K | exact E].
  - intros (n & e & I & K & E). exists e. split; [exact E|].
    apply filter_In. split; [eapply nth_error_In; exact I|].
    apply ArgKind_eqb_eq. exact K.
Qed.

Lemma var_ptr_of_update (e : EXT_ARGS_SequenceElement) (p : ptr)
  (prs : EXT_ARGS_Parser) (k : ArgKind) (j : nat) :
  var_ptr_of
    (match sq_type e with
     | EXT_ARGS_ARG_POS =>
         set_posArgs prs (list_update (sq_idx e) (set_pa_varPtr p) (posArgs prs))
     | EXT_ARGS_ARG_GROUP =>
         set_groups prs (list_update (sq_idx e) (set_varPtr p) (groups prs))
     end) k j
  = if ArgKind_eqb (sq_type e) k && Nat.eqb (sq_idx e) j
    then option_map (fun _ => p) (var_ptr_of prs k j)
    else var_ptr_of prs k j.
Proof.
  destruct (sq_type e), k; simpl; try reflexivity;
    rewrite nth_error_list_update; destruct (Nat.eqb _ _);
    try reflexivity;
    match goal with |- context [nth_error ?l j] => destruct (nth_error l j) end;
    reflexivity.
Qed.

(** After the loop, the pointer of a declaration is the one read last for
    it, and the pointer it had when the loop read none. *)
Lemma get_var_ptrs_at (sq : list EXT_ARGS_SequenceElement) :
  forall (ap ap' : list ptr) (prs prs' : EXT_ARGS_Parser) (k : ArgKind)
    (j : nat),
    get_var_ptrs sq ap prs = Some (ap', prs') ->
    var_ptr_of prs' k j
    = match assigned sq ap k j with
      | Some q => option_map (fun _ => q) (var_ptr_of prs k j)
      | None => var_ptr_of prs k j
      end.
Proof.
  induction sq as [|e sq IH]; intros ap ap' prs prs' k j H;
    cbn [get_var_ptrs] in H.
  - inversion H; subst. reflexivity.
  - destruct ap as [|p ap]; [discriminate|].
    rewrite (IH _ _ _ _ k j H). rewrite var_ptr_of_update.
    cbn [assigned].
    destruct (assigned sq ap k j); destruct (_ && _);
      destruct (var_ptr_of prs k j); reflexivity.
Qed.

Lemma assigned_Some (sq : list EXT_ARGS_SequenceElement) :
  forall (ap : list ptr) (k : ArgKind) (j : nat) (q : ptr),
    assigned sq ap k j = Some q ->
    exists n e,
      nth_error sq n = Some e /\ sq_type e = k /\ sq_idx e = j
      /\ nth_error ap n = Some q.
Proof.
  induction sq as [|e sq IH]; intros ap k j q H; cbn [assigned] in H;
    [discriminate|].
  destruct ap as [|p ap]; [discriminate|].
  destruct (assigned sq ap k j) as [q'|] eqn:A.
  - inversion H; subst q'. apply IH in A.
    destruct A as (n & e' & a1 & a2 & a3 & a4).
    exists (S n), e'. repeat split; assumption.
  - destruct (ArgKind_eqb (sq_type e) k && Nat.eqb (sq_idx e) j) eqn:T;
      [|discriminate].
    apply andb_true_iff in T. destruct T as [T1 T2].
    apply ArgKind_eqb_eq in T1. apply Nat.eqb_eq in T2.
    inversion H; subst q. exists 0, e. repeat split; assumption.
Qed.

Lemma assigned_at (sq : list EXT_ARGS_SequenceElement) :
  forall (ap : list ptr) (k : ArgKind) (n : nat) (e : EXT_ARGS_SequenceElement)
    (q : ptr),
    NoDup (seq_idx_of k sq) ->
    nth_error sq n = Some e ->
    sq_type e = k ->
    nth_error ap n = Some q ->
    assigned sq ap k (sq_idx e) = Some q.
Proof.
  induction sq as [|e0 sq IH]; intros ap k n e q ND I K Q;
    [destruct n; discriminate|].
  destruct ap as [|p ap]; [destruct n; discriminate|].
  rewrite seq_idx_of_cons in ND. cbn [assigned].
  destruct n as [|n]; simpl in I, Q.
  - inversion I; subst e0. inversion Q; subst p.
    rewrite K in ND. rewrite (proj2 (ArgKind_eqb_eq k k) eq_refl) in ND.
    inversion ND as [|x l NI ND']; subst.
    destruct (assigned sq ap (sq_type e) (sq_idx e)) as [q'|] eqn:A.
    + apply assigned_Some in A. destruct A as (n & e' & a1 & a2 & a3 & _).
      elim NI. apply seq_idx_of_In. exists n, e'. repeat split; assumption.
    + rewrite (proj2 (ArgKind_eqb_eq _ _) eq_refl), Nat.eqb_refl. reflexivity.
  - assert (ND' : NoDup (seq_idx_of k sq)).
    { destruct (ArgKind_eqb (sq_type e0) k); [|exact ND].
      inversion ND; assumption. }
    rewrite (IH ap k n e q ND' I K Q). reflexivity.
Qed.

(** Every declaration of a well-formed model gets the pointer that stands
    at its place in the pointer list. *)
Lemma get_var_ptrs_slot (sq : list EXT_ARGS_SequenceElement)
  (ap ap' : list ptr) (prs prs' : EXT_ARGS_Parser) (k : ArgKind) (n : nat)
  (e : EXT_ARGS_SequenceElement) (q : ptr) :
  NoDup (seq_idx_of k sq) ->
  get_var_ptrs sq ap prs = Some (ap', prs') ->
  nth_error sq n = Some e ->
  sq_type e = k ->
  nth_error ap n = Some q ->
  var_ptr_of prs' k (sq_idx e) = option_map (fun _ => q) (var_ptr_of prs k (sq_idx e)).
Proof.
  intros ND G I K Q.
  rewrite (get_var_ptrs_at _ _ _ _ _ k (sq_idx e) G).
  rewrite (assigned_at sq ap k n e q ND I K Q). reflexivity.
Qed.

Lemma var_ptr_of_Some (prs : EXT_ARGS_Parser) (k : ArgKind) (j : nat) :
  var_ptr_of prs k j <> None <-> j < kind_count prs k.
Proof.
  destruct k; simpl; rewrite <- nth_error_Some;
    match goal with |- context [nth_error ?l j] => destruct (nth_error l j) end;
    simpl; split; intros H; congruence.
Qed.

Lemma get_var_ptrs_lengths (sq : list EXT_ARGS_SequenceElement) :
  forall (ap ap' : list ptr) (prs prs' : EXT_ARGS_Parser),
    get_var_ptrs sq ap prs = Some (ap', prs') ->
    List.length (posArgs prs') = List.length (posArgs prs)
    /\ List.length (groups prs') = List.length (groups prs).
Proof.
  induction sq as [|e sq IH]; intros ap ap' prs prs' H;
    cbn [get_var_ptrs] in H.
  - inversion H; subst. split; reflexivity.
  - destruct ap as [|p ap]; [discriminate|].
    apply IH in H. destruct H as [H1 H2].
    destruct (sq_type e); cbn [posArgs groups set_posArgs set_groups] in H1, H2;
      rewrite ?list_update_length in H1; rewrite ?list_update_length in H2;
      split; assumption.
Qed.

(** A pointer found in the model after the loop was passed at the place of
    its declaration. *)
Lemma pointer_has_slot (sq : list EXT_ARGS_SequenceElement)
  (ap ap' : list ptr) (prs prs' : EXT_ARGS_Parser) (k : ArgKind) (j : nat)
  (q : ptr) :
  seq_idx_of k sq = seq 0 (kind_count prs k) ->
  get_var_ptrs sq ap prs = Some (ap', prs') ->
  var_ptr_of prs' k j = Some q ->
  exists n e,
    nth_error sq n = Some e /\ sq_type e = k /\ sq_idx e = j
    /\ nth_error ap n = Some q.
Proof.
  intros W G V.
  pose proof (get_var_ptrs_spec sq ap prs) as L. rewrite G in L.
  destruct L as (L & _).
  rewrite (get_var_ptrs_at _ _ _ _ _ k j G) in V.
  destruct (assigned sq ap k j) as [q0|] eqn:A.
  - destruct (var_ptr_of prs k j); [|discriminate]. simpl in V.
    inversion V; subst q0. apply assigned_Some. exact A.
  - assert (J : j < kind_count prs k).
    { apply var_ptr_of_Some. rewrite V. discriminate. }
    assert (I : In j (seq_idx_of k sq)) by (rewrite W; apply in_seq; lia).
    apply seq_idx_of_In in I. destruct I as (n & e & I & K & E).
    assert (Ln : n < List.length ap).
    { apply Nat.lt_le_trans with (List.length sq); [|exact L].
      apply nth_error_Some. rewrite I. discriminate. }
    destruct (nth_error ap n) as [q'|] eqn:Q.
    2:{ apply nth_error_None in Q. lia. }
    assert (ND : NoDup (seq_idx_of k sq)) by (rewrite W; apply seq_NoDup).
    pose proof (assigned_at sq ap k n e q' ND I K Q) as A'.
    rewrite E, A in A'. discriminate.
Qed.

(** A successful call: the pointers are read and [bind_vars] runs on the
    model that holds them. *)
Lemma ext_args_success (fmt : string) (argv : list string) (ap : list ptr)
  (m : store) (prs prs1 : EXT_ARGS_Parser) (ufs : list EXT_ARGS_UFloatArg)
  (vals : list string) :
  compile_schema fmt = Some (Ok prs) ->
  check_input argv prs = Ok (prs1, ufs, vals) ->
  slot_count prs <= List.length ap ->
  exists ap' prs2 prs3,
    get_var_ptrs (sequence prs) ap prs1 = Some (ap', prs2)
    /\ ext_args argv fmt ap m
       = Some (EXT_ARGS_NO_ERR, bind_vars prs3 ufs vals m)
    /\ posArgs prs3 = posArgs prs2
    /\ groups prs3 = groups prs2
    /\ floats prs3 = floats prs
    /\ varPosArgsEnabled prs3 = varPosArgsEnabled prs
    /\ (varPosArgsEnabled prs = true ->
        nth_error ap (List.length (sequence prs))
        = Some (varPosrArgsVarPtr prs3)).
Proof.
  intros C I L. unfold ext_args. rewrite C, I.
  apply check_input_Ok in I. destruct I as (toks & _ & _ & V & _).
  pose proof (validate_floats_frame _ _ _ V) as (_ & Sq & Vp & _).
  pose proof (validate_floats_Ok _ _ _ V) as (Fl & _).
  unfold slot_count in L. rewrite Sq.
  pose proof (get_var_ptrs_spec (sequence prs) ap prs1) as G.
  destruct (get_var_ptrs (sequence prs) ap prs1) as [[ap' prs2]|]; [|lia].
  destruct G as (_ & A & F2 & _ & V2 & _).
  unfold get_varPos_ptr. rewrite V2, Vp.
  destruct (varPosArgsEnabled prs) eqn:VE.
  - destruct ap' as [|p ap''] eqn:E.
    + assert (X : List.length (skipn (List.length (sequence prs)) ap) = 0)
        by (rewrite <- A; reflexivity).
      rewrite length_skipn in X. lia.
    + exists (p :: ap''), prs2, (set_varPosrArgsVarPtr prs2 p).
      split; [reflexivity|]. split; [reflexivity|].
      split; [reflexivity|]. split; [reflexivity|].
      split; [simpl; congruence|]. split; [simpl; congruence|].
      intros _. simpl.
      rewrite <- (firstn_skipn (List.length (sequence prs)) ap) at 1.
      rewrite nth_error_app2; rewrite length_firstn;
        [|lia]. rewrite <- A.
      replace (_ - _) with 0 by lia. reflexivity.
  - exists ap', prs2, prs2. repeat split; try congruence.
Qed.

(** On success, the variable passed for a positional argument holds the
    value of the input at the index of that argument, or NULL when the input
    has fewer values.  [n] is the place of the declaration in the schema and
    of its pointer among the arguments of the call, [i] its index among the
    positional arguments; the address is passed once. *)
Theorem positional_binding (fmt : string) (argv : list string)
  (ap : list ptr) (m : store) (prs prs1 : EXT_ARGS_Parser)
  (ufs : list EXT_ARGS_UFloatArg) (vals : list string) (n i : nat)
  (a : addr) :
  compile_schema fmt = Some (Ok prs) ->
  check_input argv prs = Ok (prs1, ufs, vals) ->
  slot_count prs <= List.length ap ->
  nth_error (sequence prs) n = Some (mkSeq EXT_ARGS_ARG_POS i) ->
  nth_error ap n = Some (Some a) ->
  (forall n', nth_error ap n' = Some (Some a) -> n' = n) ->
  exists m',
    ext_args argv fmt ap m = Some (EXT_ARGS_NO_ERR, m')
    /\ m' a = VStr (match nth_error vals i with
                    | Some v => Str v
                    | None => NULL
                    end).
Proof.
  intros C I L Sn An Un.
  destruct (ext_args_success fmt argv ap m prs prs1 ufs vals C I L)
    as (ap' & prs2 & prs3 & G & R & e1 & _ & _ & e4 & e5).
  exists (bind_vars prs3 ufs vals m). split; [exact R|].
  apply compile_schema_Ok in C. destruct C as [Sy _].
  destruct (EXT_ARGS_Synopsis_wf _ _ Sy) as (W1 & _).
  apply check_input_Ok in I. destruct I as (toks & _ & _ & V & _ & CP).
  pose proof (validate_floats_frame _ _ _ V) as (Pa & _ & Vp & _).
  assert (W : seq_idx_of EXT_ARGS_ARG_POS (sequence prs)
              = seq 0 (kind_count prs1 EXT_ARGS_ARG_POS))
    by (simpl; rewrite Pa; exact W1).
  assert (ND : NoDup (seq_idx_of EXT_ARGS_ARG_POS (sequence prs)))
    by (rewrite W; apply seq_NoDup).
  assert (Li : i < List.length (posArgs prs1)).
  { assert (X : In i (seq_idx_of EXT_ARGS_ARG_POS (sequence prs))).
    { apply seq_idx_of_In. exists n, (mkSeq EXT_ARGS_ARG_POS i).
      repeat split. exact Sn. }
    rewrite W in X. apply in_seq in X. simpl in X. lia. }
  pose proof (get_var_ptrs_slot _ _ _ _ _ EXT_ARGS_ARG_POS n _ (Some a)
                ND G Sn eq_refl An) as SL.
  simpl in SL.
  destruct (nth_error (posArgs prs1) i) as [x|] eqn:N1.
  2:{ apply nth_error_None in N1. lia. }
  destruct (nth_error (posArgs prs2) i) as [pa|] eqn:N2; [|discriminate].
  simpl in SL. inversion SL as [Pp].
  rewrite <- e1 in N2.
  apply (bind_vars_pos prs3 ufs vals m i pa a N2 Pp).
  - intros j pb Nj Pj. rewrite e1 in Nj.
    assert (VJ : var_ptr_of prs2 EXT_ARGS_ARG_POS j = Some (Some a))
      by (simpl; rewrite Nj; simpl; rewrite Pj; reflexivity).
    destruct (pointer_has_slot _ _ _ _ _ _ _ _ W G VJ)
      as (n' & e & a1 & a2 & a3 & a4).
    apply Un in a4. subst n'. rewrite Sn in a1. inversion a1; subst e.
    simpl in a3. symmetry. exact a3.
  - destruct (varPosArgsEnabled prs) eqn:VE.
    + right. intros X. specialize (e5 eq_refl). rewrite X in e5.
      apply Un in e5.
      assert (n < List.length (sequence prs))
        by (apply nth_error_Some; rewrite Sn; discriminate).
      lia.
    + left. split; [exact e4|].
      unfold check_posArgs in CP.
      destruct (Nat.ltb _ (manposArgsCount _)); [discriminate|].
      rewrite Vp in CP. simpl in CP.
      destruct (Nat.ltb_spec (List.length (posArgs prs1)) (List.length vals))
        as [X|X]; [discriminate|].
      rewrite e1.
      pose proof (get_var_ptrs_lengths _ _ _ _ _ G) as (E12 & _).
      lia.
Qed.

Lemma positional_binding_witness :
  exists m' : store,
    ext_args ["prog"; "-v"; "one"] "-v first [second]"
      [Some 10; Some 11; Some 12] store_init
    = Some (EXT_ARGS_NO_ERR, m')
    /\ m' 12 = VStr NULL.
Proof.
  eapply (positional_binding "-v first [second]" ["prog"; "-v"; "one"]
            [Some 10; Some 11; Some 12] store_init _ _ _ ["one"] 2 1 12).
  - vm_compute. reflexivity.
  - vm_compute. reflexivity.
  - vm_compute. lia.
  - vm_compute. reflexivity.
  - reflexivity.
  - intros [|[|[|n']]] H; simpl in H; try discriminate; try reflexivity.
    destruct n'; discriminate.
Defined.

(** On success with trailing arguments enabled, the variable passed after
    those of the declarations holds a fresh array: the values of the input
    beyond the declared positional arguments, in order, then NULL.  The
    address is passed once. *)
Theorem trailing_binding (fmt : string) (argv : list string)
  (ap : list ptr) (m : store) (prs prs1 : EXT_ARGS_Parser)
  (ufs : list EXT_ARGS_UFloatArg) (vals : list string) (a : addr) :
  compile_schema fmt = Some (Ok prs) ->
  check_input argv prs = Ok (prs1, ufs, vals) ->
  slot_count prs <= List.length ap ->
  varPosArgsEnabled prs = true ->
  nth_error ap (List.length (sequence prs)) = Some (Some a) ->
  (forall n', nth_error ap n' = Some (Some a) ->
              n' = List.length (sequence prs)) ->
  exists m',
    ext_args argv fmt ap m = Some (EXT_ARGS_NO_ERR, m')
    /\ m' a = VAry (map Str (skipn (List.length (posArgs prs)) vals)
                    ++ [NULL]).
Proof.
  intros C I L VE An Un.
  destruct (ext_args_success fmt argv ap m prs prs1 ufs vals C I L)
    as (ap' & prs2 & prs3 & G & R & e1 & _ & _ & e4 & e5).
  exists (bind_vars prs3 ufs vals m). split; [exact R|].
  apply compile_schema_Ok in C. destruct C as [Sy _].
  destruct (EXT_ARGS_Synopsis_wf _ _ Sy) as (W1 & _).
  apply check_input_Ok in I. destruct I as (toks & _ & _ & V & _).
  pose proof (validate_floats_frame _ _ _ V) as (Pa & _).
  assert (W : seq_idx_of EXT_ARGS_ARG_POS (sequence prs)
              = seq 0 (kind_count prs1 EXT_ARGS_ARG_POS))
    by (simpl; rewrite Pa; exact W1).
  pose proof (get_var_ptrs_lengths _ _ _ _ _ G) as (E12 & _).
  specialize (e5 VE). rewrite An in e5. inversion e5 as [Vp].
  rewrite <- Pa, <- E12, <- e1.
  apply bind_vars_trailing; [congruence | congruence |].
  intros pb Ib Pb. rewrite e1 in Ib.
  apply In_nth_error in Ib. destruct Ib as (j & Nj).
  assert (VJ : var_ptr_of prs2 EXT_ARGS_ARG_POS j = Some (Some a))
    by (simpl; rewrite Nj; simpl; rewrite Pb; reflexivity).
  destruct (pointer_has_slot _ _ _ _ _ _ _ _ W G VJ)
    as (n' & e & a1 & _ & _ & a4).
  apply Un in a4.
  assert (n' < List.length (sequence prs))
    by (apply nth_error_Some; rewrite a1; discriminate).
  lia.
Qed.

Lemma trailing_binding_witness :
  exists m' : store,
    ext_args ["prog"; "1"; "2"; "--"; "3"] "first ..."
      [Some 10; Some 11] store_init
    = Some (EXT_ARGS_NO_ERR, m')
    /\ m' 11 = VAry [Str "2"; NULL].
Proof.
  assert (U : forall n', nth_error [Some 10; Some 11] n' = Some (Some 11) ->
                         n' = 1).
  { intros [|[|n']] H; simpl in H; try discriminate; try reflexivity.
    destruct n'; discriminate. }
  destruct (trailing_binding "first ..." ["prog"; "1"; "2"; "--"; "3"]
              [Some 10; Some 11] store_init _ _ _ ["1"; "2"] 11
              ltac:(vm_compute; reflexivity) ltac:(vm_compute; reflexivity)
              ltac:(vm_compute; lia) eq_refl eq_refl U)
    as (m' & R & Vl).
  exists m'. split; [exact R | exact Vl].
Defined.

(** ** What the binding stage leaves in the variable of a flag *)

Lemma group_at_nth (prs : EXT_ARGS_Parser) (i : nat)
  (g : EXT_ARGS_FloatArgsGroup) :
  nth_error (groups prs) i = Some g -> group_at prs i = g.
Proof. intros H. unfold group_at. apply nth_error_nth. exact H. Qed.

Lemma other_group_pointer (prs : EXT_ARGS_Parser) (gi j : nat) (a : addr) :
  only_group prs gi a -> j <> gi -> varPtr (group_at prs j) <> Some a.
Proof.
  intros U N P. unfold group_at in P.
  destruct (Nat.lt_ge_cases j (List.length (groups prs))) as [L|L].
  - apply N. apply (U j (nth j (groups prs) group_zero)); [|exact P].
    apply nth_error_nth'. exact L.
  - rewrite nth_overflow in P by exact L. discriminate.
Qed.

(** One round of the binding loop, seen from the group [gi] and its
    variable. *)
Lemma fill_float_group (uf : EXT_ARGS_UFloatArg) (prs : EXT_ARGS_Parser)
  (m : store) (gi : nat) (g : EXT_ARGS_FloatArgsGroup) (a : addr) :
  nth_error (groups prs) gi = Some g ->
  varPtr g = Some a ->
  only_group prs gi a ->
  (forall j, option_map varPtr (nth_error (groups (fst (fill_float uf (prs, m)))) j)
             = option_map varPtr (nth_error (groups prs) j))
  /\ if occurrence_of (floats prs) gi uf then
       if isRepeating g then
         nth_error (groups (fst (fill_float uf (prs, m)))) gi
         = Some (set_ary (Some (cells_of (ary g) ++ [uf_assignVal uf])) g)
         /\ snd (fill_float uf (prs, m)) a
            = VAry (cells_of (ary g) ++ [uf_assignVal uf] ++ [NULL])
       else
         nth_error (groups (fst (fill_float uf (prs, m)))) gi = Some g
         /\ snd (fill_float uf (prs, m)) a = occurrence_value g uf
     else
       nth_error (groups (fst (fill_float uf (prs, m)))) gi = Some g
       /\ snd (fill_float uf (prs, m)) a = m a.
Proof.
  intros G P U. unfold fill_float, occurrence_of.
  destruct (find (float_matches uf) (floats prs)) as [f|];
    [|split; [reflexivity | split; [exact G | reflexivity]]].
  cbv zeta.
  assert (K : forall (i : nat) (x : option (list cstr)) (j : nat),
             option_map varPtr
               (nth_error (list_update i (set_ary x) (groups prs)) j)
             = option_map varPtr (nth_error (groups prs) j)).
  { intros i x j. rewrite nth_error_list_update.
    destruct (Nat.eqb i j); [|reflexivity].
    destruct (nth_error (groups prs) j); reflexivity. }
  destruct (Nat.eqb_spec (fa_groupIdx f) gi) as [E|E].
  - rewrite E. rewrite (group_at_nth _ _ _ G).
    destruct (isRepeating g) eqn:R.
    + cbn [fst snd groups set_groups]. split; [apply K|].
      rewrite nth_error_list_update, Nat.eqb_refl, G, P, write_if_same.
      rewrite ary_save_cells, <- app_assoc. split; reflexivity.
    + unfold occurrence_value.
      destruct (hasAssign g).
      * destruct (is_NULL (uf_assignVal uf)); cbn [negb fst snd];
          rewrite P, write_if_same;
          (split; [reflexivity | split; [exact G | reflexivity]]).
      * cbn [fst snd]. rewrite P, write_if_same.
        split; [reflexivity | split; [exact G | reflexivity]].
  - pose proof (other_group_pointer prs gi _ a U E) as Q.
    destruct (isRepeating (group_at prs (fa_groupIdx f))).
    + cbn [fst snd groups set_groups]. split; [apply K|].
      rewrite nth_error_list_update.
      destruct (Nat.eqb_spec (fa_groupIdx f) gi) as [X|_]; [contradiction|].
      split; [exact G | apply write_if_other; exact Q].
    + destruct (hasAssign (group_at prs (fa_groupIdx f))).
      * destruct (negb _); cbn [fst snd];
          (split; [reflexivity
                  | split; [exact G | apply write_if_other; exact Q]]).
      * cbn [fst snd].
        split; [reflexivity | split; [exact G | apply write_if_other; exact Q]].
Qed.

Lemma last_cons {A : Type} (l : list A) :
  forall x d : A, last (x :: l) d = last l x.
Proof.
  induction l as [|y l IH]; intros x d; [reflexivity|].
  change (last (x :: y :: l) d) with (last (y :: l) d).
  rewrite !IH. reflexivity.
Qed.

(** The whole binding loop: the variable of the group [gi] holds what the
    last of its occurrences wrote, and is left alone without one. *)
Lemma fill_floats_group (gi : nat) (a : addr)
  (ufs : list EXT_ARGS_UFloatArg) :
  forall (prs : EXT_ARGS_Parser) (m : store) (g : EXT_ARGS_FloatArgsGroup),
    nth_error (groups prs) gi = Some g ->
    varPtr g = Some a ->
    only_group prs gi a ->
    exists ary',
      nth_error (groups (fst (fill_floats ufs (prs, m)))) gi
      = Some (set_ary ary' g)
      /\ (isRepeating g = true ->
          cells_of ary'
          = cells_of (ary g)
            ++ map uf_assignVal (occurrences (floats prs) gi ufs))
      /\ (forall j,
            option_map varPtr
              (nth_error (groups (fst (fill_floats ufs (prs, m)))) j)
            = option_map varPtr (nth_error (groups prs) j))
      /\ snd (fill_floats ufs (prs, m)) a
         = match occurrences (floats prs) gi ufs with
           | [] => m a
           | uf :: rest =>
               if isRepeating g then
                 VAry (cells_of (ary g) ++ map uf_assignVal (uf :: rest)
                       ++ [NULL])
               else occurrence_value g (last rest uf)
           end.
Proof.
  unfold fill_floats, occurrences.
  induction ufs as [|uf ufs IH]; intros prs m g G P U.
  - exists (ary g). cbn [fold_left fst snd filter map].
    split; [destruct g; exact G|].
    split; [intros _; symmetry; apply app_nil_r|].
    split; reflexivity.
  - cbn [fold_left filter].
    pose proof (fill_float_group uf prs m gi g a G P U) as (K & S).
    pose proof (fill_float_frame uf prs m) as (_ & Fl & _).
    destruct (fill_float uf (prs, m)) as [p1 m1]. cbn [fst snd] in K, S, Fl.
    assert (U1 : only_group p1 gi a).
    { intros j g' Nj Pj. specialize (K j). rewrite Nj in K. simpl in K.
      destruct (nth_error (groups prs) j) as [g0|] eqn:N0; [|discriminate].
      apply (U j g0 N0). simpl in K. congruence. }
    assert (KK : forall q j,
               option_map varPtr (nth_error (groups q) j)
               = option_map varPtr (nth_error (groups p1) j) ->
               option_map varPtr (nth_error (groups q) j)
               = option_map varPtr (nth_error (groups prs) j)).
    { intros q j H. rewrite H. apply K. }
    destruct (occurrence_of (floats prs) gi uf) eqn:O.
    + destruct (isRepeating g) eqn:R.
      * destruct S as [G1 M1].
        destruct (IH p1 m1 _ G1 P U1) as (ary' & h1 & h2 & h3 & h4).
        rewrite Fl in h2, h4. cbn [ary set_ary cells_of isRepeating] in h2, h4.
        rewrite R in h4. specialize (h2 R).
        exists ary'. split; [exact h1|].
        split; [intros _; rewrite h2; cbn [map]; rewrite <- app_assoc;
                reflexivity|].
        split; [intros j; apply KK, h3|].
        rewrite h4. cbn [map].
        destruct (filter _ ufs) as [|u us]; [exact M1|].
        cbn [map]. rewrite <- !app_assoc. reflexivity.
      * destruct S as [G1 M1].
        destruct (IH p1 m1 _ G1 P U1) as (ary' & h1 & h2 & h3 & h4).
        rewrite Fl in h2, h4. rewrite R in h4.
        exists ary'. split; [exact h1|].
        split; [intros X; discriminate|].
        split; [intros j; apply KK, h3|].
        rewrite h4.
        destruct (filter _ ufs) as [|u us]; [exact M1|].
        rewrite last_cons. reflexivity.
    + destruct S as [G1 M1].
      destruct (IH p1 m1 _ G1 P U1) as (ary' & h1 & h2 & h3 & h4).
      rewrite Fl in h2, h4.
      exists ary'. split; [exact h1|]. split; [exact h2|].
      split; [intros j; apply KK, h3|].
      rewrite h4. rewrite M1. reflexivity.
Qed.

Lemma fill_missing_other (a : addr) (grs : list EXT_ARGS_FloatArgsGroup) :
  forall m : store,
    (forall g', In g' grs -> varPtr g' <> Some a) ->
    snd (fill_missing grs m) a = m a.
Proof.
  induction grs as [|g0 grs IH]; intros m U; [reflexivity|].
  cbn [fill_missing].
  assert (P0 : varPtr g0 <> Some a) by (apply U; left; reflexivity).
  assert (Ut : forall g', In g' grs -> varPtr g' <> Some a)
    by (intros g' I; apply U; right; exact I).
  destruct (negb (isUsed g0) && isOptional g0).
  - destruct (isRepeating g0); [|destruct (hasAssign g0)];
      match goal with
      | |- context [fill_missing grs ?m1] =>
          specialize (IH m1 Ut); destruct (fill_missing grs m1) as [grs' m2]
      end; cbn [snd] in *; rewrite IH; apply write_if_other; exact P0.
  - specialize (IH m Ut). destruct (fill_missing grs m) as [grs' m2].
    exact IH.
Qed.

(** The loop over the groups that the input did not use, seen from the
    variable of one group. *)
Lemma fill_missing_group (a : addr) (grs : list EXT_ARGS_FloatArgsGroup) :
  forall (m : store) (gi : nat) (g : EXT_ARGS_FloatArgsGroup),
    nth_error grs gi = Some g ->
    varPtr g = Some a ->
    (forall j g', nth_error grs j = Some g' -> varPtr g' = Some a -> j = gi) ->
    snd (fill_missing grs m) a
    = if negb (isUsed g) && isOptional g then
        if isRepeating g then VAry (cells_of (ary g) ++ [NULL])
        else if hasAssign g then VStr NULL
        else VBool false
      else m a.
Proof.
  induction grs as [|g0 grs IH]; intros m gi g G P U;
    [destruct gi; discriminate|].
  cbn [fill_missing]. destruct gi as [|gi]; simpl in G.
  - inversion G; subst g0.
    assert (Ut : forall g', In g' grs -> varPtr g' <> Some a).
    { intros g' I Q. apply In_nth_error in I. destruct I as (j & I).
      pose proof (U (S j) g' I Q). discriminate. }
    destruct (negb (isUsed g) && isOptional g).
    + destruct (isRepeating g); [|destruct (hasAssign g)];
        match goal with
        | |- context [fill_missing grs ?m1] =>
            pose proof (fill_missing_other a grs m1 Ut) as F;
            destruct (fill_missing grs m1) as [grs' m2]
        end; cbn [snd] in *; rewrite F, P, write_if_same;
        rewrite ?ary_save_cells; reflexivity.
    + pose proof (fill_missing_other a grs m Ut) as F.
      destruct (fill_missing grs m) as [grs' m2]. exact F.
  - assert (P0 : varPtr g0 <> Some a).
    { intros Q. pose proof (U 0 g0 eq_refl Q). discriminate. }
    assert (Ut : forall j g', nth_error grs j = Some g' ->
                              varPtr g' = Some a -> j = gi).
    { intros j g' I Q. pose proof (U (S j) g' I Q) as X.
      inversion X. reflexivity. }
    destruct (negb (isUsed g0) && isOptional g0).
    + destruct (isRepeating g0); [|destruct (hasAssign g0)];
        match goal with
        | |- context [fill_missing grs ?m1] =>
            pose proof (IH m1 gi g G P Ut) as F;
            destruct (fill_missing grs m1) as [grs' m2]
        end; cbn [snd] in *; rewrite F;
        rewrite (write_if_other _ _ _ _ P0); reflexivity.
    + pose proof (IH m gi g G P Ut) as F.
      destruct (fill_missing grs m) as [grs' m2]. exact F.
Qed.

Lemma fill_posArgs_other (prs : EXT_ARGS_Parser) (a : addr) :
  (forall pb, In pb (posArgs prs) -> pa_varPtr pb <> Some a) ->
  forall (vals : list string) (i0 : nat) (opts : option (list cstr))
    (m : store),
    i0 + List.length vals <= List.length (posArgs prs)
    \/ varPosrArgsVarPtr prs <> Some a ->
    snd (fill_posArgs prs i0 vals opts m) a = m a.
Proof.
  intros U. induction vals as [|v vals IH]; intros i0 opts m W;
    [reflexivity|].
  cbn [fill_posArgs].
  destruct (Nat.ltb_spec i0 (List.length (posArgs prs))) as [L|L].
  - cbv zeta. rewrite IH.
    2:{ destruct W as [W|W]; [left; simpl in W; lia | right; exact W]. }
    apply write_if_other. apply U. apply nth_In. exact L.
  - destruct W as [W|W]; [simpl in W; lia|].
    destruct (varPosrArgsVarPtr prs) as [x|] eqn:V; [|reflexivity].
    cbv zeta. rewrite IH by (right; exact W).
    apply write_if_other. exact W.
Qed.

(** The binding stage, seen from the variable of the group [gi]. *)
Lemma bind_vars_group (prs : EXT_ARGS_Parser) (ufs : list EXT_ARGS_UFloatArg)
  (vals : list string) (m : store) (gi : nat) (g : EXT_ARGS_FloatArgsGroup)
  (a : addr) :
  nth_error (groups prs) gi = Some g ->
  varPtr g = Some a ->
  only_group prs gi a ->
  (forall pb, In pb (posArgs prs) -> pa_varPtr pb <> Some a) ->
  (varPosArgsEnabled prs = false
   /\ List.length vals <= List.length (posArgs prs))
  \/ varPosrArgsVarPtr prs <> Some a ->
  bind_vars prs ufs vals m a
  = if negb (isUsed g) && isOptional g then
      if isRepeating g then
        VAry (cells_of (ary g)
              ++ map uf_assignVal (occurrences (floats prs) gi ufs)
              ++ [NULL])
      else if hasAssign g then VStr NULL
      else VBool false
    else
      match occurrences (floats prs) gi ufs with
      | [] => m a
      | uf :: rest =>
          if isRepeating g then
            VAry (cells_of (ary g) ++ map uf_assignVal (uf :: rest)
                  ++ [NULL])
          else occurrence_value g (last rest uf)
      end.
Proof.
  intros G P U Up W. unfold bind_vars.
  pose proof (fill_floats_frame ufs prs m) as (f1 & _ & f3 & f4).
  destruct (fill_floats_group gi a ufs prs m g G P U)
    as (ary' & h1 & h2 & h3 & h4).
  destruct (fill_floats ufs (prs, m)) as [p1 m1].
  cbn [fst snd] in f1, f3, f4, h1, h3, h4.
  assert (U1 : forall j g', nth_error (groups p1) j = Some g' ->
                            varPtr g' = Some a -> j = gi).
  { intros j g' Nj Pj. specialize (h3 j). rewrite Nj in h3. simpl in h3.
    destruct (nth_error (groups prs) j) as [g0|] eqn:N0; [|discriminate].
    apply (U j g0 N0). simpl in h3. congruence. }
  pose proof (fill_missing_group a (groups p1) m1 gi _ h1 P U1) as FM.
  cbn [isUsed isOptional isRepeating hasAssign ary set_ary] in FM.
  destruct (fill_missing (groups p1) m1) as [grs m2]. cbn [snd] in FM.
  set (p2 := set_groups p1 grs).
  assert (g1 : posArgs p2 = posArgs prs) by exact f1.
  assert (g3 : varPosArgsEnabled p2 = varPosArgsEnabled prs) by exact f3.
  assert (g4 : varPosrArgsVarPtr p2 = varPosrArgsVarPtr prs) by exact f4.
  clearbody p2. rewrite <- g1 in Up, W. rewrite <- g3, <- g4 in W.
  set (m3 := null_missing p2 (List.length vals) m2).
  assert (FP : snd (fill_posArgs p2 0 vals None m3) a = m3 a).
  { apply fill_posArgs_other; [exact Up|].
    destruct W as [[_ W]|W]; [left; simpl; exact W | right; exact W]. }
  destruct (fill_posArgs p2 0 vals None m3) as [opts m4]. cbn [snd] in FP.
  assert (E : fill_empty_varPos p2 opts
                (null_missing p2 (List.length vals) m4) a
              = null_missing p2 (List.length vals) m4 a).
  { unfold fill_empty_varPos. destruct opts as [l|]; [reflexivity|].
    destruct (varPosArgsEnabled p2) eqn:V; [|reflexivity].
    apply write_if_other. destruct W as [[W _]|W]; [discriminate | exact W]. }
  rewrite E, (null_missing_other p2 _ m4 a Up), FP.
  unfold m3. rewrite (null_missing_other p2 _ m2 a Up), FM.
  destruct (negb (isUsed g) && isOptional g); [|exact h4].
  destruct (isRepeating g); [|reflexivity].
  rewrite (h2 eq_refl), <- app_assoc. reflexivity.
Qed.

Lemma get_var_ptrs_group (sq : list EXT_ARGS_SequenceElement) :
  forall (ap ap' : list ptr) (prs prs' : EXT_ARGS_Parser) (j : nat)
    (g : EXT_ARGS_FloatArgsGroup),
    get_var_ptrs sq ap prs = Some (ap', prs') ->
    nth_error (groups prs) j = Some g ->
    exists q, nth_error (groups prs') j = Some (set_varPtr q g).
Proof.
  induction sq as [|e sq IH]; intros ap ap' prs prs' j g H G;
    cbn [get_var_ptrs] in H.
  - inversion H; subst. exists (varPtr g). rewrite G. destruct g; reflexivity.
  - destruct ap as [|p ap]; [discriminate|].
    destruct (sq_type e).
    + apply (IH _ _ _ _ j g H). exact G.
    + destruct (Nat.eqb_spec (sq_idx e) j) as [E|E].
      * assert (G1 : nth_error
                       (groups (set_groups prs
                                  (list_update (sq_idx e) (set_varPtr p)
                                     (groups prs)))) j
                     = Some (set_varPtr p g)).
        { cbn [groups set_groups]. rewrite nth_error_list_update, E,
            Nat.eqb_refl, G. reflexivity. }
        destruct (IH _ _ _ _ j _ H G1) as (q & Q). exists q. exact Q.
      * apply (IH _ _ _ _ j g H). cbn [groups set_groups].
        rewrite nth_error_list_update.
        destruct (Nat.eqb_spec (sq_idx e) j) as [X|_]; [contradiction|].
        exact G.
Qed.

(** Validation marks the groups that have an occurrence in the input, and
    changes nothing else in a group. *)
Lemma validate_floats_group (gi : nat) (ufs : list EXT_ARGS_UFloatArg) :
  forall (prs prs' : EXT_ARGS_Parser) (g : EXT_ARGS_FloatArgsGroup),
    validate_floats ufs prs = Ok prs' ->
    nth_error (groups prs) gi = Some g ->
    nth_error (groups prs') gi
    = Some (match occurrences (floats prs) gi ufs with
            | [] => g
            | _ :: _ => set_isUsed g
            end).
Proof.
  unfold occurrences.
  induction ufs as [|uf ufs IH]; intros prs prs' g H G; simpl in H.
  - inversion H; subst. exact G.
  - destruct (validate_float uf prs) as [p1|] eqn:V; [|discriminate].
    apply validate_float_Ok in V. destruct V as (f & Ff & P1).
    cbn [filter]. unfold occurrence_of at 1. rewrite Ff.
    assert (Fl : floats p1 = floats prs) by (subst p1; reflexivity).
    destruct (Nat.eqb_spec (fa_groupIdx f) gi) as [E|E].
    + assert (G1 : nth_error (groups p1) gi = Some (set_isUsed g)).
      { subst p1. cbn [groups set_groups].
        rewrite nth_error_list_update, E, Nat.eqb_refl, G. reflexivity. }
      rewrite (IH p1 prs' _ H G1). rewrite Fl.
      destruct (filter _ ufs); reflexivity.
    + assert (G1 : nth_error (groups p1) gi = Some g).
      { subst p1. cbn [groups set_groups]. rewrite nth_error_list_update.
        destruct (Nat.eqb_spec (fa_groupIdx f) gi) as [X|_]; [contradiction|].
        exact G. }
      rewrite (IH p1 prs' _ H G1). rewrite Fl. reflexivity.
Qed.

(** A group that passes the check for missing flags is used or optional,
    when it has an alias. *)
Lemma check_provided_Ok (fls : list EXT_ARGS_FloatArg)
  (grs : list EXT_ARGS_FloatArgsGroup) :
  forall (i j : nat) (g : EXT_ARGS_FloatArgsGroup),
    check_provided i grs fls = Ok tt ->
    nth_error grs j = Some g ->
    isUsed g = false ->
    1 <= alias_count_at fls (i + j) ->
    isOptional g = true.
Proof.
  induction grs as [|g0 grs IH]; intros i j g H G Us Al;
    [destruct j; discriminate|].
  cbn [check_provided] in H.
  destruct j as [|j]; simpl in G.
  - inversion G; subst g0. rewrite Us in H. cbn [negb andb] in H.
    destruct (isOptional g); [reflexivity|]. cbn [negb] in H.
    rewrite Nat.add_0_r in Al. unfold alias_count_at in Al.
    destruct (find (fun fa => Nat.eqb (fa_groupIdx fa) i) fls) eqn:F;
      [discriminate|].
    exfalso. clear -F Al.
    induction fls as [|f fls IHf]; simpl in *; [lia|].
    destruct (Nat.eqb (fa_groupIdx f) i); [discriminate|].
    apply IHf; assumption.
  - apply (IH (S i) j g); try assumption.
    + destruct (negb (isUsed g0) && negb (isOptional g0)); [|exact H].
      destruct (find _ fls); [discriminate | exact H].
    + replace (S i + j) with (i + S j) by lia. exact Al.
Qed.

(** On success, the variable passed for a flag holds: for a repeatable
    flag, a fresh array of the values of its occurrences in the order of the
    input, then NULL; otherwise the value of its occurrence, the sentinel
    [ext_args_no_value] when the occurrence has no value, [true] for a flag
    that takes no value, and NULL or [false] when the input does not have
    the flag.  [n] is the place of the declaration in the schema and of its
    pointer among the arguments of the call, [gi] the index of the group;
    the address is passed once. *)
Theorem flag_binding (fmt : string) (argv : list string) (ap : list ptr)
  (m : store) (prs prs1 : EXT_ARGS_Parser) (ufs : list EXT_ARGS_UFloatArg)
  (vals : list string) (n gi : nat) (g : EXT_ARGS_FloatArgsGroup)
  (a : addr) :
  compile_schema fmt = Some (Ok prs) ->
  check_input argv prs = Ok (prs1, ufs, vals) ->
  slot_count prs <= List.length ap ->
  nth_error (sequence prs) n = Some (mkSeq EXT_ARGS_ARG_GROUP gi) ->
  nth_error (groups prs) gi = Some g ->
  nth_error ap n = Some (Some a) ->
  (forall n', nth_error ap n' = Some (Some a) -> n' = n) ->
  exists m',
    ext_args argv fmt ap m = Some (EXT_ARGS_NO_ERR, m')
    /\ m' a = flag_value g (occurrences (floats prs) gi ufs).
Proof.
  intros C I L Sn Gg An Un.
  destruct (ext_args_success fmt argv ap m prs prs1 ufs vals C I L)
    as (ap' & prs2 & prs3 & G & R & e1 & e2 & e3 & e4 & e5).
  exists (bind_vars prs3 ufs vals m). split; [exact R|].
  apply compile_schema_Ok in C. destruct C as [Sy _].
  destruct (EXT_ARGS_Synopsis_wf _ _ Sy) as (W1 & W2 & _ & W4).
  destruct (EXT_ARGS_Synopsis_model_ok _ _ Sy) as (_ & Fr & _).
  apply check_input_Ok in I. destruct I as (toks & _ & _ & V & CPr & CP).
  pose proof (validate_floats_frame _ _ _ V) as (Pa & _ & Vp & _).
  pose proof (validate_floats_Ok _ _ _ V) as (Fl & Lg & _).
  pose proof (validate_floats_group gi _ _ _ _ V Gg) as G1.
  assert (WP : seq_idx_of EXT_ARGS_ARG_POS (sequence prs)
               = seq 0 (kind_count prs1 EXT_ARGS_ARG_POS))
    by (simpl; rewrite Pa; exact W1).
  assert (WG : seq_idx_of EXT_ARGS_ARG_GROUP (sequence prs)
               = seq 0 (kind_count prs1 EXT_ARGS_ARG_GROUP))
    by (simpl; rewrite Lg; exact W2).
  assert (ND : NoDup (seq_idx_of EXT_ARGS_ARG_GROUP (sequence prs)))
    by (rewrite WG; apply seq_NoDup).
  destruct (get_var_ptrs_group _ _ _ _ _ gi _ G G1) as (q & G2).
  pose proof (get_var_ptrs_slot _ _ _ _ _ EXT_ARGS_ARG_GROUP n _ (Some a)
                ND G Sn eq_refl An) as SL.
  simpl in SL. rewrite G1, G2 in SL. simpl in SL. inversion SL; subst q.
  rewrite <- e2 in G2.
  assert (Fg : group_fresh g).
  { rewrite Forall_forall in Fr. apply Fr. eapply nth_error_In. exact Gg. }
  destruct Fg as (_ & Ug & Ag).
  assert (Sl : forall k j, var_ptr_of prs2 k j = Some (Some a) ->
                 k = EXT_ARGS_ARG_GROUP /\ j = gi).
  { intros k j VJ.
    assert (W : seq_idx_of k (sequence prs) = seq 0 (kind_count prs1 k))
      by (destruct k; assumption).
    destruct (pointer_has_slot _ _ _ _ _ _ _ _ W G VJ)
      as (n' & e & a1 & a2 & a3 & a4).
    apply Un in a4. subst n'. rewrite Sn in a1. inversion a1; subst e.
    simpl in a2, a3. split; symmetry; assumption. }
  rewrite (bind_vars_group prs3 ufs vals m gi _ a G2 eq_refl).
  - rewrite e3.
    cbn [isUsed isOptional isRepeating hasAssign ary set_varPtr].
    unfold flag_value.
    destruct (occurrences (floats prs) gi ufs) as [|uf rest] eqn:O.
    + rewrite Ug, Ag. cbn [negb andb cells_of map app].
      assert (Og : isOptional g = true).
      { apply (check_provided_Ok _ _ 0 gi g CPr);
          [exact G1 | exact Ug |].
        rewrite Fl. destruct (W4 gi g Gg) as [X Y]. simpl. lia. }
      rewrite Og. reflexivity.
    + cbn [isUsed isOptional isRepeating hasAssign ary set_isUsed negb andb].
      rewrite Ag. cbn [cells_of app].
      destruct (isRepeating g); reflexivity.
  - intros j g' Nj Pj. rewrite e2 in Nj.
    apply (Sl EXT_ARGS_ARG_GROUP j). simpl. rewrite Nj. simpl. rewrite Pj.
    reflexivity.
  - intros pb Ib Pb. rewrite e1 in Ib.
    apply In_nth_error in Ib. destruct Ib as (j & Nj).
    assert (X : EXT_ARGS_ARG_POS = EXT_ARGS_ARG_GROUP /\ j = gi).
    { apply Sl. simpl. rewrite Nj. simpl. rewrite Pb. reflexivity. }
    destruct X as [X _]. discriminate.
  - destruct (varPosArgsEnabled prs) eqn:VE.
    + right. intros X. specialize (e5 eq_refl). rewrite X in e5.
      apply Un in e5.
      assert (n < List.length (sequence prs))
        by (apply nth_error_Some; rewrite Sn; discriminate).
      lia.
    + left. split; [exact e4|].
      unfold check_posArgs in CP.
      destruct (Nat.ltb _ (manposArgsCount _)); [discriminate|].
      rewrite Vp in CP. simpl in CP.
      destruct (Nat.ltb_spec (List.length (posArgs prs1)) (List.length vals))
        as [X|X]; [discriminate|].
      rewrite e1.
      pose proof (get_var_ptrs_lengths _ _ _ _ _ G) as (E12 & _).
      lia.
Qed.

Lemma flag_binding_witness :
  exists m' : store,
    ext_args ["prog"; "-D=1"; "x"; "-D=2"] "[-D=val...] name"
      [Some 10; Some 11] store_init
    = Some (EXT_ARGS_NO_ERR, m')
    /\ m' 10 = VAry [Str "1"; Str "2"; NULL].
Proof.
  assert (U : forall n', nth_error [Some 10; Some 11] n' = Some (Some 10) ->
                         n' = 0).
  { intros [|[|n']] H; simpl in H; try discriminate; try reflexivity.
    destruct n'; discriminate. }
  destruct (flag_binding "[-D=val...] name" ["prog"; "-D=1"; "x"; "-D=2"]
              [Some 10; Some 11] store_init _ _ _ _ 0 0 _ 10
              ltac:(vm_compute; reflexivity) ltac:(vm_compute; reflexivity)
              ltac:(vm_compute; lia) ltac:(vm_compute; reflexivity)
              ltac:(vm_compute; reflexivity) eq_refl U)
    as (m' & R & Vl).
  exists m'. split; [exact R | exact Vl].
Defined.

(** ** What an accepted input looks like *)

Lemma validate_float_checks (uf : EXT_ARGS_UFloatArg)
  (prs prs' : EXT_ARGS_Parser) :
  validate_float uf prs = Ok prs' ->
  exists f,
    find (float_matches uf) (floats prs) = Some f
    /\ prs' = set_groups prs
                (list_update (fa_groupIdx f) set_isUsed (groups prs))
    /\ (isUsed (group_at prs (fa_groupIdx f))
        && negb (isRepeating (group_at prs (fa_groupIdx f)))) = false
    /\ value_allowed (group_at prs (fa_groupIdx f)) uf.
Proof.
  unfold validate_float, value_allowed.
  destruct (find (float_matches uf) (floats prs)) as [f|]; [|discriminate].
  cbv zeta. intros H. exists f. split; [reflexivity|].
  destruct (isUsed _ && negb _); [discriminate|].
  destruct (hasAssign _).
  - destruct (is_NULL (uf_assignVal uf) && negb _) eqn:T; [discriminate|].
    inversion H. split; [reflexivity|]. split; [reflexivity|].
    intros O N. rewrite O, N in T. discriminate.
  - destruct (is_NULL (uf_assignVal uf)) eqn:T; [|discriminate].
    inversion H. split; [reflexivity|]. split; [reflexivity|].
    destruct (uf_assignVal uf); try discriminate. reflexivity.
Qed.

(** The occurrences of one group in a validated input: at most one when the
    group is not repeatable, none when it was already used, and each with a
    value that the group allows. *)
Lemma validate_floats_occurrences (gi : nat) (ufs : list EXT_ARGS_UFloatArg) :
  forall (prs prs' : EXT_ARGS_Parser) (g : EXT_ARGS_FloatArgsGroup),
    validate_floats ufs prs = Ok prs' ->
    nth_error (groups prs) gi = Some g ->
    (isRepeating g = false ->
     List.length (occurrences (floats prs) gi ufs)
     <= if isUsed g then 0 else 1)
    /\ Forall (value_allowed g) (occurrences (floats prs) gi ufs).
Proof.
  unfold occurrences.
  induction ufs as [|uf ufs IH]; intros prs prs' g H G; simpl in H.
  - cbn [filter]. split; [intros _; destruct (isUsed g); simpl; lia|].
    constructor.
  - destruct (validate_float uf prs) as [p1|] eqn:V; [|discriminate].
    apply validate_float_checks in V. destruct V as (f & Ff & P1 & Ck & Va).
    cbn [filter].
    assert (O : occurrence_of (floats prs) gi uf = Nat.eqb (fa_groupIdx f) gi)
      by (unfold occurrence_of; rewrite Ff; reflexivity).
    rewrite O.
    assert (Fl : floats p1 = floats prs) by (subst p1; reflexivity).
    destruct (Nat.eqb_spec (fa_groupIdx f) gi) as [E|E].
    + rewrite E, (group_at_nth _ _ _ G) in Ck, Va.
      assert (G1 : nth_error (groups p1) gi = Some (set_isUsed g)).
      { subst p1. cbn [groups set_groups].
        rewrite nth_error_list_update, E, Nat.eqb_refl, G. reflexivity. }
      destruct (IH p1 prs' _ H G1) as [L A]. rewrite Fl in L, A.
      cbn [isRepeating isUsed set_isUsed] in L.
      split.
      * intros R. specialize (L R). rewrite R in Ck.
        destruct (isUsed g); [discriminate|]. simpl. lia.
      * constructor; [exact Va|]. exact A.
    + assert (G1 : nth_error (groups p1) gi = Some g).
      { subst p1. cbn [groups set_groups]. rewrite nth_error_list_update.
        destruct (Nat.eqb_spec (fa_groupIdx f) gi) as [X|_]; [contradiction|].
        exact G. }
      destruct (IH p1 prs' _ H G1) as [L A]. rewrite Fl in L, A.
      split; assumption.
Qed.

Lemma validate_floats_declared (ufs : list EXT_ARGS_UFloatArg) :
  forall prs prs' : EXT_ARGS_Parser,
    validate_floats ufs prs = Ok prs' ->
    forall uf, In uf ufs ->
               exists f, find (float_matches uf) (floats prs) = Some f.
Proof.
  induction ufs as [|uf0 ufs IH]; intros prs prs' H uf I; [destruct I|].
  simpl in H.
  destruct (validate_float uf0 prs) as [p1|] eqn:V; [|discriminate].
  apply validate_float_Ok in V. destruct V as (f & Ff & P1).
  destruct I as [I|I].
  - subst uf0. exists f. exact Ff.
  - assert (Fl : floats p1 = floats prs) by (subst p1; reflexivity).
    rewrite <- Fl. apply (IH p1 prs' H uf I).
Qed.

Lemma optional_then_mandatory_compiled (prs : EXT_ARGS_Parser) :
  (Nat.ltb 1 (List.length (posArgs prs))
   && optional_then_mandatory (posArgs prs)) = false ->
  optional_then_mandatory (posArgs prs) = false.
Proof.
  intros Om. apply andb_false_iff in Om. destruct Om as [Om|Om]; [|exact Om].
  apply Nat.ltb_ge in Om.
  destruct (posArgs prs) as [|x [|y l]]; try reflexivity.
  simpl in Om. lia.
Qed.

Lemma accepted_respects_schema (fmt : string) (argv : list string)
  (prs prs1 : EXT_ARGS_Parser) (ufs : list EXT_ARGS_UFloatArg)
  (vals : list string) :
  compile_schema fmt = Some (Ok prs) ->
  check_input argv prs = Ok (prs1, ufs, vals) ->
  respects_schema prs ufs vals.
Proof.
  intros C I.
  apply compile_schema_Ok in C. destruct C as [Sy Om].
  destruct (EXT_ARGS_Synopsis_wf _ _ Sy) as (_ & _ & _ & W4).
  destruct (EXT_ARGS_Synopsis_model_ok _ _ Sy) as (_ & Fr & _).
  apply check_input_Ok in I. destruct I as (toks & _ & _ & V & CPr & CP).
  pose proof (validate_floats_frame _ _ _ V) as (Pa & _ & Vp & _).
  pose proof (validate_floats_Ok _ _ _ V) as (Fl & _).
  unfold check_posArgs in CP. rewrite Pa, Vp in CP.
  destruct (Nat.ltb_spec (List.length vals) (manposArgsCount (posArgs prs)))
    as [X|X]; [discriminate|].
  split; [|split; [|split]].
  - intros i pa N O.
    apply (mandatory_prefix _ (optional_then_mandatory_compiled _ Om) i pa N)
      in O.
    lia.
  - intros E. rewrite E in CP. simpl in CP.
    destruct (Nat.ltb_spec (List.length (posArgs prs)) (List.length vals))
      as [Y|Y]; [discriminate | exact Y].
  - apply (validate_floats_declared _ _ _ V).
  - intros gi g G.
    assert (Fg : group_fresh g).
    { rewrite Forall_forall in Fr. apply Fr. eapply nth_error_In. exact G. }
    destruct Fg as (_ & Ug & _).
    destruct (validate_floats_occurrences gi _ _ _ _ V G) as [L A].
    rewrite Ug in L.
    split; [|split; [exact L | exact A]].
    intros O E.
    pose proof (validate_floats_group gi _ _ _ _ V G) as G1.
    rewrite E in G1.
    assert (Og : isOptional g = true).
    { apply (check_provided_Ok _ _ 0 gi g CPr); [exact G1 | exact Ug |].
      rewrite Fl. destruct (W4 gi g G) as [Y Z]. simpl. lia. }
    congruence.
Qed.

(** The first validation loop passes every input whose flags are aliases of
    the schema, with values that their groups allow, and with no second
    occurrence of a group that is not repeatable. *)
Lemma validate_floats_complete (ufs : list EXT_ARGS_UFloatArg) :
  forall prs : EXT_ARGS_Parser,
    (forall uf, In uf ufs ->
                exists f, find (float_matches uf) (floats prs) = Some f
                          /\ fa_groupIdx f < List.length (groups prs)) ->
    (forall gi g,
       nth_error (groups prs) gi = Some g ->
       (isRepeating g = false ->
        List.length (occurrences (floats prs) gi ufs)
        <= if isUsed g then 0 else 1)
       /\ Forall (value_allowed g) (occurrences (floats prs) gi ufs)) ->
    exists prs', validate_floats ufs prs = Ok prs'.
Proof.
  unfold occurrences.
  induction ufs as [|uf ufs IH]; intros prs D K; [eexists; reflexivity|].
  cbn [validate_floats].
  destruct (D uf (or_introl eq_refl)) as (f & Ff & Lf).
  destruct (nth_error (groups prs) (fa_groupIdx f)) as [g|] eqn:G.
  2:{ apply nth_error_None in G. lia. }
  assert (O : occurrence_of (floats prs) (fa_groupIdx f) uf = true)
    by (unfold occurrence_of; rewrite Ff; apply Nat.eqb_refl).
  destruct (K _ _ G) as [L A]. cbn [filter] in L, A. rewrite O in L, A.
  inversion A as [|x l Va A']; subst.
  assert (V : validate_float uf prs
              = Ok (set_groups prs
                      (list_update (fa_groupIdx f) set_isUsed (groups prs)))).
  { unfold validate_float. rewrite Ff. cbv zeta.
    rewrite (group_at_nth _ _ _ G).
    assert (T : isUsed g && negb (isRepeating g) = false).
    { destruct (isRepeating g); [apply andb_false_r|].
      specialize (L eq_refl). destruct (isUsed g); [simpl in L; lia|].
      reflexivity. }
    rewrite T. unfold value_allowed in Va.
    destruct (hasAssign g).
    - destruct (is_NULL (uf_assignVal uf)) eqn:N; [|reflexivity].
      destruct (isAssignOptional g); [reflexivity|].
      elim (Va eq_refl). destruct (uf_assignVal uf); try discriminate.
      reflexivity.
    - rewrite Va. reflexivity. }
  rewrite V. apply IH.
  - intros u I. destruct (D u (or_intror I)) as (f' & F' & L').
    exists f'. split; [exact F'|].
    cbn [groups set_groups]. rewrite list_update_length. exact L'.
  - intros gi g' G'. cbn [groups set_groups floats] in G' |- *.
    rewrite nth_error_list_update in G'.
    destruct (Nat.eqb_spec (fa_groupIdx f) gi) as [E|E].
    + subst gi. rewrite G in G'. simpl in G'. inversion G'; subst g'.
      cbn [isRepeating isUsed set_isUsed].
      split; [|exact A'].
      intros R. specialize (L R). destruct (isUsed g); simpl in L; lia.
    + destruct (K _ _ G') as [L' A'']. cbn [filter] in L', A''.
      assert (O' : occurrence_of (floats prs) gi uf = false).
      { unfold occurrence_of. rewrite Ff. apply Nat.eqb_neq. exact E. }
      rewrite O' in L', A''. split; assumption.
Qed.

Lemma check_provided_complete (fls : list EXT_ARGS_FloatArg)
  (grs : list EXT_ARGS_FloatArgsGroup) :
  forall i : nat,
    (forall g, In g grs -> isUsed g = true \/ isOptional g = true) ->
    check_provided i grs fls = Ok tt.
Proof.
  induction grs as [|g0 grs IH]; intros i H; [reflexivity|].
  cbn [check_provided].
  assert (T : negb (isUsed g0) && negb (isOptional g0) = false).
  { destruct (H g0 (or_introl eq_refl)) as [X|X]; rewrite X;
      [reflexivity | apply andb_false_r]. }
  rewrite T. apply IH. intros g I. apply H. right. exact I.
Qed.

Lemma manposArgsCount_le (l : list EXT_ARGS_PosArg) :
  manposArgsCount l <= List.length l.
Proof. unfold manposArgsCount. apply filter_length_le. Qed.

(** The input stages let an argument vector pass exactly when it is
    tokenized and parsed without error into flags and values that the
    schema admits: nothing else is rejected and nothing else is accepted. *)
Theorem input_accepted_iff (fmt : string) (argv : list string)
  (prs : EXT_ARGS_Parser) (ufs : list EXT_ARGS_UFloatArg)
  (vals : list string) :
  compile_schema fmt = Some (Ok prs) ->
  (exists prs1, check_input argv prs = Ok (prs1, ufs, vals))
  <-> (exists toks,
         lex_input argv = Ok toks
         /\ parse_input toks [] [] = Ok (ufs, vals))
      /\ respects_schema prs ufs vals.
Proof.
  intros C. split.
  - intros (prs1 & I). split.
    + destruct (check_input_Ok _ _ _ _ _ I) as (toks & L & P & _).
      exists toks. split; assumption.
    + exact (accepted_respects_schema _ _ _ _ _ _ C I).
  - intros ((toks & L & P) & (R1 & R2 & R3 & R4)).
    apply compile_schema_Ok in C. destruct C as [Sy Om].
    destruct (EXT_ARGS_Synopsis_wf _ _ Sy) as (_ & _ & W3 & _).
    destruct (EXT_ARGS_Synopsis_model_ok _ _ Sy) as (_ & Fr & _).
    rewrite Forall_forall in W3, Fr.
    destruct (validate_floats_complete ufs prs) as (prs1 & V).
    { intros uf I. destruct (R3 uf I) as (f & Ff). exists f.
      split; [exact Ff|]. apply W3. apply (find_some _ _ Ff). }
    { intros gi g G. destruct (R4 gi g G) as (_ & Lg & Ag).
      split; [|exact Ag]. intros R.
      destruct (Fr g (nth_error_In _ _ G)) as (_ & Ug & _). rewrite Ug.
      apply Lg, R. }
    exists prs1. unfold check_input. rewrite L, P, V.
    pose proof (validate_floats_frame _ _ _ V) as (Pa & _ & Vp & _).
    pose proof (validate_floats_Ok _ _ _ V) as (Fl & Lg & _).
    rewrite check_provided_complete.
    2:{ intros g1 I1. apply In_nth_error in I1. destruct I1 as (gi & N1).
        destruct (nth_error (groups prs) gi) as [g|] eqn:G.
        2:{ apply nth_error_None in G.
            assert (gi < List.length (groups prs1))
              by (apply nth_error_Some; rewrite N1; discriminate).
            lia. }
        pose proof (validate_floats_group gi _ _ _ _ V G) as G1.
        rewrite N1 in G1. inversion G1 as [E1].
        destruct (R4 gi g G) as (Mg & _).
        destruct (occurrences (floats prs) gi ufs) as [|u us].
        - right. destruct (isOptional g); [reflexivity|].
          elim (Mg eq_refl). reflexivity.
        - left. reflexivity. }
    unfold check_posArgs. rewrite Pa, Vp.
    pose proof (optional_then_mandatory_compiled _ Om) as OM.
    destruct (Nat.ltb_spec (List.length vals) (manposArgsCount (posArgs prs)))
      as [X|X].
    { exfalso.
      pose proof (manposArgsCount_le (posArgs prs)) as Y.
      destruct (nth_error (posArgs prs) (List.length vals)) as [pa|] eqn:N.
      2:{ apply nth_error_None in N. lia. }
      pose proof (proj2 (mandatory_prefix _ OM _ _ N) X) as O.
      pose proof (R1 _ _ N O). lia. }
    destruct (varPosArgsEnabled prs) eqn:VE; [reflexivity|].
    cbn [negb andb].
    destruct (Nat.ltb_spec (List.length (posArgs prs)) (List.length vals))
      as [Y|Y]; [|reflexivity].
    specialize (R2 eq_refl). lia.
Qed.

Lemma input_accepted_iff_witness :
  exists (prs : EXT_ARGS_Parser) (ufs : list EXT_ARGS_UFloatArg)
    (vals : list string),
    compile_schema "-o=file [-D=val...] name" = Some (Ok prs)
    /\ ufs = [mkUFloatArg "-o=out" 2 (Str "out")]
    /\ vals = ["x"]
    /\ respects_schema prs ufs vals.
Proof.
  do 3 eexists. split; [vm_compute; reflexivity|].
  split; [reflexivity|]. split; [reflexivity|].
  apply (proj1 (input_accepted_iff "-o=file [-D=val...] name"
                  ["prog"; "-o=out"; "x"] _ _ _
                  ltac:(vm_compute; reflexivity))).
  eexists. vm_compute. reflexivity.
Defined.

(** ** Reading the command line one argument at a time *)

Lemma string_app_nil_r (s : string) : (s ++ EmptyString)%string = s.
Proof. induction s as [|c s IH]; simpl; [reflexivity | rewrite IH; reflexivity]. Qed.

Lemma lex_arg_flag (d n : string) (tokens : list EXT_ARGS_UTok) :
  d <> EmptyString ->
  all_chars is_dash d = true ->
  valid_name n = true ->
  lex_arg (d ++ n) tokens
  = (tokens ++ [mkUTok EXT_ARGS_UTOK_FLOAT (d ++ n) (String.length (d ++ n))],
     LexContinue).
Proof.
  intros D A V. unfold lex_arg.
  assert (E : EXT_ARGS_ArgFloat (Parser_init (d ++ n))
              = (true, set_str (Parser_init (d ++ n)) EmptyString)).
  { apply (EXT_ARGS_ArgFloat_accepts _ d n EmptyString); auto.
    simpl. rewrite string_app_nil_r. reflexivity. }
  rewrite E. cbv beta iota zeta.
  change (set_str (Parser_init (d ++ n)) EmptyString)
    with (Parser_init EmptyString).
  rewrite EXT_ARGS_Char_init_nul. cbv beta iota zeta.
  unfold EXT_ARGS_CurrentPos, EXT_ARGS_Distance. simpl.
  rewrite Nat.sub_0_r, Nat.add_0_r. reflexivity.
Qed.

Lemma lex_arg_flag_value (d n v : string) (tokens : list EXT_ARGS_UTok) :
  d <> EmptyString ->
  all_chars is_dash d = true ->
  valid_name n = true ->
  v <> EmptyString ->
  lex_arg (d ++ n ++ String "=" v) tokens
  = (tokens
     ++ [mkUTok EXT_ARGS_UTOK_FLOAT (d ++ n ++ String "=" v)
           (String.length (d ++ n));
         mkUTok EXT_ARGS_UTOK_EQL (String "=" v) 0;
         mkUTok EXT_ARGS_UTOK_VAL v 0],
     LexContinue).
Proof.
  intros D A V N. unfold lex_arg.
  set (bk := (d ++ n ++ String "=" v)%string).
  assert (E : EXT_ARGS_ArgFloat (Parser_init bk)
              = (true, set_str (Parser_init bk) (String "=" v))).
  { apply (EXT_ARGS_ArgFloat_accepts _ d n (String "=" v)); auto. }
  rewrite E. cbv beta iota zeta.
  assert (Dl : EXT_ARGS_Distance (set_str (Parser_init bk) (String "=" v)) bk
               = String.length (d ++ n)).
  { unfold bk. rewrite <- string_app_assoc. apply distance_app. }
  rewrite Dl.
  change (set_str (Parser_init bk) (String "=" v))
    with (Parser_init (String "=" v)).
  rewrite EXT_ARGS_Char_init. cbn [Ascii.eqb Bool.eqb]. cbv beta iota zeta.
  unfold EXT_ARGS_CurrentPos, back1. cbn [str Parser_init].
  destruct v as [|c v]; [elim N; reflexivity|].
  cbn [is_nul negb]. rewrite <- !app_assoc. reflexivity.
Qed.

Lemma lex_arg_break (s : string) (tokens : list EXT_ARGS_UTok) :
  fst (EXT_ARGS_ArgFloat (Parser_init (String "-" (String "-" s)))) = false ->
  lex_arg (String "-" (String "-" s)) tokens
  = (tokens ++ [utok_eoi], LexBreak).
Proof.
  intros F. unfold lex_arg.
  destruct (EXT_ARGS_ArgFloat_ok (Parser_init (String "-" (String "-" s))))
    as [[_ S]|[T _]]; [|congruence].
  destruct (EXT_ARGS_ArgFloat (Parser_init (String "-" (String "-" s))))
    as [b ipr].
  cbn [fst snd] in F, S. subst.
  rewrite !EXT_ARGS_Char_init. cbn [Ascii.eqb Bool.eqb].
  cbv beta iota zeta. rewrite EXT_ARGS_Char_init. reflexivity.
Qed.

Lemma reads_as_tokens (args : list string) (ufs : list EXT_ARGS_UFloatArg)
  (vals : list string) :
  reads_as args ufs vals ->
  exists ts,
    (forall tokens, lex_args args tokens = Ok (tokens ++ ts))
    /\ starts_with_eql (append_eoi ts) = false
    /\ forall fl ps,
         parse_input (append_eoi ts) fl ps = Ok (fl ++ ufs, ps ++ vals).
Proof.
  induction 1 as [|d n args ufs vals D A V R IH
                  |d n v args ufs vals D A V N R IH
                  |bk args ufs vals F NE ND R IH
                  |s post F].
  - exists []. split; [intros tokens; rewrite app_nil_r; reflexivity|].
    split; [reflexivity|]. intros fl ps. rewrite !app_nil_r. reflexivity.
  - destruct IH as (ts & L & S & P).
    set (t := mkUTok EXT_ARGS_UTOK_FLOAT (d ++ n) (String.length (d ++ n))).
    exists ([t] ++ ts).
    assert (Ap : append_eoi ([t] ++ ts) = t :: append_eoi ts).
    { apply (append_eoi_app [] ts t). discriminate. }
    split; [|split].
    + intros tokens. cbn [lex_args]. rewrite (lex_arg_flag d n tokens D A V).
      rewrite L, <- app_assoc. reflexivity.
    + rewrite Ap. reflexivity.
    + intros fl ps. rewrite Ap.
      specialize (P (fl ++ [mkUFloatArg (d ++ n) (String.length (d ++ n)) NULL])
                    ps).
      rewrite <- app_assoc in P. cbn [app] in P.
      destruct (append_eoi ts) as [|e rest].
      * cbn [parse_input] in P |- *. exact P.
      * rewrite parse_input_flag; [exact P | reflexivity |].
        cbn [starts_with_eql] in S. intros X. rewrite X in S. discriminate.
  - destruct IH as (ts & L & S & P).
    set (t := mkUTok EXT_ARGS_UTOK_FLOAT (d ++ n ++ String "=" v)
                (String.length (d ++ n))).
    set (e := mkUTok EXT_ARGS_UTOK_EQL (String "=" v) 0).
    set (x := mkUTok EXT_ARGS_UTOK_VAL v 0).
    exists ([t; e; x] ++ ts).
    assert (Ap : append_eoi ([t; e; x] ++ ts) = t :: e :: x :: append_eoi ts).
    { apply (append_eoi_app [t; e] ts x). discriminate. }
    split; [|split].
    + intros tokens. cbn [lex_args].
      rewrite (lex_arg_flag_value d n v tokens D A V N).
      rewrite L, <- app_assoc. reflexivity.
    + rewrite Ap. reflexivity.
    + intros fl ps. rewrite Ap.
      rewrite parse_input_flag_value by reflexivity.
      rewrite P, <- app_assoc. reflexivity.
  - destruct IH as (ts & L & S & P).
    set (x := mkUTok EXT_ARGS_UTOK_VAL bk 0).
    exists ([x] ++ ts).
    assert (Ap : append_eoi ([x] ++ ts) = x :: append_eoi ts).
    { apply (append_eoi_app [] ts x). discriminate. }
    split; [|split].
    + intros tokens. cbn [lex_args].
      rewrite (lex_arg_plain_value bk tokens F NE ND).
      rewrite L, <- app_assoc. reflexivity.
    + rewrite Ap. reflexivity.
    + intros fl ps. rewrite Ap.
      rewrite parse_input_value by reflexivity.
      rewrite P, <- app_assoc. reflexivity.
  - exists [utok_eoi]. split; [|split].
    + intros tokens. cbn [lex_args]. rewrite (lex_arg_break s tokens F).
      reflexivity.
    + reflexivity.
    + intros fl ps. rewrite !app_nil_r. reflexivity.
Qed.

(** A command line made of flags, flags joined to their value, plain values
    and possibly a terminator is tokenized and parsed without error, into
    its flags in order (each with its value, or none) and its plain values
    in order; what follows the terminator is not read. *)
Theorem command_line_reading (prog : string) (args : list string)
  (ufs : list EXT_ARGS_UFloatArg) (vals : list string) :
  reads_as args ufs vals ->
  exists toks,
    lex_input (prog :: args) = Ok toks
    /\ parse_input toks [] [] = Ok (ufs, vals).
Proof.
  intros R. destruct (reads_as_tokens _ _ _ R) as (ts & L & _ & P).
  exists (append_eoi ts). split.
  - unfold lex_input. cbn [tl]. rewrite (L []). reflexivity.
  - apply (P [] []).
Qed.

Lemma command_line_reading_witness :
  exists toks,
    lex_input ["prog"; "-v"; "--out=a.txt"; "in"; "-1"; "--"; "-x"] = Ok toks
    /\ parse_input toks [] []
       = Ok ([mkUFloatArg "-v" 2 NULL;
              mkUFloatArg "--out=a.txt" 5 (Str "a.txt")],
             ["in"; "-1"]).
Proof.
  apply (command_line_reading "prog"
           ["-v"; "--out=a.txt"; "in"; "-1"; "--"; "-x"]).
  apply (reads_flag "-" "v"); [discriminate | reflexivity | reflexivity |].
  apply (reads_flag_value "--" "out" "a.txt");
    [discriminate | reflexivity | reflexivity | discriminate |].
  apply reads_value;
    [reflexivity | intros s; discriminate | intros s; discriminate |].
  apply reads_value;
    [reflexivity | intros s; discriminate | intros s; discriminate |].
  apply (reads_terminator EmptyString). reflexivity.
Defined.

(** ** From a description of a schema to its model *)

Lemma skip_spaces_run (sp r : string) :
  all_chars is_space sp = true ->
  starts_with is_space r = false ->
  skip_spaces (sp ++ r) = r.
Proof.
  induction sp as [|c sp IH]; intros A S; cbn [append].
  - destruct r as [|y r]; [reflexivity|].
    cbn [starts_with] in S. cbn [skip_spaces]. rewrite S. reflexivity.
  - cbn [all_chars] in A. apply andb_true_iff in A. destruct A as [A1 A2].
    cbn [skip_spaces]. rewrite A1. apply IH; assumption.
Qed.

Lemma SkipSpaces_snd (prs : EXT_ARGS_Parser) :
  snd (EXT_ARGS_SkipSpaces prs) = set_str prs (skip_spaces (str prs)).
Proof. unfold EXT_ARGS_SkipSpaces. destruct (Nat.eqb _ 0); reflexivity. Qed.

Lemma Char_at (c c' : ascii) (prs : EXT_ARGS_Parser) (s : string) :
  EXT_ARGS_Char c (set_str prs (String c' s))
  = if Ascii.eqb c' c then (true, set_str prs s)
    else (false, set_str prs (String c' s)).
Proof. unfold EXT_ARGS_Char. simpl. destruct (Ascii.eqb c' c); reflexivity. Qed.

Lemma tok_at_eoi (sp : string) :
  all_chars is_space sp = true ->
  tok_at sp EXT_ARGS_TOK_EOI EmptyString EmptyString.
Proof.
  intros A prs E. unfold EXT_ARGS_NextTok. rewrite SkipSpaces_snd, E.
  assert (S : skip_spaces sp = EmptyString).
  { rewrite <- (string_app_nil_r sp). apply skip_spaces_run; [exact A|].
    reflexivity. }
  rewrite S. reflexivity.
Qed.

Lemma tok_at_char (sp rest : string) (c : ascii) (ty : TokType) :
  all_chars is_space sp = true ->
  (c, ty) = ("["%char, EXT_ARGS_TOK_LBRAK)
  \/ (c, ty) = ("]"%char, EXT_ARGS_TOK_RBRAK)
  \/ (c, ty) = ("|"%char, EXT_ARGS_TOK_PIPE)
  \/ (c, ty) = ("="%char, EXT_ARGS_TOK_EQL) ->
  tok_at (sp ++ String c rest) ty (String c EmptyString) rest.
Proof.
  intros A C prs E. unfold EXT_ARGS_NextTok. rewrite SkipSpaces_snd, E.
  assert (S : starts_with is_space (String c rest) = false)
    by (destruct C as [C|[C|[C|C]]]; inversion C; reflexivity).
  rewrite (skip_spaces_run sp _ A S). cbn [str set_str is_nul].
  cbv beta iota zeta. unfold EXT_ARGS_CurrentPos. cbn [str set_str].
  rewrite !Char_at.
  change (String c rest) with (String c EmptyString ++ rest)%string.
  destruct C as [C|[C|[C|C]]]; inversion C; subst; cbn [Ascii.eqb Bool.eqb];
    cbv beta iota zeta; rewrite distance_app; reflexivity.
Qed.

Lemma letter_not_special (c : ascii) :
  is_letter c = true ->
  Ascii.eqb c "[" = false /\ Ascii.eqb c "]" = false
  /\ Ascii.eqb c "|" = false /\ Ascii.eqb c "=" = false
  /\ is_space c = false.
Proof.
  intros L.
  assert (G : forall x, is_letter x = false -> Ascii.eqb c x = false).
  { intros x X. destruct (Ascii.eqb_spec c x) as [Q|Q]; [|reflexivity].
    subst. congruence. }
  repeat split; try (apply G; reflexivity).
  unfold is_space. rewrite !G by reflexivity. reflexivity.
Qed.

Lemma tok_at_name (sp n rest : string) :
  all_chars is_space sp = true ->
  valid_name n = true ->
  starts_with is_name_char rest = false ->
  tok_at (sp ++ n ++ rest) EXT_ARGS_TOK_NAME n rest.
Proof.
  intros A V N prs E. unfold EXT_ARGS_NextTok. rewrite SkipSpaces_snd, E.
  destruct n as [|c0 mid] eqn:En; [discriminate V|].
  assert (L : is_letter c0 = true).
  { simpl in V. apply andb_true_iff in V. destruct V as [V _].
    apply andb_true_iff in V. destruct V as [V _]. exact V. }
  destruct (letter_not_special c0 L) as (n1 & n2 & n3 & n4 & n5).
  rewrite (skip_spaces_run sp _ A); [|cbn [append starts_with]; exact n5].
  cbn [append str set_str is_nul]. cbv beta iota zeta.
  unfold EXT_ARGS_CurrentPos. cbn [str set_str].
  rewrite !Char_at, n1, n2, n3, n4. cbv beta iota zeta.
  rewrite (EXT_ARGS_Name_accepts (set_str prs (String c0 (mid ++ rest)))
             (String c0 mid) rest eq_refl V N).
  cbv beta iota zeta. rewrite set_str_twice.
  change (String c0 (mid ++ rest)) with (String c0 mid ++ rest)%string.
  rewrite distance_app. reflexivity.
Qed.

Lemma dashes_head (d : string) :
  d <> EmptyString -> all_chars is_dash d = true ->
  exists d', d = String "-" d'.
Proof.
  intros D A. destruct d as [|c d']; [elim D; reflexivity|].
  cbn [all_chars] in A. apply andb_true_iff in A. destruct A as [A _].
  unfold is_dash in A. apply Ascii.eqb_eq in A. subst. exists d'. reflexivity.
Qed.

Lemma tok_at_float (sp d n rest : string) :
  all_chars is_space sp = true ->
  d <> EmptyString ->
  all_chars is_dash d = true ->
  valid_name n = true ->
  starts_with is_name_char rest = false ->
  tok_at (sp ++ (d ++ n) ++ rest) EXT_ARGS_TOK_FLOAT_ARG (d ++ n) rest.
Proof.
  intros A D Ad V N prs E. unfold EXT_ARGS_NextTok. rewrite SkipSpaces_snd, E.
  destruct (dashes_head d D Ad) as (d' & Ed).
  assert (S0 : ((d ++ n) ++ rest = String "-" ((d' ++ n) ++ rest))%string)
    by (rewrite Ed; reflexivity).
  rewrite (skip_spaces_run sp _ A); [|rewrite S0; reflexivity].
  cbn [str set_str]. rewrite S0. cbn [is_nul]. cbv beta iota zeta.
  unfold EXT_ARGS_CurrentPos. cbn [str set_str].
  rewrite !Char_at. cbn [Ascii.eqb Bool.eqb].
  cbv beta iota zeta.
  assert (Nm : EXT_ARGS_Name (set_str prs (String "-" ((d' ++ n) ++ rest)))
               = (false, set_str prs (String "-" ((d' ++ n) ++ rest))))
    by reflexivity.
  rewrite Nm. cbv beta iota zeta. rewrite <- S0.
  rewrite (EXT_ARGS_ArgFloat_accepts _ d n rest); auto.
  2:{ cbn [str set_str]. apply string_app_assoc. }
  cbv beta iota zeta. rewrite set_str_twice, distance_app. reflexivity.
Qed.

Lemma tok_at_dots (sp rest : string) :
  all_chars is_space sp = true ->
  starts_with is_dot rest = false ->
  tok_at (sp ++ "..." ++ rest) EXT_ARGS_TOK_DOTS "..." rest.
Proof.
  intros A N prs E. unfold EXT_ARGS_NextTok. rewrite SkipSpaces_snd, E.
  rewrite (skip_spaces_run sp _ A) by reflexivity.
  cbn [append str set_str is_nul]. cbv beta iota zeta.
  unfold EXT_ARGS_CurrentPos. cbn [str set_str].
  rewrite !Char_at. cbn [Ascii.eqb Bool.eqb]. cbv beta iota zeta.
  set (p := set_str prs (String "." (String "." (String "." rest)))).
  assert (Nm : EXT_ARGS_Name p = (false, p)) by reflexivity.
  rewrite Nm. cbv beta iota zeta.
  rewrite (EXT_ARGS_ArgFloat_no_dash p "." (String "." (String "." rest)))
    by reflexivity.
  cbv beta iota zeta.
  rewrite (EXT_ARGS_Dots_accepts p rest eq_refl N). cbv beta iota zeta.
  unfold p. rewrite set_str_twice.
  change (String "." (String "." (String "." rest)))
    with ("..." ++ rest)%string.
  rewrite distance_app. reflexivity.
Qed.

Lemma TokType_eqb_refl (ty : TokType) : TokType_eqb ty ty = true.
Proof. destruct ty; reflexivity. Qed.

Lemma TokType_eqb_neq (a b : TokType) : a <> b -> TokType_eqb a b = false.
Proof. destruct a, b; intros N; try reflexivity; elim N; reflexivity. Qed.

Lemma Match_hit (s : string) (ty : TokType) (x rest : string)
  (prs : EXT_ARGS_Parser) (man : bool) :
  tok_at s ty x rest ->
  str prs = s ->
  EXT_ARGS_Match ty prs man
  = Ret (true,
         set_lastMatchTok (set_str prs rest)
           (mkTok ty (x ++ rest) (String.length x))).
Proof.
  intros T E. unfold EXT_ARGS_Match. rewrite (T prs E). cbn [bind].
  cbv beta iota zeta. cbn [tok_type]. rewrite TokType_eqb_refl. reflexivity.
Qed.

Lemma Match_miss (s : string) (ty ty' : TokType) (rest : string)
  (prs : EXT_ARGS_Parser) :
  type_at s ty' rest ->
  ty' <> ty ->
  str prs = s ->
  EXT_ARGS_Match ty prs false = Ret (false, prs).
Proof.
  intros (x & T) N E. unfold EXT_ARGS_Match. rewrite (T prs E). cbn [bind].
  cbv beta iota zeta. cbn [tok_type]. rewrite (TokType_eqb_neq _ _ N).
  unfold EXT_ARGS_Rollback, EXT_ARGS_CurrentPos. rewrite set_str_twice.
  rewrite set_str_same. reflexivity.
Qed.

Lemma prec_app (x rest : string) : prec (String.length x) (x ++ rest) = x.
Proof.
  unfold prec. induction x as [|c x IH]; cbn [String.length append].
  - destruct rest; reflexivity.
  - cbn [substring]. rewrite IH. reflexivity.
Qed.

Lemma valid_alias_parts (a : string * string) :
  valid_alias a = true ->
  fst a <> EmptyString /\ all_chars is_dash (fst a) = true
  /\ valid_name (snd a) = true.
Proof.
  unfold valid_alias. intros V.
  apply andb_true_iff in V. destruct V as [V V3].
  apply andb_true_iff in V. destruct V as [V1 V2].
  repeat split; auto. intros E. rewrite E in V1. discriminate.
Qed.

Lemma render_aliases_boundary (als : list (string * string)) (R : string) :
  starts_with is_name_char R = false ->
  starts_with is_name_char (render_aliases als ++ R) = false.
Proof. intros N. destruct als as [|a als]; [exact N | reflexivity]. Qed.

Lemma render_aliases_length (als : list (string * string)) (R : string) :
  List.length als <= String.length (render_aliases als ++ R).
Proof.
  induction als as [|a als IH]; cbn [render_aliases List.length]; [lia|].
  cbn [append String.length]. rewrite string_app_assoc, string_length_app. lia.
Qed.

(** The alias loop on the rendering of the aliases [als]. *)
Lemma aliases_loop (man : bool) (gi : nat) (bk : string) (fbk : nat)
  (R : string) :
  starts_with is_name_char R = false ->
  (exists ty rest, type_at R ty rest /\ ty <> EXT_ARGS_TOK_PIPE) ->
  forall (als : list (string * string)) (fuel cnt : nat)
    (prs : EXT_ARGS_Parser),
    List.length als < fuel ->
    forallb valid_alias als = true ->
    str prs = (render_aliases als ++ R)%string ->
    exists prs',
      EXT_ARGS_Arg_aliases fuel man gi bk fbk cnt prs
      = Ret (Some (cnt + List.length als), prs')
      /\ str prs' = R
      /\ posArgs prs' = posArgs prs
      /\ groups prs' = groups prs
      /\ sequence prs' = sequence prs
      /\ varPosArgsEnabled prs' = varPosArgsEnabled prs
      /\ parsingStates_isOptional prs' = parsingStates_isOptional prs
      /\ float_view prs'
         = float_view prs ++ map (fun al => (alias_text al, gi)) als.
Proof.
  intros NR (ty & rest & TR & NP).
  induction als as [|a als IH]; intros fuel cnt prs L V E;
    (destruct fuel as [|fuel]; [simpl in L; lia|]);
    cbn [EXT_ARGS_Arg_aliases].
  - cbn [render_aliases append] in E.
    rewrite (Match_miss R _ _ rest prs TR NP E). cbn [bind negb].
    cbv beta iota zeta.
    exists prs. rewrite Nat.add_0_r, app_nil_r. repeat split; auto.
  - cbn [forallb] in V. apply andb_true_iff in V. destruct V as [Va V].
    destruct (valid_alias_parts a Va) as (D & Ad & Vn).
    cbn [render_aliases] in E.
    assert (T1 : tok_at (str prs) EXT_ARGS_TOK_PIPE "|"
                   (alias_text a ++ render_aliases als ++ R)).
    { rewrite E, !string_app_assoc.
      exact (tok_at_char EmptyString
               (alias_text a ++ render_aliases als ++ R) "|"
               EXT_ARGS_TOK_PIPE eq_refl
               (or_intror (or_intror (or_introl eq_refl)))). }
    rewrite (Match_hit _ _ _ _ prs false T1 eq_refl). cbn [bind negb].
    cbv beta iota zeta.
    match goal with
    | |- context [EXT_ARGS_Match EXT_ARGS_TOK_FLOAT_ARG ?p man] =>
        set (p1 := p)
    end.
    assert (T2 : tok_at (str p1) EXT_ARGS_TOK_FLOAT_ARG (alias_text a)
                   (render_aliases als ++ R)).
    { exact (tok_at_float EmptyString (fst a) (snd a)
               (render_aliases als ++ R) eq_refl D Ad Vn
               (render_aliases_boundary als R NR)). }
    rewrite (Match_hit _ _ _ _ p1 man T2 eq_refl). cbn [bind negb].
    cbv beta iota zeta. unfold EXT_ARGS_SaveFloatArg. cbv beta iota zeta.
    match goal with
    | |- context [EXT_ARGS_Arg_aliases fuel man gi bk fbk (S cnt) ?p] =>
        set (p2 := p)
    end.
    destruct (IH fuel (S cnt) p2) as (prs' & h1 & h2 & h3 & h4 & h5 & h6 & h7 & h8).
    { simpl in L. lia. }
    { exact V. }
    { reflexivity. }
    exists prs'. rewrite h1.
    split.
    { replace (cnt + List.length (a :: als)) with (S cnt + List.length als)
        by (simpl; lia).
      reflexivity. }
    split; [exact h2|].
    split; [rewrite h3; reflexivity|].
    split; [rewrite h4; reflexivity|].
    split; [rewrite h5; reflexivity|].
    split; [rewrite h6; reflexivity|].
    split; [rewrite h7; reflexivity|].
    rewrite h8. unfold float_view, p2, p1.
    cbn [floats set_floats set_lastMatchTok set_str lastMatchTok tok_str
         tok_len].
    rewrite map_app. cbn [map fa_len fa_str fa_groupIdx].
    rewrite prec_app, <- app_assoc. reflexivity.
Qed.

Lemma type_at_of (s : string) (ty : TokType) (x rest : string) :
  tok_at s ty x rest -> type_at s ty rest.
Proof. intros T. exists x. exact T. Qed.

Lemma AssignVal_miss (ty : TokType) (rest : string) (prs : EXT_ARGS_Parser) :
  type_at (str prs) ty rest ->
  ty <> EXT_ARGS_TOK_EQL ->
  EXT_ARGS_AssignVal prs false = Ret (false, prs).
Proof.
  intros T N. unfold EXT_ARGS_AssignVal.
  rewrite (Match_miss _ _ _ rest prs T N eq_refl). reflexivity.
Qed.

Lemma AssignVal_hit (n K : string) (prs : EXT_ARGS_Parser) :
  str prs = ("=" ++ n ++ K)%string ->
  valid_name n = true ->
  starts_with is_name_char K = false ->
  exists prs',
    EXT_ARGS_AssignVal prs false = Ret (true, prs')
    /\ str prs' = K
    /\ same_model prs prs'.
Proof.
  intros E V N. unfold EXT_ARGS_AssignVal.
  assert (T1 : tok_at (str prs) EXT_ARGS_TOK_EQL "=" (n ++ K)).
  { rewrite E.
    exact (tok_at_char EmptyString (n ++ K) "=" EXT_ARGS_TOK_EQL eq_refl
             (or_intror (or_intror (or_intror eq_refl)))). }
  rewrite (Match_hit _ _ _ _ prs false T1 eq_refl). cbn [bind negb].
  cbv beta iota zeta.
  match goal with
  | |- context [EXT_ARGS_Match EXT_ARGS_TOK_NAME ?p false] => set (p1 := p)
  end.
  assert (T2 : tok_at (str p1) EXT_ARGS_TOK_NAME n K)
    by exact (tok_at_name EmptyString n K eq_refl V N).
  rewrite (Match_hit _ _ _ _ p1 false T2 eq_refl). cbn [bind negb].
  cbv beta iota zeta. eexists. split; [reflexivity|].
  split; [reflexivity|]. repeat split.
Qed.

Lemma Arg_positional (prs : EXT_ARGS_Parser) (sp n K : string) (man : bool) :
  str prs = (sp ++ n ++ K)%string ->
  all_chars is_space sp = true ->
  valid_name n = true ->
  starts_with is_name_char K = false ->
  exists prs',
    EXT_ARGS_Arg prs man = Ret (true, prs')
    /\ str prs' = K
    /\ arg_added prs prs' (Positional n).
Proof.
  intros E A V N. unfold EXT_ARGS_Arg.
  assert (T : tok_at (str prs) EXT_ARGS_TOK_NAME n K)
    by (rewrite E; exact (tok_at_name sp n K A V N)).
  rewrite (Match_hit _ _ _ _ prs false T eq_refl). cbn [bind].
  cbv beta iota zeta. eexists. split; [reflexivity|].
  split; [reflexivity|]. unfold arg_added, pos_view, float_view.
  cbn [EXT_ARGS_SavePosArg posArgs groups floats sequence varPosArgsEnabled
       set_posArgs set_sequence set_lastMatchTok set_str lastMatchTok
       parsingStates_isOptional tok_str tok_len].
  rewrite map_app. cbn [map pa_isOptional pa_len pa_str].
  rewrite prec_app. repeat split.
Qed.

Lemma render_value_boundary (v : FlagValue) (K : string) :
  starts_with is_name_char K = false ->
  starts_with is_name_char (render_value v ++ K) = false.
Proof. intros N. destruct v; [exact N | reflexivity | reflexivity]. Qed.

Lemma Arg_flag (prs : EXT_ARGS_Parser) (sp K : string) (man : bool)
  (al : string * string) (als : list (string * string)) (v : FlagValue) :
  str prs = (sp ++ render_arg (Flag al als v) ++ K)%string ->
  all_chars is_space sp = true ->
  valid_arg (Flag al als v) = true ->
  starts_with is_name_char K = false ->
  starts_with is_dot K = false ->
  after_flag K ->
  (wants_dots (Flag al als v) = true -> no_dots K) ->
  exists prs',
    EXT_ARGS_Arg prs man = Ret (true, prs')
    /\ str prs' = K
    /\ arg_added prs prs' (Flag al als v).
Proof.
  intros E A V NK DK (ty & rest & TK & NP & NE & LB) ND.
  cbn [valid_arg] in V.
  apply andb_true_iff in V. destruct V as [V Vv].
  apply andb_true_iff in V. destruct V as [Va Vs].
  destruct (valid_alias_parts al Va) as (D & Ad & Vn).
  set (R := (render_value v ++ K)%string).
  set (R1 := (render_aliases als ++ R)%string).
  assert (E1 : str prs = (sp ++ (fst al ++ snd al) ++ R1)%string).
  { rewrite E. unfold R1, R. cbn [render_arg]. unfold alias_text.
    rewrite !string_app_assoc. reflexivity. }
  assert (NR : starts_with is_name_char R = false)
    by (apply render_value_boundary; exact NK).
  assert (T0 : tok_at (str prs) EXT_ARGS_TOK_FLOAT_ARG (alias_text al) R1).
  { rewrite E1.
    exact (tok_at_float sp (fst al) (snd al) R1 A D Ad Vn
             (render_aliases_boundary als R NR)). }
  unfold EXT_ARGS_Arg.
  rewrite (Match_miss (str prs) EXT_ARGS_TOK_NAME EXT_ARGS_TOK_FLOAT_ARG R1
             prs (type_at_of _ _ _ _ T0) ltac:(discriminate) eq_refl).
  cbn [bind]. cbv beta iota zeta.
  rewrite (Match_hit _ _ _ _ prs man T0 eq_refl). cbn [bind negb].
  cbv beta iota zeta. unfold EXT_ARGS_SaveFloatArg. cbv beta iota zeta.
  unfold EXT_ARGS_CurrentPos.
  match goal with
  | |- context [EXT_ARGS_Arg_aliases _ man ?gi ?bk ?fbk 1 ?p] =>
      set (gi0 := gi);
      assert (Egi : gi0 = List.length (groups prs)) by reflexivity;
      clearbody gi0
  end.
  match goal with
  | |- context [EXT_ARGS_Arg_aliases _ man gi0 ?bk ?fbk 1 ?p] =>
      set (p2 := p)
  end.
  assert (PR : exists ty1 rest1,
             type_at R ty1 rest1 /\ ty1 <> EXT_ARGS_TOK_PIPE).
  { unfold R. destruct v as [|n rep|n].
    - exists ty, rest. split; [exact TK | exact NP].
    - exists EXT_ARGS_TOK_EQL. eexists. split; [|discriminate].
      eexists.
      exact (tok_at_char EmptyString _ "=" EXT_ARGS_TOK_EQL eq_refl
               (or_intror (or_intror (or_intror eq_refl)))).
    - exists EXT_ARGS_TOK_LBRAK. eexists. split; [|discriminate].
      eexists.
      exact (tok_at_char EmptyString _ "[" EXT_ARGS_TOK_LBRAK eq_refl
               (or_introl eq_refl)). }
  destruct (aliases_loop man gi0 (str p2) (List.length (floats prs)) R NR PR
              als (S (String.length (str p2))) 1 p2)
    as (p3 & h1 & h2 & h3 & h4 & h5 & h6 & h7 & h8).
  { unfold p2. cbn [str set_floats set_lastMatchTok set_str].
    pose proof (render_aliases_length als R). unfold R1. lia. }
  { exact Vs. }
  { reflexivity. }
  change (List.length (floats (set_lastMatchTok (set_str prs R1)
            (mkTok EXT_ARGS_TOK_FLOAT_ARG (alias_text al ++ R1)
               (String.length (alias_text al))))))
    with (List.length (floats prs)).
  rewrite h1. cbn [bind]. cbv beta iota zeta.
  assert (F3 : float_view p3
               = float_view prs
                 ++ map (fun x => (alias_text x, gi0)) (al :: als)).
  { rewrite h8. unfold float_view, p2.
    cbn [floats set_floats set_lastMatchTok set_str lastMatchTok tok_str
         tok_len].
    rewrite map_app. cbn [map fa_len fa_str fa_groupIdx].
    rewrite prec_app, <- app_assoc. reflexivity. }
  assert (G3 : groups p3 = groups prs) by (rewrite h4; reflexivity).
  assert (P3 : posArgs p3 = posArgs prs) by (rewrite h3; reflexivity).
  assert (S3 : sequence p3 = sequence prs) by (rewrite h5; reflexivity).
  assert (V3 : varPosArgsEnabled p3 = varPosArgsEnabled prs)
    by (rewrite h6; reflexivity).
  assert (O3 : parsingStates_isOptional p3 = parsingStates_isOptional prs)
    by (rewrite h7; reflexivity).
  clear h1 h3 h4 h5 h6 h7 h8. clearbody p2.
  assert (FIN : forall q g,
             str q = K ->
             posArgs q = posArgs p3 ->
             floats q = floats p3 ->
             varPosArgsEnabled q = varPosArgsEnabled p3 ->
             groups q = groups p3 ++ [g] ->
             sequence q
             = sequence p3
               ++ [mkSeq EXT_ARGS_ARG_GROUP (List.length (groups p3))] ->
             g = value_group (parsingStates_isOptional prs)
                   (S (List.length als)) v ->
             str q = K /\ arg_added prs q (Flag al als v)).
  { intros q g q1 q2 q3 q4 q5 q6 q7. split; [exact q1|].
    unfold arg_added. rewrite q4, V3. split; [reflexivity|].
    unfold pos_view. rewrite q2, P3. split; [reflexivity|].
    rewrite q5, G3, q7. split; [reflexivity|].
    unfold float_view in *. rewrite q3, F3, Egi. split; [reflexivity|].
    rewrite q6, S3, G3. reflexivity. }
  destruct v as [|n rep|n].
  - (* no value *)
    assert (E3 : str p3 = K) by exact h2.
    rewrite (AssignVal_miss ty rest p3); [|rewrite E3; exact TK | exact NE].
    cbn [bind]. cbv beta iota zeta.
    set (p4 := EXT_ARGS_SaveGroup p3 false false (1 + List.length als)).
    assert (E4 : str p4 = K) by exact E3.
    destruct (TokType_eqb ty EXT_ARGS_TOK_LBRAK) eqn:Q.
    + assert (ty = EXT_ARGS_TOK_LBRAK) by (destruct ty; try discriminate; reflexivity).
      subst ty. destruct (LB eq_refl) as (ty2 & rest2 & T2 & N2).
      destruct TK as (x & TK).
      rewrite (Match_hit K _ _ _ p4 false TK E4). cbn [bind negb].
      cbv beta iota zeta.
      match goal with
      | |- context [EXT_ARGS_AssignVal ?p false] => set (p5 := p)
      end.
      rewrite (AssignVal_miss ty2 rest2 p5 T2 N2). cbn [bind negb].
      cbv beta iota zeta. eexists. split; [reflexivity|].
      apply (FIN _ (mkGroup (parsingStates_isOptional p3) false false false
                      (1 + List.length als) None false None));
        try reflexivity.
      * unfold EXT_ARGS_Rollback. cbn [str set_str]. exact E4.
      * rewrite O3. reflexivity.
    + assert (NT : ty <> EXT_ARGS_TOK_LBRAK)
        by (intros X; subst; discriminate).
      rewrite (Match_miss K _ _ rest p4 TK NT E4). cbn [bind negb].
      cbv beta iota zeta. eexists. split; [reflexivity|].
      apply (FIN _ (mkGroup (parsingStates_isOptional p3) false false false
                      (1 + List.length als) None false None));
        try reflexivity.
      * unfold EXT_ARGS_Rollback. cbn [str set_str]. exact E4.
      * rewrite O3. reflexivity.
  - (* =name, possibly repeated *)
    cbn [valid_value] in Vv.
    assert (E3 : str p3
                 = ("=" ++ n ++ (if rep then "..." else EmptyString) ++ K)%string).
    { rewrite h2. unfold R. cbn [render_value].
      rewrite !string_app_assoc. reflexivity. }
    destruct (AssignVal_hit n _ p3 E3 Vv) as (p4 & a1 & a2 & a3).
    { destruct rep; [reflexivity | exact NK]. }
    rewrite a1. cbn [bind]. cbv beta iota zeta.
    destruct a3 as (m1 & m2 & m3 & m4 & m5 & m6 & m7).
    destruct rep.
    + assert (T5 : tok_at (str p4) EXT_ARGS_TOK_DOTS "..." K).
      { rewrite a2. exact (tok_at_dots EmptyString K eq_refl DK). }
      rewrite (Match_hit _ _ _ _ p4 false T5 eq_refl). cbn [bind].
      cbv beta iota zeta. eexists. split; [reflexivity|].
      apply (FIN _ (mkGroup (parsingStates_isOptional p4) true false true
                      (1 + List.length als) None false None)).
      * reflexivity.
      * cbn. exact m1.
      * cbn. exact m3.
      * cbn. exact m5.
      * cbn. rewrite m2. reflexivity.
      * cbn. rewrite m4, m2. reflexivity.
      * rewrite m7, O3. reflexivity.
    + destruct (ND eq_refl) as (ty5 & rest5 & T5 & N5).
      rewrite (Match_miss K _ _ rest5 p4 T5 N5 a2). cbn [bind].
      cbv beta iota zeta. eexists. split; [reflexivity|].
      apply (FIN _ (mkGroup (parsingStates_isOptional p4) true false false
                      (1 + List.length als) None false None)).
      * exact a2.
      * cbn. exact m1.
      * cbn. exact m3.
      * cbn. exact m5.
      * cbn. rewrite m2. reflexivity.
      * cbn. rewrite m4, m2. reflexivity.
      * rewrite m7, O3. reflexivity.
  - (* [=name] *)
    cbn [valid_value] in Vv.
    assert (E3 : str p3 = ("[" ++ "=" ++ n ++ "]" ++ K)%string).
    { rewrite h2. unfold R. cbn [render_value].
      rewrite !string_app_assoc. reflexivity. }
    assert (T3 : tok_at (str p3) EXT_ARGS_TOK_LBRAK "["
                   ("=" ++ n ++ "]" ++ K)).
    { rewrite E3.
      exact (tok_at_char EmptyString _ "[" EXT_ARGS_TOK_LBRAK eq_refl
               (or_introl eq_refl)). }
    rewrite (AssignVal_miss EXT_ARGS_TOK_LBRAK _ p3 (type_at_of _ _ _ _ T3));
      [|discriminate].
    cbn [bind]. cbv beta iota zeta.
    set (p4 := EXT_ARGS_SaveGroup p3 false false (1 + List.length als)).
    rewrite (Match_hit (str p3) _ _ _ p4 false T3 eq_refl).
    cbn [bind negb]. cbv beta iota zeta.
    match goal with
    | |- context [EXT_ARGS_AssignVal ?p false] => set (p5 := p)
    end.
    destruct (AssignVal_hit n ("]" ++ K) p5 eq_refl Vv eq_refl)
      as (p6 & a1 & a2 & a3).
    rewrite a1. cbn [bind negb]. cbv beta iota zeta.
    destruct a3 as (m1 & m2 & m3 & m4 & m5 & m6 & m7).
    assert (T6 : tok_at (str p6) EXT_ARGS_TOK_RBRAK "]" K).
    { rewrite a2.
      exact (tok_at_char EmptyString K "]" EXT_ARGS_TOK_RBRAK eq_refl
               (or_intror (or_introl eq_refl))). }
    rewrite (Match_hit _ _ _ _ p6 false T6 eq_refl). cbn [bind negb].
    cbv beta iota zeta. eexists. split; [reflexivity|].
    apply (FIN _ (set_assign_optional
                    (mkGroup (parsingStates_isOptional p3) false false false
                       (1 + List.length als) None false None))).
    * reflexivity.
    * cbn. exact m1.
    * cbn. exact m3.
    * cbn. exact m5.
    * cbn [groups set_groups set_lastMatchTok set_str].
      rewrite m2. unfold p5, p4, EXT_ARGS_SaveGroup.
      cbn [groups set_groups set_sequence set_lastMatchTok set_str].
      rewrite Egi, <- G3. apply list_update_app_last.
    * cbn. rewrite m4. reflexivity.
    * rewrite O3. reflexivity.
Qed.

Lemma Arg_desc (prs : EXT_ARGS_Parser) (sp K : string) (man : bool)
  (a : ArgDesc) :
  str prs = (sp ++ render_arg a ++ K)%string ->
  all_chars is_space sp = true ->
  valid_arg a = true ->
  starts_with is_name_char K = false ->
  starts_with is_dot K = false ->
  after_flag K ->
  (wants_dots a = true -> no_dots K) ->
  exists prs',
    EXT_ARGS_Arg prs man = Ret (true, prs')
    /\ str prs' = K
    /\ arg_added prs prs' a.
Proof.
  destruct a as [n|al als v]; intros E A V NK DK AF ND.
  - exact (Arg_positional prs sp n K man E A V NK).
  - exact (Arg_flag prs sp K man al als v E A V NK DK AF ND).
Qed.

(** The first token of an argument is a name or a flag. *)
Lemma arg_first_token (sp K : string) (a : ArgDesc) :
  all_chars is_space sp = true ->
  valid_arg a = true ->
  starts_with is_name_char K = false ->
  exists ty rest,
    type_at (sp ++ render_arg a ++ K) ty rest
    /\ (ty = EXT_ARGS_TOK_NAME \/ ty = EXT_ARGS_TOK_FLOAT_ARG).
Proof.
  intros A V NK. destruct a as [n|al als v]; cbn [render_arg valid_arg] in *.
  - exists EXT_ARGS_TOK_NAME, K. split; [|left; reflexivity].
    exists n. exact (tok_at_name sp n K A V NK).
  - apply andb_true_iff in V. destruct V as [V Vv].
    apply andb_true_iff in V. destruct V as [Va Vs].
    destruct (valid_alias_parts al Va) as (D & Ad & Vn).
    exists EXT_ARGS_TOK_FLOAT_ARG,
      (render_aliases als ++ render_value v ++ K)%string.
    split; [|right; reflexivity].
    exists (alias_text al). unfold alias_text.
    rewrite !string_app_assoc.
    rewrite <- (string_app_assoc (fst al) (snd al)).
    apply (tok_at_float sp (fst al) (snd al) _ A D Ad Vn).
    apply render_aliases_boundary, render_value_boundary. exact NK.
Qed.

Lemma Arg_miss (ty : TokType) (rest : string) (prs : EXT_ARGS_Parser) :
  type_at (str prs) ty rest ->
  ty <> EXT_ARGS_TOK_NAME ->
  ty <> EXT_ARGS_TOK_FLOAT_ARG ->
  EXT_ARGS_Arg prs false = Ret (false, prs).
Proof.
  intros T N1 N2. unfold EXT_ARGS_Arg.
  rewrite (Match_miss _ _ _ rest prs T N1 eq_refl). cbn [bind].
  cbv beta iota zeta.
  rewrite (Match_miss _ _ _ rest prs T N2 eq_refl). reflexivity.
Qed.

Lemma arg_added_same (p p' q q' : EXT_ARGS_Parser) (a : ArgDesc) :
  same_model p p' -> same_model q q' ->
  arg_added p q a -> arg_added p' q' a.
Proof.
  intros (a1 & a2 & a3 & a4 & a5 & a6 & a7) (b1 & b2 & b3 & b4 & b5 & b6 & b7).
  unfold arg_added, pos_view, float_view.
  rewrite a1, a2, a3, a4, a5, a7, b1, b2, b3, b4, b5. tauto.
Qed.

(** One declaration, followed by the text [K]. *)
Lemma Decl_desc (prs : EXT_ARGS_Parser) (sp K : string) (d : DeclDesc) :
  str prs = (sp ++ render_decl d ++ K)%string ->
  all_chars is_space sp = true ->
  valid_arg (dd_arg d) = true ->
  starts_with is_name_char K = false ->
  starts_with is_dot K = false ->
  after_flag K ->
  (dd_optional d = false -> wants_dots (dd_arg d) = true -> no_dots K) ->
  exists prs',
    EXT_ARGS_Decl prs false = Ret (true, prs')
    /\ str prs' = K
    /\ arg_added (set_isOptional prs (dd_optional d)) prs' (dd_arg d).
Proof.
  intros E A V NK DK AF ND. unfold EXT_ARGS_Decl, render_decl in *.
  cbv zeta. destruct (dd_optional d) eqn:O.
  - (* in brackets *)
    set (K1 := ("]" ++ K)%string).
    set (p0 := set_isOptional prs false).
    assert (T0 : tok_at (str p0) EXT_ARGS_TOK_LBRAK "["
                   (render_arg (dd_arg d) ++ K1)).
    { unfold p0. cbn [str set_isOptional]. rewrite E.
      unfold K1. rewrite !string_app_assoc.
      exact (tok_at_char sp _ "[" EXT_ARGS_TOK_LBRAK A (or_introl eq_refl)). }
    rewrite (Arg_miss EXT_ARGS_TOK_LBRAK _ p0 (type_at_of _ _ _ _ T0));
      [|discriminate|discriminate].
    cbn [bind]. cbv beta iota zeta. unfold EXT_ARGS_CurrentPos.
    rewrite (Match_hit _ _ _ _ p0 false T0 eq_refl). cbn [bind negb].
    cbv beta iota zeta.
    match goal with
    | |- context [EXT_ARGS_Arg ?p false] => set (p2 := p)
    end.
    assert (TR : type_at K1 EXT_ARGS_TOK_RBRAK K).
    { exists "]".
      exact (tok_at_char EmptyString K "]" EXT_ARGS_TOK_RBRAK eq_refl
               (or_intror (or_introl eq_refl))). }
    destruct (Arg_desc p2 EmptyString K1 false (dd_arg d) eq_refl eq_refl V
                eq_refl eq_refl)
      as (p3 & a1 & a2 & a3).
    { exists EXT_ARGS_TOK_RBRAK, K. split; [exact TR|].
      split; [discriminate|]. split; [discriminate|]. discriminate. }
    { intros _. exists EXT_ARGS_TOK_RBRAK, K. split; [exact TR|discriminate]. }
    rewrite a1. cbn [bind negb]. cbv beta iota zeta.
    destruct TR as (x & TR).
    rewrite (Match_hit K1 _ _ _ p3 false TR a2). cbn [bind negb].
    cbv beta iota zeta. eexists. split; [reflexivity|].
    split; [reflexivity|].
    apply (arg_added_same p2 _ p3 _ (dd_arg d)); [| |exact a3];
      repeat split.
  - (* bare *)
    set (p0 := set_isOptional prs false).
    destruct (Arg_desc p0 sp K false (dd_arg d) E A V NK DK AF (ND eq_refl))
      as (p1 & a1 & a2 & a3).
    rewrite a1. cbn [bind]. cbv beta iota zeta.
    exists p1. split; [reflexivity|]. split; [exact a2 | exact a3].
Qed.

Lemma Decl_miss (ty : TokType) (rest : string) (prs : EXT_ARGS_Parser) :
  type_at (str prs) ty rest ->
  ty <> EXT_ARGS_TOK_NAME ->
  ty <> EXT_ARGS_TOK_FLOAT_ARG ->
  ty <> EXT_ARGS_TOK_LBRAK ->
  EXT_ARGS_Decl prs false = Ret (false, set_isOptional prs false).
Proof.
  intros T N1 N2 N3. unfold EXT_ARGS_Decl. cbv zeta.
  rewrite (Arg_miss ty rest (set_isOptional prs false) T N1 N2).
  cbn [bind]. cbv beta iota zeta.
  rewrite (Match_miss _ _ _ rest (set_isOptional prs false) T N3 eq_refl).
  reflexivity.
Qed.

(** What follows a declaration in the rendering of a schema. *)
Lemma after_decls (ds : list DeclDesc) (trail : bool) :
  forallb (fun d => valid_arg (dd_arg d)) ds = true ->
  after_flag (" " ++ render_decls ds ++ render_trail trail)
  /\ (ds <> [] \/ trail = false ->
      no_dots (" " ++ render_decls ds ++ render_trail trail)).
Proof.
  intros V. destruct ds as [|[opt a] ds].
  - cbn [render_decls]. destruct trail; cbn [render_trail].
    + split.
      * exists EXT_ARGS_TOK_DOTS, EmptyString.
        split; [exists "..."; exact (tok_at_dots " " EmptyString eq_refl eq_refl)|].
        split; [discriminate|]. split; discriminate.
      * intros [X|X]; [elim X; reflexivity | discriminate].
    + assert (T : type_at " " EXT_ARGS_TOK_EOI EmptyString)
        by (exists EmptyString; exact (tok_at_eoi " " eq_refl)).
      split.
      * exists EXT_ARGS_TOK_EOI, EmptyString. split; [exact T|].
        split; [discriminate|]. split; discriminate.
      * intros _. exists EXT_ARGS_TOK_EOI, EmptyString.
        split; [exact T | discriminate].
  - cbn [forallb dd_arg] in V. apply andb_true_iff in V. destruct V as [Va _].
    cbn [render_decls]. unfold render_decl. cbn [dd_optional dd_arg].
    set (K := (" " ++ render_decls ds ++ render_trail trail)%string).
    destruct opt.
    + match goal with
      | |- after_flag ?t /\ _ =>
          assert (E : t = (" " ++ String "[" (render_arg a ++ "]" ++ K))%string)
      end.
      { unfold K. cbn [append]. rewrite !string_app_assoc. reflexivity. }
      rewrite E.
      assert (T : type_at (" " ++ String "[" (render_arg a ++ "]" ++ K))
                    EXT_ARGS_TOK_LBRAK (render_arg a ++ "]" ++ K)).
      { exists "[".
        exact (tok_at_char " " _ "[" EXT_ARGS_TOK_LBRAK eq_refl
                 (or_introl eq_refl)). }
      destruct (arg_first_token EmptyString ("]" ++ K) a eq_refl Va eq_refl)
        as (ty2 & rest2 & T2 & Q2).
      split.
      * exists EXT_ARGS_TOK_LBRAK. eexists. split; [exact T|].
        split; [discriminate|]. split; [discriminate|]. intros _.
        exists ty2, rest2. split; [exact T2|].
        destruct Q2; subst; discriminate.
      * intros _. exists EXT_ARGS_TOK_LBRAK. eexists.
        split; [exact T | discriminate].
    + match goal with
      | |- after_flag ?t /\ _ =>
          assert (E : t = (" " ++ render_arg a ++ K)%string)
      end.
      { unfold K. rewrite !string_app_assoc. reflexivity. }
      rewrite E.
      destruct (arg_first_token " " K a eq_refl Va eq_refl)
        as (ty & rest & T & Q).
      split.
      * exists ty, rest. split; [exact T|].
        destruct Q; subst; (split; [discriminate|]); split; discriminate.
      * intros _. exists ty, rest. split; [exact T|].
        destruct Q; subst; discriminate.
Qed.

Lemma pos_view_length (prs : EXT_ARGS_Parser) :
  List.length (pos_view prs) = List.length (posArgs prs).
Proof. apply length_map. Qed.

Lemma render_decls_length (ds : list DeclDesc) (T : string) :
  List.length ds <= String.length (render_decls ds ++ T).
Proof.
  induction ds as [|d ds IH]; cbn [render_decls List.length]; [lia|].
  rewrite !string_app_assoc, string_length_app. cbn [append String.length].
  lia.
Qed.

(** The loop over the declarations of a rendered schema. *)
Lemma decls_loop (trail : bool) (ds : list DeclDesc) :
  forall (fuel : nat) (prs : EXT_ARGS_Parser) (sp : string),
    List.length ds < fuel ->
    all_chars is_space sp = true ->
    str prs = (sp ++ render_decls ds ++ render_trail trail)%string ->
    forallb (fun d => valid_arg (dd_arg d)) ds = true ->
    dots_safe ds trail = true ->
    exists prs' sp',
      EXT_ARGS_Synopsis_decls fuel prs = Ret prs'
      /\ str prs' = (sp' ++ render_trail trail)%string
      /\ all_chars is_space sp' = true
      /\ pos_view prs' = pos_view prs ++ desc_pos ds
      /\ groups prs' = groups prs ++ desc_groups ds
      /\ float_view prs'
         = float_view prs ++ desc_floats (List.length (groups prs)) ds
      /\ sequence prs'
         = sequence prs
           ++ desc_seq (List.length (posArgs prs)) (List.length (groups prs)) ds
      /\ varPosArgsEnabled prs' = varPosArgsEnabled prs.
Proof.
  induction ds as [|d ds IH]; intros fuel prs sp L A E V S;
    (destruct fuel as [|fuel]; [simpl in L; lia|]);
    cbn [EXT_ARGS_Synopsis_decls].
  - cbn [render_decls append] in E.
    assert (T : exists ty rest,
               type_at (str prs) ty rest
               /\ ty <> EXT_ARGS_TOK_NAME /\ ty <> EXT_ARGS_TOK_FLOAT_ARG
               /\ ty <> EXT_ARGS_TOK_LBRAK).
    { rewrite E. destruct trail; cbn [render_trail].
      - exists EXT_ARGS_TOK_DOTS, EmptyString.
        split; [exists "..."; exact (tok_at_dots sp EmptyString A eq_refl)|].
        repeat split; discriminate.
      - exists EXT_ARGS_TOK_EOI, EmptyString. rewrite string_app_nil_r.
        split; [exists EmptyString; exact (tok_at_eoi sp A)|].
        repeat split; discriminate. }
    destruct T as (ty & rest & T & N1 & N2 & N3).
    rewrite (Decl_miss ty rest prs T N1 N2 N3). cbn [bind].
    cbv beta iota zeta.
    exists (set_isOptional prs false), sp.
    split; [reflexivity|]. split; [exact E|]. split; [exact A|].
    cbn [desc_pos desc_groups desc_floats desc_seq].
    rewrite !app_nil_r. repeat split.
  - cbn [forallb] in V. apply andb_true_iff in V. destruct V as [Va V].
    set (K := (" " ++ render_decls ds ++ render_trail trail)%string).
    assert (E1 : str prs = (sp ++ render_decl d ++ K)%string).
    { rewrite E. unfold K. cbn [render_decls].
      rewrite !string_app_assoc. reflexivity. }
    destruct (after_decls ds trail V) as [AF ND].
    assert (S1 : dots_safe ds trail = true).
    { cbn [dots_safe] in S. destruct ds; [reflexivity | exact S]. }
    destruct (Decl_desc prs sp K d E1 A Va eq_refl eq_refl AF)
      as (p1 & d1 & d2 & d3).
    { intros O W. apply ND. destruct ds as [|d' ds']; [|left; discriminate].
      right. cbn [dots_safe] in S. rewrite O, W in S.
      destruct trail; [discriminate S | reflexivity]. }
    rewrite d1. cbn [bind]. cbv beta iota zeta.
    destruct (IH fuel p1 " ") as (p2 & sp' & i1 & i2 & i3 & i4 & i5 & i6 & i7 & i8);
      [simpl in L; lia | reflexivity | exact d2 | exact V | exact S1 |].
    exists p2, sp'. split; [exact i1|]. split; [exact i2|].
    split; [exact i3|].
    destruct d as [opt a]. cbn [dd_optional dd_arg] in d3.
    destruct d3 as (v1 & d3).
    assert (LP : List.length (posArgs p1) = List.length (pos_view p1))
      by (symmetry; apply pos_view_length).
    rewrite i4, i5, i6, i7, i8, v1, LP.
    destruct a as [n|al als fv]; cbn [desc_pos desc_groups desc_floats
                                     desc_seq dd_optional dd_arg];
      destruct d3 as (q1 & q2 & q3 & q4);
      cbn [set_isOptional parsingStates_isOptional posArgs groups] in q1, q2, q3, q4;
      rewrite q1, q2, q3, q4.
    + unfold pos_view at 2. cbn [set_isOptional posArgs].
      fold (pos_view prs).
      rewrite length_app, pos_view_length. cbn [List.length].
      rewrite Nat.add_1_r, <- !app_assoc. repeat split.
    + unfold pos_view at 2. cbn [set_isOptional posArgs].
      fold (pos_view prs).
      unfold float_view at 1. cbn [set_isOptional floats].
      fold (float_view prs).
      rewrite length_app, pos_view_length. cbn [List.length].
      rewrite Nat.add_1_r, <- !app_assoc. repeat split.
Qed.

(** The schema parser accepts the rendering of every valid description of
    a schema, and builds the model that the description names: the
    positional arguments with their optional marks, one group for each flag
    with its marks and the number of its aliases, the aliases filed under
    their groups, the declarations in order, and the trailing arguments. *)
Theorem schema_round_trip (ds : list DeclDesc) (trail : bool) :
  valid_schema ds trail = true ->
  exists prs,
    EXT_ARGS_Synopsis (Parser_init (render_schema ds trail)) = Ret prs
    /\ pos_view prs = desc_pos ds
    /\ groups prs = desc_groups ds
    /\ float_view prs = desc_floats 0 ds
    /\ sequence prs = desc_seq 0 0 ds
    /\ varPosArgsEnabled prs = trail.
Proof.
  intros V. unfold valid_schema in V. apply andb_true_iff in V.
  destruct V as [V S]. unfold EXT_ARGS_Synopsis.
  destruct (decls_loop trail ds
              (Datatypes.S (String.length (str (Parser_init (render_schema ds trail)))))
              (Parser_init (render_schema ds trail)) EmptyString)
    as (p1 & sp & l1 & l2 & l3 & l4 & l5 & l6 & l7 & l8);
    [|reflexivity|reflexivity|exact V|exact S|].
  { cbn [str Parser_init]. unfold render_schema.
    pose proof (render_decls_length ds (render_trail trail)). lia. }
  rewrite l1. cbn [bind].
  cbn [pos_view float_view Parser_init posArgs groups floats sequence
       varPosArgsEnabled List.length map app] in l4, l5, l6, l7, l8.
  destruct trail; cbn [render_trail] in l2.
  - assert (T : tok_at (str p1) EXT_ARGS_TOK_DOTS "..." EmptyString)
      by (rewrite l2; exact (tok_at_dots sp EmptyString l3 eq_refl)).
    rewrite (Match_hit _ _ _ _ p1 false T eq_refl). cbn [bind].
    cbv beta iota zeta.
    match goal with
    | |- context [EXT_ARGS_Match EXT_ARGS_TOK_EOI ?p true] => set (p2 := p)
    end.
    assert (T2 : tok_at (str p2) EXT_ARGS_TOK_EOI EmptyString EmptyString)
      by exact (tok_at_eoi EmptyString eq_refl).
    rewrite (Match_hit _ _ _ _ p2 true T2 eq_refl). cbn [bind].
    cbv beta iota zeta. eexists. split; [reflexivity|].
    repeat split; assumption.
  - rewrite string_app_nil_r in l2.
    assert (T : tok_at (str p1) EXT_ARGS_TOK_EOI EmptyString EmptyString)
      by (rewrite l2; exact (tok_at_eoi sp l3)).
    rewrite (Match_miss _ EXT_ARGS_TOK_DOTS _ _ p1 (type_at_of _ _ _ _ T)
               ltac:(discriminate) eq_refl).
    cbn [bind]. cbv beta iota zeta.
    rewrite (Match_hit _ _ _ _ p1 true T eq_refl). cbn [bind].
    cbv beta iota zeta. eexists. split; [reflexivity|].
    repeat split; assumption.
Qed.

Lemma schema_round_trip_witness :
  exists prs,
    EXT_ARGS_Synopsis (Parser_init "-v|--verbose x [-o=file] [y] ...") = Ret prs
    /\ pos_view prs = [(false, "x"); (true, "y")]
    /\ groups prs
       = [mkGroup false false false false 2 None false None;
          mkGroup true true false false 1 None false None]
    /\ float_view prs = [("-v", 0); ("--verbose", 0); ("-o", 1)]
    /\ sequence prs
       = [mkSeq EXT_ARGS_ARG_GROUP 0; mkSeq EXT_ARGS_ARG_POS 0;
          mkSeq EXT_ARGS_ARG_GROUP 1; mkSeq EXT_ARGS_ARG_POS 1]
    /\ varPosArgsEnabled prs = true.
Proof.
  exact (schema_round_trip
           [mkDecl false (Flag ("-", "v") [("--", "verbose")] NoValue);
            mkDecl false (Positional "x");
            mkDecl true (Flag ("-", "o") [] (Value "file" false));
            mkDecl true (Positional "y")]
           true eq_refl).
Defined.

(** Without the condition on the last declaration the ellipsis goes to the
    flag: in this schema it makes the flag repeatable, and no trailing
    arguments are enabled. *)
Example ellipsis_after_value :
  exists prs,
    EXT_ARGS_Synopsis (Parser_init "-D=val ...") = Ret prs
    /\ map isRepeating (groups prs) = [true]
    /\ varPosArgsEnabled prs = false.
Proof.
  eexists. split; [vm_compute; reflexivity|]. split; reflexivity.
Qed.

(** ** How a flag of the input is matched with an alias *)




(** ** What the call leaves alone *)

Lemma In_list_update {A : Type} (f : A -> A) (l : list A) (i : nat) (y : A) :
  In y (list_update i f l) -> In y l \/ exists x, In x l /\ y = f x.
Proof.
  intros I. apply In_nth_error in I. destruct I as (j & N).
  rewrite nth_error_list_update in N.
  destruct (Nat.eqb i j).
  - destruct (nth_error l j) as [x|] eqn:E; [|discriminate].
    simpl in N. inversion N. right. exists x.
    split; [eapply nth_error_In; exact E | reflexivity].
  - left. eapply nth_error_In. exact N.
Qed.

Lemma group_at_pointer (prs : EXT_ARGS_Parser) (i : nat) (a : addr) :
  (forall g, In g (groups prs) -> varPtr g <> Some a) ->
  varPtr (group_at prs i) <> Some a.
Proof.
  intros U. unfold group_at.
  destruct (Nat.lt_ge_cases i (List.length (groups prs))) as [L|L].
  - apply U. apply nth_In. exact L.
  - rewrite nth_overflow by exact L. discriminate.
Qed.

Lemma fill_float_other (uf : EXT_ARGS_UFloatArg) (prs : EXT_ARGS_Parser)
  (m : store) (a : addr) :
  (forall g, In g (groups prs) -> varPtr g <> Some a) ->
  snd (fill_float uf (prs, m)) a = m a
  /\ forall g, In g (groups (fst (fill_float uf (prs, m)))) ->
               varPtr g <> Some a.
Proof.
  intros U. unfold fill_float.
  destruct (find (float_matches uf) (floats prs)) as [f|];
    [|split; [reflexivity | exact U]].
  cbv zeta. pose proof (group_at_pointer prs (fa_groupIdx f) a U) as Q.
  destruct (isRepeating _).
  - cbn [fst snd groups set_groups].
    split; [apply write_if_other; exact Q|].
    intros g I. apply In_list_update in I.
    destruct I as [I|(x & I & E)]; [exact (U g I)|].
    subst g. exact (U x I).
  - destruct (hasAssign _).
    + destruct (negb _); cbn [fst snd];
        (split; [apply write_if_other; exact Q | exact U]).
    + cbn [fst snd]. split; [apply write_if_other; exact Q | exact U].
Qed.

Lemma fill_floats_other (a : addr) (ufs : list EXT_ARGS_UFloatArg) :
  forall (prs : EXT_ARGS_Parser) (m : store),
    (forall g, In g (groups prs) -> varPtr g <> Some a) ->
    snd (fill_floats ufs (prs, m)) a = m a
    /\ forall g, In g (groups (fst (fill_floats ufs (prs, m)))) ->
                 varPtr g <> Some a.
Proof.
  unfold fill_floats.
  induction ufs as [|uf ufs IH]; intros prs m U; cbn [fold_left];
    [split; [reflexivity | exact U]|].
  destruct (fill_float_other uf prs m a U) as [S1 U1].
  destruct (fill_float uf (prs, m)) as [p1 m1]. cbn [fst snd] in S1, U1.
  destruct (IH p1 m1 U1) as [S2 U2]. split; [congruence | exact U2].
Qed.

(** The binding stage writes through the pointers of the model only. *)
Lemma bind_vars_other (prs : EXT_ARGS_Parser) (ufs : list EXT_ARGS_UFloatArg)
  (vals : list string) (m : store) (a : addr) :
  (forall g, In g (groups prs) -> varPtr g <> Some a) ->
  (forall pb, In pb (posArgs prs) -> pa_varPtr pb <> Some a) ->
  (varPosArgsEnabled prs = false
   /\ List.length vals <= List.length (posArgs prs))
  \/ varPosrArgsVarPtr prs <> Some a ->
  bind_vars prs ufs vals m a = m a.
Proof.
  intros Ug Up W. unfold bind_vars.
  pose proof (fill_floats_frame ufs prs m) as (f1 & _ & f3 & f4).
  destruct (fill_floats_other a ufs prs m Ug) as [S1 U1].
  destruct (fill_floats ufs (prs, m)) as [p1 m1].
  cbn [fst snd] in f1, f3, f4, S1, U1.
  pose proof (fill_missing_other a (groups p1) m1 U1) as S2.
  destruct (fill_missing (groups p1) m1) as [grs m2]. cbn [snd] in S2.
  set (p2 := set_groups p1 grs).
  assert (g1 : posArgs p2 = posArgs prs) by exact f1.
  assert (g3 : varPosArgsEnabled p2 = varPosArgsEnabled prs) by exact f3.
  assert (g4 : varPosrArgsVarPtr p2 = varPosrArgsVarPtr prs) by exact f4.
  clearbody p2. rewrite <- g1 in Up, W. rewrite <- g3, <- g4 in W.
  set (m3 := null_missing p2 (List.length vals) m2).
  assert (FP : snd (fill_posArgs p2 0 vals None m3) a = m3 a).
  { apply fill_posArgs_other; [exact Up|].
    destruct W as [[_ W]|W]; [left; simpl; exact W | right; exact W]. }
  destruct (fill_posArgs p2 0 vals None m3) as [opts m4]. cbn [snd] in FP.
  assert (E : fill_empty_varPos p2 opts
                (null_missing p2 (List.length vals) m4) a
              = null_missing p2 (List.length vals) m4 a).
  { unfold fill_empty_varPos. destruct opts as [l|]; [reflexivity|].
    destruct (varPosArgsEnabled p2) eqn:V; [|reflexivity].
    apply write_if_other. destruct W as [[W _]|W]; [discriminate | exact W]. }
  rewrite E, (null_missing_other p2 _ m4 a Up), FP.
  unfold m3. rewrite (null_missing_other p2 _ m2 a Up), S2, S1. reflexivity.
Qed.

(** [ext_args] writes through the pointers it is given and nowhere else:
    an address that is not among the pointer arguments holds after the call
    what it held before, whatever the outcome. *)
Theorem ext_args_writes_through_pointers_only (argv : list string)
  (fmt : string) (ap : list ptr) (m m' : store) (res : result) (a : addr) :
  ext_args argv fmt ap m = Some (res, m') ->
  ~ In (Some a) ap ->
  m' a = m a.
Proof.
  unfold ext_args. intros H NI.
  destruct (compile_schema fmt) as [[prs|r]|] eqn:C; [| |discriminate].
  2:{ inversion H; subst. reflexivity. }
  destruct (check_input argv prs) as [[[prs1 ufs] vals]|r] eqn:I.
  2:{ inversion H; subst. reflexivity. }
  destruct (get_var_ptrs (sequence prs1) ap prs1) as [[ap' prs2]|] eqn:G;
    [|discriminate].
  destruct (get_varPos_ptr ap' prs2) as [prs3|] eqn:P; [|discriminate].
  inversion H; subst res m'. clear H.
  apply compile_schema_Ok in C. destruct C as [Sy _].
  destruct (EXT_ARGS_Synopsis_wf _ _ Sy) as (W1 & W2 & _).
  apply check_input_Ok in I. destruct I as (toks & _ & _ & V & _ & CP).
  pose proof (validate_floats_frame _ _ _ V) as (Pa & Sq & Vp & _).
  pose proof (validate_floats_Ok _ _ _ V) as (_ & Lg & _).
  assert (Sl : forall k j, var_ptr_of prs2 k j <> Some (Some a)).
  { intros k j VJ.
    assert (W : seq_idx_of k (sequence prs1) = seq 0 (kind_count prs1 k)).
    { rewrite Sq. destruct k; simpl; [rewrite Pa; exact W1|].
      rewrite Lg. exact W2. }
    destruct (pointer_has_slot _ _ _ _ _ _ _ _ W G VJ)
      as (n' & e & _ & _ & _ & a4).
    apply NI. eapply nth_error_In. exact a4. }
  pose proof (get_var_ptrs_spec (sequence prs1) ap prs1) as GS.
  rewrite G in GS. destruct GS as (_ & A & _ & _ & V2 & _).
  pose proof (get_var_ptrs_lengths _ _ _ _ _ G) as (E12 & _).
  assert (F3 : posArgs prs3 = posArgs prs2 /\ groups prs3 = groups prs2
               /\ varPosArgsEnabled prs3 = varPosArgsEnabled prs2
               /\ (varPosArgsEnabled prs2 = true ->
                   exists p, In p ap' /\ varPosrArgsVarPtr prs3 = p)).
  { unfold get_varPos_ptr in P. destruct (varPosArgsEnabled prs2) eqn:VE.
    - destruct ap' as [|p ap'']; [discriminate|]. inversion P; subst prs3.
      repeat split; auto. intros _. exists p.
      split; [left; reflexivity | reflexivity].
    - inversion P; subst prs3. repeat split; auto. discriminate. }
  destruct F3 as (e1 & e2 & e3 & e4).
  apply bind_vars_other.
  - intros g Ig Pg. rewrite e2 in Ig.
    apply In_nth_error in Ig. destruct Ig as (j & Nj).
    apply (Sl EXT_ARGS_ARG_GROUP j). simpl. rewrite Nj. simpl. rewrite Pg.
    reflexivity.
  - intros pb Ib Pb. rewrite e1 in Ib.
    apply In_nth_error in Ib. destruct Ib as (j & Nj).
    apply (Sl EXT_ARGS_ARG_POS j). simpl. rewrite Nj. simpl. rewrite Pb.
    reflexivity.
  - destruct (varPosArgsEnabled prs2) eqn:VE.
    + right. destruct (e4 eq_refl) as (p & Ip & Ep). rewrite Ep. intros X.
      rewrite X in Ip. apply NI. rewrite A in Ip.
      rewrite <- (firstn_skipn (List.length (sequence prs1)) ap).
      apply in_or_app. right. exact Ip.
    + left. split; [exact e3|].
      unfold check_posArgs in CP.
      destruct (Nat.ltb _ (manposArgsCount _)); [discriminate|].
      rewrite <- V2 in CP. simpl in CP.
      destruct (Nat.ltb_spec (List.length (posArgs prs1)) (List.length vals))
        as [X|X]; [discriminate|].
      rewrite e1. lia.
Qed.

Lemma ext_args_writes_through_pointers_only_witness :
  exists m' : store,
    ext_args ["prog"; "-v"; "one"; "two"] "-v first ..."
      [Some 10; Some 11; Some 12] store_init
    = Some (EXT_ARGS_NO_ERR, m')
    /\ m' 13 = store_init 13.
Proof.
  eexists. split; [vm_compute; reflexivity|].
  apply (ext_args_writes_through_pointers_only
           ["prog"; "-v"; "one"; "two"] "-v first ..."
           [Some 10; Some 11; Some 12] store_init _ EXT_ARGS_NO_ERR 13).
  - vm_compute. reflexivity.
  - intros [X|[X|[X|X]]]; try discriminate X. exact X.
Defined.
